(** * cJSON: the parser, the composer, the print buffer and the tree
      mutation primitives of [cJSON.c], embedded in Rocq.

    Conventions of the embedding.

    - A C string is the list of its bytes before the terminating NUL; a byte
      is an integer in [1, 255].  A [const char *] into the input is an
      index; reading index [length s] yields the terminator and reading any
      larger index is a read past the end of the input, which the model
      reports as [Fault].
    - Functions that return NULL on failure return [Err]; [Err (Some p)]
      records that [*ep = p] was stored before returning.
    - Loops over the input are driven by a fuel counter that the entry points
      set from the length of the input; [OutOfFuel] is shown unreachable.
    - The allocator hooks are assumed to succeed inside the parser and the
      unbuffered composer; the print buffer and the heap model make
      allocation and release explicit. *)

From Stdlib Require Import ZArith List Lia Bool.
From Stdlib Require Import SpecFloat.
From Stdlib Require Import QArith Qabs Qminmax Qpower Lqa.
From Stdlib Require String Ascii DecimalPos DecimalN DecimalFacts.
Import String.StringSyntax Ascii.AsciiSyntax.
Delimit Scope string_scope with string.
From stdpp Require Import gmap.
Import ListNotations.
Local Open Scope Z_scope.

(** ** Input text and the outcome of a parsing step *)

Definition text := list Z.

(** [cstr s]: every byte of [s] is a non-NUL unsigned char. *)
Definition cstr (s : text) : Prop := Forall (fun c => 0 < c < 256) s.

Definition rd (s : text) (i : nat) : option Z :=
  match nth_error s i with
  | Some c => Some c
  | None => if Nat.eqb i (length s) then Some 0 else None
  end.

Inductive outcome (A : Type) : Type :=
| Ok (a : A)
| Err (ep : option nat)
| Fault
| OutOfFuel.
Arguments Ok {A} a.
Arguments Err {A} ep.
Arguments Fault {A}.
Arguments OutOfFuel {A}.

Definition bind {A B} (m : outcome A) (k : A -> outcome B) : outcome B :=
  match m with
  | Ok a => k a
  | Err ep => Err ep
  | Fault => Fault
  | OutOfFuel => OutOfFuel
  end.

Notation "'let*' x ':=' m 'in' k" := (bind m (fun x => k))
  (at level 10, x pattern, m at level 200, k at level 200).

Definition peek (s : text) (i : nat) : outcome Z :=
  match rd s i with
  | Some c => Ok c
  | None => Fault
  end.

Definition failed {A} (r : outcome A) : bool :=
  match r with Err _ => true | _ => false end.

Definition in_bounds {A} (r : outcome A) : bool :=
  match r with Fault | OutOfFuel => false | _ => true end.

(** ** parse_hex4 *)

Definition hex_digit (c : Z) : option Z :=
  if (48 <=? c) && (c <=? 57) then Some (c - 48)
  else if (65 <=? c) && (c <=? 70) then Some (10 + c - 65)
  else if (97 <=? c) && (c <=? 102) then Some (10 + c - 97)
  else None.

Definition parse_hex4 (s : text) (str : nat) : outcome Z :=
  let* c0 := peek s str in
  match hex_digit c0 with
  | None => Ok 0
  | Some d0 =>
    let h := Z.shiftl (0 + d0) 4 in
    let* c1 := peek s (str + 1) in
    match hex_digit c1 with
    | None => Ok 0
    | Some d1 =>
      let h := Z.shiftl (h + d1) 4 in
      let* c2 := peek s (str + 2) in
      match hex_digit c2 with
      | None => Ok 0
      | Some d2 =>
        let h := Z.shiftl (h + d2) 4 in
        let* c3 := peek s (str + 3) in
        match hex_digit c3 with
        | None => Ok 0
        | Some d3 => Ok (h + d3)
        end
      end
    end
  end.

(** ** UTF-8 encoding of a code point, as the fall-through switch does it *)

Definition firstByteMark (len : nat) : Z :=
  match len with
  | 2%nat => 0xC0
  | 3%nat => 0xE0
  | 4%nat => 0xF0
  | 5%nat => 0xF8
  | 6%nat => 0xFC
  | _ => 0x00
  end.

(** Storing an [unsigned] into a [char] keeps the low eight bits. *)
Definition to_char (z : Z) : Z := z mod 256.

Definition continuation (uc : Z) : Z := to_char (Z.land (Z.lor uc 0x80) 0xBF).

Definition utf8_len (uc : Z) : nat :=
  if uc <? 0x80 then 1%nat
  else if uc <? 0x800 then 2%nat
  else if uc <? 0x10000 then 3%nat
  else 4%nat.

Definition utf8_encode (uc : Z) : list Z :=
  let len := utf8_len uc in
  match len with
  | 4%nat =>
    let b4 := continuation uc in let uc := Z.shiftr uc 6 in
    let b3 := continuation uc in let uc := Z.shiftr uc 6 in
    let b2 := continuation uc in let uc := Z.shiftr uc 6 in
    [to_char (Z.lor uc (firstByteMark len)); b2; b3; b4]
  | 3%nat =>
    let b3 := continuation uc in let uc := Z.shiftr uc 6 in
    let b2 := continuation uc in let uc := Z.shiftr uc 6 in
    [to_char (Z.lor uc (firstByteMark len)); b2; b3]
  | 2%nat =>
    let b2 := continuation uc in let uc := Z.shiftr uc 6 in
    [to_char (Z.lor uc (firstByteMark len)); b2]
  | _ => [to_char (Z.lor uc (firstByteMark len))]
  end.

(** ** parse_string *)

(** First loop: find the closing quote (or the terminator) and count the
    bytes to allocate.  Returns [(end_ptr, len)]. *)
Fixpoint scan_end (fuel : nat) (s : text) (end_ptr len : nat) : outcome (nat * nat) :=
  match fuel with
  | O => OutOfFuel
  | S fuel =>
    let* c := peek s end_ptr in
    if negb (c =? 34) && negb (c =? 0) then
      let len := S len in
      if c =? 92 then
        let* c' := peek s (S end_ptr) in
        if c' =? 0 then Err None
        else scan_end fuel s (S (S end_ptr)) len
      else scan_end fuel s (S end_ptr) len
    else Ok (end_ptr, len)
  end.

Definition is_low_surrogate (uc : Z) : bool := (0xDC00 <=? uc) && (uc <=? 0xDFFF).
Definition is_high_surrogate (uc : Z) : bool := (0xD800 <=? uc) && (uc <=? 0xDBFF).

(** Second loop: decode the literal between [str + 1] and [end_ptr] into
    [out].  Returns the final [ptr] and the decoded bytes. *)
Fixpoint unescape (fuel : nat) (s : text) (str end_ptr ptr : nat) (out : list Z)
  : outcome (nat * list Z) :=
  match fuel with
  | O => OutOfFuel
  | S fuel =>
    if (ptr <? end_ptr)%nat then
      let* c := peek s ptr in
      if negb (c =? 92) then unescape fuel s str end_ptr (S ptr) (out ++ [c])
      else
        let ptr := S ptr in
        let* e := peek s ptr in
        if e =? 98 then unescape fuel s str end_ptr (S ptr) (out ++ [8])
        else if e =? 102 then unescape fuel s str end_ptr (S ptr) (out ++ [12])
        else if e =? 110 then unescape fuel s str end_ptr (S ptr) (out ++ [10])
        else if e =? 114 then unescape fuel s str end_ptr (S ptr) (out ++ [13])
        else if e =? 116 then unescape fuel s str end_ptr (S ptr) (out ++ [9])
        else if (e =? 34) || (e =? 92) || (e =? 47) then
          unescape fuel s str end_ptr (S ptr) (out ++ [e])
        else if e =? 117 then
          let* uc := parse_hex4 s (ptr + 1) in
          let ptr := (ptr + 4)%nat in
          if (end_ptr <=? ptr)%nat then Err (Some str)
          else if is_low_surrogate uc || (uc =? 0) then Err (Some str)
          else if is_high_surrogate uc then
            if (end_ptr <? ptr + 6)%nat then Err (Some str)
            else
              let* c1 := peek s (ptr + 1) in
              if negb (c1 =? 92) then Err (Some str)
              else
                let* c2 := peek s (ptr + 2) in
                if negb (c2 =? 117) then Err (Some str)
                else
                  let* uc2 := parse_hex4 s (ptr + 3) in
                  let ptr := (ptr + 6)%nat in
                  if (uc2 <? 0xDC00) || (0xDFFF <? uc2) then Err (Some str)
                  else
                    let uc := 0x10000 + Z.lor (Z.shiftl (Z.land uc 0x3FF) 10) (Z.land uc2 0x3FF) in
                    unescape fuel s str end_ptr (S ptr) (out ++ utf8_encode uc)
          else unescape fuel s str end_ptr (S ptr) (out ++ utf8_encode uc)
        else Err (Some str)
    else Ok (ptr, out)
  end.

(** [parse_string s str] returns the decoded bytes and the position after the
    literal. *)
Definition parse_string (s : text) (str : nat) : outcome (text * nat) :=
  let* q := peek s str in
  if negb (q =? 34) then Err (Some str)
  else
    let* (end_ptr, _) := scan_end (S (length s)) s (S str) 0 in
    let* (ptr, out) := unescape (S (length s)) s str end_ptr (S str) [] in
    let* c := peek s ptr in
    if c =? 34 then Ok (out, S ptr) else Ok (out, ptr).

(** Bytes of a Rocq string, for writing inputs down. *)
Fixpoint bytes (s : String.string) : text :=
  match s with
  | String.EmptyString => []
  | String.String a r => Z.of_N (Ascii.N_of_ascii a) :: bytes r
  end.

Definition dq : Z := 34.
Definition bs : Z := 92.

(** ** Doubles

    A [double] is an IEEE 754 binary64 value ([prec = 53], [emax = 1024]) in
    the representation of the Standard Library's [SpecFloat]; arithmetic and
    comparisons are the library's correctly rounded ones. *)

Definition double := spec_float.

Definition d_zero : double := S754_zero false.
Definition d_eqb : double -> double -> bool := SFeqb.
Definition d_ltb : double -> double -> bool := SFltb.
Definition d_leb : double -> double -> bool := SFleb.
Definition d_sub : double -> double -> double := SFsub 53 1024.
Definition d_mul : double -> double -> double := SFmul 53 1024.
Definition fabs : double -> double := SFabs.

(** Conversion of an integer to the nearest double (exact when it fits). *)
Definition d_of_Z (z : Z) : double := binary_normalize 53 1024 z 0 false.

(** Modelled from the C standard: [floor] of <math.h>, which is not part of
    the repository.  The largest integral value not above the argument;
    zeros, infinities and NaN are returned unchanged. *)
Definition floor (d : double) : double :=
  match d with
  | S754_finite sg m e =>
    if 0 <=? e then d
    else
      match Z.shiftr (if sg then Z.neg m else Z.pos m) (- e) with
      | Z0 => S754_zero sg
      | z => d_of_Z z
      end
  | _ => d
  end.

(** The cast [(int)d] for a value inside the range of [int]: truncation
    toward zero. *)
Definition int_of_double (d : double) : Z :=
  match d with
  | S754_finite sg m e =>
    let a := if 0 <=? e then Z.shiftl (Z.pos m) e else Z.shiftr (Z.pos m) (- e) in
    if sg then - a else a
  | _ => 0
  end.

(** The correctly rounded double of [m * 10 ^ e10] ([m] a natural number),
    with the sign [sg]. *)
Definition d_of_decimal (sg : bool) (m : Z) (e10 : Z) : double :=
  match m with
  | Z.pos p =>
    if 0 <=? e10 then
      let n := Z.pos p * 10 ^ e10 in
      binary_normalize 53 1024 (if sg then - n else n) 0 false
    else
      let '(q, e', l) := SFdiv_core_binary 53 1024 (Z.pos p) 0 (10 ^ (- e10)) 0 in
      binary_round_aux 53 1024 sg q e' l
  | _ => S754_zero sg
  end.

Definition DBL_EPSILON : double := S754_finite false 4503599627370496 (-104).
Definition INT_MAX : Z := 2147483647.
Definition INT_MIN : Z := -2147483648.
Definition d_1e60 : double := Eval vm_compute in d_of_decimal false 1 60.
Definition d_1em6 : double := Eval vm_compute in d_of_decimal false 1 (-6).
Definition d_1e9 : double := Eval vm_compute in d_of_decimal false 1 9.

(** ** Decimal text of integers *)

Fixpoint uint_chars (u : Decimal.uint) : text :=
  match u with
  | Decimal.Nil => []
  | Decimal.D0 u => 48 :: uint_chars u
  | Decimal.D1 u => 49 :: uint_chars u
  | Decimal.D2 u => 50 :: uint_chars u
  | Decimal.D3 u => 51 :: uint_chars u
  | Decimal.D4 u => 52 :: uint_chars u
  | Decimal.D5 u => 53 :: uint_chars u
  | Decimal.D6 u => 54 :: uint_chars u
  | Decimal.D7 u => 55 :: uint_chars u
  | Decimal.D8 u => 56 :: uint_chars u
  | Decimal.D9 u => 57 :: uint_chars u
  end.

(** Decimal digits of a natural number, most significant first, no leading
    zeros ("0" for zero). *)
Definition dec_digits (n : Z) : text := uint_chars (N.to_uint (Z.to_N n)).

(** [dec_digits] padded with leading zeros to at least [w] characters. *)
Definition dec_pad (w : nat) (n : Z) : text :=
  let ds := dec_digits n in
  repeat 48 (w - length ds) ++ ds.

Definition hex_char (v : Z) : Z := if v <? 10 then 48 + v else 97 + (v - 10).

(** Modelled from the C standard: the conversions of [sprintf] that the
    composer uses; <stdio.h> is not part of the repository.  Values are
    converted exactly and rounded to nearest, ties to even, as the C library
    of the reference platform does. *)

(** ["%d"] *)
Definition sprintf_d (v : Z) : text :=
  if v <? 0 then 45 :: dec_digits (- v) else dec_digits v.

(** ["%04x"] of a value below 65536 *)
Definition sprintf_04x (v : Z) : text :=
  [hex_char (v / 4096 mod 16); hex_char (v / 256 mod 16); hex_char (v / 16 mod 16); hex_char (v mod 16)].

(** Nearest integer to [n / d], ties to even ([d > 0]). *)
Definition round_half_even (n d : Z) : Z :=
  let q := n / d in
  match (2 * (n mod d)) ?= d with
  | Lt => q
  | Gt => q + 1
  | Eq => if Z.even q then q else q + 1
  end.

(** The magnitude of a finite double as a fraction [(n, d)]. *)
Definition magnitude (d : double) : Z * Z :=
  match d with
  | S754_finite _ m e => if 0 <=? e then (Z.pos m * 2 ^ e, 1) else (Z.pos m, 2 ^ (- e))
  | _ => (0, 1)
  end.

Definition sign_of (d : double) : bool :=
  match d with
  | S754_zero sg | S754_infinity sg | S754_finite sg _ _ => sg
  | S754_nan => false
  end.

Definition sign_chars (d : double) : text := if sign_of d then [45] else [].

(** ["%.<p>f"] of a finite double *)
Definition sprintf_f (p : nat) (d : double) : text :=
  let '(n, dn) := magnitude d in
  let scale := 10 ^ Z.of_nat p in
  let r := round_half_even (n * scale) dn in
  sign_chars d ++ dec_digits (r / scale) ++
  match p with
  | O => []
  | _ => 46 :: dec_pad p (r mod scale)
  end.

(** Decimal exponent [x] of a positive fraction: [10^x <= n/d < 10^(x+1)]. *)
Definition decimal_exponent (n d : Z) : Z :=
  let a := Z.of_nat (length (dec_digits n)) in
  let b := Z.of_nat (length (dec_digits d)) in
  let x := a - b in
  if 0 <=? x then (if d * 10 ^ x <=? n then x else x - 1)
  else (if d <=? n * 10 ^ (- x) then x else x - 1).

(** ["%e"] of a finite double: one digit, six decimals, an exponent of at
    least two digits. *)
Definition sprintf_e (d : double) : text :=
  let '(n, dn) := magnitude d in
  if n =? 0 then sign_chars d ++ [48; 46; 48; 48; 48; 48; 48; 48; 101; 43; 48; 48]
  else
    let x := decimal_exponent n dn in
    let r := if 0 <=? x - 6 then round_half_even n (dn * 10 ^ (x - 6))
             else round_half_even (n * 10 ^ (6 - x)) dn in
    let '(r, x) := if 10000000 <=? r then (1000000, x + 1) else (r, x) in
    sign_chars d ++ dec_digits (r / 1000000) ++ 46 :: dec_pad 6 (r mod 1000000) ++
    101 :: (if x <? 0 then 45 else 43) :: dec_pad 2 (Z.abs x).

(** ** print_number *)

Inductive number_format :=
| FmtZero
| FmtInt (value : Z)
| FmtNull
| FmtFixed0
| FmtExp
| FmtFixed6.

Definition near_floor (d : double) : bool :=
  d_leb (fabs (d_sub (floor d) d)) DBL_EPSILON.

(** The branch of [print_number] that renders [d]. *)
Definition number_format_of (d : double) : number_format :=
  if d_eqb d (d_of_Z 0) then FmtZero
  else if near_floor d && d_leb d (d_of_Z INT_MAX) && d_leb (d_of_Z INT_MIN) d
  then FmtInt (int_of_double d)
  else if negb (d_eqb (d_mul d (d_of_Z 0)) (d_of_Z 0)) then FmtNull
  else if near_floor d && d_ltb (fabs d) d_1e60 then FmtFixed0
  else if d_ltb (fabs d) d_1em6 || d_ltb d_1e9 (fabs d) then FmtExp
  else FmtFixed6.

Definition print_number (d : double) : text :=
  match number_format_of d with
  | FmtZero => [48]
  | FmtInt value => sprintf_d value
  | FmtNull => [110; 117; 108; 108]
  | FmtFixed0 => sprintf_f 0 d
  | FmtExp => sprintf_e d
  | FmtFixed6 => sprintf_f 6 d
  end.

(** Rocq string of a text, for reading outputs. *)
Fixpoint show (t : text) : String.string :=
  match t with
  | [] => String.EmptyString
  | c :: r => String.String (Ascii.ascii_of_N (Z.to_N c)) (show r)
  end.

(** ** strtod

    Modelled from the C standard (7.22.1.3): [strtod] of <stdlib.h>, which is
    not part of the repository.  The subject sequence is an optional sign
    followed by a decimal floating constant, a hexadecimal one, [inf],
    [infinity], [nan] or [nan(n-char-sequence)] (in any case; the sequence,
    of digits, letters and underscores, may be empty); the result is the
    correctly rounded value and the position after the subject sequence, or
    the start position when nothing was converted. *)

Definition is_digit (c : Z) : bool := (48 <=? c) && (c <=? 57).

Definition lower (c : Z) : Z := if (65 <=? c) && (c <=? 90) then c + 32 else c.

(** Accumulate decimal digits from [i]: value, count, end position. *)
Fixpoint scan_digits (fuel : nat) (s : text) (i : nat) (acc : Z) (n : nat)
  : outcome (Z * nat * nat) :=
  match fuel with
  | O => OutOfFuel
  | S fuel =>
    let* c := peek s i in
    if is_digit c then scan_digits fuel s (S i) (acc * 10 + (c - 48)) (S n)
    else Ok (acc, n, i)
  end.

Fixpoint scan_hex (fuel : nat) (s : text) (i : nat) (acc : Z) (n : nat)
  : outcome (Z * nat * nat) :=
  match fuel with
  | O => OutOfFuel
  | S fuel =>
    let* c := peek s i in
    match hex_digit c with
    | Some v => scan_hex fuel s (S i) (acc * 16 + v) (S n)
    | None => Ok (acc, n, i)
    end
  end.

(** Case-insensitive match of [pat] (lower case) at [i], reading no further
    than the first mismatch. *)
Fixpoint match_ci (s : text) (i : nat) (pat : list Z) : outcome bool :=
  match pat with
  | [] => Ok true
  | p :: pat =>
    let* c := peek s i in
    if lower c =? p then match_ci s (S i) pat else Ok false
  end.

(** Optional exponent part introduced by the letter [mark]: the signed
    exponent and the end position; [(0, i)] when there is none. *)
Definition scan_exponent (s : text) (i : nat) (mark : Z) : outcome (Z * nat) :=
  let* c := peek s i in
  if lower c =? mark then
    let* sg := peek s (S i) in
    let j := if (sg =? 45) || (sg =? 43) then S (S i) else S i in
    let* (x, nx, j') := scan_digits (S (length s)) s j 0 0 in
    match nx with
    | O => Ok (0, i)
    | _ => Ok (if sg =? 45 then - x else x, j')
    end
  else Ok (0, i).

Definition strtod_decimal (s : text) (neg : bool) (start i : nat) : outcome (double * nat) :=
  let* (m1, n1, i1) := scan_digits (S (length s)) s i 0 0 in
  let* dot := peek s i1 in
  let* (m, n2, i2) :=
    if dot =? 46 then scan_digits (S (length s)) s (S i1) m1 0
    else Ok (m1, 0%nat, i1) in
  match (n1 + n2)%nat with
  | O => Ok (d_zero, start)
  | _ =>
    let* (x, j) := scan_exponent s i2 101 in
    Ok (d_of_decimal neg m (x - Z.of_nat n2), j)
  end.

Definition strtod_hex (s : text) (neg : bool) (i : nat) : outcome (option (double * nat)) :=
  let* (m1, n1, i1) := scan_hex (S (length s)) s i 0 0 in
  let* dot := peek s i1 in
  let* (m, n2, i2) :=
    if dot =? 46 then scan_hex (S (length s)) s (S i1) m1 0
    else Ok (m1, 0%nat, i1) in
  match (n1 + n2)%nat with
  | O => Ok None
  | _ =>
    let* (x, j) := scan_exponent s i2 112 in
    Ok (Some (binary_normalize 53 1024 (if neg then - m else m) (x - 4 * Z.of_nat n2) neg, j))
  end.

(** A character of an n-char-sequence: a digit, a letter or the underscore. *)
Definition is_nchar (c : Z) : bool :=
  is_digit c || ((97 <=? lower c) && (lower c <=? 122)) || (c =? 95).

(** The position after the n-chars that start at [i]. *)
Fixpoint scan_nchars (fuel : nat) (s : text) (i : nat) : outcome nat :=
  match fuel with
  | O => OutOfFuel
  | S fuel =>
    let* c := peek s i in
    if is_nchar c then scan_nchars fuel s (S i) else Ok i
  end.

(** The end of the subject sequence whose [nan] ends at [i]: after the
    closing parenthesis of a well-formed [(n-char-sequence)], else [i]. *)
Definition nan_end (s : text) (i : nat) : outcome nat :=
  let* c := peek s i in
  if c =? 40 then
    let* j := scan_nchars (S (length s)) s (S i) in
    let* c' := peek s j in
    Ok (if c' =? 41 then S j else i)
  else Ok i.

Definition strtod (s : text) (num : nat) : outcome (double * nat) :=
  let* c := peek s num in
  let neg := c =? 45 in
  let i := if (c =? 45) || (c =? 43) then S num else num in
  let* inf := match_ci s i [105; 110; 102] in
  if inf then
    let* inity := match_ci s (i + 3) [105; 110; 105; 116; 121] in
    Ok (S754_infinity neg, if inity then (i + 8)%nat else (i + 3)%nat)
  else
    let* nan := match_ci s i [110; 97; 110] in
    if nan then
      let* e := nan_end s (i + 3) in
      Ok (S754_nan, e)
    else
      let* hex := match_ci s i [48; 120] in
      if hex then
        let* h := strtod_hex s neg (i + 2) in
        match h with
        | Some r => Ok r
        | None => Ok (S754_zero neg, S i)
        end
      else strtod_decimal s neg num i.

(** ** The tree *)

(** [cJSON_Invalid] is the zeroed type of a fresh item, which no case of the
    composer's switch matches. *)
Inductive cJSON_type :=
| cJSON_Invalid
| cJSON_False
| cJSON_True
| cJSON_NULL
| cJSON_Number
| cJSON_String
| cJSON_Array
| cJSON_Object.

#[global] Instance cJSON_type_eq_dec : EqDecision cJSON_type.
Proof. solve_decision. Defined.

(** A node with the chain of its children; [next] is the tail of the list a
    node sits in. *)
#[warnings="-register-all"]
Inductive cJSON : Type :=
| Item (type : cJSON_type) (boolean : bool) (number : double)
       (string : option text) (name : option text) (child : list cJSON).

Definition type_of (c : cJSON) : cJSON_type := let 'Item t _ _ _ _ _ := c in t.
Definition boolean_of (c : cJSON) : bool := let 'Item _ b _ _ _ _ := c in b.
Definition number_of (c : cJSON) : double := let 'Item _ _ n _ _ _ := c in n.
Definition string_of (c : cJSON) : option text := let 'Item _ _ _ s _ _ := c in s.
Definition name_of (c : cJSON) : option text := let 'Item _ _ _ _ n _ := c in n.
Definition child_of (c : cJSON) : list cJSON := let 'Item _ _ _ _ _ ch := c in ch.

(** [cJSON_New_Item]: a zeroed node. *)
Definition cJSON_New_Item : cJSON := Item cJSON_Invalid false d_zero None None [].

Definition set_type (t : cJSON_type) (c : cJSON) : cJSON :=
  let 'Item _ b n s k ch := c in Item t b n s k ch.
Definition set_boolean (b : bool) (c : cJSON) : cJSON :=
  let 'Item t _ n s k ch := c in Item t b n s k ch.
Definition set_number (n : double) (c : cJSON) : cJSON :=
  let 'Item t b _ s k ch := c in Item t b n s k ch.
Definition set_string (s : option text) (c : cJSON) : cJSON :=
  let 'Item t b n _ k ch := c in Item t b n s k ch.
Definition set_name (k : option text) (c : cJSON) : cJSON :=
  let 'Item t b n s _ ch := c in Item t b n s k ch.
Definition set_child (ch : list cJSON) (c : cJSON) : cJSON :=
  let 'Item t b n s k _ := c in Item t b n s k ch.

(** ** parse_number *)

Definition parse_number (item : cJSON) (s : text) (num : nat) : outcome (cJSON * nat) :=
  let* (number, endpointer) := strtod s num in
  if (num =? endpointer)%nat then Err None
  else Ok (set_type cJSON_Number (set_number number item), endpointer).

(** ** skip *)

Fixpoint skip_loop (fuel : nat) (s : text) (i : nat) : outcome nat :=
  match fuel with
  | O => OutOfFuel
  | S fuel =>
    let* c := peek s i in
    if negb (c =? 0) && (c <=? 32) then skip_loop fuel s (S i) else Ok i
  end.

Definition skip (s : text) (i : nat) : outcome nat := skip_loop (S (length s)) s i.

(** [strncmp(value, lit, strlen(lit)) == 0], reading no further than the
    first difference. *)
Fixpoint starts_with (s : text) (i : nat) (lit : list Z) : outcome bool :=
  match lit with
  | [] => Ok true
  | p :: lit =>
    let* c := peek s i in
    if c =? p then starts_with s (S i) lit else Ok false
  end.

(** ** parse_array, parse_object, parse_value

    The two container parsers take the value parser of the next nesting
    level as an argument; [parse_value] ties the knot on the fuel. *)

Section Containers.
Variable parse_value : cJSON -> text -> nat -> outcome (cJSON * nat).

(** The loop over the comma separated elements; [done] are the children
    linked so far, in chain order. *)
Fixpoint parse_array_loop (fuel : nat) (s : text) (value : nat) (done : list cJSON)
  : outcome (list cJSON * nat) :=
  match fuel with
  | O => OutOfFuel
  | S fuel =>
    let* c := peek s value in
    if c =? 44 then
      let new_item := cJSON_New_Item in
      let* v := skip s (S value) in
      let* (child, v) := parse_value new_item s v in
      let* value := skip s v in
      parse_array_loop fuel s value (done ++ [child])
    else if c =? 93 then Ok (done, S value)
    else Err (Some value)
  end.

Definition parse_array (item : cJSON) (s : text) (value : nat) : outcome (cJSON * nat) :=
  let* c := peek s value in
  if negb (c =? 91) then Err (Some value)
  else
    let item := set_type cJSON_Array item in
    let* value := skip s (S value) in
    let* c := peek s value in
    if c =? 93 then Ok (item, S value)
    else
      let child := cJSON_New_Item in
      let* v := skip s value in
      let* (child, v) := parse_value child s v in
      let* value := skip s v in
      let* (children, value) := parse_array_loop (S (length s)) s value [child] in
      Ok (set_child children item, value).

(** One member: the key by [parse_string], moved to [name], then the colon
    and the value. *)
Definition parse_member (child : cJSON) (s : text) (value : nat) : outcome (cJSON * nat) :=
  let* v := skip s value in
  let* (key, v) := parse_string s v in
  let* value := skip s v in
  let child := set_name (Some key) (set_string None (set_type cJSON_String child)) in
  let* c := peek s value in
  if negb (c =? 58) then Err (Some value)
  else
    let* v := skip s (S value) in
    let* (child, v) := parse_value child s v in
    let* value := skip s v in
    Ok (child, value).

Fixpoint parse_object_loop (fuel : nat) (s : text) (value : nat) (done : list cJSON)
  : outcome (list cJSON * nat) :=
  match fuel with
  | O => OutOfFuel
  | S fuel =>
    let* c := peek s value in
    if c =? 44 then
      let new_item := cJSON_New_Item in
      let* (child, value) := parse_member new_item s (S value) in
      parse_object_loop fuel s value (done ++ [child])
    else if c =? 125 then Ok (done, S value)
    else Err (Some value)
  end.

Definition parse_object (item : cJSON) (s : text) (value : nat) : outcome (cJSON * nat) :=
  let* c := peek s value in
  if negb (c =? 123) then Err (Some value)
  else
    let item := set_type cJSON_Object item in
    let* value := skip s (S value) in
    let* c := peek s value in
    if c =? 125 then Ok (item, S value)
    else
      let child := cJSON_New_Item in
      let* (child, value) := parse_member child s value in
      let* (children, value) := parse_object_loop (S (length s)) s value [child] in
      Ok (set_child children item, value).

End Containers.

Definition lit_null : text := [110; 117; 108; 108].
Definition lit_false : text := [102; 97; 108; 115; 101].
Definition lit_true : text := [116; 114; 117; 101].

Fixpoint parse_value (fuel : nat) (item : cJSON) (s : text) (value : nat)
  : outcome (cJSON * nat) :=
  match fuel with
  | O => OutOfFuel
  | S fuel =>
    let* is_null := starts_with s value lit_null in
    if is_null then Ok (set_type cJSON_NULL item, (value + 4)%nat)
    else
      let* is_false := starts_with s value lit_false in
      if is_false then Ok (set_boolean false (set_type cJSON_False item), (value + 5)%nat)
      else
        let* is_true := starts_with s value lit_true in
        if is_true then Ok (set_boolean true (set_type cJSON_True item), (value + 4)%nat)
        else
          let* c := peek s value in
          if c =? 34 then
            let* (out, e) := parse_string s value in
            Ok (set_type cJSON_String (set_string (Some out) item), e)
          else if (c =? 45) || ((48 <=? c) && (c <=? 57)) then parse_number item s value
          else if c =? 91 then parse_array (parse_value fuel) item s value
          else if c =? 123 then parse_object (parse_value fuel) item s value
          else Err (Some value)
  end.

(** ** cJSON_ParseWithOpts, cJSON_Parse, cJSON_GetErrorPtr *)

(** The two places a parse can report to: the global error pointer and the
    caller's [return_parse_end] slot. *)
Record slots := { global_ep : option nat; return_parse_end : option nat }.

Definition cJSON_GetErrorPtr (st : slots) : option nat := global_ep st.

(** Store [v] through [ep], which points at the caller's slot when one was
    given and at [global_ep] otherwise. *)
Definition store_ep (given : bool) (v : option nat) (st : slots) : slots :=
  if given then {| global_ep := global_ep st; return_parse_end := v |}
  else {| global_ep := v; return_parse_end := return_parse_end st |}.

(** [given] tells whether [return_parse_end] is non-NULL.  The result is
    [None] when the run would read outside the input. *)
Definition cJSON_ParseWithOpts (st : slots) (s : text) (given : bool)
  (require_null_terminated : bool) : option (option cJSON * slots) :=
  let c := cJSON_New_Item in
  let st := store_ep given None st in
  match (let* v := skip s 0 in parse_value (S (length s)) c s v) with
  | Ok (c, e) =>
    let finish (e : nat) :=
      Some (Some c, if given then store_ep true (Some e) st else st) in
    if require_null_terminated then
      match skip s e with
      | Ok e =>
        match rd s e with
        | Some ch => if negb (ch =? 0) then Some (None, store_ep given (Some e) st) else finish e
        | None => None
        end
      | _ => None
      end
    else finish e
  | Err None => Some (None, st)
  | Err (Some p) => Some (None, store_ep given (Some p) st)
  | Fault | OutOfFuel => None
  end.

Definition cJSON_Parse (st : slots) (s : text) : option (option cJSON * slots) :=
  cJSON_ParseWithOpts st s false false.

(** ** print_string_ptr *)

(** A byte read through a plain (signed) [char]. *)
Definition schar (c : Z) : Z := if c <? 128 then c else c - 256.

Definition escape_flag (c : Z) : bool :=
  ((0 <? schar c) && (schar c <? 32)) || (c =? 34) || (c =? 92).

Fixpoint escape_copy (str : text) : text :=
  match str with
  | [] => []
  | c :: str =>
    if (31 <? c) && negb (c =? 34) && negb (c =? 92) then c :: escape_copy str
    else
      92 ::
      (if c =? 92 then [92]
       else if c =? 34 then [34]
       else if c =? 8 then [98]
       else if c =? 12 then [102]
       else if c =? 10 then [110]
       else if c =? 13 then [114]
       else if c =? 9 then [116]
       else 117 :: sprintf_04x c) ++ escape_copy str
  end.

Definition print_string_ptr (str : option text) : text :=
  match str with
  | None => [34; 34]
  | Some str =>
    if negb (existsb escape_flag str) then 34 :: str ++ [34]
    else 34 :: escape_copy str ++ [34]
  end.

(** ** print_value, print_array, print_object (unbuffered) *)

(** The composing loop of [print_array] over the rendered entries. *)
Fixpoint compose_array (fmt : bool) (numentries i : nat) (entries : list text) : text :=
  match entries with
  | [] => []
  | e :: entries =>
    e ++ (if negb (i =? numentries - 1)%nat then 44 :: (if fmt then [32] else []) else [])
      ++ compose_array fmt numentries (S i) entries
  end.

(** The composing loop of [print_object] over the rendered names and
    entries; [depth] is already incremented. *)
Fixpoint compose_object (fmt : bool) (depth numentries i : nat) (names entries : list text) : text :=
  match names, entries with
  | n :: names, e :: entries =>
    (if fmt then repeat 9 depth else []) ++ n ++ 58 :: (if fmt then [9] else []) ++ e
      ++ (if negb (i =? numentries - 1)%nat then [44] else [])
      ++ (if fmt then [10] else [])
      ++ compose_object fmt depth numentries (S i) names entries
  | _, _ => []
  end.

(** Collect the renderings of the children, stopping at the first failure. *)
Fixpoint collect {A} (l : list (option A)) : option (list A) :=
  match l with
  | [] => Some []
  | None :: _ => None
  | Some a :: l => match collect l with Some r => Some (a :: r) | None => None end
  end.

Definition print_array_of (entries : list (option text)) (fmt : bool) : option text :=
  let numentries := length entries in
  match numentries with
  | O => Some [91; 93]
  | _ =>
    match collect entries with
    | None => None
    | Some entries => Some (91 :: compose_array fmt numentries 0 entries ++ [93])
    end
  end.

Definition print_object_of (names : list text) (entries : list (option text))
  (depth : nat) (fmt : bool) : option text :=
  let numentries := length entries in
  match numentries with
  | O => Some (123 :: (if fmt then 10 :: repeat 9 depth else []) ++ [125])
  | _ =>
    let depth := S depth in
    match collect entries with
    | None => None
    | Some entries =>
      Some (123 :: (if fmt then [10] else [])
              ++ compose_object fmt depth numentries 0 names entries
              ++ (if fmt then repeat 9 (depth - 1) else []) ++ [125])
    end
  end.

Fixpoint print_value (item : cJSON) (depth : nat) (fmt : bool) : option text :=
  match item with
  | Item type _ number string _ child =>
    match type with
    | cJSON_Invalid => None
    | cJSON_NULL => Some lit_null
    | cJSON_False => Some lit_false
    | cJSON_True => Some lit_true
    | cJSON_Number => Some (print_number number)
    | cJSON_String => Some (print_string_ptr string)
    | cJSON_Array =>
      print_array_of (map (fun c => print_value c (S depth) fmt) child) fmt
    | cJSON_Object =>
      print_object_of (map (fun c => print_string_ptr (name_of c)) child)
        (map (fun c => print_value c (S depth) fmt) child) depth fmt
    end
  end.

Definition cJSON_Print (item : cJSON) : option text := print_value item 0 true.
Definition cJSON_PrintUnformatted (item : cJSON) : option text := print_value item 0 false.

(** * The growable print buffer *)

Module PrintBuffer.

(** [size_t] of the reference platform: 64 bits, arithmetic modulo [2^64]. *)
Definition SIZE_MAX : Z := 2 ^ 64 - 1.
Definition size_t (z : Z) : Z := z mod 2 ^ 64.

Definition addr := positive.

(** The allocator behind the hooks: blocks of bytes, the addresses passed to
    [free_fn] so far, and the bytes the host is still willing to hand out
    ([malloc_fn] fails beyond that).  A fresh block is filled with [fill],
    which stands for the unspecified contents of new memory. *)
Record allocator := {
  blocks : gmap addr (list Z);
  released : list addr;
  next_block : addr;
  avail : Z;
  fill : Z
}.

Definition malloc_fn (a : allocator) (size : Z) : option addr * allocator :=
  if size <=? avail a then
    (Some (next_block a),
     {| blocks := <[next_block a := repeat (fill a) (Z.to_nat size)]> (blocks a);
        released := released a;
        next_block := Pos.succ (next_block a);
        avail := avail a - size;
        fill := fill a |})
  else (None, a).

Definition free_fn (a : allocator) (p : addr) : allocator :=
  {| blocks := delete p (blocks a);
     released := released a ++ [p];
     next_block := next_block a;
     avail := avail a;
     fill := fill a |}.

(** [memcpy(dst, src, n)] between two blocks, from their starts. *)
Definition memcpy (a : allocator) (dst src : addr) (n : Z) : option allocator :=
  match blocks a !! dst, blocks a !! src with
  | Some d, Some s =>
    if (Z.to_nat n <=? List.length d)%nat && (Z.to_nat n <=? List.length s)%nat then
      Some {| blocks := <[dst := take (Z.to_nat n) s ++ drop (Z.to_nat n) d]> (blocks a);
              released := released a;
              next_block := next_block a;
              avail := avail a;
              fill := fill a |}
    else None
  | _, _ => None
  end.

Record printbuffer := {
  buffer : option addr;
  length : Z;
  offset : Z
}.

(** The C macro [max(a, b)], [((a > b) ? a : b)]. *)
Definition max (a b : Z) : Z := if b <? a then a else b.

(** [ensure(p, needed, hooks)].  The result is the returned pointer (a block
    and an offset into it, [None] for NULL), the print buffer and the
    allocator afterwards; the outer [None] marks a [memcpy] outside a live
    block. *)
Definition ensure (a : allocator) (p : printbuffer) (needed : Z)
  : option (option (addr * Z) * printbuffer * allocator) :=
  match buffer p with
  | None => Some (None, p, a)
  | Some old =>
    let needed := size_t (needed + offset p) in
    if needed <=? length p then Some (Some (old, offset p), p, a)
    else
      let newsize := size_t (max (length p) needed * 2) in
      if newsize <=? needed then Some (None, p, a)
      else
        match malloc_fn a newsize with
        | (None, a) =>
          Some (None, {| buffer := None; length := 0; offset := offset p |}, free_fn a old)
        | (Some newbuffer, a) =>
          match memcpy a newbuffer old (length p) with
          | None => None
          | Some a =>
            Some (Some (newbuffer, offset p),
                  {| buffer := Some newbuffer; length := newsize; offset := offset p |},
                  free_fn a old)
          end
        end
  end.

(** The bytes a returned pointer can be used for: those of its block from
    the offset on. *)
Definition region (a : allocator) (ptr : addr * Z) : option Z :=
  match blocks a !! fst ptr with
  | Some b => Some (Z.of_nat (List.length b) - snd ptr)
  | None => None
  end.

(** The first [n] bytes stored in the buffer's block. *)
Definition written (a : allocator) (b : addr) (n : Z) : option (list Z) :=
  match blocks a !! b with
  | Some bytes => Some (take (Z.to_nat n) bytes)
  | None => None
  end.

(** A print buffer in use: its block is live and [length] bytes long, and
    the offset lies inside it. *)
Definition wf (a : allocator) (p : printbuffer) : Prop :=
  exists b bytes, buffer p = Some b /\ blocks a !! b = Some bytes
    /\ Z.of_nat (List.length bytes) = length p
    /\ 0 <= offset p <= length p /\ length p <= SIZE_MAX
    /\ blocks a !! next_block a = None.

End PrintBuffer.
(** * The composer writing into a print buffer *)

Module Buffered.
Import PrintBuffer.

(** A [char *] into a block: the block and the offset in it. *)
Definition pointer : Type := addr * Z.

Record state := { p : printbuffer; hooks : allocator }.

(** A step of the composer on the print buffer and the allocator; [None]
    marks an access outside a live block. *)
Definition M (A : Type) : Type := state -> option (A * state).

#[global] Instance M_ret : MRet M := fun A a st => Some (a, st).
#[global] Instance M_bind : MBind M := fun A B k m st =>
  match m st with
  | Some (a, st) => k a st
  | None => None
  end.

Definition ensure (needed : Z) : M (option pointer) := fun st =>
  match PrintBuffer.ensure (hooks st) (p st) needed with
  | Some (r, p', a') => Some (r, {| p := p'; hooks := a' |})
  | None => None
  end.

Definition set_blocks (a : allocator) (b : gmap addr (list Z)) : allocator :=
  {| blocks := b; released := released a; next_block := next_block a;
     avail := avail a; fill := fill a |}.

(** Store the bytes [bs] from [ptr] on. *)
Definition write (ptr : pointer) (bs : list Z) : M unit := fun st =>
  match blocks (hooks st) !! fst ptr with
  | Some d =>
    let o := Z.to_nat (snd ptr) in
    if (0 <=? snd ptr) && (o + List.length bs <=? List.length d)%nat then
      Some (tt, {| p := p st;
                   hooks := set_blocks (hooks st)
                     (<[fst ptr := take o d ++ bs ++ drop (o + List.length bs) d]>
                        (blocks (hooks st))) |})
    else None
  | None => None
  end.

(** [strcpy(out, src)]: the bytes of [src] and the terminator. *)
Definition strcpy (out : pointer) (src : text) : M unit := write out (src ++ [0]).

(** Position of the first NUL of [d]. *)
Fixpoint first_nul (d : list Z) : option nat :=
  match d with
  | [] => None
  | c :: d => if c =? 0 then Some O else option_map S (first_nul d)
  end.

Definition strlen (a : allocator) (ptr : pointer) : option Z :=
  match blocks a !! fst ptr with
  | Some d =>
    if (0 <=? snd ptr) && (snd ptr <=? Z.of_nat (List.length d))
    then option_map Z.of_nat (first_nul (drop (Z.to_nat (snd ptr)) d))
    else None
  | None => None
  end.

(** [update(p)]: the offset of the terminator of what was printed last. *)
Definition update : M Z := fun st =>
  match buffer (p st) with
  | None => Some (0, st)
  | Some b =>
    match strlen (hooks st) (b, offset (p st)) with
    | Some n => Some (size_t (offset (p st) + n), st)
    | None => None
    end
  end.

Definition get_offset : M Z := fun st => Some (offset (p st), st).

Definition set_offset (o : Z) : M unit := fun st =>
  Some (tt, {| p := {| buffer := buffer (p st); length := length (p st); offset := o |};
               hooks := hooks st |}).

Definition get_buffer : M (option addr) := fun st => Some (buffer (p st), st).

(** [if (out) strcpy(out, src); return out;] *)
Definition strcpy_to (out : option pointer) (src : text) : M (option pointer) :=
  match out with
  | Some q => strcpy q src;; mret (Some q)
  | None => mret None
  end.

(** ** print_number *)

Definition print_number (d : double) : M (option pointer) :=
  match number_format_of d with
  | FmtZero => str ← ensure 2; strcpy_to str [48]
  | FmtInt value => str ← ensure 21; strcpy_to str (sprintf_d value)
  | FmtNull => str ← ensure 64; strcpy_to str lit_null
  | FmtFixed0 => str ← ensure 64; strcpy_to str (sprintf_f 0 d)
  | FmtExp => str ← ensure 64; strcpy_to str (sprintf_e d)
  | FmtFixed6 => str ← ensure 64; strcpy_to str (sprintf_f 6 d)
  end.

(** ** print_string_ptr *)

(** The sizing loop: one per byte, one more for a two-character escape,
    five more for a [\uXXXX] escape; it stops when the incremented length
    is zero. *)
Fixpoint escape_len (str : text) (len : Z) : Z :=
  match str with
  | [] => len
  | token :: str =>
    let len := size_t (len + 1) in
    if len =? 0 then len
    else
      let len :=
        if existsb (Z.eqb token) [34; 92; 8; 12; 10; 13; 9] then size_t (len + 1)
        else if token <? 32 then size_t (len + 5)
        else len in
      escape_len str len
  end.

Definition print_string_ptr (str : option text) : M (option pointer) :=
  match str with
  | None => out ← ensure 3; strcpy_to out [34; 34]
  | Some str =>
    if negb (existsb escape_flag str) then
      let len := Z.of_nat (List.length str) in
      out ← ensure (size_t (len + 3));
      match out with
      | None => mret None
      | Some q => write q (34 :: str ++ [34; 0]);; mret (Some q)
      end
    else
      let len := escape_len str 0 in
      out ← ensure (size_t (len + 3));
      match out with
      | None => mret None
      | Some q => write q (34 :: escape_copy str ++ [34; 0]);; mret (Some q)
      end
  end.

(** ** print_array, print_object, print_value *)

Definition advance (ptr : pointer) (n : nat) : pointer := (fst ptr, snd ptr + Z.of_nat n).

(** [p->offset += len] *)
Definition add_offset (len : Z) : M unit :=
  o ← get_offset; set_offset (size_t (o + len)).

Section Loops.
Variable print_value : cJSON -> M (option pointer).
Variable fmt : bool.

(** The loop of [print_array] over the children; the result tells whether
    it ran to the end (no [return NULL] inside). *)
Fixpoint array_loop (child : list cJSON) : M bool :=
  match child with
  | [] => mret true
  | c :: next =>
    print_value c;;
    o ← update; set_offset o;;
    match next with
    | [] => array_loop next
    | _ =>
      let len := if fmt then 2 else 1 in
      ptr ← ensure (len + 1);
      match ptr with
      | None => mret false
      | Some q =>
        write q (44 :: (if fmt then [32] else []) ++ [0]);;
        add_offset len;;
        array_loop next
      end
    end
  end.

(** The loop of [print_object]; [depth] is already incremented. *)
Fixpoint object_loop (depth : Z) (child : list cJSON) : M bool :=
  match child with
  | [] => mret true
  | c :: next =>
    tabs ← (if fmt then
              ptr ← ensure depth;
              match ptr with
              | None => mret false
              | Some q => write q (repeat 9 (Z.to_nat depth));; add_offset depth;; mret true
              end
            else mret true);
    if negb tabs then mret false
    else
      Buffered.print_string_ptr (name_of c);;
      o ← update; set_offset o;;
      let len := if fmt then 2 else 1 in
      ptr ← ensure len;
      match ptr with
      | None => mret false
      | Some q =>
        write q (58 :: (if fmt then [9] else []));;
        add_offset len;;
        print_value c;;
        o ← update; set_offset o;;
        let len := (if fmt then 1 else 0) + (match next with [] => 0 | _ => 1 end) in
        ptr ← ensure (len + 1);
        match ptr with
        | None => mret false
        | Some q =>
          write q ((match next with [] => [] | _ => [44] end)
                     ++ (if fmt then [10] else []) ++ [0]);;
          add_offset len;;
          object_loop depth next
        end
      end
  end.

End Loops.

Fixpoint print_value (item : cJSON) (depth : Z) (fmt : bool) : M (option pointer) :=
  match item with
  | Item type _ number string _ child =>
    match type with
    | cJSON_Invalid => mret None
    | cJSON_NULL => out ← ensure 5; strcpy_to out lit_null
    | cJSON_False => out ← ensure 6; strcpy_to out lit_false
    | cJSON_True => out ← ensure 5; strcpy_to out lit_true
    | cJSON_Number => print_number number
    | cJSON_String => print_string_ptr string
    | cJSON_Array =>
      match child with
      | [] => out ← ensure 3; strcpy_to out [91; 93]
      | _ =>
        i ← get_offset;
        ptr ← ensure 1;
        match ptr with
        | None => mret None
        | Some q =>
          write q [91];;
          add_offset 1;;
          finished ← array_loop (fun c => print_value c (size_t (depth + 1)) fmt) fmt child;
          if negb finished then mret None
          else
            ptr ← ensure 2;
            match ptr with
            | None => mret None
            | Some q =>
              write q [93; 0];;
              b ← get_buffer;
              mret (option_map (fun b => (b, i)) b)
            end
        end
      end
    | cJSON_Object =>
      match child with
      | [] =>
        out ← ensure (if fmt then size_t (depth + 4) else 3);
        match out with
        | None => mret None
        | Some q =>
          write q (123 :: (if fmt then 10 :: repeat 9 (Z.to_nat depth) else []) ++ [125; 0]);;
          mret (Some q)
        end
      | _ =>
        i ← get_offset;
        let len := if fmt then 2 else 1 in
        ptr ← ensure (len + 1);
        match ptr with
        | None => mret None
        | Some q =>
          write q (123 :: (if fmt then [10] else []) ++ [0]);;
          add_offset len;;
          let depth := size_t (depth + 1) in
          finished ← object_loop (fun c => print_value c depth fmt) fmt depth child;
          if negb finished then mret None
          else
            ptr ← ensure (if fmt then size_t (depth + 1) else 2);
            match ptr with
            | None => mret None
            | Some q =>
              (* the closing loop reuses [i] as its counter *)
              let i := if fmt then size_t (depth - 1) else i in
              write q ((if fmt then repeat 9 (Z.to_nat (size_t (depth - 1))) else [])
                         ++ [125; 0]);;
              b ← get_buffer;
              mret (option_map (fun b => (b, i)) b)
            end
        end
      end
    end
  end.

(** ** cJSON_PrintBuffered *)

Definition cJSON_PrintBuffered (a : allocator) (item : cJSON) (prebuffer : Z) (fmt : bool)
  : option (option pointer * state) :=
  match malloc_fn a prebuffer with
  | (None, a) => Some (None, {| p := {| buffer := None; length := 0; offset := 0 |}; hooks := a |})
  | (Some b, a) =>
    print_value item 0 fmt
      {| p := {| buffer := Some b; length := prebuffer; offset := 0 |}; hooks := a |}
  end.

(** The C string a pointer designates. *)
Definition string_at (a : allocator) (ptr : pointer) : option text :=
  match blocks a !! fst ptr, strlen a ptr with
  | Some d, Some n => Some (take (Z.to_nat n) (drop (Z.to_nat (snd ptr)) d))
  | _, _ => None
  end.

End Buffered.

(** * cJSON_Minify *)

Module Minify.

(** The text is rewritten in place: the buffer is the list of its cells, the
    terminator included; [json] and [into] are indices into it.  Reading or
    writing a cell outside the buffer is a [Fault]. *)
Definition load (buf : list Z) (i : nat) : outcome Z :=
  match nth_error buf i with
  | Some c => Ok c
  | None => Fault
  end.

Definition store (buf : list Z) (i : nat) (c : Z) : outcome (list Z) :=
  if (i <? length buf)%nat then Ok (<[i := c]> buf) else Fault.

(** The loop over a line comment: up to the line feed or the terminator. *)
Fixpoint skip_line_comment (fuel : nat) (buf : list Z) (json : nat) : outcome nat :=
  match fuel with
  | O => OutOfFuel
  | S fuel =>
    let* c := load buf json in
    if negb (c =? 0) && negb (c =? 10) then skip_line_comment fuel buf (S json)
    else Ok json
  end.

(** The loop over a block comment: up to a star followed by a slash, or
    the terminator. *)
Fixpoint skip_block_comment (fuel : nat) (buf : list Z) (json : nat) : outcome nat :=
  match fuel with
  | O => OutOfFuel
  | S fuel =>
    let* c := load buf json in
    if c =? 0 then Ok json
    else
      let* closing :=
        if c =? 42 then let* c1 := load buf (S json) in Ok (c1 =? 47) else Ok false in
      if closing then Ok json else skip_block_comment fuel buf (S json)
  end.

(** The loop over the body of a string literal. *)
Fixpoint copy_string (fuel : nat) (buf : list Z) (json into : nat)
  : outcome (list Z * nat * nat) :=
  match fuel with
  | O => OutOfFuel
  | S fuel =>
    let* c := load buf json in
    if negb (c =? 0) && negb (c =? 34) then
      let* (buf, json, into) :=
        if c =? 92 then let* buf := store buf into c in Ok (buf, S json, S into)
        else Ok (buf, json, into) in
      let* c := load buf json in
      let* buf := store buf into c in
      copy_string fuel buf (S json) (S into)
    else Ok (buf, json, into)
  end.

(** The test for a slash followed by [c]; the second cell is read only
    after a slash. *)
Definition slash_then (buf : list Z) (json : nat) (c : Z) : outcome bool :=
  let* c0 := load buf json in
  if c0 =? 47 then let* c1 := load buf (S json) in Ok (c1 =? c) else Ok false.

Fixpoint minify_loop (fuel : nat) (buf : list Z) (json into : nat) : outcome (list Z) :=
  match fuel with
  | O => OutOfFuel
  | S fuel =>
    let* c := load buf json in
    if c =? 0 then store buf into 0
    else if c =? 32 then minify_loop fuel buf (S json) into
    else if c =? 9 then minify_loop fuel buf (S json) into
    else if c =? 13 then minify_loop fuel buf (S json) into
    else if c =? 10 then minify_loop fuel buf (S json) into
    else
      let* line := slash_then buf json 47 in
      if line then
        let* json := skip_line_comment (length buf) buf json in
        minify_loop fuel buf json into
      else
        let* block := slash_then buf json 42 in
        if block then
          let* json := skip_block_comment (length buf) buf json in
          minify_loop fuel buf (json + 2) into
        else if c =? 34 then
          let* buf := store buf into c in
          let* (buf, json, into) := copy_string (length buf) buf (S json) (S into) in
          let* c := load buf json in
          let* buf := store buf into c in
          minify_loop fuel buf (S json) (S into)
        else
          let* buf := store buf into c in
          minify_loop fuel buf (S json) (S into)
  end.

(** The C string in a buffer: the bytes before its first NUL. *)
Fixpoint c_string (buf : list Z) : text :=
  match buf with
  | [] => []
  | c :: buf => if c =? 0 then [] else c :: c_string buf
  end.

(** [cJSON_Minify] on the text [s]: the text left in the buffer. *)
Definition cJSON_Minify (s : text) : outcome text :=
  let* buf := minify_loop (S (length s)) (s ++ [0]) 0 0 in
  Ok (c_string buf).

End Minify.

(** * Nodes in memory: the mutation primitives and teardown *)

Module Heap.

Definition addr := positive.

(** The [cJSON] struct.  [valuestring] is [value.string]; [name] and
    [valuestring] are pointers to character buffers. *)
Record cJSON := {
  next : option addr;
  child : option addr;
  type : cJSON_type;
  valuestring : option addr;
  name : option addr;
  string_is_const : bool;
  is_reference : bool
}.

(** Memory: the nodes, the character buffers, the addresses handed to
    [free_fn] so far (in call order) and the next address of the allocator.
    Allocation is assumed to succeed. *)
Record memory := {
  nodes : gmap addr cJSON;
  strings : gmap addr text;
  released : list addr;
  brk : addr
}.

Definition set_nodes (f : gmap addr cJSON -> gmap addr cJSON) (m : memory) : memory :=
  {| nodes := f (nodes m); strings := strings m; released := released m; brk := brk m |}.

Definition set_next (v : option addr) (c : cJSON) : cJSON :=
  {| next := v; child := child c; type := type c; valuestring := valuestring c;
     name := name c; string_is_const := string_is_const c; is_reference := is_reference c |}.

Definition set_child (v : option addr) (c : cJSON) : cJSON :=
  {| next := next c; child := v; type := type c; valuestring := valuestring c;
     name := name c; string_is_const := string_is_const c; is_reference := is_reference c |}.

Definition set_name (v : option addr) (c : cJSON) : cJSON :=
  {| next := next c; child := child c; type := type c; valuestring := valuestring c;
     name := v; string_is_const := string_is_const c; is_reference := is_reference c |}.

Definition set_string_is_const (v : bool) (c : cJSON) : cJSON :=
  {| next := next c; child := child c; type := type c; valuestring := valuestring c;
     name := name c; string_is_const := v; is_reference := is_reference c |}.

(** [hooks->free_fn(p)] *)
Definition free_fn (p : addr) (m : memory) : memory :=
  {| nodes := delete p (nodes m); strings := delete p (strings m);
     released := released m ++ [p]; brk := brk m |}.

(** [cJSON_strdup]: a fresh buffer holding a copy of the text. *)
Definition cJSON_strdup (str : text) (m : memory) : addr * memory :=
  (brk m,
   {| nodes := nodes m; strings := <[brk m := str]> (strings m);
      released := released m; brk := Pos.succ (brk m) |}).

(** [cJSON_New_Item] followed by setting the type. *)
Definition new_item (t : cJSON_type) (m : memory) : addr * memory :=
  (brk m,
   {| nodes := <[brk m := {| next := None; child := None; type := t; valuestring := None;
                             name := None; string_is_const := false; is_reference := false |}]>
                 (nodes m);
      strings := strings m; released := released m; brk := Pos.succ (brk m) |}).

(** The walk [while (c->next) c = c->next;] *)
Fixpoint last_sibling (fuel : nat) (h : gmap addr cJSON) (c : addr) : option addr :=
  match fuel with
  | O => None
  | S fuel =>
    match h !! c with
    | None => None
    | Some n =>
      match next n with
      | None => Some c
      | Some c' => last_sibling fuel h c'
      end
    end
  end.

(** [cJSON_AddItemToArray].  [None] marks an access outside memory or an
    exhausted fuel. *)
Definition cJSON_AddItemToArray (fuel : nat) (m : memory) (array : addr) (item : option addr)
  : option memory :=
  match nodes m !! array with
  | None => None
  | Some arr =>
    match item with
    | None => Some m
    | Some item =>
      match child arr with
      | None => Some (set_nodes <[array := set_child (Some item) arr]> m)
      | Some c =>
        match last_sibling fuel (nodes m) c with
        | None => None
        | Some c =>
          match nodes m !! c with
          | None => None
          | Some n => Some (set_nodes <[c := set_next (Some item) n]> m)
          end
        end
      end
    end
  end.

(** [cJSON_AddItemToObject] *)
Definition cJSON_AddItemToObject (fuel : nat) (m : memory) (object : addr) (key : text)
  (item : option addr) : option memory :=
  match item with
  | None => Some m
  | Some i =>
    match nodes m !! i with
    | None => None
    | Some n =>
      let m := match name n with Some k => free_fn k m | None => m end in
      let (k, m) := cJSON_strdup key m in
      let m := set_nodes <[i := set_name (Some k) n]> m in
      cJSON_AddItemToArray fuel m object item
    end
  end.

(** [cJSON_AddItemToObjectCS]; [key] is the host's pointer. *)
Definition cJSON_AddItemToObjectCS (fuel : nat) (m : memory) (object : addr) (key : addr)
  (item : option addr) : option memory :=
  match item with
  | None => Some m
  | Some i =>
    match nodes m !! i with
    | None => None
    | Some n =>
      let m := match name n with
               | Some k => if negb (string_is_const n) then free_fn k m else m
               | None => m
               end in
      let m := set_nodes <[i := set_string_is_const true (set_name (Some key) n)]> m in
      cJSON_AddItemToArray fuel m object item
    end
  end.

(** The loop [while (c && (which > 0))] shared by detach, insert and
    replace: the node reached and its predecessor. *)
Fixpoint seek (fuel : nat) (h : gmap addr cJSON) (c previous : option addr) (which : nat)
  : option (option addr * option addr) :=
  match fuel with
  | O => None
  | S fuel =>
    match c, which with
    | Some a, S which =>
      match h !! a with
      | None => None
      | Some n => seek fuel h (next n) c which
      end
    | _, _ => Some (c, previous)
    end
  end.

(** [cJSON_DetachItemFromArray]: the node returned and the memory
    afterwards. *)
Definition cJSON_DetachItemFromArray (fuel : nat) (m : memory) (array : addr) (which : nat)
  : option (option addr * memory) :=
  match nodes m !! array with
  | None => None
  | Some arr =>
    match seek fuel (nodes m) (child arr) None which with
    | None => None
    | Some (None, _) => Some (None, m)
    | Some (Some c, previous) =>
      match nodes m !! c with
      | None => None
      | Some n =>
        let relinked :=
          if decide (Some c = child arr) then
            Some (set_nodes <[array := set_child (next n) arr]> m)
          else
            match previous with
            | None => None
            | Some p =>
              match nodes m !! p with
              | None => None
              | Some pn => Some (set_nodes <[p := set_next (next n) pn]> m)
              end
            end in
        match relinked with
        | None => None
        | Some m =>
          match nodes m !! c with
          | None => None
          | Some n => Some (Some c, set_nodes <[c := set_next None n]> m)
          end
        end
      end
    end
  end.

(** [internal_cJSON_Delete] *)
Fixpoint internal_cJSON_Delete (fuel : nat) (m : memory) (c : option addr) : option memory :=
  match fuel with
  | O => None
  | S fuel =>
    match c with
    | None => Some m
    | Some a =>
      match nodes m !! a with
      | None => None
      | Some n =>
        let after_children :=
          match child n with
          | Some ch => if negb (is_reference n) then internal_cJSON_Delete fuel m (Some ch) else Some m
          | None => Some m
          end in
        match after_children with
        | None => None
        | Some m =>
          let m := match valuestring n with
                   | Some v =>
                     if negb (is_reference n) && bool_decide (type n = cJSON_String)
                     then free_fn v m else m
                   | None => m
                   end in
          let m := match name n with
                   | Some k => if negb (string_is_const n) then free_fn k m else m
                   | None => m
                   end in
          internal_cJSON_Delete fuel (free_fn a m) (next n)
        end
      end
    end
  end.

(** [chain h p l]: following [next] from [p] visits exactly the nodes [l]
    and ends at NULL. *)
Fixpoint chain (h : gmap addr cJSON) (p : option addr) (l : list addr) : Prop :=
  match l with
  | [] => p = None
  | a :: l => p = Some a /\ exists n, h !! a = Some n /\ chain h (next n) l
  end.

End Heap.

(** * Nodes in memory: accessors, insertion, replacement, references *)

Module HeapOps.
Import Heap.

(** The loop of [cJSON_GetArraySize]. *)
Fixpoint count_siblings (fuel : nat) (h : gmap addr cJSON) (c : option addr) (i : nat)
  : option nat :=
  match fuel with
  | O => None
  | S fuel =>
    match c with
    | None => Some i
    | Some a =>
      match h !! a with
      | None => None
      | Some n => count_siblings fuel h (next n) (S i)
      end
    end
  end.

(** [cJSON_GetArraySize]; [None] marks an access outside memory or an
    exhausted fuel, here and below. *)
Definition cJSON_GetArraySize (fuel : nat) (m : memory) (array : addr) : option nat :=
  match nodes m !! array with
  | None => None
  | Some arr => count_siblings fuel (nodes m) (child arr) 0
  end.

(** [cJSON_GetArrayItem]: the loop is the one of [seek], without the
    predecessor. *)
Definition cJSON_GetArrayItem (fuel : nat) (m : memory) (array : option addr) (item : nat)
  : option (option addr) :=
  match array with
  | None => Some None
  | Some a =>
    match nodes m !! a with
    | None => None
    | Some arr => fst <$> seek fuel (nodes m) (child arr) None item
    end
  end.

(** Modelled from the C standard (7.24.4.2): [strcmp] of <string.h>, which
    is not part of the repository, as far as the code uses it: the result is
    zero exactly when the two strings are equal. *)
Definition strcmp (a b : text) : Z := if bool_decide (a = b) then 0 else 1.

(** The loop [while (c && strcmp(c->name, name))] with the counter of
    [cJSON_DetachItemFromObject]; comparing a NULL key is an access outside
    memory. *)
Fixpoint find_name (fuel : nat) (m : memory) (c : option addr) (key : text) (i : nat)
  : option (option addr * nat) :=
  match fuel with
  | O => None
  | S fuel =>
    match c with
    | None => Some (None, i)
    | Some a =>
      match nodes m !! a with
      | None => None
      | Some n =>
        match name n with
        | None => None
        | Some k =>
          match strings m !! k with
          | None => None
          | Some s =>
            if negb (strcmp s key =? 0) then find_name fuel m (next n) key (S i)
            else Some (Some a, i)
          end
        end
      end
    end
  end.

Definition cJSON_GetObjectItem (fuel : nat) (m : memory) (object : option addr) (key : text)
  : option (option addr) :=
  match object with
  | None => Some None
  | Some o =>
    match nodes m !! o with
    | None => None
    | Some obj => fst <$> find_name fuel m (child obj) key 0
    end
  end.

Definition cJSON_HasObjectItem (fuel : nat) (m : memory) (object : option addr) (key : text)
  : option bool :=
  (fun c => if c is Some _ then true else false) <$> cJSON_GetObjectItem fuel m object key.

(** [create_reference]: a copy of the node with no key, no successor and
    the reference mark. *)
Definition create_reference (m : memory) (item : addr) : option (addr * memory) :=
  match nodes m !! item with
  | None => None
  | Some n =>
    Some (brk m,
          {| nodes := <[brk m := {| next := None; child := child n; type := type n;
                                    valuestring := valuestring n; name := None;
                                    string_is_const := string_is_const n;
                                    is_reference := true |}]> (nodes m);
             strings := strings m; released := released m; brk := Pos.succ (brk m) |})
  end.

Definition cJSON_AddItemReferenceToArray (fuel : nat) (m : memory) (array item : addr)
  : option memory :=
  '(ref, m) ← create_reference m item;
  cJSON_AddItemToArray fuel m array (Some ref).

Definition cJSON_AddItemReferenceToObject (fuel : nat) (m : memory) (object : addr)
  (key : text) (item : addr) : option memory :=
  '(ref, m) ← create_reference m item;
  cJSON_AddItemToObject fuel m object key (Some ref).

Definition internal_cJSON_DeleteItemFromArray (fuel : nat) (m : memory) (array : addr)
  (which : nat) : option memory :=
  '(c, m) ← cJSON_DetachItemFromArray fuel m array which;
  internal_cJSON_Delete fuel m c.

Definition cJSON_DetachItemFromObject (fuel : nat) (m : memory) (object : addr) (key : text)
  : option (option addr * memory) :=
  obj ← nodes m !! object;
  '(c, i) ← find_name fuel m (child obj) key 0;
  match c with
  | Some _ => cJSON_DetachItemFromArray fuel m object i
  | None => Some (None, m)
  end.

Definition internal_cJSON_DeleteItemFromObject (fuel : nat) (m : memory) (object : addr)
  (key : text) : option memory :=
  '(c, m) ← cJSON_DetachItemFromObject fuel m object key;
  internal_cJSON_Delete fuel m c.

(** [cJSON_InsertItemInArray] *)
Definition cJSON_InsertItemInArray (fuel : nat) (m : memory) (array : addr) (which : nat)
  (newitem : option addr) : option memory :=
  arr ← nodes m !! array;
  '(c, previous) ← seek fuel (nodes m) (child arr) None which;
  match c with
  | None => cJSON_AddItemToArray fuel m array newitem
  | Some c =>
    new ← newitem;
    n ← nodes m !! new;
    let m := set_nodes <[new := set_next (Some c) n]> m in
    if decide (Some c = child arr) then
      arr ← nodes m !! array;
      Some (set_nodes <[array := set_child (Some new) arr]> m)
    else
      p ← previous;
      pn ← nodes m !! p;
      Some (set_nodes <[p := set_next (Some new) pn]> m)
  end.

(** [internal_cJSON_ReplaceItemInArray] *)
Definition internal_cJSON_ReplaceItemInArray (fuel : nat) (m : memory) (array : addr)
  (which : nat) (newitem : option addr) : option memory :=
  arr ← nodes m !! array;
  '(c, previous) ← seek fuel (nodes m) (child arr) None which;
  match c with
  | None => Some m
  | Some c =>
    new ← newitem;
    n ← nodes m !! new;
    cn ← nodes m !! c;
    let m := set_nodes <[new := set_next (next cn) n]> m in
    m ← (if decide (Some c = child arr) then
           arr ← nodes m !! array;
           Some (set_nodes <[array := set_child (Some new) arr]> m)
         else
           p ← previous;
           pn ← nodes m !! p;
           Some (set_nodes <[p := set_next (Some new) pn]> m));
    cn ← nodes m !! c;
    internal_cJSON_Delete fuel (set_nodes <[c := set_next None cn]> m) (Some c)
  end.

(** [internal_cJSON_ReplaceItemInObject] *)
Definition internal_cJSON_ReplaceItemInObject (fuel : nat) (m : memory) (object : addr)
  (key : text) (newitem : option addr) : option memory :=
  obj ← nodes m !! object;
  '(c, i) ← find_name fuel m (child obj) key 0;
  match c with
  | None => Some m
  | Some _ =>
    new ← newitem;
    n ← nodes m !! new;
    let m := match name n with
             | Some k => if negb (string_is_const n) then free_fn k m else m
             | None => m
             end in
    let (k, m) := cJSON_strdup key m in
    let m := set_nodes <[new := set_name (Some k) n]> m in
    internal_cJSON_ReplaceItemInArray fuel m object i newitem
  end.

(** ** Constructors *)

Definition internal_cJSON_CreateNull (m : memory) : addr * memory := new_item cJSON_NULL m.
Definition internal_cJSON_CreateTrue (m : memory) : addr * memory := new_item cJSON_True m.
Definition internal_cJSON_CreateFalse (m : memory) : addr * memory := new_item cJSON_False m.
Definition internal_cJSON_CreateArray (m : memory) : addr * memory := new_item cJSON_Array m.
Definition internal_cJSON_CreateObject (m : memory) : addr * memory := new_item cJSON_Object m.

Definition set_valuestring (v : option addr) (c : cJSON) : cJSON :=
  {| next := next c; child := child c; type := type c; valuestring := v;
     name := name c; string_is_const := string_is_const c; is_reference := is_reference c |}.

Definition internal_cJSON_CreateString (string : text) (m : memory) : option (addr * memory) :=
  let (item, m) := new_item cJSON_String m in
  let (s, m) := cJSON_strdup string m in
  n ← nodes m !! item;
  Some (item, set_nodes <[item := set_valuestring (Some s) n]> m).

(** The loop of [internal_cJSON_CreateStringArray] from index [i] on; [p]
    is the node linked last. *)
Fixpoint string_array_loop (strings : list text) (i : nat) (a : addr) (p : option addr)
  (m : memory) : option memory :=
  match strings with
  | [] => Some m
  | s :: strings =>
    '(n, m) ← internal_cJSON_CreateString s m;
    m ← (match i with
         | O => arr ← nodes m !! a; Some (set_nodes <[a := set_child (Some n) arr]> m)
         | S _ => prev ← p; pn ← nodes m !! prev;
                  Some (set_nodes <[prev := set_next (Some n) pn]> m)
         end);
    string_array_loop strings (S i) a (Some n) m
  end.

Definition internal_cJSON_CreateStringArray (strings : list text) (m : memory)
  : option (addr * memory) :=
  let (a, m) := internal_cJSON_CreateArray m in
  m ← string_array_loop strings 0 a None m;
  Some (a, m).

End HeapOps.

(** * Values, and the trees the parser builds for them *)

(** The value a tree stands for: kinds, string payloads, keys and the order
    of the children. *)
#[warnings="-register-all"]
Inductive json : Type :=
| JNull
| JFalse
| JTrue
| JNumber (d : double)
| JString (s : text)
| JArray (items : list json)
| JObject (members : list (text * json)).

(** The node the parser builds for a value: every field it does not set
    keeps the zero of [cJSON_New_Item]; [k] is the key the node carries as a
    member of an object. *)
Fixpoint node_of (k : option text) (j : json) : cJSON :=
  match j with
  | JNull => Item cJSON_NULL false d_zero None k []
  | JFalse => Item cJSON_False false d_zero None k []
  | JTrue => Item cJSON_True true d_zero None k []
  | JNumber d => Item cJSON_Number false d None k []
  | JString s => Item cJSON_String false d_zero (Some s) k []
  | JArray items => Item cJSON_Array false d_zero None k (map (node_of None) items)
  | JObject members =>
    Item cJSON_Object false d_zero None k
      (map (fun m => node_of (Some (fst m)) (snd m)) members)
  end.

(** The compact text of a value. *)
Fixpoint sep_by (sep : text) (l : list text) : text :=
  match l with
  | [] => []
  | [x] => x
  | x :: l => x ++ sep ++ sep_by sep l
  end.

Fixpoint compact (j : json) : text :=
  match j with
  | JNull => lit_null
  | JFalse => lit_false
  | JTrue => lit_true
  | JNumber d => print_number d
  | JString s => print_string_ptr (Some s)
  | JArray items => 91 :: sep_by [44] (map compact items) ++ [93]
  | JObject members =>
    123 :: sep_by [44] (map (fun m => print_string_ptr (Some (fst m)) ++ 58 :: compact (snd m)) members)
      ++ [125]
  end.

(** The double read back from the rendering of [d]. *)
Definition reread (d : double) : double :=
  match strtod (print_number d) 0 with
  | Ok (d', _) => d'
  | _ => d
  end.

(** The value with every number replaced by the one read back from its
    rendering; kinds, strings, keys and order are untouched. *)
Fixpoint requantize (j : json) : json :=
  match j with
  | JNumber d => JNumber (reread d)
  | JArray items => JArray (map requantize items)
  | JObject members => JObject (map (fun m => (fst m, requantize (snd m))) members)
  | _ => j
  end.

Definition is_finite (d : double) : bool :=
  match d with
  | S754_zero _ | S754_finite _ _ _ => true
  | _ => false
  end.

(** Strings and keys are C strings. *)
Fixpoint strings_ok (j : json) : Prop :=
  match j with
  | JString s => cstr s
  | JArray items => fold_right (fun i P => strings_ok i /\ P) True items
  | JObject members => fold_right (fun m P => (cstr (fst m) /\ strings_ok (snd m)) /\ P) True members
  | _ => True
  end.

(** Every number is finite. *)
Fixpoint numbers_finite (j : json) : Prop :=
  match j with
  | JNumber d => is_finite d = true
  | JArray items => fold_right (fun i P => numbers_finite i /\ P) True items
  | JObject members => fold_right (fun m P => numbers_finite (snd m) /\ P) True members
  | _ => True
  end.

(** Nesting depth. *)
Fixpoint depth_of (j : json) : nat :=
  match j with
  | JArray items => S (fold_right (fun i n => Nat.max (depth_of i) n) O items)
  | JObject members => S (fold_right (fun m n => Nat.max (depth_of (snd m)) n) O members)
  | _ => O
  end.

(** ** Trees compared *)

(** No number of the tree is NaN or an infinity. *)
Fixpoint finite_numbers (c : cJSON) : bool :=
  match c with
  | Item type _ number _ _ child =>
    (if decide (type = cJSON_Number) then is_finite number else true)
    && forallb finite_numbers child
  end.

(** [deep_equal c c']: the same kinds, booleans, strings, keys and child
    order; a number of [c'] is the one read back from the rendering of the
    number of [c]. *)
#[warnings="-register-all"]
Inductive deep_equal : cJSON -> cJSON -> Prop :=
| deep_equal_item type boolean number number' string name child child' :
    number' = (if decide (type = cJSON_Number) then reread number else number) ->
    Forall2 deep_equal child child' ->
    deep_equal (Item type boolean number string name child)
               (Item type boolean number' string name child').

(** ** Numbers compared *)

(** A double of the binary64 format: a finite one has its canonical
    mantissa and exponent. *)
Definition valid_double (d : double) : bool := valid_binary 53 1024 d.

(** Every number is a double of the format. *)
Fixpoint numbers_valid (j : json) : Prop :=
  match j with
  | JNumber d => valid_double d = true
  | JArray items => fold_right (fun i P => numbers_valid i /\ P) True items
  | JObject members => fold_right (fun m P => numbers_valid (snd m) /\ P) True members
  | _ => True
  end.

(** The rational number a finite double stands for. *)
Definition value (d : double) : Q :=
  match d with
  | S754_finite sg m e => (if sg then -1 else 1) * (inject_Z (Z.pos m) * 2 ^ e)
  | _ => 0
  end%Q.


(** A double without fractional part. *)
Definition integral (d : double) : bool :=
  match d with
  | S754_finite _ m e => (0 <=? e) || (Z.pos m mod 2 ^ (- e) =? 0)
  | _ => true
  end.

(** The numbers on which the integer branch of [print_number] cuts a
    fraction off a negative value: the branch is chosen by a test on
    [floor], and the cast [(int)] rounds toward zero. *)
Definition truncated (d : double) : bool :=
  sign_of d && negb (integral d)
  && (near_floor d && d_leb d (d_of_Z INT_MAX) && d_leb (d_of_Z INT_MIN) d).




Definition cstrb (s : text) : bool := forallb (fun c => (0 <? c) && (c <? 256)) s.

Definition no_error : slots := {| global_ep := None; return_parse_end := None |}.

(** * Properties of the string parser *)

(** ** Reading the input *)

Lemma rd_lt (s : text) (i : nat) :
  (i < length s)%nat -> exists c, rd s i = Some c /\ nth_error s i = Some c.
Proof.
  intros H. unfold rd. destruct (nth_error s i) as [c|] eqn:E.
  - eauto.
  - apply nth_error_None in E. lia.
Qed.

Lemma rd_end (s : text) : rd s (length s) = Some 0.
Proof.
  unfold rd. destruct (nth_error s (length s)) eqn:E.
  - assert (nth_error s (length s) <> None) as H by congruence.
    apply nth_error_Some in H. lia.
  - now rewrite Nat.eqb_refl.
Qed.

Lemma rd_nonzero_lt (s : text) (i : nat) (c : Z) :
  rd s i = Some c -> c <> 0 -> (i < length s)%nat.
Proof.
  unfold rd. destruct (nth_error s i) eqn:E.
  - intros _ _. apply nth_error_Some. congruence.
  - destruct (Nat.eqb i (length s)); congruence.
Qed.

Lemma peek_le (s : text) (i : nat) :
  (i <= length s)%nat -> exists c, peek s i = Ok c /\ (c <> 0 -> (i < length s)%nat).
Proof.
  intros H. unfold peek. destruct (Nat.eq_dec i (length s)) as [->|Hne].
  - rewrite rd_end. exists 0. split; [reflexivity | congruence].
  - destruct (rd_lt s i) as (c & -> & _); [lia|]. exists c. split; [reflexivity | lia].
Qed.

Lemma peek_app (p l : text) (c : Z) : peek (p ++ c :: l) (length p) = Ok c.
Proof.
  unfold peek, rd. rewrite nth_error_app2 by lia.
  now rewrite Nat.sub_diag.
Qed.

Lemma peek_app_end (p : text) : peek p (length p) = Ok 0.
Proof. unfold peek. now rewrite rd_end. Qed.

(** [at_pos s i l]: the input [s] continues with [l] from position [i]. *)
Definition at_pos (s : text) (i : nat) (l : text) : Prop :=
  exists p, s = p ++ l /\ length p = i.

Lemma at_pos_peek s i c l : at_pos s i (c :: l) -> peek s i = Ok c.
Proof. intros (p & -> & <-). apply peek_app. Qed.

Lemma at_pos_peek_nil s i : at_pos s i [] -> peek s i = Ok 0.
Proof. intros (p & -> & <-). rewrite app_nil_r. apply peek_app_end. Qed.

Lemma at_pos_next s i c l : at_pos s i (c :: l) -> at_pos s (S i) l.
Proof.
  intros (p & -> & <-). exists (p ++ [c]). split.
  - now rewrite <- app_assoc.
  - rewrite length_app. simpl. lia.
Qed.

Lemma at_pos_app s i l1 l2 : at_pos s i (l1 ++ l2) -> at_pos s (i + length l1) l2.
Proof.
  intros (p & -> & <-). exists (p ++ l1). split.
  - now rewrite <- app_assoc.
  - now rewrite length_app.
Qed.

Lemma at_pos_length s i l : at_pos s i l -> length s = (i + length l)%nat.
Proof. intros (p & -> & <-). now rewrite length_app. Qed.

Lemma at_pos_start s : at_pos s 0 s.
Proof. now exists []. Qed.

(** ** Unfolding equations *)

Lemma scan_end_eq fuel s end_ptr len :
  scan_end (S fuel) s end_ptr len =
  let* c := peek s end_ptr in
  if negb (c =? 34) && negb (c =? 0) then
    if c =? 92 then
      let* c' := peek s (S end_ptr) in
      if c' =? 0 then Err None else scan_end fuel s (S (S end_ptr)) (S len)
    else scan_end fuel s (S end_ptr) (S len)
  else Ok (end_ptr, len).
Proof. reflexivity. Qed.

(** ** The sizing loop stays inside the input *)

Lemma scan_end_safe fuel : forall s end_ptr len,
  (end_ptr <= length s)%nat -> (length s - end_ptr < fuel)%nat ->
  scan_end fuel s end_ptr len = Err None \/
  exists e l, scan_end fuel s end_ptr len = Ok (e, l) /\
    (end_ptr <= e <= length s)%nat /\ (peek s e = Ok 34 \/ peek s e = Ok 0).
Proof.
  induction fuel as [|fuel IH]; intros s end_ptr len Hle Hfuel; [lia|].
  rewrite scan_end_eq.
  destruct (peek_le s end_ptr Hle) as (c & Hc & Hnz). rewrite Hc. cbn [bind].
  destruct (c =? 34) eqn:E34; cbn [negb andb].
  { right. exists end_ptr, len. apply Z.eqb_eq in E34. subst c. repeat split; auto; lia. }
  destruct (c =? 0) eqn:E0; cbn [negb].
  { right. exists end_ptr, len. apply Z.eqb_eq in E0. subst c. repeat split; auto; lia. }
  apply Z.eqb_neq in E0. specialize (Hnz E0).
  destruct (c =? 92).
  - destruct (peek_le s (S end_ptr)) as (c' & Hc' & Hnz'); [lia|]. rewrite Hc'. cbn [bind].
    destruct (c' =? 0) eqn:E0'; [now left|].
    apply Z.eqb_neq in E0'. specialize (Hnz' E0').
    destruct (IH s (S (S end_ptr)) (S len)) as [H|(e & l & H & Hb & Hq)]; [lia|lia| |].
    + now left.
    + right. exists e, l. repeat split; auto; lia.
  - destruct (IH s (S end_ptr) (S len)) as [H|(e & l & H & Hb & Hq)]; [lia|lia| |].
    + now left.
    + right. exists e, l. repeat split; auto; lia.
Qed.

(** ** The decoding loop stays inside the input *)

Lemma hex_digit_nonzero c d : hex_digit c = Some d -> c <> 0.
Proof.
  unfold hex_digit. intros H ->. simpl in H. discriminate.
Qed.

Lemma hex_digit_range c d : hex_digit c = Some d -> 0 <= d < 16.
Proof.
  unfold hex_digit.
  destruct ((48 <=? c) && (c <=? 57)) eqn:E1;
    [|destruct ((65 <=? c) && (c <=? 70)) eqn:E2;
      [|destruct ((97 <=? c) && (c <=? 102)) eqn:E3]];
    intros [= <-]; lia.
Qed.

Lemma parse_hex4_safe s i :
  (i <= length s)%nat ->
  exists v, parse_hex4 s i = Ok v /\ (v <> 0 -> (i + 3 < length s)%nat).
Proof.
  intros Hi. unfold parse_hex4.
  destruct (peek_le s i Hi) as (c0 & -> & N0). cbn [bind].
  destruct (hex_digit c0) eqn:H0; [|exists 0; split; [reflexivity|congruence]].
  apply hex_digit_nonzero in H0. specialize (N0 H0).
  destruct (peek_le s (i + 1)) as (c1 & -> & N1); [lia|]. cbn [bind].
  destruct (hex_digit c1) eqn:H1; [|exists 0; split; [reflexivity|congruence]].
  apply hex_digit_nonzero in H1. specialize (N1 H1).
  destruct (peek_le s (i + 2)) as (c2 & -> & N2); [lia|]. cbn [bind].
  destruct (hex_digit c2) eqn:H2; [|exists 0; split; [reflexivity|congruence]].
  apply hex_digit_nonzero in H2. specialize (N2 H2).
  destruct (peek_le s (i + 3)) as (c3 & -> & N3); [lia|]. cbn [bind].
  destruct (hex_digit c3) eqn:H3; [|exists 0; split; [reflexivity|congruence]].
  apply hex_digit_nonzero in H3. specialize (N3 H3).
  eexists. split; [reflexivity|]. intros _. lia.
Qed.

Definition unescape_post (s : text) (str end_ptr : nat) (r : outcome (nat * list Z)) : Prop :=
  match r with
  | Ok (p, _) => (end_ptr <= p <= length s)%nat
  | Err e => e = Some str
  | _ => False
  end.

Lemma unescape_safe fuel : forall s str end_ptr ptr out,
  (end_ptr <= length s)%nat -> (ptr <= length s)%nat -> (end_ptr - ptr < fuel)%nat ->
  unescape_post s str end_ptr (unescape fuel s str end_ptr ptr out).
Proof.
  induction fuel as [|fuel IH]; intros s str end_ptr ptr out He Hp Hfuel; [lia|].
  cbn [unescape].
  destruct (ptr <? end_ptr)%nat eqn:Elt.
  2:{ apply Nat.ltb_ge in Elt. simpl. lia. }
  apply Nat.ltb_lt in Elt.
  destruct (peek_le s ptr Hp) as (c & -> & _). cbn [bind].
  destruct (negb (c =? 92)); [apply IH; lia|].
  destruct (peek_le s (S ptr)) as (e & -> & Ne); [lia|]. cbn [bind].
  assert (Hnext : e <> 0 -> forall o,
            unescape_post s str end_ptr (unescape fuel s str end_ptr (S (S ptr)) o)).
  { intros Hz o. specialize (Ne Hz). apply IH; lia. }
  destruct (e =? 98) eqn:E; [apply Hnext; lia|clear E].
  destruct (e =? 102) eqn:E; [apply Hnext; lia|clear E].
  destruct (e =? 110) eqn:E; [apply Hnext; lia|clear E].
  destruct (e =? 114) eqn:E; [apply Hnext; lia|clear E].
  destruct (e =? 116) eqn:E; [apply Hnext; lia|clear E].
  destruct ((e =? 34) || (e =? 92) || (e =? 47)) eqn:E; [apply Hnext; lia|clear E].
  destruct (e =? 117) eqn:E; [|reflexivity].
  assert (e <> 0) as Hz by lia. specialize (Ne Hz). clear Hnext.
  destruct (parse_hex4_safe s (S ptr + 1)) as (uc & -> & _); [lia|]. cbn [bind].
  destruct (end_ptr <=? S ptr + 4)%nat eqn:E4; [reflexivity|].
  apply Nat.leb_gt in E4.
  destruct (is_low_surrogate uc || (uc =? 0)); [reflexivity|].
  destruct (is_high_surrogate uc).
  - destruct (end_ptr <? S ptr + 4 + 6)%nat eqn:E6; [reflexivity|].
    apply Nat.ltb_ge in E6.
    destruct (peek_le s (S ptr + 4 + 1)) as (c1 & -> & _); [lia|]. cbn [bind].
    destruct (negb (c1 =? 92)); [reflexivity|].
    destruct (peek_le s (S ptr + 4 + 2)) as (c2 & -> & _); [lia|]. cbn [bind].
    destruct (negb (c2 =? 117)); [reflexivity|].
    destruct (parse_hex4_safe s (S ptr + 4 + 3)) as (uc2 & -> & N2); [lia|]. cbn [bind].
    destruct ((uc2 <? 56320) || (57343 <? uc2)) eqn:E2; [reflexivity|].
    assert (uc2 <> 0) as Hz2 by lia. specialize (N2 Hz2).
    apply IH; lia.
  - apply IH; lia.
Qed.

(** [parse_string] never reads outside the input and never runs out of
    fuel, whatever the input. *)
Lemma parse_string_safe (s : text) (str : nat) :
  (str <= length s)%nat ->
  match parse_string s str with
  | Ok (_, e) => (str < e <= length s)%nat
  | Err _ => True
  | _ => False
  end.
Proof.
  intros Hs. unfold parse_string.
  destruct (peek_le s str Hs) as (q & -> & Nq). cbn [bind].
  destruct (q =? 34) eqn:Eq; cbn [negb]; [|exact I].
  assert (q <> 0) as Hq by lia. specialize (Nq Hq).
  destruct (scan_end_safe (S (length s)) s (S str) 0) as [->|(e & l & -> & Hb & Hend)];
    [lia|lia|exact I|]. cbn [bind].
  pose proof (unescape_safe (S (length s)) s str e (S str) [] ltac:(lia) ltac:(lia) ltac:(lia)) as H.
  destruct (unescape _ _ _ _ _ _) as [[p o]| | |]; simpl in H; try contradiction; [|exact I].
  cbn [bind].
  destruct (peek_le s p) as (c & -> & Nc); [lia|]. cbn [bind].
  destruct (c =? 34) eqn:Ec; [|lia].
  assert (c <> 0) as Hc by lia. specialize (Nc Hc). lia.
Qed.

(** ** Reading relative to a suffix *)

Lemma rd_shift s i l k : at_pos s i l -> rd s (i + k) = rd l k.
Proof.
  intros (p & -> & <-). unfold rd.
  rewrite nth_error_app2 by lia.
  replace (length p + k - length p)%nat with k by lia.
  destruct (nth_error l k); [reflexivity|].
  rewrite length_app.
  destruct (Nat.eqb_spec k (length l)), (Nat.eqb_spec (length p + k) (length p + length l));
    try reflexivity; lia.
Qed.

Lemma peek_shift s i l k : at_pos s i l -> peek s (i + k) = peek l k.
Proof. intros H. unfold peek. now rewrite (rd_shift s i l k H). Qed.

Lemma parse_hex4_shift s i l k :
  at_pos s i l -> parse_hex4 s (i + k) = parse_hex4 l k.
Proof.
  intros H. unfold parse_hex4.
  rewrite <- !Nat.add_assoc, !(peek_shift s i l) by exact H.
  reflexivity.
Qed.

(** ** Characters and bodies of string literals *)

(** A character the decoder copies unchanged. *)
Definition plain (c : Z) : Prop := c <> 34 /\ c <> 92 /\ c <> 0.

(** [open_body b body]: [body] runs to the end of the input without an
    unescaped closing quote; [b] tells whether it ends on an unescaped
    backslash. *)
Inductive open_body : bool -> text -> Prop :=
| open_nil : open_body false []
| open_backslash : open_body true [92]
| open_plain c l b : plain c -> open_body b l -> open_body b (c :: l)
| open_escape c l b : c <> 0 -> open_body b l -> open_body b (92 :: c :: l).

(** The value of four hexadecimal digits. *)
Definition quartet (a b c d : Z) : option Z :=
  match hex_digit a, hex_digit b, hex_digit c, hex_digit d with
  | Some x, Some y, Some z, Some w => Some (((x * 16 + y) * 16 + z) * 16 + w)
  | _, _, _, _ => None
  end.

(** [rest] begins with a [\uXXXX] escape of a low surrogate. *)
Definition low_escape_follows (rest : text) : bool :=
  match rest with
  | 92 :: 117 :: a :: b :: c :: d :: _ =>
    match quartet a b c d with
    | Some v => is_low_surrogate v
    | None => false
    end
  | _ => false
  end.

Lemma parse_hex4_quartet a b c d l :
  parse_hex4 (a :: b :: c :: d :: l) 0 =
  Ok (match quartet a b c d with Some v => v | None => 0 end).
Proof.
  unfold parse_hex4, quartet. cbn [peek rd nth_error Nat.add bind].
  destruct (hex_digit a) as [x|] eqn:Ha; [|reflexivity].
  destruct (hex_digit b) as [y|] eqn:Hb; [|reflexivity].
  destruct (hex_digit c) as [z|] eqn:Hc; [|reflexivity].
  destruct (hex_digit d) as [w|] eqn:Hd; [|reflexivity].
  f_equal. rewrite !Z.shiftl_mul_pow2 by lia. lia.
Qed.

Lemma parse_hex4_short l : (length l < 4)%nat -> parse_hex4 l 0 = Ok 0.
Proof.
  intros Hl.
  destruct l as [|a [|b [|c [|d l]]]]; simpl in Hl; try lia;
    unfold parse_hex4; cbn [peek rd nth_error Nat.add bind length Nat.eqb];
    change (hex_digit 0) with (@None Z);
    repeat match goal with
           | |- context [hex_digit ?x] => destruct (hex_digit x); try reflexivity
           end;
    reflexivity.
Qed.

(** ** The sizing loop on known bodies *)

Lemma scan_end_plain_prefix pre : forall fuel s i len l,
  Forall plain pre -> at_pos s i (pre ++ l) ->
  scan_end (length pre + fuel) s i len = scan_end fuel s (i + length pre) (len + length pre).
Proof.
  induction pre as [|c pre IH]; intros fuel s i len l Hp Hat.
  - simpl. now rewrite !Nat.add_0_r.
  - inversion Hp as [|? ? (H34 & H92 & H0) Hp']; subst.
    cbn [length Nat.add]. rewrite scan_end_eq.
    rewrite (at_pos_peek s i c (pre ++ l) Hat). cbn [bind].
    apply Z.eqb_neq in H34, H92, H0. rewrite H34, H92, H0. cbn [negb andb].
    rewrite (IH fuel s (S i) (S len) l Hp' (at_pos_next _ _ _ _ Hat)).
    f_equal; lia.
Qed.

Lemma scan_end_open b body : open_body b body ->
  forall fuel s i len, at_pos s i body -> (length body < fuel)%nat ->
  if b then scan_end fuel s i len = Err None
  else exists len', scan_end fuel s i len = Ok (length s, len').
Proof.
  induction 1 as [| |c l b (H34 & H92 & H0) Hl IH|c l b H0 Hl IH];
    intros fuel s i len Hat Hfuel; (destruct fuel as [|fuel]; [lia|]); rewrite scan_end_eq.
  - rewrite (at_pos_peek_nil s i Hat). cbn.
    apply at_pos_length in Hat. simpl in Hat. exists len. repeat f_equal. lia.
  - rewrite (at_pos_peek s i _ _ Hat). cbn.
    now rewrite (at_pos_peek_nil s (S i) (at_pos_next _ _ _ _ Hat)).
  - rewrite (at_pos_peek s i _ _ Hat). cbn [bind].
    apply Z.eqb_neq in H34, H92, H0. rewrite H34, H92, H0. cbn [negb andb].
    apply IH; [eapply at_pos_next; eauto | simpl in Hfuel; lia].
  - rewrite (at_pos_peek s i _ _ Hat). cbn.
    pose proof (at_pos_next _ _ _ _ Hat) as Hat'.
    rewrite (at_pos_peek s (S i) _ _ Hat'). cbn [bind].
    apply Z.eqb_neq in H0. rewrite H0.
    destruct fuel as [|fuel]; [simpl in Hfuel; lia|].
    assert (Hweak : forall f, (length l < f)%nat ->
              if b then scan_end f s (S (S i)) (S len) = Err None
              else exists len', scan_end f s (S (S i)) (S len) = Ok (length s, len')).
    { intros f Hf. apply IH; [eapply at_pos_next; eauto | exact Hf]. }
    apply Hweak. simpl in Hfuel. lia.
Qed.

(** ** The decoding loop on plain characters *)

Lemma unescape_plain pre : forall fuel s str end_ptr ptr out l,
  Forall plain pre -> at_pos s ptr (pre ++ l) -> (ptr + length pre <= end_ptr)%nat ->
  unescape (length pre + fuel) s str end_ptr ptr out
  = unescape fuel s str end_ptr (ptr + length pre) (out ++ pre).
Proof.
  induction pre as [|c pre IH]; intros fuel s str end_ptr ptr out l Hp Hat Hle.
  - simpl. now rewrite Nat.add_0_r, app_nil_r.
  - inversion Hp as [|? ? (H34 & H92 & H0) Hp']; subst.
    cbn [length Nat.add] in *. cbn [unescape].
    destruct (Nat.ltb_spec ptr end_ptr) as [_|]; [|lia].
    rewrite (at_pos_peek s ptr c (pre ++ l) Hat). cbn [bind].
    apply Z.eqb_neq in H92. rewrite H92. cbn [negb].
    rewrite (IH fuel s str end_ptr (S ptr) (out ++ [c]) l Hp' (at_pos_next _ _ _ _ Hat)) by lia.
    rewrite <- app_assoc. f_equal. lia.
Qed.

Lemma plain_open body : Forall plain body -> open_body false body.
Proof. induction 1; constructor; auto. Qed.

(** One step of the decoding loop at a [\u] escape, relative to the suffix
    that starts at the backslash. *)
Lemma unescape_u_step fuel s str end_ptr ptr out a b c d rest :
  at_pos s ptr (92 :: 117 :: a :: b :: c :: d :: rest) ->
  (ptr < end_ptr)%nat ->
  unescape (S fuel) s str end_ptr ptr out =
  let uc := match quartet a b c d with Some v => v | None => 0 end in
  if (end_ptr <=? ptr + 5)%nat then Err (Some str)
  else if is_low_surrogate uc || (uc =? 0) then Err (Some str)
  else if is_high_surrogate uc then
    if (end_ptr <? ptr + 11)%nat then Err (Some str)
    else
      let* c1 := peek rest 0 in
      if negb (c1 =? 92) then Err (Some str)
      else
        let* c2 := peek rest 1 in
        if negb (c2 =? 117) then Err (Some str)
        else
          let* uc2 := parse_hex4 rest 2 in
          if (uc2 <? 0xDC00) || (0xDFFF <? uc2) then Err (Some str)
          else
            unescape fuel s str end_ptr (ptr + 12)
              (out ++ utf8_encode (0x10000 + Z.lor (Z.shiftl (Z.land uc 0x3FF) 10) (Z.land uc2 0x3FF)))
  else unescape fuel s str end_ptr (ptr + 6) (out ++ utf8_encode uc).
Proof.
  intros Hat Hlt. cbn [unescape].
  destruct (Nat.ltb_spec ptr end_ptr) as [_|]; [|lia].
  rewrite (at_pos_peek _ _ _ _ Hat). cbn [bind Z.eqb Pos.eqb negb].
  pose proof (at_pos_next _ _ _ _ Hat) as Hat1.
  rewrite (at_pos_peek _ _ _ _ Hat1). cbn [bind Z.eqb Pos.eqb negb orb].
  pose proof (at_pos_app s ptr [92; 117] _ Hat) as Hat2. cbn [length] in Hat2.
  replace (S ptr + 1)%nat with (ptr + 2 + 0)%nat by lia.
  rewrite (parse_hex4_shift _ _ _ 0 Hat2), parse_hex4_quartet. cbn [bind].
  pose proof (at_pos_app s ptr [92; 117; a; b; c; d] _ Hat) as Hat6. cbn [length] in Hat6.
  replace (S ptr + 4)%nat with (ptr + 5)%nat by lia.
  replace (ptr + 5 + 6)%nat with (ptr + 11)%nat by lia.
  replace (ptr + 5 + 1)%nat with (ptr + 6 + 0)%nat by lia.
  replace (ptr + 5 + 2)%nat with (ptr + 6 + 1)%nat by lia.
  replace (ptr + 5 + 3)%nat with (ptr + 6 + 2)%nat by lia.
  rewrite !(peek_shift _ _ _ _ Hat6), (parse_hex4_shift _ _ _ _ Hat6).
  replace (S (ptr + 11)) with (ptr + 12)%nat by lia.
  replace (S (ptr + 5)) with (ptr + 6)%nat by lia.
  reflexivity.
Qed.

(** A literal whose body has plain characters up to an escape fails as soon
    as the decoding loop fails at that escape. *)
Lemma parse_string_fails_at pre c rest :
  Forall plain pre -> c <> 0 ->
  (forall e fuel out, (length pre + 1 < e)%nat ->
     failed (unescape (S fuel) (dq :: pre ++ 92 :: c :: rest) 0 e (S (length pre)) out) = true) ->
  failed (parse_string (dq :: pre ++ 92 :: c :: rest) 0) = true.
Proof.
  intros Hpre Hc Hstep.
  set (s := dq :: pre ++ 92 :: c :: rest) in *.
  assert (Hat : at_pos s 1 (pre ++ 92 :: c :: rest)) by (exists [dq]; split; reflexivity).
  assert (Hlen : length s = S (length pre + S (S (length rest)))).
  { unfold s. cbn [length]. rewrite length_app. reflexivity. }
  unfold parse_string. change (peek s 0) with (Ok dq). cbn [bind dq Z.eqb Pos.eqb negb].
  replace (S (length s)) with (length pre + S (S (S (S (length rest)))))%nat at 1 by lia.
  rewrite (scan_end_plain_prefix pre _ s 1 0 _ Hpre Hat).
  pose proof (at_pos_app _ _ _ _ Hat) as Hat'.
  rewrite scan_end_eq, (at_pos_peek _ _ _ _ Hat'). cbn [bind Z.eqb Pos.eqb negb andb].
  rewrite (at_pos_peek _ _ _ _ (at_pos_next _ _ _ _ Hat')). cbn [bind].
  apply Z.eqb_neq in Hc. rewrite Hc.
  destruct (scan_end_safe (S (S (S (length rest)))) s (S (S (1 + length pre))) (S (0 + length pre)))
    as [->|(e & l & -> & Hb & _)]; [lia|lia|reflexivity|].
  cbn [bind].
  replace (S (length s)) with (length pre + S (S (S (S (length rest)))))%nat by lia.
  rewrite (unescape_plain pre _ s 0 e 1 [] _ Hpre Hat) by lia.
  specialize (Hstep e (S (S (S (length rest)))) ([] ++ pre) ltac:(lia)).
  cbn [Nat.add] in *.
  destruct (unescape _ _ _ _ _ _) as [[p o]| | |]; try discriminate. reflexivity.
Qed.

(** ** Claim C5 *)

(** C5, as stated, fails: the literal made of an opening quote and [abc],
    with no closing quote, is accepted, and the position returned is the end
    of the input. *)
Lemma C5_unterminated_accepted :
  parse_string (dq :: bytes "abc"%string) 0 = Ok (bytes "abc"%string, 4%nat)
  /\ failed (parse_string (dq :: bytes "abc"%string) 0) = false.
Proof. split; reflexivity. Qed.

(** C5 (amended): parsing a string literal never reads past the end of the
    input; a literal that ends on a trailing unescaped backslash fails; a
    literal of plain characters that merely lacks its closing quote is
    accepted up to the end of the input. *)
Theorem C5_unterminated_string (s : text) (str : nat) (body : text) :
  at_pos s str (dq :: body) ->
  in_bounds (parse_string s str) = true
  /\ (open_body true body -> parse_string s str = Err None)
  /\ (Forall plain body -> parse_string s str = Ok (body, length s)).
Proof.
  intros Hat.
  pose proof (at_pos_length _ _ _ Hat) as Hlen. cbn [length] in Hlen.
  pose proof (at_pos_next _ _ _ _ Hat) as Hat'.
  split; [|split].
  - pose proof (parse_string_safe s str ltac:(lia)) as H.
    destruct (parse_string s str) as [[? ?]| | |]; try contradiction; reflexivity.
  - intros Hb. unfold parse_string.
    rewrite (at_pos_peek _ _ _ _ Hat). cbn [bind dq Z.eqb Pos.eqb negb].
    now rewrite (scan_end_open true body Hb (S (length s)) s (S str) 0 Hat') by lia.
  - intros Hp. unfold parse_string.
    rewrite (at_pos_peek _ _ _ _ Hat). cbn [bind dq Z.eqb Pos.eqb negb].
    destruct (scan_end_open false body (plain_open _ Hp) (S (length s)) s (S str) 0 Hat')
      as (len' & ->); [lia|]. cbn [bind].
    replace (S (length s)) with (length body + S (S str))%nat by lia.
    rewrite <- (app_nil_r body) in Hat'.
    rewrite (unescape_plain body _ s str (length s) (S str) [] [] Hp Hat') by lia.
    cbn [unescape].
    destruct (Nat.ltb_spec (S str + length body) (length s)) as [|_]; [lia|].
    cbn [bind app].
    replace (S str + length body)%nat with (length s) by lia.
    rewrite peek_app_end. reflexivity.
Qed.

Lemma C5_unterminated_string_witness :
  in_bounds (parse_string (dq :: bytes "ab\"%string) 0) = true
  /\ parse_string (dq :: bytes "ab\"%string) 0 = Err None
  /\ parse_string (dq :: bytes "ab"%string) 0 = Ok (bytes "ab"%string, 3%nat).
Proof.
  split; [|split].
  - apply (C5_unterminated_string (dq :: bytes "ab\"%string) 0 (bytes "ab\"%string)).
    apply at_pos_start.
  - apply (C5_unterminated_string (dq :: bytes "ab\"%string) 0 (bytes "ab\"%string)).
    + apply at_pos_start.
    + change (open_body true [97; 98; 92]).
      repeat first [apply open_backslash | apply open_plain; [unfold plain; lia|]].
  - apply (C5_unterminated_string (dq :: bytes "ab"%string) 0 (bytes "ab"%string)).
    + apply at_pos_start.
    + change (Forall plain [97; 98]).
      repeat (constructor; try (unfold plain; lia)).
Defined.

(** ** Claim C2 *)

Lemma quartet_nonzero_char a b c d v : quartet a b c d = Some v -> a <> 0.
Proof.
  unfold quartet. destruct (hex_digit a) eqn:Ha; [|discriminate].
  intros _. eapply hex_digit_nonzero; eauto.
Qed.

(** A [\u] escape of a lone low surrogate or of zero fails. *)
Lemma low_or_zero_escape_fails pre a b c d rest v :
  Forall plain pre -> quartet a b c d = Some v ->
  is_low_surrogate v || (v =? 0) = true ->
  failed (parse_string (dq :: pre ++ 92 :: 117 :: a :: b :: c :: d :: rest) 0) = true.
Proof.
  intros Hpre Hq Hv. apply parse_string_fails_at; [exact Hpre|lia|].
  intros e fuel out He.
  rewrite (unescape_u_step fuel _ 0 e (S (length pre)) out a b c d rest).
  - rewrite Hq. cbn zeta. rewrite Hv.
    destruct (e <=? S (length pre) + 5)%nat; reflexivity.
  - exists (dq :: pre). split; [reflexivity|]. reflexivity.
  - lia.
Qed.

(** A [\u] escape of a high surrogate fails unless the escape of a low
    surrogate follows it immediately. *)
Lemma lone_high_escape_fails pre a b c d rest v :
  Forall plain pre -> quartet a b c d = Some v ->
  is_high_surrogate v = true -> low_escape_follows rest = false ->
  failed (parse_string (dq :: pre ++ 92 :: 117 :: a :: b :: c :: d :: rest) 0) = true.
Proof.
  intros Hpre Hq Hv Hrest. apply parse_string_fails_at; [exact Hpre|lia|].
  intros e fuel out He.
  rewrite (unescape_u_step fuel _ 0 e (S (length pre)) out a b c d rest);
    [|exists (dq :: pre); split; reflexivity|lia].
  rewrite Hq. cbn zeta. rewrite Hv.
  destruct (e <=? S (length pre) + 5)%nat; [reflexivity|].
  destruct (is_low_surrogate v || (v =? 0)); [reflexivity|].
  destruct (e <? S (length pre) + 11)%nat; [reflexivity|].
  destruct rest as [|c1 rest]; [reflexivity|].
  change (peek (c1 :: rest) 0) with (Ok c1). cbn [bind].
  destruct (c1 =? 92) eqn:E1; [|reflexivity]. apply Z.eqb_eq in E1. subst c1.
  cbn [negb].
  destruct rest as [|c2 rest]; [reflexivity|].
  change (peek (92 :: c2 :: rest) 1) with (Ok c2). cbn [bind].
  destruct (c2 =? 117) eqn:E2; [|reflexivity]. apply Z.eqb_eq in E2. subst c2.
  cbn [negb].
  assert (Hat : at_pos (92 :: 117 :: rest) 2 rest) by (exists [92; 117]; split; reflexivity).
  pose proof (parse_hex4_shift _ 2 rest 0 Hat) as Hs. cbn [Nat.add] in Hs.
  rewrite Hs. clear Hs Hat.
  destruct rest as [|a' [|b' [|c' [|d' rest]]]];
    try (rewrite parse_hex4_short by (simpl; lia); reflexivity).
  rewrite parse_hex4_quartet. cbn [bind].
  cbn [low_escape_follows] in Hrest.
  destruct (quartet a' b' c' d') as [v'|]; [|reflexivity].
  unfold is_low_surrogate in Hrest.
  destruct (v' <? 56320) eqn:L1; [reflexivity|].
  destruct (57343 <? v') eqn:L2; [reflexivity|]. lia.
Qed.

(** C2: the escaped surrogate pair D83D DE00 decodes to the four bytes
    F0 9F 98 80; a high-surrogate escape that is not immediately followed by
    the escape of a low surrogate makes the literal fail, and so does an
    escape whose quartet is a lone low surrogate or zero. *)
Theorem C2_surrogate_pairs :
  parse_string (dq :: bytes "\ud83d"%string ++ bytes "\ude00"%string ++ [dq]) 0
    = Ok ([0xF0; 0x9F; 0x98; 0x80], 14%nat)
  /\ (forall pre rest, Forall plain pre -> low_escape_follows rest = false ->
      failed (parse_string (dq :: pre ++ bytes "\ud83d"%string ++ rest) 0) = true)
  /\ (forall pre a b c d v rest, Forall plain pre -> quartet a b c d = Some v ->
      is_low_surrogate v || (v =? 0) = true ->
      failed (parse_string (dq :: pre ++ 92 :: 117 :: a :: b :: c :: d :: rest) 0) = true).
Proof.
  split; [reflexivity|split].
  - intros pre rest Hpre Hrest.
    apply (lone_high_escape_fails pre 100 56 51 100 rest 0xD83D); auto.
  - intros pre a b c d v rest Hpre Hq Hv.
    eapply low_or_zero_escape_fails; eauto.
Qed.

Lemma C2_surrogate_pairs_witness :
  failed (parse_string (dq :: bytes "\ud83d"%string ++ [dq]) 0) = true
  /\ failed (parse_string (dq :: bytes "\udc00"%string ++ [dq]) 0) = true
  /\ failed (parse_string (dq :: bytes "\u0000"%string ++ [dq]) 0) = true.
Proof.
  destruct C2_surrogate_pairs as (_ & Hhigh & Hlow).
  split; [|split].
  - apply (Hhigh [] [dq]); [constructor | reflexivity].
  - apply (Hlow [] 100 99 48 48 0xDC00 [dq]); [constructor | reflexivity | reflexivity].
  - apply (Hlow [] 48 48 48 48 0 [dq]); [constructor | reflexivity | reflexivity].
Defined.

(** * Properties of the number codec *)

(** ** Claim C4 *)

Definition d_3_0 : double := d_of_decimal false 3 0.
Definition d_0_1 : double := d_of_decimal false 1 (-1).
Definition d_1e20 : double := d_of_decimal false 1 20.

(** C4, as stated, fails at 1e20: the value is integral and below 1e60, so
    it is rendered by the fixed-point branch, with no exponent. *)
Lemma C4_1e20_not_scientific :
  ~ (print_number d_3_0 = bytes "3"%string
     /\ print_number d_0_1 = bytes "0.100000"%string
     /\ number_format_of d_1e20 = FmtExp
     /\ print_number S754_nan = bytes "null"%string).
Proof. intros (_ & _ & H & _). vm_compute in H. discriminate. Qed.

(** C4 (amended): 3.0 renders as "3", 0.1 as "0.100000", NaN as "null", and
    1e20 as fixed-point text without fractional digits,
    "100000000000000000000". *)
Theorem C4_number_boundaries :
  print_number d_3_0 = bytes "3"%string
  /\ print_number d_0_1 = bytes "0.100000"%string
  /\ number_format_of d_1e20 = FmtFixed0
  /\ print_number d_1e20 = bytes "100000000000000000000"%string
  /\ print_number S754_nan = bytes "null"%string.
Proof. repeat split; vm_compute; reflexivity. Qed.

(** ** Claim C3 *)

Definition is_nan_or_inf (d : double) : bool :=
  match d with
  | S754_nan | S754_infinity _ => true
  | _ => false
  end.

Definition in_int_range (d : double) : bool :=
  d_leb d (d_of_Z INT_MAX) && d_leb (d_of_Z INT_MIN) d.

(** The policy in the order the claim gives it. *)
Definition claimed_policy (d : double) : number_format :=
  if d_eqb d d_zero then FmtZero
  else if near_floor d && in_int_range d then FmtInt (int_of_double d)
  else if near_floor d && d_ltb (fabs d) d_1e60 then FmtFixed0
  else if d_ltb (fabs d) d_1em6 || d_leb d_1e9 (fabs d) then FmtExp
  else if is_nan_or_inf d then FmtNull
  else FmtFixed6.

(** The same policy with the NaN/infinity test moved before the two
    fixed-point/scientific tests. *)
Definition ordered_policy (d : double) : number_format :=
  if d_eqb d d_zero then FmtZero
  else if near_floor d && in_int_range d then FmtInt (int_of_double d)
  else if is_nan_or_inf d then FmtNull
  else if near_floor d && d_ltb (fabs d) d_1e60 then FmtFixed0
  else if d_ltb (fabs d) d_1em6 || d_leb d_1e9 (fabs d) then FmtExp
  else FmtFixed6.

Definition render (f : number_format) (d : double) : text :=
  match f with
  | FmtZero => bytes "0"%string
  | FmtInt v => sprintf_d v
  | FmtNull => bytes "null"%string
  | FmtFixed0 => sprintf_f 0 d
  | FmtExp => sprintf_e d
  | FmtFixed6 => sprintf_f 6 d
  end.

(** C3, as stated, fails at +infinity: its magnitude is above 1e9, so the
    claimed order selects scientific notation, while the code tests for
    NaN and infinity first and renders "null". *)
Lemma C3_infinity_renders_null :
  number_format_of (S754_infinity false) = FmtNull
  /\ claimed_policy (S754_infinity false) = FmtExp
  /\ print_number (S754_infinity false) <> render (claimed_policy (S754_infinity false)) (S754_infinity false).
Proof. repeat split. vm_compute. discriminate. Qed.

Lemma compare_cont_Eq_eq (p q : positive) : Pos.compare_cont Eq p q = Eq -> p = q.
Proof. apply Pos.compare_eq. Qed.

(** Only the two doubles of magnitude exactly 1e9 tell "above" from "at or
    above", and they are rendered as integers. *)
Lemma above_1e9 (d : double) :
  near_floor d && in_int_range d = false ->
  d_ltb d_1e9 (fabs d) = d_leb d_1e9 (fabs d).
Proof.
  intros Hint. unfold d_ltb, d_leb, SFltb, SFleb.
  destruct (SFcompare d_1e9 (fabs d)) as [[| |]|] eqn:C; try reflexivity.
  exfalso. destruct d as [sg|sg| |sg m e]; try discriminate C.
  unfold d_1e9, fabs, SFabs, SFcompare in C.
  destruct (Z.compare_spec (-23) e) as [He|He|He]; try discriminate C.
  injection C as C. apply compare_cont_Eq_eq in C. subst m e.
  destruct sg; vm_compute in Hint; discriminate.
Qed.

Lemma mul_zero_test (d : double) :
  negb (d_eqb (d_mul d (d_of_Z 0)) (d_of_Z 0)) = is_nan_or_inf d.
Proof. destruct d as [sg|sg| |sg m e]; try destruct sg; reflexivity. Qed.

Lemma number_format_ordered (d : double) : number_format_of d = ordered_policy d.
Proof.
  unfold number_format_of, ordered_policy.
  change (d_of_Z 0) with d_zero. fold (in_int_range d).
  rewrite <- andb_assoc. fold (in_int_range d).
  destruct (d_eqb d d_zero); [reflexivity|].
  destruct (near_floor d && in_int_range d) eqn:Hint; [reflexivity|].
  change d_zero with (d_of_Z 0). rewrite mul_zero_test.
  destruct (is_nan_or_inf d); [reflexivity|].
  now rewrite (above_1e9 d Hint).
Qed.

(** C3 (amended): the branch taken by [print_number] is, in order: zero;
    integer text when within epsilon of the floor and in the range of int;
    "null" for NaN and infinities; fixed-point without fractional digits
    when within epsilon of the floor and below 1e60 in magnitude;
    scientific notation when the magnitude is below 1e-6 or at/above 1e9;
    six fractional digits otherwise. *)
Theorem C3_number_policy (d : double) :
  number_format_of d = ordered_policy d
  /\ print_number d = render (ordered_policy d) d.
Proof.
  pose proof (number_format_ordered d) as H.
  split; [exact H|].
  unfold print_number. rewrite H.
  destruct (ordered_policy d); reflexivity.
Qed.

(** * Facts on binary64 arithmetic

    The rounding functions of [SpecFloat] return canonical doubles, return
    exactly what is representable, and order canonical doubles as their
    values are ordered. *)

(** Number of binary digits *)
Definition dg (p : positive) : Z := Z.pos (digits2_pos p).

Lemma digits2_size p : digits2_pos p = Pos.size p.
Proof. induction p; simpl; congruence. Qed.

Lemma dg_bounds p : 2 ^ (dg p - 1) <= Z.pos p < 2 ^ dg p.
Proof.
  unfold dg. rewrite digits2_size. split.
  - pose proof (Pos.size_le p) as H.
    assert (Z.pos (2 ^ Pos.size p) <= Z.pos p~0) by exact H.
    rewrite Pos2Z.inj_pow in H0.
    replace (Z.pos (Pos.size p)) with (Z.succ (Z.pos (Pos.size p) - 1)) in H0 by lia.
    rewrite Z.pow_succ_r in H0 by lia. lia.
  - pose proof (Pos.size_gt p) as H.
    assert (Z.pos p < Z.pos (2 ^ Pos.size p)) by exact H.
    now rewrite Pos2Z.inj_pow in H0.
Qed.

Lemma dg_pos p : 0 < dg p.
Proof. unfold dg. lia. Qed.

Lemma dg_unique p k : 2 ^ (k - 1) <= Z.pos p < 2 ^ k -> dg p = k.
Proof.
  intros (Hlo & Hhi). pose proof (dg_bounds p) as (Hlo' & Hhi'). pose proof (dg_pos p).
  assert (0 < k).
  { destruct (Z.ltb_spec 0 k); [assumption|]. exfalso.
    assert (2 ^ k <= 1); [|lia].
    destruct (Z.eq_dec k 0) as [->|]; [simpl; lia|]. rewrite Z.pow_neg_r by lia. lia. }
  destruct (Z.lt_trichotomy (dg p) k) as [Hlt|[Heq|Hgt]]; [|exact Heq|]; exfalso.
  - assert (2 ^ dg p <= 2 ^ (k - 1)) by (apply Z.pow_le_mono_r; lia). lia.
  - assert (2 ^ k <= 2 ^ (dg p - 1)) by (apply Z.pow_le_mono_r; lia). lia.
Qed.

Lemma Zdigits2_pos p : Zdigits2 (Z.pos p) = dg p.
Proof. reflexivity. Qed.

(** digits of a shifted value *)
Lemma dg_shiftl p k : 0 <= k -> forall q, Z.pos q = Z.pos p * 2 ^ k -> dg q = dg p + k.
Proof.
  intros Hk q Hq. apply dg_unique. rewrite Hq.
  pose proof (dg_bounds p) as (Hlo & Hhi). pose proof (dg_pos p).
  replace (dg p + k - 1) with ((dg p - 1) + k) by lia.
  rewrite !Z.pow_add_r by lia.
  assert (0 < 2 ^ k) by (apply Z.pow_pos_nonneg; lia). nia.
Qed.

Lemma dg_shiftr p k q : 0 <= k -> Z.pos q = Z.pos p / 2 ^ k -> dg q = dg p - k.
Proof.
  intros Hk Hq. apply dg_unique. rewrite Hq.
  pose proof (dg_bounds p) as (Hlo & Hhi). pose proof (dg_pos p).
  assert (Hp : 0 < 2 ^ k) by (apply Z.pow_pos_nonneg; lia).
  assert (Hd : k < dg p).
  { destruct (Z.ltb_spec k (dg p)); [assumption|]. exfalso.
    assert (2 ^ dg p <= 2 ^ k) by (apply Z.pow_le_mono_r; lia).
    rewrite Z.div_small in Hq by lia. lia. }
  split.
  - apply Z.div_le_lower_bound; [lia|].
    rewrite <- Z.pow_add_r by lia. replace (k + (dg p - k - 1)) with (dg p - 1) by lia. lia.
  - apply Z.div_lt_upper_bound; [lia|].
    rewrite <- Z.pow_add_r by lia. replace (k + (dg p - k)) with (dg p) by lia. lia.
Qed.

(** iter_pos as an iteration over nat *)
Lemma iter_pos_nat {A} (f : A -> A) n : forall x, SpecFloat.iter_pos f n x = Nat.iter (Pos.to_nat n) f x.
Proof.
  induction n as [n IH|n IH|]; intros x; cbn [SpecFloat.iter_pos].
  - rewrite !IH. rewrite Pos2Nat.inj_xI.
    replace (S (2 * Pos.to_nat n))%nat with (Pos.to_nat n + (Pos.to_nat n + 1))%nat by lia.
    rewrite !Nat.iter_add. reflexivity.
  - rewrite !IH. rewrite Pos2Nat.inj_xO.
    replace (2 * Pos.to_nat n)%nat with (Pos.to_nat n + Pos.to_nat n)%nat by lia.
    now rewrite Nat.iter_add.
  - reflexivity.
Qed.

Lemma shr_1_m mrs : 0 <= shr_m mrs -> shr_m (shr_1 mrs) = shr_m mrs / 2.
Proof.
  destruct mrs as [m r s]. simpl. intros Hm.
  destruct m as [|[p|p|]|p]; cbn [shr_1 shr_m orb]; try lia; try reflexivity.
  - rewrite Pos2Z.inj_xI. apply (Z.div_unique _ _ _ 1); lia.
  - rewrite Pos2Z.inj_xO. apply (Z.div_unique _ _ _ 0); lia.
Qed.

Lemma shr_iter_m k : forall mrs, 0 <= shr_m mrs ->
  shr_m (Nat.iter k shr_1 mrs) = shr_m mrs / 2 ^ Z.of_nat k.
Proof.
  induction k as [|k IH]; intros mrs Hm.
  - simpl. now rewrite Z.div_1_r.
  - rewrite Nat.iter_succ_r. rewrite IH by (rewrite shr_1_m by lia; apply Z.div_pos; lia).
    rewrite shr_1_m by lia. rewrite Nat2Z.inj_succ, Z.pow_succ_r by lia.
    rewrite Z.div_div by (try apply Z.pow_pos_nonneg; lia). reflexivity.
Qed.



Lemma shr_m_value mrs e n : 0 <= shr_m mrs -> 0 <= n ->
  shr mrs e n = (fst (shr mrs e n), e + n)
  /\ shr_m (fst (shr mrs e n)) = shr_m mrs / 2 ^ n.
Proof.
  intros Hm Hn. unfold shr. destruct n as [|p|p]; try lia.
  - simpl. rewrite Z.add_0_r, Z.div_1_r. auto.
  - cbn [fst]. split; [reflexivity|]. rewrite iter_pos_nat, shr_iter_m by exact Hm.
    now rewrite positive_nat_Z.
Qed.

(** ** Canonical results of rounding *)

Lemma fexp_eq e : fexp 53 1024 e = Z.max (e - 53) (-1074).
Proof. reflexivity. Qed.

Lemma fexp_mono a b : a <= b -> fexp 53 1024 a <= fexp 53 1024 b.
Proof. rewrite !fexp_eq. lia. Qed.

Lemma Zdigits2_nonneg m : 0 <= Zdigits2 m.
Proof. destruct m; simpl; lia. Qed.

Lemma Zdigits2_lower m t : 0 <= m -> 2 ^ (t - 1) <= m -> 1 <= t -> t <= Zdigits2 m.
Proof.
  intros Hm Ht H1.
  assert (0 < 2 ^ (t - 1)) by (apply Z.pow_pos_nonneg; lia).
  destruct m as [|p|p]; [lia| |lia].
  cbn [Zdigits2]. fold (dg p). pose proof (dg_bounds p) as (_ & Hhi).
  destruct (Z.ltb_spec (dg p) t); [|assumption]. exfalso.
  assert (2 ^ dg p <= 2 ^ (t - 1)) by (apply Z.pow_le_mono_r; lia). lia.
Qed.

Lemma Zdigits2_div m n : 0 <= m -> 0 <= n ->
  Zdigits2 (m / 2 ^ n) = Z.max (Zdigits2 m - n) 0.
Proof.
  intros Hm Hn. assert (Hp : 0 < 2 ^ n) by (apply Z.pow_pos_nonneg; lia).
  destruct m as [|p|p]; try lia.
  - rewrite Z.div_0_l by lia. simpl. lia.
  - cbn [Zdigits2]. fold (dg p). pose proof (dg_bounds p) as (Hlo & Hhi). pose proof (dg_pos p).
    destruct (Z.pos p / 2 ^ n) as [|q|q] eqn:Hq.
    + simpl. destruct (Z.ltb_spec n (dg p)); [|lia]. exfalso.
      assert (2 ^ n <= 2 ^ (dg p - 1)) by (apply Z.pow_le_mono_r; lia).
      assert (1 <= Z.pos p / 2 ^ n); [|lia].
      apply Z.div_le_lower_bound; lia.
    + cbn [Zdigits2]. fold (dg q). rewrite (dg_shiftr p n q Hn (eq_sym Hq)).
      pose proof (dg_pos q). rewrite (dg_shiftr p n q Hn (eq_sym Hq)) in H0. lia.
    + pose proof (Z.div_pos (Z.pos p) (2 ^ n) ltac:(lia) Hp). lia.
Qed.

Lemma Zdigits2_succ m : 0 <= m -> Zdigits2 m <= Zdigits2 (m + 1) <= Zdigits2 m + 1.
Proof.
  intros Hm. destruct m as [|p|p]; try lia; [simpl; lia|].
  replace (Z.pos p + 1) with (Z.pos (p + 1)) by lia. cbn [Zdigits2]. fold (dg p) (dg (p + 1)).
  pose proof (dg_bounds p) as (Hlo & Hhi). pose proof (dg_bounds (p + 1)) as (Hlo' & Hhi').
  pose proof (dg_pos p). pose proof (dg_pos (p + 1)).
  split.
  - destruct (Z.leb_spec (dg p) (dg (p + 1))); [assumption|]. exfalso.
    assert (2 ^ dg (p + 1) <= 2 ^ (dg p - 1)) by (apply Z.pow_le_mono_r; lia). lia.
  - destruct (Z.leb_spec (dg (p + 1)) (dg p + 1)); [assumption|]. exfalso.
    assert (2 ^ (dg p + 1) <= 2 ^ (dg (p + 1) - 1)) by (apply Z.pow_le_mono_r; lia).
    rewrite Z.pow_add_r in H2 by lia. lia.
Qed.

Lemma shr_record_of_loc_m m l : shr_m (shr_record_of_loc m l) = m.
Proof. destruct l as [|[]]; reflexivity. Qed.

(** One truncation step: the result is canonical. *)
Lemma shr_fexp_canonical m e l :
  0 <= m -> e <= fexp 53 1024 (Zdigits2 m + e) ->
  exists mrs e', shr_fexp 53 1024 m e l = (mrs, e')
    /\ 0 <= shr_m mrs /\ e <= e'
    /\ shr_m mrs = m / 2 ^ (e' - e)
    /\ fexp 53 1024 (Zdigits2 (shr_m mrs) + e') = e'.
Proof.
  intros Hm Hpre. unfold shr_fexp.
  set (n := fexp 53 1024 (Zdigits2 m + e) - e).
  assert (Hn : 0 <= n) by (unfold n; lia).
  destruct (shr_m_value (shr_record_of_loc m l) e n) as (Hs & Hv);
    [rewrite shr_record_of_loc_m; exact Hm|exact Hn|].
  rewrite shr_record_of_loc_m in Hv.
  rewrite Hs. eexists _, _. split; [reflexivity|]. rewrite Hv.
  assert (Hp : 0 < 2 ^ n) by (apply Z.pow_pos_nonneg; lia).
  split; [apply Z.div_pos; lia|]. split; [lia|].
  split; [f_equal; f_equal; lia|].
  rewrite Zdigits2_div by lia. pose proof (Zdigits2_nonneg m).
  unfold n in *. rewrite !fexp_eq in *. lia.
Qed.

Lemma round_nearest_even_cases m l :
  round_nearest_even m l = m \/ round_nearest_even m l = m + 1.
Proof. destruct l as [|[]]; simpl; auto. destruct (Z.even m); auto. Qed.

Lemma binary_round_aux_valid sx mx ex lx :
  0 <= mx -> ex <= fexp 53 1024 (Zdigits2 mx + ex) ->
  valid_double (binary_round_aux 53 1024 sx mx ex lx) = true.
Proof.
  intros Hm Hpre. unfold binary_round_aux.
  destruct (shr_fexp_canonical mx ex lx Hm Hpre) as (mrs & e' & -> & Hm1 & _ & _ & Hc1).
  set (m1 := round_nearest_even (shr_m mrs) (loc_of_shr_record mrs)).
  assert (Hm1' : 0 <= m1 /\ Zdigits2 (shr_m mrs) <= Zdigits2 m1).
  { unfold m1. destruct (round_nearest_even_cases (shr_m mrs) (loc_of_shr_record mrs)) as [->| ->].
    - lia.
    - pose proof (Zdigits2_succ _ Hm1). lia. }
  destruct Hm1' as (Hm1' & Hd1).
  destruct (shr_fexp_canonical m1 e' loc_Exact Hm1') as (mrs2 & e2 & -> & Hm2 & _ & _ & Hc2).
  { rewrite <- Hc1 at 1. apply fexp_mono. lia. }
  destruct (shr_m mrs2) as [|p|p] eqn:Hp; try reflexivity.
  destruct (Z.leb_spec e2 (1024 - 53)) as [Hle|Hgt]; [|reflexivity].
  unfold valid_double, valid_binary, bounded, canonical_mantissa.
  cbn [Zdigits2] in Hc2. rewrite Hc2, Z.eqb_refl. cbn [andb]. now apply Z.leb_le.
Qed.


Lemma shl_align_spec mx ex ex' :
  exists mz, shl_align mx ex ex' = (mz, Z.min ex ex')
    /\ Z.pos mz = Z.pos mx * 2 ^ (ex - Z.min ex ex').
Proof.
  unfold shl_align. destruct (ex' - ex) as [|d|d] eqn:Hd.
  - exists mx. replace (Z.min ex ex') with ex by lia. rewrite Z.sub_diag. split; [reflexivity|lia].
  - exists mx. replace (Z.min ex ex') with ex by lia. rewrite Z.sub_diag. split; [reflexivity|lia].
  - eexists. replace (Z.min ex ex') with ex' by lia. split; [reflexivity|].
    change (Pos.iter xO mx d) with (shift_pos d mx).
    rewrite shift_pos_correct. change (Zpower_pos 2 d) with (2 ^ Z.pos d).
    replace (ex - ex') with (Z.pos d) by lia. lia.
Qed.

Lemma binary_round_valid sx mx ex : valid_double (binary_round 53 1024 sx mx ex) = true.
Proof.
  unfold binary_round.
  destruct (shl_align_spec mx ex (fexp 53 1024 (Z.pos (digits2_pos mx) + ex)))
    as (mz & -> & Hmz).
  apply binary_round_aux_valid; [lia|]. cbn [Zdigits2]. fold (dg mz) (dg mx) in *.
  set (F := fexp 53 1024 (dg mx + ex)) in *.
  assert (Hk : 0 <= ex - Z.min ex F) by lia.
  rewrite (dg_shiftl mx _ Hk mz Hmz).
  replace (dg mx + (ex - Z.min ex F) + Z.min ex F) with (dg mx + ex) by lia.
  fold F. lia.
Qed.

Lemma binary_normalize_valid m e sz : valid_double (binary_normalize 53 1024 m e sz) = true.
Proof. destruct m; [reflexivity| |]; apply binary_round_valid. Qed.

Lemma d_of_decimal_valid sg m e10 : valid_double (d_of_decimal sg m e10) = true.
Proof.
  unfold d_of_decimal. destruct m as [|p|p]; try reflexivity.
  destruct (0 <=? e10) eqn:He; [apply binary_normalize_valid|].
  apply Z.leb_gt in He.
  assert (Hten : 0 < 10 ^ (- e10)) by (apply Z.pow_pos_nonneg; lia).
  unfold SFdiv_core_binary.
  set (d1 := Zdigits2 (Z.pos p)). set (d2 := Zdigits2 (10 ^ (- e10))).
  set (e' := Z.min (fexp 53 1024 (d1 + 0 - (d2 + 0))) (0 - 0)).
  set (s := 0 - 0 - e').
  set (m' := match s with Z.pos _ => Z.shiftl (Z.pos p) s | 0 => Z.pos p | Z.neg _ => 0 end).
  assert (Hs : 0 <= s) by (unfold s, e'; lia).
  assert (Hm' : m' = Z.pos p * 2 ^ s).
  { unfold m'. destruct s as [|q|q] eqn:Hq; try lia.
    rewrite Z.shiftl_mul_pow2 by lia. reflexivity. }
  pose proof (Z_div_mod m' (10 ^ (- e10)) ltac:(lia)) as Hdiv.
  destruct (Z.div_eucl m' (10 ^ (- e10))) as (q & r) eqn:Hqr.
  destruct Hdiv as (Hdiv & Hr).
  assert (H2s : 0 < 2 ^ s) by (apply Z.pow_pos_nonneg; lia).
  assert (Hq : q = m' / 10 ^ (- e10)).
  { apply (Z.div_unique _ _ _ r); [lia|exact Hdiv]. }
  assert (Hq0 : 0 <= q) by (rewrite Hq; apply Z.div_pos; nia).
  apply binary_round_aux_valid; [exact Hq0|].
  assert (Hdq : d1 + s - d2 <= Zdigits2 q).
  { destruct (Z.leb_spec (d1 + s - d2) 0) as [|Ht]; [pose proof (Zdigits2_nonneg q); lia|].
    apply Zdigits2_lower; [exact Hq0| |lia].
    rewrite Hq. apply Z.div_le_lower_bound; [lia|].
    destruct (10 ^ (- e10)) as [|t|t] eqn:Et; try lia.
    unfold d1, d2 in *. cbn [Zdigits2] in *. fold (dg p) (dg t) in *.
    pose proof (dg_bounds p) as (Hlo & _). pose proof (dg_bounds t) as (_ & Hhi).
    pose proof (dg_pos p). pose proof (dg_pos t).
    rewrite Hm'.
    assert (E : 2 ^ (dg p + s - dg t - 1) * 2 ^ dg t = 2 ^ (dg p - 1) * 2 ^ s).
    { rewrite <- !Z.pow_add_r by lia. f_equal. lia. }
    assert (0 < 2 ^ (dg p + s - dg t - 1)) by (apply Z.pow_pos_nonneg; lia).
    nia. }
  assert (He' : e' <= fexp 53 1024 (d1 - d2)) by (unfold e'; rewrite !Z.add_0_r; lia).
  etransitivity; [exact He'|]. apply fexp_mono. unfold s in Hdq. lia.
Qed.

(** ** Values that need no rounding *)

Lemma bounded_spec m e :
  bounded 53 1024 m e = true <->
  (dg m <= 53 /\ -1074 <= e <= 971 /\ (dg m = 53 \/ e = -1074)).
Proof.
  unfold bounded, canonical_mantissa. fold (dg m). rewrite fexp_eq.
  rewrite andb_true_iff, Z.eqb_eq, Z.leb_le. pose proof (dg_pos m). lia.
Qed.



(** ** Order *)

(** A double of the format as an integer multiple of [2^-1074]. *)
Definition scaled (d : double) : Z :=
  match d with
  | S754_finite sg m e => (if sg then -1 else 1) * (Z.pos m * 2 ^ (e + 1074))
  | _ => 0
  end.

Lemma scaled_pos m e : 0 < Z.pos m * 2 ^ (e + 1074) \/ e + 1074 < 0.
Proof.
  destruct (Z.ltb_spec (e + 1074) 0); [now right|left].
  assert (0 < 2 ^ (e + 1074)) by (apply Z.pow_pos_nonneg; lia). lia.
Qed.

Lemma compare_bounded m1 e1 m2 e2 :
  bounded 53 1024 m1 e1 = true -> bounded 53 1024 m2 e2 = true ->
  match e1 ?= e2 with
  | Lt => Lt
  | Gt => Gt
  | Eq => Pos.compare_cont Eq m1 m2
  end = (Z.pos m1 * 2 ^ (e1 + 1074) ?= Z.pos m2 * 2 ^ (e2 + 1074)).
Proof.
  intros H1 H2. apply bounded_spec in H1 as (Hd1 & He1 & Hc1), H2 as (Hd2 & He2 & Hc2).
  pose proof (dg_bounds m1) as (Hlo1 & Hhi1). pose proof (dg_bounds m2) as (Hlo2 & Hhi2).
  assert (B1 : Z.pos m1 < 2 ^ 53).
  { eapply Z.lt_le_trans; [exact Hhi1|]. apply Z.pow_le_mono_r; lia. }
  assert (B2 : Z.pos m2 < 2 ^ 53).
  { eapply Z.lt_le_trans; [exact Hhi2|]. apply Z.pow_le_mono_r; lia. }
  destruct (Z.compare_spec e1 e2) as [->|Hlt|Hgt].
  - change (Pos.compare_cont Eq m1 m2) with (Z.pos m1 ?= Z.pos m2).
    apply Zmult_compare_compat_r. apply Z.lt_gt. apply Z.pow_pos_nonneg; lia.
  - symmetry. apply Z.compare_lt_iff.
    assert (dg m2 = 53) by lia. rewrite H in Hlo2.
    replace (e2 + 1074) with ((e2 - e1) + (e1 + 1074)) by lia.
    rewrite (Z.pow_add_r 2 (e2 - e1) (e1 + 1074)) by lia.
    assert (0 < 2 ^ (e1 + 1074)) by (apply Z.pow_pos_nonneg; lia).
    assert (2 ^ 1 <= 2 ^ (e2 - e1)) by (apply Z.pow_le_mono_r; lia).
    change (2 ^ 1) with 2 in *. change (2 ^ (53 - 1)) with 4503599627370496 in *.
    change (2 ^ 53) with 9007199254740992 in *.
    assert (Z.pos m1 < Z.pos m2 * 2 ^ (e2 - e1)) by nia.
    rewrite Z.mul_assoc. now apply Z.mul_lt_mono_pos_r.
  - symmetry. apply Z.compare_gt_iff.
    assert (dg m1 = 53) by lia. rewrite H in Hlo1.
    replace (e1 + 1074) with ((e1 - e2) + (e2 + 1074)) by lia.
    rewrite (Z.pow_add_r 2 (e1 - e2) (e2 + 1074)) by lia.
    assert (0 < 2 ^ (e2 + 1074)) by (apply Z.pow_pos_nonneg; lia).
    assert (2 ^ 1 <= 2 ^ (e1 - e2)) by (apply Z.pow_le_mono_r; lia).
    change (2 ^ 1) with 2 in *. change (2 ^ (53 - 1)) with 4503599627370496 in *.
    change (2 ^ 53) with 9007199254740992 in *.
    assert (Z.pos m2 < Z.pos m1 * 2 ^ (e1 - e2)) by nia.
    rewrite Z.mul_assoc. now apply Z.mul_lt_mono_pos_r.
Qed.

Lemma SFcompare_scaled d1 d2 :
  valid_double d1 = true -> valid_double d2 = true -> is_finite d1 = true -> is_finite d2 = true ->
  SFcompare d1 d2 = Some (scaled d1 ?= scaled d2).
Proof.
  destruct d1 as [s1|s1| |s1 m1 e1], d2 as [s2|s2| |s2 m2 e2]; try discriminate;
    cbn [valid_double valid_binary is_finite SFcompare scaled]; intros H1 H2 _ _.
  - reflexivity.
  - apply bounded_spec in H2 as H2'.
    assert (0 < 2 ^ (e2 + 1074)) by (apply Z.pow_pos_nonneg; lia).
    f_equal. symmetry. destruct s2; [apply Z.compare_gt_iff|apply Z.compare_lt_iff]; nia.
  - apply bounded_spec in H1 as H1'.
    assert (0 < 2 ^ (e1 + 1074)) by (apply Z.pow_pos_nonneg; lia).
    f_equal. symmetry. destruct s1; [apply Z.compare_lt_iff|apply Z.compare_gt_iff]; nia.
  - apply bounded_spec in H1 as H1', H2 as H2'.
    assert (0 < 2 ^ (e1 + 1074)) by (apply Z.pow_pos_nonneg; lia).
    assert (0 < 2 ^ (e2 + 1074)) by (apply Z.pow_pos_nonneg; lia).
    pose proof (compare_bounded m1 e1 m2 e2 H1 H2) as Hc.
    f_equal. destruct s1, s2.
    + replace (-1 * (Z.pos m1 * 2 ^ (e1 + 1074))) with (- (Z.pos m1 * 2 ^ (e1 + 1074))) by lia.
      replace (-1 * (Z.pos m2 * 2 ^ (e2 + 1074))) with (- (Z.pos m2 * 2 ^ (e2 + 1074))) by lia.
      rewrite Z.compare_opp, (Z.compare_antisym (Z.pos m1 * 2 ^ (e1 + 1074))), <- Hc.
      destruct (e1 ?= e2); reflexivity.
    + symmetry. apply Z.compare_lt_iff. nia.
    + symmetry. apply Z.compare_gt_iff. nia.
    + rewrite !Z.mul_1_l. exact Hc.
Qed.


Lemma SFltb_scaled d1 d2 :
  valid_double d1 = true -> valid_double d2 = true -> is_finite d1 = true -> is_finite d2 = true ->
  d_ltb d1 d2 = (scaled d1 <? scaled d2).
Proof.
  intros. unfold d_ltb, SFltb. rewrite SFcompare_scaled by assumption.
  unfold Z.ltb. destruct (scaled d1 ?= scaled d2); reflexivity.
Qed.



(** ** The test [fabs(floor(d) - d) <= DBL_EPSILON] *)




(** ** What [strtod] returns is a double of the format *)

Ltac inv_ok H :=
  match type of H with
  | bind ?m _ = Ok _ =>
    let E := fresh "E" in
    destruct m as [?| | |] eqn:E; cbn [bind] in H; [|discriminate H..]
  end.

Lemma strtod_decimal_valid s neg start i d e :
  strtod_decimal s neg start i = Ok (d, e) -> valid_double d = true.
Proof.
  unfold strtod_decimal. intros H. inv_ok H. destruct a as ((m1 & n1) & i1).
  inv_ok H. inv_ok H. destruct a0 as ((m & n2) & i2).
  destruct (n1 + n2)%nat.
  - injection H as <- _. reflexivity.
  - inv_ok H. destruct a0 as (x & j). injection H as <- _. apply d_of_decimal_valid.
Qed.

Lemma strtod_hex_valid s neg i d e :
  strtod_hex s neg i = Ok (Some (d, e)) -> valid_double d = true.
Proof.
  unfold strtod_hex. intros H. inv_ok H. destruct a as ((m1 & n1) & i1).
  inv_ok H. inv_ok H. destruct a0 as ((m & n2) & i2).
  destruct (n1 + n2)%nat; [discriminate H|].
  inv_ok H. destruct a0 as (x & j). injection H as <- _. apply binary_normalize_valid.
Qed.

Lemma strtod_valid s i d e : strtod s i = Ok (d, e) -> valid_double d = true.
Proof.
  unfold strtod. intros H. inv_ok H. inv_ok H.
  destruct a0.
  { inv_ok H. injection H as <- _. reflexivity. }
  inv_ok H. destruct a0.
  { inv_ok H. injection H as <- _. reflexivity. }
  inv_ok H. destruct a0.
  - inv_ok H. destruct a0 as [(d' & e')|].
    + injection H as <- _. now apply strtod_hex_valid in E3.
    + injection H as <- _. reflexivity.
  - now apply strtod_decimal_valid in H.
Qed.
(** * The parser stays inside the input *)

(** [within s v r]: the step [r], started at position [v], neither read
    outside [s] nor ran out of fuel; it ended at a position of [s] not before
    [v], and a position it reported through [ep] is a position of [s]. *)
Definition within {A} (s : text) (v : nat) (r : outcome (A * nat)) : Prop :=
  match r with
  | Ok (_, e) => (v <= e <= length s)%nat
  | Err (Some p) => (p <= length s)%nat
  | Err None => True
  | Fault | OutOfFuel => False
  end.

Lemma skip_loop_safe fuel : forall s i,
  (i <= length s)%nat -> (length s - i < fuel)%nat ->
  exists j, skip_loop fuel s i = Ok j /\ (i <= j <= length s)%nat.
Proof.
  induction fuel as [|fuel IH]; intros s i Hi Hfuel; [lia|].
  cbn [skip_loop].
  destruct (peek_le s i Hi) as (c & -> & Hc). cbn [bind].
  destruct (negb (c =? 0) && (c <=? 32)) eqn:E.
  - apply andb_true_iff in E as (E & _). apply negb_true_iff, Z.eqb_neq in E.
    specialize (Hc E).
    destruct (IH s (S i)) as (j & -> & Hj); [lia|lia|]. exists j. split; [reflexivity|lia].
  - exists i. split; [reflexivity|lia].
Qed.

Lemma skip_safe s i :
  (i <= length s)%nat -> exists j, skip s i = Ok j /\ (i <= j <= length s)%nat.
Proof. intros Hi. apply skip_loop_safe; lia. Qed.

Lemma starts_with_safe s lit : Forall (fun p => p <> 0) lit -> forall i,
  (i <= length s)%nat ->
  exists b, starts_with s i lit = Ok b /\ (b = true -> (i + length lit <= length s)%nat).
Proof.
  induction 1 as [|p lit Hp _ IH]; intros i Hi.
  - exists true. split; [reflexivity|]. cbn [length]. lia.
  - cbn [starts_with]. destruct (peek_le s i Hi) as (c & -> & Hc). cbn [bind].
    destruct (Z.eqb_spec c p) as [->|_].
    + specialize (Hc Hp). destruct (IH (S i)) as (b & -> & Hb); [lia|].
      exists b. split; [reflexivity|]. intros E. specialize (Hb E). cbn [length]. lia.
    + exists false. split; [reflexivity|discriminate].
Qed.

Lemma lower_nonzero c p : lower c = p -> p <> 0 -> c <> 0.
Proof. intros <- H ->. now apply H. Qed.

Lemma match_ci_safe s pat : Forall (fun p => p <> 0) pat -> forall i,
  (i <= length s)%nat ->
  exists b, match_ci s i pat = Ok b /\ (b = true -> (i + length pat <= length s)%nat).
Proof.
  induction 1 as [|p pat Hp _ IH]; intros i Hi.
  - exists true. split; [reflexivity|]. cbn [length]. lia.
  - cbn [match_ci]. destruct (peek_le s i Hi) as (c & -> & Hc). cbn [bind].
    destruct (Z.eqb_spec (lower c) p) as [E|_].
    + specialize (Hc (lower_nonzero c p E Hp)).
      destruct (IH (S i)) as (b & -> & Hb); [lia|].
      exists b. split; [reflexivity|]. intros Eb. specialize (Hb Eb). cbn [length]. lia.
    + exists false. split; [reflexivity|discriminate].
Qed.

Lemma scan_digits_safe fuel : forall s i acc n,
  (i <= length s)%nat -> (length s - i < fuel)%nat ->
  exists m k e, scan_digits fuel s i acc n = Ok (m, k, e) /\ (i <= e <= length s)%nat.
Proof.
  induction fuel as [|fuel IH]; intros s i acc n Hi Hfuel; [lia|].
  cbn [scan_digits]. destruct (peek_le s i Hi) as (c & -> & Hc). cbn [bind].
  destruct (is_digit c) eqn:E.
  - unfold is_digit in E. specialize (Hc ltac:(lia)).
    destruct (IH s (S i) (acc * 10 + (c - 48)) (S n)) as (m & k & e & -> & He); [lia|lia|].
    exists m, k, e. split; [reflexivity|lia].
  - exists acc, n, i. split; [reflexivity|lia].
Qed.

Lemma scan_hex_safe fuel : forall s i acc n,
  (i <= length s)%nat -> (length s - i < fuel)%nat ->
  exists m k e, scan_hex fuel s i acc n = Ok (m, k, e) /\ (i <= e <= length s)%nat.
Proof.
  induction fuel as [|fuel IH]; intros s i acc n Hi Hfuel; [lia|].
  cbn [scan_hex]. destruct (peek_le s i Hi) as (c & -> & Hc). cbn [bind].
  destruct (hex_digit c) as [v|] eqn:E.
  - specialize (Hc (hex_digit_nonzero c v E)).
    destruct (IH s (S i) (acc * 16 + v) (S n)) as (m & k & e & -> & He); [lia|lia|].
    exists m, k, e. split; [reflexivity|lia].
  - exists acc, n, i. split; [reflexivity|lia].
Qed.

Lemma scan_exponent_safe s i mark :
  mark <> 0 -> (i <= length s)%nat ->
  exists x j, scan_exponent s i mark = Ok (x, j) /\ (i <= j <= length s)%nat.
Proof.
  intros Hm Hi. unfold scan_exponent.
  destruct (peek_le s i Hi) as (c & -> & Hc). cbn [bind].
  destruct (Z.eqb_spec (lower c) mark) as [E|_].
  2:{ exists 0, i. split; [reflexivity|lia]. }
  specialize (Hc (lower_nonzero c mark E Hm)).
  destruct (peek_le s (S i)) as (sg & -> & Hsg); [lia|]. cbn [bind].
  set (j := if (sg =? 45) || (sg =? 43) then S (S i) else S i).
  assert (Hj : (S i <= j <= length s)%nat).
  { unfold j. destruct ((sg =? 45) || (sg =? 43)) eqn:Es; [|lia].
    assert (sg <> 0) as Hz by lia. specialize (Hsg Hz). lia. }
  destruct (scan_digits_safe (S (length s)) s j 0 0) as (x & nx & j' & -> & Hj'); [lia|lia|].
  cbn [bind]. destruct nx.
  - exists 0, i. split; [reflexivity|lia].
  - eexists _, j'. split; [reflexivity|lia].
Qed.

Lemma strtod_decimal_safe s neg start i :
  (start <= i <= length s)%nat ->
  exists d e, strtod_decimal s neg start i = Ok (d, e) /\ (start <= e <= length s)%nat.
Proof.
  intros Hi. unfold strtod_decimal.
  destruct (scan_digits_safe (S (length s)) s i 0 0) as (m1 & n1 & i1 & -> & H1); [lia|lia|].
  cbn [bind]. destruct (peek_le s i1) as (dot & -> & Hdot); [lia|]. cbn [bind].
  assert (H2 : exists m n2 i2,
             (if dot =? 46 then scan_digits (S (length s)) s (S i1) m1 0
              else Ok (m1, 0%nat, i1)) = Ok (m, n2, i2) /\ (i1 <= i2 <= length s)%nat).
  { destruct (Z.eqb_spec dot 46) as [E|_].
    - specialize (Hdot ltac:(lia)).
      destruct (scan_digits_safe (S (length s)) s (S i1) m1 0) as (m & n2 & i2 & -> & H2);
        [lia|lia|].
      exists m, n2, i2. split; [reflexivity|lia].
    - exists m1, 0%nat, i1. split; [reflexivity|lia]. }
  destruct H2 as (m & n2 & i2 & -> & H2). cbn [bind].
  destruct (n1 + n2)%nat.
  - exists d_zero, start. split; [reflexivity|lia].
  - destruct (scan_exponent_safe s i2 101) as (x & j & -> & Hj); [lia|lia|]. cbn [bind].
    eexists _, j. split; [reflexivity|lia].
Qed.

Lemma strtod_hex_safe s neg i :
  (i <= length s)%nat ->
  exists r, strtod_hex s neg i = Ok r
            /\ match r with Some (_, e) => (i <= e <= length s)%nat | None => True end.
Proof.
  intros Hi. unfold strtod_hex.
  destruct (scan_hex_safe (S (length s)) s i 0 0) as (m1 & n1 & i1 & -> & H1); [lia|lia|].
  cbn [bind]. destruct (peek_le s i1) as (dot & -> & Hdot); [lia|]. cbn [bind].
  assert (H2 : exists m n2 i2,
             (if dot =? 46 then scan_hex (S (length s)) s (S i1) m1 0
              else Ok (m1, 0%nat, i1)) = Ok (m, n2, i2) /\ (i1 <= i2 <= length s)%nat).
  { destruct (Z.eqb_spec dot 46) as [E|_].
    - specialize (Hdot ltac:(lia)).
      destruct (scan_hex_safe (S (length s)) s (S i1) m1 0) as (m & n2 & i2 & -> & H2);
        [lia|lia|].
      exists m, n2, i2. split; [reflexivity|lia].
    - exists m1, 0%nat, i1. split; [reflexivity|lia]. }
  destruct H2 as (m & n2 & i2 & -> & H2). cbn [bind].
  destruct (n1 + n2)%nat.
  - exists None. split; [reflexivity|exact I].
  - destruct (scan_exponent_safe s i2 112) as (x & j & -> & Hj); [lia|lia|]. cbn [bind].
    eexists (Some (_, j)). split; [reflexivity|lia].
Qed.

Lemma scan_nchars_safe fuel : forall s i,
  (i <= length s)%nat -> (length s - i < fuel)%nat ->
  exists e, scan_nchars fuel s i = Ok e /\ (i <= e <= length s)%nat.
Proof.
  induction fuel as [|fuel IH]; intros s i Hi Hfuel; [lia|].
  cbn [scan_nchars]. destruct (peek_le s i Hi) as (c & -> & Hc). cbn [bind].
  destruct (is_nchar c) eqn:E.
  - assert (c <> 0) as Hz by (intros ->; discriminate E). specialize (Hc Hz).
    destruct (IH s (S i)) as (e & -> & He); [lia|lia|].
    exists e. split; [reflexivity|lia].
  - exists i. split; [reflexivity|lia].
Qed.

Lemma nan_end_safe s i :
  (i <= length s)%nat ->
  exists e, nan_end s i = Ok e /\ (i <= e <= length s)%nat.
Proof.
  intros Hi. unfold nan_end.
  destruct (peek_le s i Hi) as (c & -> & Hc). cbn [bind].
  destruct (Z.eqb_spec c 40) as [E|_].
  2:{ exists i. split; [reflexivity|lia]. }
  specialize (Hc ltac:(lia)).
  destruct (scan_nchars_safe (S (length s)) s (S i)) as (j & -> & Hj); [lia|lia|].
  cbn [bind]. destruct (peek_le s j) as (c' & -> & Hc'); [lia|]. cbn [bind].
  eexists. split; [reflexivity|].
  destruct (Z.eqb_spec c' 41) as [E'|_]; [|lia].
  specialize (Hc' ltac:(lia)). lia.
Qed.

Ltac nonzero_pattern := repeat constructor; discriminate.

(** [strtod] reads no further than the input and ends at a position of it. *)
Lemma strtod_safe s num :
  (num <= length s)%nat ->
  exists d e, strtod s num = Ok (d, e) /\ (num <= e <= length s)%nat.
Proof.
  intros Hn. unfold strtod.
  destruct (peek_le s num Hn) as (c & -> & Hc). cbn [bind].
  set (i := if (c =? 45) || (c =? 43) then S num else num).
  assert (Hi : (num <= i <= length s)%nat).
  { unfold i. destruct ((c =? 45) || (c =? 43)) eqn:E; [|lia].
    assert (c <> 0) as Hz by lia. specialize (Hc Hz). lia. }
  destruct (match_ci_safe s [105; 110; 102] ltac:(nonzero_pattern) i) as (inf & -> & Hinf);
    [lia|]. cbn [bind].
  destruct inf.
  { specialize (Hinf eq_refl). cbn [length] in Hinf.
    destruct (match_ci_safe s [105; 110; 105; 116; 121] ltac:(nonzero_pattern) (i + 3))
      as (inity & -> & Hy); [lia|]. cbn [bind].
    eexists _, _. split; [reflexivity|].
    destruct inity; [specialize (Hy eq_refl); cbn [length] in Hy|]; lia. }
  destruct (match_ci_safe s [110; 97; 110] ltac:(nonzero_pattern) i) as (nan & -> & Hnan);
    [lia|]. cbn [bind].
  destruct nan.
  { specialize (Hnan eq_refl). cbn [length] in Hnan.
    destruct (nan_end_safe s (i + 3)) as (e & -> & He); [lia|]. cbn [bind].
    eexists _, _. split; [reflexivity|lia]. }
  destruct (match_ci_safe s [48; 120] ltac:(nonzero_pattern) i) as (hex & -> & Hhex);
    [lia|]. cbn [bind].
  destruct hex.
  { specialize (Hhex eq_refl). cbn [length] in Hhex.
    destruct (strtod_hex_safe s (c =? 45) (i + 2)) as (r & -> & Hr); [lia|]. cbn [bind].
    destruct r as [[d e]|].
    - exists d, e. split; [reflexivity|lia].
    - eexists _, _. split; [reflexivity|lia]. }
  destruct (strtod_decimal_safe s (c =? 45) num i) as (d & e & -> & He); [lia|].
  exists d, e. split; [reflexivity|lia].
Qed.

(** A NaN may carry a parenthesised n-char-sequence, which belongs to the
    subject sequence: ["-nan(1)"] is consumed whole, while an ill-formed or
    unclosed sequence is left unread.  The parser therefore reads
    ["[-nan(1)]"] as an array holding one number. *)
Lemma strtod_nan_sequence :
  strtod (bytes "-nan(1)"%string) 0 = Ok (S754_nan, 7%nat)
  /\ strtod (bytes "NaN(a_Z9)x"%string) 0 = Ok (S754_nan, 9%nat)
  /\ strtod (bytes "nan()"%string) 0 = Ok (S754_nan, 5%nat)
  /\ strtod (bytes "nan(1-)"%string) 0 = Ok (S754_nan, 3%nat)
  /\ strtod (bytes "nan("%string) 0 = Ok (S754_nan, 3%nat)
  /\ cJSON_Parse {| global_ep := None; return_parse_end := None |}
       (bytes "[-nan(1)]"%string)
     = Some (Some (Item cJSON_Array false d_zero None None
                     [Item cJSON_Number false S754_nan None None []]),
             {| global_ep := None; return_parse_end := None |}).
Proof. repeat split; vm_compute; reflexivity. Qed.

Lemma parse_number_safe item s num :
  (num <= length s)%nat -> within s num (parse_number item s num).
Proof.
  intros Hn. unfold parse_number.
  destruct (strtod_safe s num Hn) as (d & e & -> & He). cbn [bind].
  destruct (num =? e)%nat; [exact I|]. exact He.
Qed.

(** [parse_string] fails either without a position or at the opening
    quote. *)
Lemma parse_string_within s str :
  (str <= length s)%nat -> within s str (parse_string s str).
Proof.
  intros Hs. pose proof (parse_string_safe s str Hs) as H.
  destruct (parse_string s str) as [[o e]|[p|]| |] eqn:E; cbn [within];
    try exact H; try exact I; [lia|].
  revert E. unfold parse_string.
  destruct (peek_le s str Hs) as (q & -> & Nq). cbn [bind].
  destruct (Z.eqb_spec q 34) as [->|_]; cbn [negb]; [|intros [= <-]; exact Hs].
  specialize (Nq ltac:(discriminate)).
  destruct (scan_end_safe (S (length s)) s (S str) 0) as [->|(e & l & -> & Hb & Hend)];
    [lia|lia|discriminate|].
  cbn [bind].
  pose proof (unescape_safe (S (length s)) s str e (S str) [] ltac:(lia) ltac:(lia) ltac:(lia)) as U.
  destruct (unescape _ _ _ _ _ _) as [[p' o]|ep| |]; simpl in U; try contradiction.
  - cbn [bind]. destruct (peek_le s p') as (c & -> & _); [lia|]. cbn [bind].
    destruct (c =? 34); intros [=].
  - cbn [bind]. intros [= ->]. injection U as ->. exact Hs.
Qed.

Lemma within_mono {A} s v v' (r : outcome (A * nat)) :
  (v <= v')%nat -> within s v' r -> within s v r.
Proof. destruct r as [[a e]|[p|]| |]; cbn [within]; intros; try assumption; lia. Qed.

Lemma within_bind {A B} s v v0 (m : outcome (A * nat)) (k : A * nat -> outcome (B * nat)) :
  within s v0 m ->
  (forall a e, (v0 <= e <= length s)%nat -> within s v (k (a, e))) ->
  within s v (bind m k).
Proof.
  destruct m as [[a e]|[p|]| |]; cbn [within bind]; intros H Hk;
    try assumption; try contradiction. now apply Hk.
Qed.

Section ContainerSafety.
Variable parse_value : cJSON -> text -> nat -> outcome (cJSON * nat).
Variable s : text.
Variable lo : nat.
Hypothesis Hpv : forall item v,
  (lo <= v <= length s)%nat -> within s v (parse_value item s v).

Lemma parse_array_loop_safe fuel : forall value done,
  (lo <= S value)%nat -> (value <= length s)%nat -> (length s - value < fuel)%nat ->
  within s value (parse_array_loop parse_value fuel s value done).
Proof.
  induction fuel as [|fuel IH]; intros value done Hlo Hv Hfuel; [lia|].
  cbn [parse_array_loop].
  destruct (peek_le s value Hv) as (c & -> & Hc). cbn [bind].
  destruct (Z.eqb_spec c 44) as [->|_].
  - specialize (Hc ltac:(discriminate)).
    destruct (skip_safe s (S value)) as (v & -> & Hv1); [lia|]. cbn [bind].
    apply (within_bind s value v); [apply Hpv; lia|].
    intros child v' Hv'.
    destruct (skip_safe s v') as (value' & -> & Hv2); [lia|]. cbn [bind].
    apply (within_mono s value value'); [lia|]. apply IH; lia.
  - destruct (Z.eqb_spec c 93) as [->|_]; cbn [within]; [|exact Hv].
    specialize (Hc ltac:(discriminate)). lia.
Qed.

Lemma parse_array_safe item value :
  (lo <= S value)%nat -> (value <= length s)%nat ->
  within s value (parse_array parse_value item s value).
Proof.
  intros Hlo Hv. unfold parse_array.
  destruct (peek_le s value Hv) as (c & -> & Hc). cbn [bind].
  destruct (Z.eqb_spec c 91) as [->|_]; cbn [negb within]; [|exact Hv].
  specialize (Hc ltac:(discriminate)).
  destruct (skip_safe s (S value)) as (v & -> & Hv1); [lia|]. cbn [bind].
  destruct (peek_le s v) as (c & -> & Hc1); [lia|]. cbn [bind].
  destruct (Z.eqb_spec c 93) as [->|_].
  { specialize (Hc1 ltac:(discriminate)). cbn [within]. lia. }
  destruct (skip_safe s v) as (v2 & -> & Hv2); [lia|]. cbn [bind].
  apply (within_bind s value v2); [apply Hpv; lia|].
  intros child v' Hv'.
  destruct (skip_safe s v') as (value' & -> & Hv3); [lia|]. cbn [bind].
  apply (within_bind s value value'); [apply parse_array_loop_safe; lia|].
  intros children e He. cbn [within]. lia.
Qed.

Lemma parse_member_safe child value :
  (lo <= value <= length s)%nat ->
  within s value (parse_member parse_value child s value).
Proof.
  intros Hv. unfold parse_member.
  destruct (skip_safe s value) as (v & -> & Hv1); [lia|]. cbn [bind].
  apply (within_bind s value v); [apply parse_string_within; lia|].
  intros key v' Hv'.
  destruct (skip_safe s v') as (value' & -> & Hv2); [lia|]. cbn [bind].
  destruct (peek_le s value') as (c & -> & Hc); [lia|]. cbn [bind].
  destruct (Z.eqb_spec c 58) as [->|_]; cbn [negb within]; [|lia].
  specialize (Hc ltac:(discriminate)).
  destruct (skip_safe s (S value')) as (v3 & -> & Hv3); [lia|]. cbn [bind].
  apply (within_bind s value v3); [apply Hpv; lia|].
  intros child' v4 Hv4.
  destruct (skip_safe s v4) as (v5 & -> & Hv5); [lia|]. cbn [bind within]. lia.
Qed.

Lemma parse_object_loop_safe fuel : forall value done,
  (lo <= S value)%nat -> (value <= length s)%nat -> (length s - value < fuel)%nat ->
  within s value (parse_object_loop parse_value fuel s value done).
Proof.
  induction fuel as [|fuel IH]; intros value done Hlo Hv Hfuel; [lia|].
  cbn [parse_object_loop].
  destruct (peek_le s value Hv) as (c & -> & Hc). cbn [bind].
  destruct (Z.eqb_spec c 44) as [->|_].
  - specialize (Hc ltac:(discriminate)).
    apply (within_bind s value (S value)); [apply parse_member_safe; lia|].
    intros child value' Hv'.
    apply (within_mono s value value'); [lia|]. apply IH; lia.
  - destruct (Z.eqb_spec c 125) as [->|_]; cbn [within]; [|exact Hv].
    specialize (Hc ltac:(discriminate)). lia.
Qed.

Lemma parse_object_safe item value :
  (lo <= S value)%nat -> (value <= length s)%nat ->
  within s value (parse_object parse_value item s value).
Proof.
  intros Hlo Hv. unfold parse_object.
  destruct (peek_le s value Hv) as (c & -> & Hc). cbn [bind].
  destruct (Z.eqb_spec c 123) as [->|_]; cbn [negb within]; [|exact Hv].
  specialize (Hc ltac:(discriminate)).
  destruct (skip_safe s (S value)) as (v & -> & Hv1); [lia|]. cbn [bind].
  destruct (peek_le s v) as (c & -> & Hc1); [lia|]. cbn [bind].
  destruct (Z.eqb_spec c 125) as [->|_].
  { specialize (Hc1 ltac:(discriminate)). cbn [within]. lia. }
  apply (within_bind s value v); [apply parse_member_safe; lia|].
  intros child value' Hv'.
  apply (within_bind s value value'); [apply parse_object_loop_safe; lia|].
  intros children e He. cbn [within]. lia.
Qed.

End ContainerSafety.

Ltac literal_step s value lit H :=
  let b := fresh "b" in
  destruct (starts_with_safe s lit ltac:(nonzero_pattern) value) as (b & -> & H);
  [lia|]; cbn [bind]; destruct b;
  [specialize (H eq_refl); cbn [length lit_null lit_false lit_true within] in *; lia|clear H].

(** [parse_value] with fuel beyond the remaining input reads no byte
    outside the input and does not run out of fuel. *)
Lemma parse_value_safe fuel : forall item s value,
  (value <= length s)%nat -> (length s - value < fuel)%nat ->
  within s value (parse_value fuel item s value).
Proof.
  induction fuel as [|fuel IH]; intros item s value Hv Hfuel; [lia|].
  cbn [parse_value].
  literal_step s value lit_null H.
  literal_step s value lit_false H.
  literal_step s value lit_true H.
  destruct (peek_le s value Hv) as (c & -> & Hc). cbn [bind].
  destruct (Z.eqb_spec c 34) as [->|_].
  { apply (within_bind s value value); [apply parse_string_within; lia|].
    intros out e He. exact He. }
  destruct ((c =? 45) || ((48 <=? c) && (c <=? 57))); [apply parse_number_safe; lia|].
  assert (Hnext : forall item' v, (S value <= v <= length s)%nat ->
                                  within s v (parse_value fuel item' s v))
    by (intros item' v Hv'; apply IH; lia).
  destruct (Z.eqb_spec c 91) as [->|_]; [now apply (parse_array_safe _ s (S value))|].
  destruct (Z.eqb_spec c 123) as [->|_]; [now apply (parse_object_safe _ s (S value))|].
  exact Hv.
Qed.

(** X11: for every input text and every choice of options the parse entry
    point returns: no step of the parser reads a byte beyond the terminator
    of the text, and every loop ends within the text. *)
Theorem X11_parse_stays_in_text (st : slots) (s : text) (given rnt : bool) :
  exists r st', cJSON_ParseWithOpts st s given rnt = Some (r, st').
Proof.
  unfold cJSON_ParseWithOpts.
  destruct (skip_safe s 0) as (v & -> & Hv); [lia|]. cbn [bind].
  pose proof (parse_value_safe (S (length s)) cJSON_New_Item s v ltac:(lia) ltac:(lia)) as H.
  destruct (parse_value _ _ _ _) as [[c e]|[p|]| |]; cbn [within] in H; try contradiction;
    try (eexists _, _; reflexivity).
  destruct rnt; [|eexists _, _; reflexivity].
  destruct (skip_safe s e) as (e' & -> & He'); [lia|].
  destruct (peek_le s e') as (ch & Hch & _); [lia|].
  unfold peek in Hch. destruct (rd s e') as [ch'|]; [|discriminate].
  destruct (negb (ch' =? 0)); eexists _, _; reflexivity.
Qed.

(** The slot a parse reports to. *)
Definition slot (given : bool) (st : slots) : option nat :=
  if given then return_parse_end st else global_ep st.

(** X12: a position that a failed parse reports, in the global slot or in
    the caller's, is a position of the parsed text (at most that of its
    terminator). *)
Theorem X12_reported_position_in_text (st st' : slots) (s : text) (given rnt : bool)
  (p : nat) :
  cJSON_ParseWithOpts st s given rnt = Some (None, st') ->
  slot given st' = Some p -> (p <= length s)%nat.
Proof.
  unfold cJSON_ParseWithOpts.
  destruct (skip_safe s 0) as (v & -> & Hv); [lia|]. cbn [bind].
  pose proof (parse_value_safe (S (length s)) cJSON_New_Item s v ltac:(lia) ltac:(lia)) as H.
  destruct (parse_value _ _ _ _) as [[c e]|[q|]| |]; cbn [within] in H; try contradiction.
  - destruct rnt; [|discriminate].
    destruct (skip_safe s e) as (e' & -> & He'); [lia|].
    destruct (rd s e') as [ch|]; [|discriminate].
    destruct (negb (ch =? 0)); [|discriminate].
    intros [= <-]. destruct given; cbn; intros [= <-]; lia.
  - intros [= <-]. destruct given; cbn; intros [= <-]; exact H.
  - intros [= <-]. destruct given; cbn; discriminate.
Qed.

Lemma X12_reported_position_in_text_witness : (3 <= length (bytes "[1,]"%string))%nat.
Proof.
  apply (X12_reported_position_in_text no_error
           {| global_ep := Some 3%nat; return_parse_end := None |}
           (bytes "[1,]"%string) false false 3%nat); reflexivity.
Defined.

(** X13: a successful parse that reports to the global slot leaves it
    empty and does not touch the caller's slot; one that reports to the
    caller's slot stores there the position where it stopped reading, which
    is a position of the text, and does not touch the global slot (so the
    error accessor keeps what an earlier parse left). *)
Theorem X13_success_slots (st st' : slots) (s : text) (given rnt : bool) (t : cJSON) :
  cJSON_ParseWithOpts st s given rnt = Some (Some t, st') ->
  if given
  then global_ep st' = global_ep st
       /\ exists e, return_parse_end st' = Some e /\ (e <= length s)%nat
  else cJSON_GetErrorPtr st' = None /\ return_parse_end st' = return_parse_end st.
Proof.
  unfold cJSON_ParseWithOpts.
  destruct (skip_safe s 0) as (v & -> & Hv); [lia|]. cbn [bind].
  pose proof (parse_value_safe (S (length s)) cJSON_New_Item s v ltac:(lia) ltac:(lia)) as H.
  destruct (parse_value _ _ _ _) as [[c e]|[q|]| |]; cbn [within] in H; try contradiction;
    try discriminate.
  destruct rnt.
  - destruct (skip_safe s e) as (e' & -> & He'); [lia|].
    destruct (rd s e') as [ch|]; [|discriminate].
    destruct (negb (ch =? 0)); [discriminate|]. intros [= _ <-].
    destruct given; cbn; [|auto]. split; [reflexivity|]. exists e'. split; [reflexivity|lia].
  - intros [= _ <-].
    destruct given; cbn; [|auto]. split; [reflexivity|]. exists e. split; [reflexivity|lia].
Qed.

Lemma X13_success_slots_witness :
  global_ep {| global_ep := Some 7%nat; return_parse_end := Some 3%nat |} = Some 7%nat
  /\ exists e, return_parse_end {| global_ep := Some 7%nat; return_parse_end := Some 3%nat |}
               = Some e /\ (e <= length (bytes "[1] "%string))%nat.
Proof.
  apply (X13_success_slots {| global_ep := Some 7%nat; return_parse_end := None |}
           {| global_ep := Some 7%nat; return_parse_end := Some 3%nat |}
           (bytes "[1] "%string) true false
           (Item cJSON_Array false d_zero None None
              [Item cJSON_Number false (d_of_Z 1) None None []])).
  vm_compute. reflexivity.
Defined.

(** ** Text after the value *)

Definition is_blank (c : Z) : Prop := 0 < c <= 32.

Lemma skip_loop_blank (ws : text) : forall fuel s i l,
  at_pos s i (ws ++ l) -> Forall is_blank ws ->
  match l with [] => True | c :: _ => 32 < c end ->
  (length ws < fuel)%nat ->
  skip_loop fuel s i = Ok (i + length ws)%nat.
Proof.
  induction ws as [|w ws IH]; intros fuel s i l Hat Hws Hl Hfuel;
    (destruct fuel as [|fuel]; [lia|]); cbn [skip_loop app length] in *.
  - destruct l as [|c l].
    + rewrite (at_pos_peek_nil _ _ Hat). cbn [bind Z.eqb negb andb]. f_equal. lia.
    + rewrite (at_pos_peek _ _ _ _ Hat). cbn [bind].
      destruct (Z.leb_spec c 32); [lia|]. rewrite andb_false_r. f_equal. lia.
  - rewrite (at_pos_peek _ _ _ _ Hat). cbn [bind].
    apply Forall_cons in Hws as ((Hw0 & Hw32) & Hws).
    destruct (Z.eqb_spec w 0); [lia|]. destruct (Z.leb_spec w 32); [|lia].
    cbn [negb andb].
    rewrite (IH fuel s (S i) l (at_pos_next _ _ _ _ Hat) Hws Hl ltac:(lia)).
    f_equal. lia.
Qed.

Lemma at_pos_drop (s : text) (e : nat) : (e <= length s)%nat -> at_pos s e (drop e s).
Proof.
  intros He. exists (take e s). split; [now rewrite take_drop|].
  rewrite length_take. lia.
Qed.

(** X14: when a parse that allows trailing text succeeds and stops at
    position [e], the same parse with [require_null_terminated] set succeeds
    with the same tree if only bytes up to the space (blanks) follow [e], and
    fails reporting the first byte above the space otherwise. *)
Theorem X14_require_null_terminated (st st1 : slots) (s : text) (t : cJSON) (e : nat) :
  cJSON_ParseWithOpts st s true false = Some (Some t, st1) ->
  return_parse_end st1 = Some e ->
  forall (given : bool) (st0 : slots),
    (Forall is_blank (drop e s) ->
     exists st2, cJSON_ParseWithOpts st0 s given true = Some (Some t, st2))
    /\ (forall ws c rest,
          drop e s = ws ++ c :: rest -> Forall is_blank ws -> 32 < c ->
          exists st2, cJSON_ParseWithOpts st0 s given true = Some (None, st2)
                      /\ slot given st2 = Some (e + length ws)%nat).
Proof.
  unfold cJSON_ParseWithOpts.
  destruct (skip_safe s 0) as (v & -> & Hv); [lia|]. cbn [bind].
  pose proof (parse_value_safe (S (length s)) cJSON_New_Item s v ltac:(lia) ltac:(lia)) as H.
  destruct (parse_value _ _ _ _) as [[c e0]|[q|]| |]; cbn [within] in H; try contradiction;
    try discriminate.
  intros [= -> <-]. intros Hret. cbn in Hret. injection Hret as ->. intros given st0.
  pose proof (at_pos_drop s e ltac:(lia)) as Hat. split.
  - intros Hb.
    rewrite <- (app_nil_r (drop e s)) in Hat.
    unfold skip. rewrite (skip_loop_blank _ _ s e [] Hat Hb I)
      by (rewrite length_drop; lia).
    rewrite length_drop. replace (e + (length s - e))%nat with (length s) by lia.
    rewrite rd_end. cbn [Z.eqb negb]. eexists. reflexivity.
  - intros ws c' rest Hd Hb Hc. rewrite Hd in Hat.
    assert (Hlen : (length ws < S (length s))%nat).
    { apply (f_equal (@length Z)) in Hd. rewrite length_drop, length_app in Hd. lia. }
    unfold skip. rewrite (skip_loop_blank ws _ s e (c' :: rest) Hat Hb Hc Hlen).
    pose proof (at_pos_app _ _ _ _ Hat) as Hat'.
    pose proof (at_pos_peek _ _ _ _ Hat') as Hpk. unfold peek in Hpk.
    destruct (rd s (e + length ws)) as [ch|]; [|discriminate].
    injection Hpk as ->. destruct (Z.eqb_spec c' 0); [lia|]. cbn [negb].
    eexists. split; [reflexivity|]. destruct given; reflexivity.
Qed.

Lemma X14_require_null_terminated_witness :
  (Forall is_blank (drop 3 (bytes "[1] x"%string)) ->
   exists st2, cJSON_ParseWithOpts no_error (bytes "[1] x"%string) false true
               = Some (Some (Item cJSON_Array false d_zero None None
                               [Item cJSON_Number false (d_of_Z 1) None None []]), st2))
  /\ (forall ws c rest,
        drop 3 (bytes "[1] x"%string) = ws ++ c :: rest -> Forall is_blank ws -> 32 < c ->
        exists st2, cJSON_ParseWithOpts no_error (bytes "[1] x"%string) false true
                    = Some (None, st2)
                    /\ slot false st2 = Some (3 + length ws)%nat).
Proof.
  apply (X14_require_null_terminated no_error
           {| global_ep := None; return_parse_end := Some 3%nat |}
           (bytes "[1] x"%string)
           (Item cJSON_Array false d_zero None None
              [Item cJSON_Number false (d_of_Z 1) None None []]) 3%nat
           ltac:(vm_compute; reflexivity) eq_refl false no_error).
Defined.

(** * Error reporting of the parser *)

(** ** Claim C6 *)

(** C6 at the input [-]: [parse_number] returns NULL without storing
    through [ep], so the parse fails and the error accessor returns NULL
    instead of a position in the text.  The same happens when a string
    literal ends on a backslash. *)
Theorem C6_failure_without_position (st : slots) :
  (exists st', cJSON_Parse st (bytes "-"%string) = Some (None, st')
               /\ cJSON_GetErrorPtr st' = None)
  /\ (exists st', cJSON_Parse st [34; 92] = Some (None, st')
                  /\ cJSON_GetErrorPtr st' = None).
Proof. split; eexists; split; reflexivity. Qed.

(** A failure that does store a position: the trailing comma of [[1,]]. *)
Lemma parse_trailing_comma (st : slots) :
  exists st', cJSON_Parse st (bytes "[1,]"%string) = Some (None, st')
              /\ cJSON_GetErrorPtr st' = Some 3%nat.
Proof. eexists; split; reflexivity. Qed.

(** * Layout of composed objects *)

(** ** Claim C7 *)

(** The layout of an object as the claim words it: before each member a
    newline and the tabs of its depth, after each colon the separator
    [sep], between members a comma, before the closing brace a newline and
    the tabs of the object's depth; in compact mode none of the white
    space. *)
Fixpoint members_layout (sep : text) (fmt : bool) (depth : nat) (ms : list (text * text)) : text :=
  match ms with
  | [] => []
  | (k, v) :: rest =>
    (if fmt then 10 :: repeat 9 (S depth) else []) ++ k ++ 58 :: (if fmt then sep else []) ++ v
      ++ (match rest with [] => [] | _ => [44] end)
      ++ members_layout sep fmt depth rest
  end.

Definition object_layout (sep : text) (fmt : bool) (depth : nat) (ms : list (text * text)) : text :=
  123 :: members_layout sep fmt depth ms ++ (if fmt then 10 :: repeat 9 depth else []) ++ [125].

Definition object_a_null : cJSON :=
  Item cJSON_Object false d_zero None None
    [Item cJSON_NULL false d_zero None (Some (bytes "a"%string)) []].

(** C7, as stated, fails: in pretty mode the character after a key's colon
    is a tab, not a space. *)
Lemma C7_tab_after_colon :
  cJSON_Print object_a_null = Some [123; 10; 9; 34; 97; 34; 58; 9; 110; 117; 108; 108; 10; 125]
  /\ cJSON_Print object_a_null
     <> Some (object_layout [32] true 0 [([34; 97; 34], bytes "null"%string)]).
Proof. split; [reflexivity|]. vm_compute. discriminate. Qed.

Ltac norm_app := repeat (progress (cbn [app]; rewrite <- ?app_assoc)).

Lemma collect_Forall2 {A B} (f : A -> option B) (l : list A) (r : list B) :
  Forall2 (fun a b => f a = Some b) l r -> collect (map f l) = Some r.
Proof.
  induction 1 as [|a b l r Hab _ IH]; [reflexivity|].
  cbn [map collect]. now rewrite Hab, IH.
Qed.

Lemma compose_object_layout (fmt : bool) (depth : nat) : forall (names entries : list text) n i,
  length names = length entries -> n = (i + length entries)%nat ->
  (if fmt then [10] else []) ++ compose_object fmt (S depth) n i names entries
    ++ (if fmt then repeat 9 depth else [])
  = members_layout [9] fmt depth (combine names entries)
    ++ (if fmt then 10 :: repeat 9 depth else []).
Proof.
  induction names as [|k names IH]; intros entries n i Hlen Hn.
  - destruct entries; [|discriminate]. destruct fmt; reflexivity.
  - destruct entries as [|v entries]; [discriminate|].
    cbn [compose_object combine members_layout length] in *.
    injection Hlen as Hlen.
    specialize (IH entries n (S i) Hlen ltac:(lia)).
    assert (Hlast : (if negb (i =? n - 1)%nat then [44] else [])
                    = match combine names entries with [] => [] | _ => [44] end).
    { destruct names, entries; try discriminate; cbn [combine].
      - subst n. cbn [length]. replace (i + 1 - 1)%nat with i by lia.
        now rewrite Nat.eqb_refl.
      - subst n. cbn [length]. destruct (Nat.eqb_spec i (i + S (S (length entries)) - 1)); [lia|reflexivity]. }
    rewrite Hlast. clear Hlast.
    destruct fmt; repeat (progress (cbn [app] in *; rewrite <- ?app_assoc in * ));
      [rewrite <- IH|rewrite <- IH]; reflexivity.
Qed.

(** C7 (amended): an object whose members render is composed, in pretty
    mode, with one newline and the tabs of the member's depth before each
    member, one tab after each key's colon, a comma between members and one
    newline and the tabs of the object's depth before the closing brace; in
    compact mode with none of the white space and a bare comma between
    members. *)
Theorem C7_object_layout (b : bool) (n : double) (s k : option text)
  (children : list cJSON) (entries : list text) (depth : nat) (fmt : bool) :
  Forall2 (fun c e => print_value c (S depth) fmt = Some e) children entries ->
  print_value (Item cJSON_Object b n s k children) depth fmt
  = Some (object_layout [9] fmt depth
            (combine (map (fun c => print_string_ptr (name_of c)) children) entries)).
Proof.
  intros H. cbn [print_value]. unfold print_object_of, object_layout.
  rewrite (collect_Forall2 _ _ _ H).
  pose proof (Forall2_length _ _ _ H) as Hlen.
  rewrite length_map.
  destruct children as [|c children].
  - destruct entries; [|discriminate]. reflexivity.
  - cbn [length]. f_equal. f_equal.
    set (names := map (fun c0 => print_string_ptr (name_of c0)) (c :: children)).
    replace (S depth - 1)%nat with depth by lia.
    pose proof (compose_object_layout fmt depth names entries (S (length children)) 0) as L.
    rewrite (app_assoc (members_layout _ _ _ _)), <- L.
    + now norm_app.
    + unfold names. rewrite length_map. exact Hlen.
    + cbn [length] in Hlen. lia.
Qed.

Lemma C7_object_layout_witness :
  print_value object_a_null 0 true
  = Some (object_layout [9] true 0 [(print_string_ptr (Some (bytes "a"%string)), lit_null)])
  /\ print_value object_a_null 0 false
     = Some (object_layout [9] false 0 [(print_string_ptr (Some (bytes "a"%string)), lit_null)]).
Proof.
  split.
  - apply (C7_object_layout false d_zero None None
             [Item cJSON_NULL false d_zero None (Some (bytes "a"%string)) []] [lit_null] 0 true).
    repeat constructor.
  - apply (C7_object_layout false d_zero None None
             [Item cJSON_NULL false d_zero None (Some (bytes "a"%string)) []] [lit_null] 0 false).
    repeat constructor.
Defined.

(** * Properties of the print buffer *)

Module PrintBufferFacts.
Import PrintBuffer.

Lemma size_t_small (z : Z) : 0 <= z <= SIZE_MAX -> size_t z = z.
Proof. unfold size_t, SIZE_MAX. intros H. apply Z.mod_small. lia. Qed.

(** A request that fits neither wraps nor fails: the region starts at the
    offset, holds at least the requested bytes, and the bytes written so far
    are where they were. *)
Lemma ensure_region (a a' : allocator) (p p' : printbuffer) (n : Z) (ptr : addr * Z) (b : addr) :
  wf a p -> buffer p = Some b -> 0 <= n -> offset p + n <= SIZE_MAX ->
  ensure a p n = Some (Some ptr, p', a') ->
  snd ptr = offset p
  /\ (exists r, region a' ptr = Some r /\ n <= r)
  /\ written a' (fst ptr) (offset p) = written a b (offset p)
  /\ buffer p' = Some (fst ptr) /\ offset p' = offset p.
Proof.
  intros (b0 & bytes & Hb & Hbytes & Hlen & Hoff & Hmax & Hfresh) Hb' Hn Hfit.
  rewrite Hb in Hb'. injection Hb' as ->.
  unfold ensure. rewrite Hb.
  rewrite size_t_small by lia.
  destruct (Z.leb_spec (n + offset p) (length p)) as [Hle|Hgt].
  - intros [= <- <- <-]. cbn [fst snd]. repeat split; auto.
    unfold region. cbn [fst snd]. rewrite Hbytes. eexists; split; [reflexivity|lia].
  - unfold max. destruct (Z.ltb_spec (n + offset p) (length p)) as [|_]; [lia|].
    destruct (size_t ((n + offset p) * 2) <=? n + offset p) eqn:Hwrap; [discriminate|].
    apply Z.leb_gt in Hwrap.
    set (newsize := size_t ((n + offset p) * 2)) in *.
    unfold malloc_fn.
    destruct (newsize <=? avail a); [|discriminate].
    cbv beta iota. unfold memcpy. cbn [blocks].
    rewrite lookup_insert_eq.
    assert (Hne : next_block a <> b) by (intros E; rewrite E in Hfresh; congruence).
    rewrite lookup_insert_ne by exact Hne. rewrite Hbytes.
    rewrite repeat_length.
    assert (Hnew : (Z.to_nat (length p) <=? Z.to_nat newsize)%nat = true)
      by (apply Nat.leb_le; lia).
    assert (Hold : (Z.to_nat (length p) <=? List.length bytes)%nat = true)
      by (apply Nat.leb_le; lia).
    rewrite Hnew, Hold. cbn [andb].
    intros [= <- <- <-]. cbn [fst snd buffer offset].
    repeat split; auto.
    + unfold region, free_fn. cbn [fst snd blocks].
      rewrite lookup_delete_ne by congruence. rewrite lookup_insert_eq.
      eexists; split; [reflexivity|].
      rewrite length_app, length_take, length_drop, repeat_length. lia.
    + unfold written, free_fn. cbn [blocks].
      rewrite lookup_delete_ne by congruence. rewrite lookup_insert_eq, Hbytes.
      f_equal. rewrite take_app_le by (rewrite length_take; lia).
      rewrite take_take. f_equal. lia.
Qed.

(** A request beyond the remaining capacity reallocates to
    [max(length, offset + needed) * 2], copies the content and releases the
    old block. *)
Lemma ensure_grows (a : allocator) (p : printbuffer) (n : Z) (b : addr) :
  wf a p -> buffer p = Some b -> 0 <= n ->
  length p < offset p + n -> 2 * (offset p + n) <= SIZE_MAX ->
  2 * (offset p + n) <= avail a ->
  exists a',
    ensure a p n = Some (Some (next_block a, offset p),
                         {| buffer := Some (next_block a);
                            length := max (length p) (offset p + n) * 2;
                            offset := offset p |}, a')
    /\ In b (released a') /\ blocks a' !! b = None
    /\ (exists bytes', blocks a' !! next_block a = Some bytes'
          /\ Z.of_nat (List.length bytes') = max (length p) (offset p + n) * 2).
Proof.
  intros (b0 & bytes & Hb & Hbytes & Hlen & Hoff & Hmax & Hfresh) Hb' Hn Hgt Hdouble Havail.
  rewrite Hb in Hb'. injection Hb' as ->.
  unfold ensure. rewrite Hb.
  rewrite size_t_small by lia.
  destruct (Z.leb_spec (n + offset p) (length p)) as [Hle|_]; [lia|].
  unfold max. destruct (Z.ltb_spec (n + offset p) (length p)) as [|_]; [lia|].
  destruct (Z.ltb_spec (offset p + n) (length p)) as [|_]; [lia|].
  rewrite size_t_small by lia.
  destruct (Z.leb_spec ((n + offset p) * 2) (n + offset p)) as [|_]; [lia|].
  unfold malloc_fn.
  destruct (Z.leb_spec ((n + offset p) * 2) (avail a)) as [_|]; [|lia].
  cbv beta iota. unfold memcpy. cbn [blocks].
  rewrite lookup_insert_eq.
  assert (Hne : next_block a <> b) by (intros E; rewrite E in Hfresh; congruence).
  rewrite lookup_insert_ne by exact Hne. rewrite Hbytes, repeat_length.
  assert (Hnew : (Z.to_nat (length p) <=? Z.to_nat ((n + offset p) * 2))%nat = true)
    by (apply Nat.leb_le; lia).
  assert (Hold : (Z.to_nat (length p) <=? List.length bytes)%nat = true)
    by (apply Nat.leb_le; lia).
  rewrite Hnew, Hold. cbn [andb].
  replace ((n + offset p) * 2) with ((offset p + n) * 2) by lia.
  eexists. split; [reflexivity|].
  unfold free_fn. cbn [released blocks]. split; [|split].
  - apply in_or_app. right. now left.
  - apply lookup_delete_eq.
  - rewrite lookup_delete_ne by congruence. rewrite lookup_insert_eq.
    eexists; split; [reflexivity|].
    rewrite length_app, length_take, length_drop, repeat_length. lia.
Qed.

(** A doubling that wraps fails and leaves the buffer as it was. *)
Lemma ensure_overflow (a : allocator) (p : printbuffer) (n : Z) :
  wf a p -> 0 <= n -> offset p + n <= SIZE_MAX ->
  length p < offset p + n -> SIZE_MAX < 2 * (offset p + n) ->
  ensure a p n = Some (None, p, a).
Proof.
  intros (b0 & bytes & Hb & Hbytes & Hlen & Hoff & Hmax & Hfresh) Hn Hfit Hgt Hwrap.
  unfold ensure. rewrite Hb.
  rewrite size_t_small by lia.
  destruct (Z.leb_spec (n + offset p) (length p)) as [Hle|_]; [lia|].
  unfold max. destruct (Z.ltb_spec (n + offset p) (length p)) as [|_]; [lia|].
  assert (Hs : size_t ((n + offset p) * 2) = (n + offset p) * 2 - 2 ^ 64).
  { unfold size_t, SIZE_MAX in *.
    symmetry. apply (Z.mod_unique_pos _ _ 1); lia. }
  rewrite Hs. unfold SIZE_MAX in *.
  destruct (Z.leb_spec ((n + offset p) * 2 - 2 ^ 64) (n + offset p)) as [_|]; [reflexivity|lia].
Qed.

(** ** Claim C8 *)

Definition a16 : allocator :=
  {| blocks := {[ 1%positive := repeat 0 16 ]};
     released := [];
     next_block := 2%positive;
     avail := 1024;
     fill := 0 |}.

Definition p16 : printbuffer :=
  {| buffer := Some 1%positive; length := 16; offset := 10 |}.

(** C8 at a buffer of 16 bytes with 10 written and a request of
    [SIZE_MAX - 4] bytes: the sum [needed + offset] wraps to 5, passes the
    capacity test, and [ensure] succeeds with the six bytes that remain. *)
Theorem C8_wrapped_request :
  ensure a16 p16 (SIZE_MAX - 4) = Some (Some (1%positive, 10), p16, a16)
  /\ region a16 (1%positive, 10) = Some 6.
Proof. split; vm_compute; reflexivity. Qed.

End PrintBufferFacts.

(** * Further properties of the print buffer *)

Module PrintBufferExtra.
Import PrintBuffer PrintBufferFacts.

(** X18: when the sum of the offset and the request does not wrap, a
    successful [ensure] returns a pointer at the current offset of a live
    block with at least the requested bytes behind it, the bytes written
    before the offset are the same as before the call, and the offset is
    unchanged. *)
Theorem X18_ensure_region (a a' : allocator) (p p' : printbuffer) (n : Z) (ptr : addr * Z)
  (b : addr) :
  wf a p -> buffer p = Some b -> 0 <= n -> offset p + n <= SIZE_MAX ->
  ensure a p n = Some (Some ptr, p', a') ->
  snd ptr = offset p
  /\ (exists r, region a' ptr = Some r /\ n <= r)
  /\ written a' (fst ptr) (offset p) = written a b (offset p)
  /\ buffer p' = Some (fst ptr) /\ offset p' = offset p.
Proof. apply ensure_region. Qed.

Lemma wf_16 : wf a16 p16.
Proof.
  exists 1%positive, (repeat 0 16). unfold SIZE_MAX. repeat split; try reflexivity;
    cbn [p16 offset length]; lia.
Qed.

Lemma X18_ensure_region_witness :
  snd (1%positive, 10) = offset p16
  /\ (exists r, region a16 (1%positive, 10) = Some r /\ 6 <= r)
  /\ written a16 (fst (1%positive, 10)) (offset p16) = written a16 1%positive (offset p16)
  /\ buffer p16 = Some (fst (1%positive, 10)) /\ offset p16 = offset p16.
Proof.
  apply (X18_ensure_region a16 a16 p16 p16 6 (1%positive, 10) 1%positive wf_16);
    try reflexivity; unfold SIZE_MAX; cbn [p16 offset]; lia.
Defined.

(** A print buffer of 16 bytes holding ["0123456789abcdef"], 10 of them
    written, over an allocator whose fresh memory reads as [170]. *)
Definition a_text : allocator :=
  {| blocks := {[ 1%positive := bytes "0123456789abcdef"%string ]};
     released := [];
     next_block := 2%positive;
     avail := 1024;
     fill := 170 |}.

Lemma wf_text : wf a_text p16.
Proof.
  exists 1%positive, (bytes "0123456789abcdef"%string). unfold SIZE_MAX.
  repeat split; try reflexivity; cbn [p16 offset length]; lia.
Qed.

(** X19: a request that ends beyond the capacity (without wrapping, within
    what the allocator can serve) makes [ensure] allocate a block of twice
    the offset plus the request, copy the old block into it, release the old
    block and return a pointer at the offset in the new block: the new block
    holds the bytes of the old one followed by fresh memory, the old block is
    gone and is the one address added to the released ones, and every other
    block is as it was. *)
Theorem X19_ensure_grows (a : allocator) (p : printbuffer) (n : Z) (b : addr)
  (old : list Z) :
  wf a p -> buffer p = Some b -> blocks a !! b = Some old -> 0 <= n ->
  length p < offset p + n -> 2 * (offset p + n) <= SIZE_MAX ->
  2 * (offset p + n) <= avail a ->
  exists a',
    ensure a p n = Some (Some (next_block a, offset p),
                         {| buffer := Some (next_block a);
                            length := max (length p) (offset p + n) * 2;
                            offset := offset p |}, a')
    /\ blocks a' !! next_block a
       = Some (old ++ repeat (fill a)
                        (Z.to_nat (max (length p) (offset p + n) * 2 - length p)))
    /\ written a' (next_block a) (length p) = Some old
    /\ released a' = released a ++ [b] /\ blocks a' !! b = None
    /\ (forall q, q <> b -> q <> next_block a -> blocks a' !! q = blocks a !! q)
    /\ next_block a' = Pos.succ (next_block a)
    /\ avail a' = avail a - max (length p) (offset p + n) * 2
    /\ fill a' = fill a.
Proof.
  intros (b0 & bytes & Hb & Hbytes & Hlen & Hoff & Hmax & Hfresh) Hb' Hold Hn Hgt
    Hdouble Havail.
  rewrite Hb in Hb'. injection Hb' as ->.
  rewrite Hbytes in Hold. injection Hold as ->.
  unfold ensure. rewrite Hb.
  rewrite size_t_small by lia.
  destruct (Z.leb_spec (n + offset p) (length p)) as [Hle|_]; [lia|].
  unfold max. destruct (Z.ltb_spec (n + offset p) (length p)) as [|_]; [lia|].
  destruct (Z.ltb_spec (offset p + n) (length p)) as [|_]; [lia|].
  rewrite size_t_small by lia.
  destruct (Z.leb_spec ((n + offset p) * 2) (n + offset p)) as [|_]; [lia|].
  unfold malloc_fn.
  destruct (Z.leb_spec ((n + offset p) * 2) (avail a)) as [_|]; [|lia].
  cbv beta iota. unfold memcpy. cbn [blocks].
  rewrite lookup_insert_eq.
  assert (Hne : next_block a <> b) by (intros E; rewrite E in Hfresh; congruence).
  rewrite lookup_insert_ne by exact Hne. rewrite Hbytes, repeat_length.
  assert (Hnew : (Z.to_nat (length p) <=? Z.to_nat ((n + offset p) * 2))%nat = true)
    by (apply Nat.leb_le; lia).
  assert (Hfits : (Z.to_nat (length p) <=? List.length old)%nat = true)
    by (apply Nat.leb_le; lia).
  rewrite Hnew, Hfits. cbn [andb].
  replace ((n + offset p) * 2) with ((offset p + n) * 2) by lia.
  eexists. split; [reflexivity|].
  unfold free_fn, written. cbn [released blocks next_block avail fill].
  assert (Hcopy : take (Z.to_nat (length p)) old
                  ++ drop (Z.to_nat (length p)) (repeat (fill a) (Z.to_nat ((offset p + n) * 2)))
                  = old ++ repeat (fill a) (Z.to_nat ((offset p + n) * 2 - length p))).
  { rewrite take_ge by lia. f_equal.
    replace (Z.to_nat ((offset p + n) * 2))
      with (Z.to_nat (length p) + Z.to_nat ((offset p + n) * 2 - length p))%nat by lia.
    rewrite repeat_app, drop_app_length'; [reflexivity|]. now rewrite repeat_length. }
  rewrite Hcopy.
  rewrite lookup_delete_ne by congruence. rewrite lookup_insert_eq.
  repeat split.
  - f_equal. rewrite take_app_length'; [reflexivity|lia].
  - apply lookup_delete_eq.
  - intros q Hqb Hqn. rewrite lookup_delete_ne by congruence.
    now rewrite !lookup_insert_ne by congruence.
Qed.

Lemma X19_ensure_grows_witness :
  exists a',
    ensure a_text p16 7 = Some (Some (next_block a_text, offset p16),
                                {| buffer := Some (next_block a_text);
                                   length := max (length p16) (offset p16 + 7) * 2;
                                   offset := offset p16 |}, a')
    /\ blocks a' !! next_block a_text
       = Some (bytes "0123456789abcdef"%string
               ++ repeat (fill a_text)
                    (Z.to_nat (max (length p16) (offset p16 + 7) * 2 - length p16)))
    /\ written a' (next_block a_text) (length p16) = Some (bytes "0123456789abcdef"%string)
    /\ released a' = released a_text ++ [1%positive] /\ blocks a' !! 1%positive = None
    /\ (forall q, q <> 1%positive -> q <> next_block a_text ->
          blocks a' !! q = blocks a_text !! q)
    /\ next_block a' = Pos.succ (next_block a_text)
    /\ avail a' = avail a_text - max (length p16) (offset p16 + 7) * 2
    /\ fill a' = fill a_text.
Proof.
  apply (X19_ensure_grows a_text p16 7 1%positive (bytes "0123456789abcdef"%string) wf_text);
    try reflexivity; unfold SIZE_MAX; cbn [p16 a_text offset length avail]; lia.
Defined.

(** X20: when the sum of the offset and the request fits in [size_t] but
    its double does not, [ensure] fails and leaves the buffer and the
    allocator as they were. *)
Theorem X20_ensure_overflow (a : allocator) (p : printbuffer) (n : Z) :
  wf a p -> 0 <= n -> offset p + n <= SIZE_MAX ->
  length p < offset p + n -> SIZE_MAX < 2 * (offset p + n) ->
  ensure a p n = Some (None, p, a).
Proof. apply ensure_overflow. Qed.

Lemma X20_ensure_overflow_witness : ensure a16 p16 (2 ^ 63) = Some (None, p16, a16).
Proof.
  apply (X20_ensure_overflow a16 p16 (2 ^ 63) wf_16);
    unfold SIZE_MAX; cbn [p16 offset length]; lia.
Defined.

(** X21: when the allocator cannot serve the new size, [ensure] releases
    the old block, leaves the buffer without storage and with length zero,
    and returns NULL; from then on every [ensure] on that buffer returns
    NULL and changes nothing. *)
Theorem X21_ensure_out_of_memory (a : allocator) (p : printbuffer) (n : Z) (b : addr) :
  wf a p -> buffer p = Some b -> 0 <= n ->
  length p < offset p + n -> 2 * (offset p + n) <= SIZE_MAX ->
  avail a < 2 * (offset p + n) ->
  let p' := {| buffer := None; length := 0; offset := offset p |} in
  ensure a p n = Some (None, p', free_fn a b)
  /\ forall a' n', ensure a' p' n' = Some (None, p', a').
Proof.
  intros (b0 & bytes & Hb & Hbytes & Hlen & Hoff & Hmax & Hfresh) Hb' Hn Hgt Hdouble Havail.
  rewrite Hb in Hb'. injection Hb' as ->. split; [|reflexivity].
  unfold ensure. rewrite Hb.
  rewrite size_t_small by lia.
  destruct (Z.leb_spec (n + offset p) (length p)) as [Hle|_]; [lia|].
  unfold max. destruct (Z.ltb_spec (n + offset p) (length p)) as [|_]; [lia|].
  rewrite size_t_small by lia.
  destruct (Z.leb_spec ((n + offset p) * 2) (n + offset p)) as [|_]; [lia|].
  unfold malloc_fn.
  destruct (Z.leb_spec ((n + offset p) * 2) (avail a)) as [|_]; [lia|].
  reflexivity.
Qed.

Lemma X21_ensure_out_of_memory_witness :
  let p' := {| buffer := None; length := 0; offset := offset p16 |} in
  ensure a16 p16 1000 = Some (None, p', free_fn a16 1%positive)
  /\ forall a' n', ensure a' p' n' = Some (None, p', a').
Proof.
  apply (X21_ensure_out_of_memory a16 p16 1000 1%positive wf_16); try reflexivity;
    unfold SIZE_MAX; cbn [p16 a16 offset length avail]; lia.
Defined.

End PrintBufferExtra.

(** * Properties of the mutation primitives *)

Module HeapFacts.
Import Heap.

(** ** List segments *)

(** [lseg h p l q]: following [next] from [p] visits the nodes [l] and
    arrives at [q]. *)
Fixpoint lseg (h : gmap addr cJSON) (p : option addr) (l : list addr) (q : option addr) : Prop :=
  match l with
  | [] => p = q
  | a :: l => p = Some a /\ exists n, h !! a = Some n /\ lseg h (next n) l q
  end.

Lemma chain_lseg h p l : chain h p l <-> lseg h p l None.
Proof.
  revert p. induction l as [|a l IH]; intros p; simpl; [tauto|].
  split; intros (-> & n & Hn & H); (split; [reflexivity|]); exists n; (split; [exact Hn|]);
    now apply IH.
Qed.

Lemma lseg_app h l1 : forall p l2 q,
  lseg h p (l1 ++ l2) q <-> exists r, lseg h p l1 r /\ lseg h r l2 q.
Proof.
  induction l1 as [|a l1 IH]; intros p l2 q; simpl.
  - split; [intros H; exists p; auto | intros (r & -> & H); exact H].
  - split.
    + intros (-> & n & Hn & H). apply IH in H as (r & H1 & H2).
      exists r. split; [|exact H2]. split; [reflexivity|]. eauto.
    + intros (r & (-> & n & Hn & H1) & H2). split; [reflexivity|].
      exists n. split; [exact Hn|]. apply IH. eauto.
Qed.

Lemma lseg_frame h h' l : forall p q,
  (forall a, a ∈ l -> next <$> (h' !! a) = next <$> (h !! a)) ->
  lseg h p l q -> lseg h' p l q.
Proof.
  induction l as [|a l IH]; intros p q Hsame; simpl; [auto|].
  intros (-> & n & Hn & H). split; [reflexivity|].
  pose proof (Hsame a ltac:(left)) as Ha. rewrite Hn in Ha. simpl in Ha.
  destruct (h' !! a) as [n'|] eqn:Hn'; [|discriminate]. simpl in Ha.
  injection Ha as Ha. exists n'. split; [reflexivity|]. rewrite Ha.
  apply IH; [|exact H]. intros b Hb. apply Hsame. now right.
Qed.

Lemma lseg_functional h l1 : forall p l2,
  lseg h p l1 None -> lseg h p l2 None -> l1 = l2.
Proof.
  induction l1 as [|a l1 IH]; intros p [|b l2]; simpl.
  - reflexivity.
  - intros -> (? & _). discriminate.
  - intros (-> & _) ?. discriminate.
  - intros (-> & n & Hn & H1) (Hb & n' & Hn' & H2).
    injection Hb as <-. rewrite Hn in Hn'. injection Hn' as <-.
    f_equal. eapply IH; eauto.
Qed.

Lemma lseg_suffix h l1 : forall p a l2,
  lseg h p (l1 ++ a :: l2) None -> lseg h (Some a) (a :: l2) None.
Proof.
  intros p a l2 H. apply lseg_app in H as (r & H1 & H2).
  simpl in H2. destruct H2 as (-> & H2). simpl. auto.
Qed.

Lemma lseg_NoDup h l : forall p, lseg h p l None -> NoDup l.
Proof.
  induction l as [|a l IH]; intros p H; [constructor|].
  pose proof H as (-> & n & Hn & Hl). constructor; [|eauto].
  intros Hin. apply list_elem_of_split in Hin as (l1 & l2 & ->).
  pose proof (lseg_suffix h l1 (next n) a l2 Hl) as Hs.
  pose proof (lseg_functional h _ _ _ H Hs) as E.
  apply (f_equal List.length) in E. simpl in E. rewrite length_app in E. simpl in E. lia.
Qed.

(** ** The walks *)

Lemma last_sibling_spec h l : forall c z fuel,
  lseg h (Some c) (l ++ [z]) None -> (List.length l < fuel)%nat ->
  last_sibling fuel h c = Some z.
Proof.
  induction l as [|a l IH]; intros c z fuel H Hfuel;
    (destruct fuel as [|fuel]; [lia|]); simpl in *.
  - destruct H as ([= ->] & n & -> & ->). reflexivity.
  - destruct H as ([= ->] & n & -> & H).
    destruct l as [|b l]; simpl in H; destruct H as (Hn & H); rewrite Hn;
      (eapply IH; [simpl; eauto | simpl in *; lia]).
Qed.

Lemma seek_in_range h l : forall c previous which a fuel,
  lseg h c l None -> l !! which = Some a -> (which < fuel)%nat ->
  seek fuel h c previous which
  = Some (Some a, match which with O => previous | S w => l !! w end).
Proof.
  induction l as [|b l IH]; intros c previous which a fuel H Hw Hfuel; [discriminate|].
  destruct fuel as [|fuel]; [lia|].
  simpl in H. destruct H as (-> & n & Hn & H).
  destruct which as [|w]; simpl in *.
  - injection Hw as ->. reflexivity.
  - rewrite Hn. rewrite (IH (next n) (Some b) w a fuel H Hw ltac:(lia)).
    destruct w as [|w]; reflexivity.
Qed.

Lemma seek_out_of_range h l : forall c previous which fuel,
  lseg h c l None -> (List.length l <= which)%nat -> (List.length l < fuel)%nat ->
  exists previous', seek fuel h c previous which = Some (None, previous').
Proof.
  induction l as [|b l IH]; intros c previous which fuel H Hw Hfuel;
    (destruct fuel as [|fuel]; [lia|]); simpl in *.
  - subst c. eauto.
  - destruct H as (-> & n & Hn & H).
    destruct which as [|w]; [lia|]. rewrite Hn.
    apply IH; [exact H|lia|lia].
Qed.

(** ** Updates that keep the [next] links *)

Lemma next_insert_ne (h : gmap addr cJSON) a n b :
  a <> b -> next <$> (<[a := n]> h !! b) = next <$> (h !! b).
Proof. intros H. now rewrite lookup_insert_ne. Qed.

Lemma next_insert_child (h : gmap addr cJSON) a arr v b :
  h !! a = Some arr -> next <$> (<[a := set_child v arr]> h !! b) = next <$> (h !! b).
Proof.
  intros H. destruct (decide (a = b)) as [->|Hne].
  - now rewrite lookup_insert_eq, H.
  - now rewrite lookup_insert_ne.
Qed.

Lemma child_insert_next (h : gmap addr cJSON) a n v b (arr : cJSON) :
  h !! a = Some n -> h !! b = Some arr ->
  exists arr', <[a := set_next v n]> h !! b = Some arr' /\ child arr' = child arr.
Proof.
  intros Ha Hb. destruct (decide (a = b)) as [->|Hne].
  - rewrite lookup_insert_eq. rewrite Ha in Hb. injection Hb as <-. eauto.
  - rewrite lookup_insert_ne by exact Hne. eauto.
Qed.

(** ** Append *)

Lemma add_item_to_array (m : memory) (array : addr) (arr : cJSON) (l li : list addr)
  (item : addr) (fuel : nat) :
  nodes m !! array = Some arr -> chain (nodes m) (child arr) l ->
  chain (nodes m) (Some item) li -> (forall a, a ∈ l -> a ∉ li) ->
  (List.length l <= fuel)%nat ->
  exists m' arr',
    cJSON_AddItemToArray fuel m array (Some item) = Some m'
    /\ nodes m' !! array = Some arr'
    /\ chain (nodes m') (child arr') (l ++ li).
Proof.
  intros Harr Hl Hli Hdisj Hfuel. unfold cJSON_AddItemToArray. rewrite Harr.
  apply chain_lseg in Hl, Hli.
  destruct l as [|a0 l0] using rev_ind.
  - simpl in Hl. rewrite Hl. eexists _, _. split; [reflexivity|]. cbn [set_nodes nodes].
    rewrite lookup_insert_eq. split; [reflexivity|]. cbn [set_child child app].
    apply chain_lseg. eapply lseg_frame; [|exact Hli].
    intros b _. now apply next_insert_child.
  - clear IHl0. rename a0 into z, l0 into l1.
    pose proof (lseg_NoDup _ _ _ Hl) as Hnd.
    apply NoDup_app in Hnd as (_ & Hz & _).
    pose proof Hl as Hl'. apply lseg_app in Hl' as (r & H1 & H2).
    simpl in H2. destruct H2 as (-> & nz & Hnz & Hend).
    destruct (child arr) as [c|] eqn:Hc.
    2:{ destruct l1; simpl in H1; [discriminate|destruct H1; discriminate]. }
    rewrite length_app in Hfuel. simpl in Hfuel.
    rewrite (last_sibling_spec _ l1 c z fuel Hl ltac:(lia)), Hnz.
    destruct (child_insert_next (nodes m) z nz (Some item) array arr Hnz Harr)
      as (arr' & Harr' & Hchild).
    eexists _, arr'. split; [reflexivity|]. cbn [set_nodes nodes].
    split; [exact Harr'|]. rewrite Hchild, Hc.
    apply chain_lseg. rewrite <- app_assoc. apply lseg_app. exists (Some z). split.
    + eapply lseg_frame; [|exact H1]. intros b Hb. apply next_insert_ne.
      intros ->. apply (Hz b Hb). now left.
    + simpl. split; [reflexivity|]. rewrite lookup_insert_eq. eexists. split; [reflexivity|].
      cbn [set_next next].
      eapply lseg_frame; [|exact Hli]. intros b Hb. apply next_insert_ne.
      intros ->. apply (Hdisj b); [|exact Hb]. apply elem_of_app. right. now left.
Qed.

(** ** Detach *)

Lemma detach_in_range (m : memory) (array : addr) (arr : cJSON) (l : list addr)
  (which : nat) (c : addr) (fuel : nat) :
  nodes m !! array = Some arr -> chain (nodes m) (child arr) l ->
  l !! which = Some c -> (which < fuel)%nat ->
  exists m' arr' n',
    cJSON_DetachItemFromArray fuel m array which = Some (Some c, m')
    /\ nodes m' !! array = Some arr'
    /\ chain (nodes m') (child arr') (delete which l)
    /\ nodes m' !! c = Some n' /\ next n' = None.
Proof.
  intros Harr Hl Hw Hfuel. unfold cJSON_DetachItemFromArray. rewrite Harr.
  apply chain_lseg in Hl.
  rewrite (seek_in_range _ l (child arr) None which c fuel Hl Hw Hfuel).
  pose proof (lseg_NoDup _ _ _ Hl) as Hnd.
  pose proof (take_drop_middle l which c Hw) as Hsplit.
  rewrite delete_take_drop.
  set (l1 := take which l) in *. set (l2 := drop (S which) l) in *.
  rewrite <- Hsplit in Hl, Hnd.
  apply NoDup_app in Hnd as (Hnd1 & Hc1 & Hnd2).
  apply NoDup_cons in Hnd2 as (Hc2 & Hnd2).
  apply lseg_app in Hl as (r & H1 & H2).
  simpl in H2. destruct H2 as (-> & n & Hn & H2). rewrite Hn.
  destruct which as [|w].
  - (* first element *)
    assert (l1 = []) as E1 by reflexivity. rewrite E1 in *. simpl in H1.
    rewrite decide_True by (now rewrite H1). cbn [set_nodes nodes].
    destruct (decide (array = c)) as [->|Hne].
    + eexists _, _, _. split; [rewrite lookup_insert_eq; reflexivity|]. cbn [set_nodes nodes].
      rewrite lookup_insert_eq. split; [reflexivity|]. split; [|split; reflexivity].
      cbn [set_next set_child child app]. apply chain_lseg.
      eapply lseg_frame; [|exact H2]. intros b Hb.
      rewrite next_insert_ne by (intros ->; contradiction).
      now apply next_insert_child.
    + eexists _, _, _.
      split; [rewrite lookup_insert_ne by exact Hne; rewrite Hn; reflexivity|].
      cbn [set_nodes nodes].
      rewrite lookup_insert_ne by congruence. rewrite lookup_insert_eq.
      split; [reflexivity|]. rewrite lookup_insert_eq. split; [|split; reflexivity].
      cbn [set_child child app]. apply chain_lseg.
      eapply lseg_frame; [|exact H2]. intros b Hb.
      rewrite next_insert_ne by (intros ->; contradiction).
      now apply next_insert_child.
  - (* not the first element *)
    destruct (l !! w) as [p|] eqn:Hp.
    2:{ apply lookup_ge_None in Hp. apply lookup_lt_Some in Hw. lia. }
    assert (l1 = take w l ++ [p]) as E1 by (unfold l1; now apply take_S_r).
    rewrite E1 in H1, Hc1, Hnd1 |- *.
    apply lseg_app in H1 as (r & H0 & Hpseg).
    simpl in Hpseg. destruct Hpseg as (-> & pn & Hpn & Hpnext).
    assert (Hcp : c <> p).
    { intros ->. apply (Hc1 p); [apply elem_of_app; right; now left|now left]. }
    assert (Hhead : Some c <> child arr).
    { intros E. destruct (take w l) as [|x t] eqn:Et; simpl in H0.
      - rewrite <- E in H0. injection H0 as ->. contradiction.
      - destruct H0 as (Hx & _). rewrite <- E in Hx. injection Hx as <-.
        apply (Hc1 c); [now left|now left]. }
    rewrite decide_False by exact Hhead. rewrite Hpn. cbn [set_nodes nodes].
    destruct (child_insert_next (nodes m) p pn (next n) array arr Hpn Harr)
      as (arr1 & Harr1 & Hchild1).
    assert (Hn1 : <[p := set_next (next n) pn]> (nodes m) !! c = Some n)
      by (rewrite lookup_insert_ne by congruence; exact Hn).
    destruct (child_insert_next _ c n None array arr1 Hn1 Harr1)
      as (arr2 & Harr2 & Hchild2).
    eexists _, arr2, _. split; [rewrite Hn1; reflexivity|]. cbn [set_nodes nodes].
    split; [exact Harr2|]. rewrite lookup_insert_eq. split; [|split; reflexivity].
    rewrite Hchild2, Hchild1. apply chain_lseg.
    rewrite <- app_assoc. apply lseg_app. exists (Some p). split.
    + eapply lseg_frame; [|exact H0]. intros b Hb.
      assert (b ∈ take w l ++ [p]) as Hb' by (apply elem_of_app; now left).
      rewrite next_insert_ne by (intros ->; apply (Hc1 b Hb'); now left).
      apply next_insert_ne. intros ->.
      apply NoDup_app in Hnd1 as (_ & Hd & _). apply (Hd b Hb). now left.
    + simpl. split; [reflexivity|].
      rewrite lookup_insert_ne by congruence. rewrite lookup_insert_eq.
      eexists. split; [reflexivity|]. cbn [set_next next].
      eapply lseg_frame; [|exact H2]. intros b Hb.
      rewrite next_insert_ne by (intros ->; contradiction).
      apply next_insert_ne. intros ->.
      apply (Hc1 b); [apply elem_of_app; right; now left|now right].
Qed.

Lemma detach_out_of_range (m : memory) (array : addr) (arr : cJSON) (l : list addr)
  (which : nat) (fuel : nat) :
  nodes m !! array = Some arr -> chain (nodes m) (child arr) l ->
  (List.length l <= which)%nat -> (List.length l < fuel)%nat ->
  cJSON_DetachItemFromArray fuel m array which = Some (None, m).
Proof.
  intros Harr Hl Hw Hfuel. unfold cJSON_DetachItemFromArray. rewrite Harr.
  apply chain_lseg in Hl.
  destruct (seek_out_of_range _ l (child arr) None which fuel Hl Hw Hfuel) as (p & ->).
  reflexivity.
Qed.

(** ** Claim C9 *)

(** C9: appending links the item (with whatever follows it) behind the last
    child, so the chain keeps insertion order; detaching at an index inside
    the chain returns the node at that index with its [next] cleared and
    leaves the other children linked in their order; detaching at an index
    outside the chain returns NULL and changes nothing. *)
Theorem C9_append_detach (m : memory) (array : addr) (arr : cJSON) (l : list addr) :
  nodes m !! array = Some arr -> chain (nodes m) (child arr) l ->
  (forall item li fuel,
     chain (nodes m) (Some item) li -> (forall a, a ∈ l -> a ∉ li) ->
     (List.length l <= fuel)%nat ->
     exists m' arr',
       cJSON_AddItemToArray fuel m array (Some item) = Some m'
       /\ nodes m' !! array = Some arr'
       /\ chain (nodes m') (child arr') (l ++ li))
  /\ (forall which c fuel,
        l !! which = Some c -> (which < fuel)%nat ->
        exists m' arr' n',
          cJSON_DetachItemFromArray fuel m array which = Some (Some c, m')
          /\ nodes m' !! array = Some arr'
          /\ chain (nodes m') (child arr') (delete which l)
          /\ nodes m' !! c = Some n' /\ next n' = None)
  /\ (forall which fuel,
        (List.length l <= which)%nat -> (List.length l < fuel)%nat ->
        cJSON_DetachItemFromArray fuel m array which = Some (None, m)).
Proof.
  intros Harr Hl. split; [|split].
  - intros item li fuel. now apply (add_item_to_array m array arr).
  - intros which c fuel. now apply (detach_in_range m array arr).
  - intros which fuel. now apply (detach_out_of_range m array arr l).
Qed.

Definition empty_memory : memory :=
  {| nodes := ∅; strings := ∅; released := []; brk := 1%positive |}.

(** An array (at address 1) and three numbers (at 2, 3 and 4), appended in
    that order. *)
Definition three_appended : option memory :=
  let '(a, m) := new_item cJSON_Array empty_memory in
  let '(x, m) := new_item cJSON_Number m in
  let '(y, m) := new_item cJSON_Number m in
  let '(z, m) := new_item cJSON_Number m in
  m ← cJSON_AddItemToArray 3%nat m a (Some x);
  m ← cJSON_AddItemToArray 3%nat m a (Some y);
  cJSON_AddItemToArray 3%nat m a (Some z).

Definition memory_3 : memory := default empty_memory three_appended.

Definition array_3 : cJSON :=
  {| next := None; child := Some 2%positive; type := cJSON_Array; valuestring := None;
     name := None; string_is_const := false; is_reference := false |}.

Lemma three_appends_in_order :
  three_appended = Some memory_3
  /\ nodes memory_3 !! 1%positive = Some array_3
  /\ chain (nodes memory_3) (child array_3) [2; 3; 4]%positive.
Proof.
  split; [reflexivity|]. split; [reflexivity|].
  simpl. repeat (split; [reflexivity|]; eexists; split; [vm_compute; reflexivity|]).
  reflexivity.
Qed.

Lemma C9_append_detach_witness :
  (exists m' arr' n',
     cJSON_DetachItemFromArray 2%nat memory_3 1%positive 1%nat = Some (Some 3%positive, m')
     /\ nodes m' !! 1%positive = Some arr'
     /\ chain (nodes m') (child arr') [2; 4]%positive
     /\ nodes m' !! 3%positive = Some n' /\ next n' = None)
  /\ cJSON_DetachItemFromArray 4%nat memory_3 1%positive 3%nat = Some (None, memory_3).
Proof.
  destruct three_appends_in_order as (_ & Harr & Hl).
  destruct (C9_append_detach memory_3 1%positive array_3 [2; 3; 4]%positive Harr Hl)
    as (_ & Hin & Hout).
  split.
  - apply (Hin 1%nat 3%positive 2%nat); [reflexivity|lia].
  - apply (Hout 3%nat 4%nat); simpl; lia.
Defined.

(** ** Teardown releases only what the tree owns *)

(** [owned h p]: [p] is a node of [h], the text of a non-reference string
    node, or a key that is not marked constant. *)
Definition owned (h : gmap addr cJSON) (p : addr) : Prop :=
  exists a n, h !! a = Some n /\
    (p = a
     \/ (valuestring n = Some p /\ is_reference n = false /\ type n = cJSON_String)
     \/ (name n = Some p /\ string_is_const n = false)).

Lemma owned_mono (h h' : gmap addr cJSON) p : h' ⊆ h -> owned h' p -> owned h p.
Proof.
  intros Hsub (a & n & Hn & H). exists a, n. split; [|exact H].
  eapply lookup_weaken; eauto.
Qed.

Lemma nodes_free_fn p m : nodes (free_fn p m) ⊆ nodes m.
Proof. apply delete_subseteq. Qed.

Lemma delete_owned fuel : forall m c m',
  internal_cJSON_Delete fuel m c = Some m' ->
  nodes m' ⊆ nodes m
  /\ (forall p, p ∈ released m' -> p ∈ released m \/ owned (nodes m) p).
Proof.
  induction fuel as [|fuel IH]; intros m c m' H; [discriminate|].
  simpl in H. destruct c as [a|]; [|injection H as <-; split; [reflexivity|auto]].
  destruct (nodes m !! a) as [n|] eqn:Hn; [|discriminate].
  set (after := match child n with
                | Some ch => if negb (is_reference n)
                             then internal_cJSON_Delete fuel m (Some ch) else Some m
                | None => Some m
                end) in H.
  destruct after as [m1|] eqn:Hafter; [|discriminate].
  assert (H1 : nodes m1 ⊆ nodes m
               /\ (forall p, p ∈ released m1 -> p ∈ released m \/ owned (nodes m) p)).
  { unfold after in Hafter. destruct (child n) as [ch|].
    - destruct (negb (is_reference n)).
      + eapply IH; eauto.
      + injection Hafter as <-. split; [reflexivity|auto].
    - injection Hafter as <-. split; [reflexivity|auto]. }
  destruct H1 as (Hsub1 & Hrel1).
  set (m2 := match valuestring n with
             | Some v => if negb (is_reference n) && bool_decide (type n = cJSON_String)
                         then free_fn v m1 else m1
             | None => m1
             end) in H.
  assert (H2 : nodes m2 ⊆ nodes m
               /\ (forall p, p ∈ released m2 -> p ∈ released m \/ owned (nodes m) p)).
  { unfold m2. destruct (valuestring n) as [v|] eqn:Hv; [|split; assumption].
    destruct (negb (is_reference n) && bool_decide (type n = cJSON_String)) eqn:Hc;
      [|split; assumption].
    apply andb_true_iff in Hc as (Hr & Ht).
    apply negb_true_iff in Hr. apply bool_decide_eq_true in Ht.
    split; [etransitivity; [apply nodes_free_fn|exact Hsub1]|].
    intros p Hp. cbn [free_fn released] in Hp. apply elem_of_app in Hp as [Hp|Hp]; [auto|].
    apply list_elem_of_singleton in Hp as ->. right. exists a, n. intuition. }
  destruct H2 as (Hsub2 & Hrel2).
  set (m3 := match name n with
             | Some k => if negb (string_is_const n) then free_fn k m2 else m2
             | None => m2
             end) in H.
  assert (H3 : nodes m3 ⊆ nodes m
               /\ (forall p, p ∈ released m3 -> p ∈ released m \/ owned (nodes m) p)).
  { unfold m3. destruct (name n) as [k|] eqn:Hk; [|split; assumption].
    destruct (negb (string_is_const n)) eqn:Hc; [|split; assumption].
    apply negb_true_iff in Hc.
    split; [etransitivity; [apply nodes_free_fn|exact Hsub2]|].
    intros p Hp. cbn [free_fn released] in Hp. apply elem_of_app in Hp as [Hp|Hp]; [auto|].
    apply list_elem_of_singleton in Hp as ->. right. exists a, n. intuition. }
  destruct H3 as (Hsub3 & Hrel3).
  apply IH in H as (Hsub4 & Hrel4).
  split.
  - etransitivity; [exact Hsub4|]. etransitivity; [apply nodes_free_fn|exact Hsub3].
  - intros p Hp. apply Hrel4 in Hp as [Hp|Hp].
    + cbn [free_fn released] in Hp. apply elem_of_app in Hp as [Hp|Hp]; [auto|].
      apply list_elem_of_singleton in Hp as ->. right. exists a, n. intuition.
    + right. eapply owned_mono; [|exact Hp].
      etransitivity; [apply nodes_free_fn|exact Hsub3].
Qed.

(** Teardown never releases an address that the tree does not own; a key
    marked constant is not owned through that mark. *)
Lemma delete_skips_unowned (fuel : nat) (m m' : memory) (c : option addr) (k : addr) :
  internal_cJSON_Delete fuel m c = Some m' ->
  ~ owned (nodes m) k -> k ∉ released m -> k ∉ released m'.
Proof.
  intros H Hown Hrel Hin. apply (delete_owned fuel m c m' H) in Hin as [?|?]; contradiction.
Qed.

(** ** Installing a key *)

Lemma released_add_item_to_array fuel m array item m' :
  cJSON_AddItemToArray fuel m array item = Some m' -> released m' = released m.
Proof.
  unfold cJSON_AddItemToArray. intros H.
  repeat match type of H with
         | match ?x with _ => _ end = _ => destruct x; try discriminate
         end; injection H as <-; reflexivity.
Qed.

(** [cJSON_AddItemToObjectCS] leaves a constant key alone. *)
Lemma add_item_cs_keeps_const_key fuel m object key item n m' :
  nodes m !! item = Some n -> string_is_const n = true ->
  cJSON_AddItemToObjectCS fuel m object key (Some item) = Some m' ->
  released m' = released m.
Proof.
  intros Hn Hc. unfold cJSON_AddItemToObjectCS. rewrite Hn, Hc. cbn [negb].
  intros H. apply released_add_item_to_array in H. rewrite H.
  destruct (name n); reflexivity.
Qed.

(** [cJSON_AddItemToObject] releases the key it replaces, constant or not. *)
Lemma add_item_releases_key fuel m object key item n k m' :
  nodes m !! item = Some n -> name n = Some k ->
  cJSON_AddItemToObject fuel m object key (Some item) = Some m' ->
  k ∈ released m'.
Proof.
  intros Hn Hk. unfold cJSON_AddItemToObject. rewrite Hn, Hk.
  cbn [cJSON_strdup]. intros H. apply released_add_item_to_array in H. rewrite H.
  cbn [set_nodes free_fn released]. apply elem_of_app. right. now left.
Qed.

(** ** Claim C10 *)

(** The host's key lives at address 1000, outside the allocator's range. *)
Definition host_key : addr := 1000%positive.

(** Two objects and a number; the number is added to the first object under
    the host's key, detached, and added to the second object under an owned
    key. *)
Definition const_key_run : option memory :=
  let m := {| nodes := ∅; strings := {[ host_key := bytes "key"%string ]};
              released := []; brk := 1%positive |} in
  let '(o1, m) := new_item cJSON_Object m in
  let '(o2, m) := new_item cJSON_Object m in
  let '(it, m) := new_item cJSON_Number m in
  m ← cJSON_AddItemToObjectCS 1%nat m o1 host_key (Some it);
  '(_, m) ← cJSON_DetachItemFromArray 1%nat m o1 0%nat;
  cJSON_AddItemToObject 1%nat m o2 (bytes "b"%string) (Some it).

(** C10 on that run: [cJSON_AddItemToObject] passes the borrowed key to
    [free_fn], although the node carries the constant mark that
    [cJSON_AddItemToObjectCS] and [internal_cJSON_Delete] both test before
    releasing a key. *)
Theorem C10_borrowed_key_released :
  exists m, const_key_run = Some m /\ released m = [host_key].
Proof. eexists. split; reflexivity. Qed.

End HeapFacts.

(** * Properties of the accessors, insertion and replacement *)

Module HeapOpsFacts.
Import Heap HeapOps HeapFacts.

(** ** Size and indexed access *)

Lemma count_siblings_spec h l : forall c i fuel,
  lseg h c l None -> (List.length l < fuel)%nat ->
  count_siblings fuel h c i = Some (i + List.length l)%nat.
Proof.
  induction l as [|a l IH]; intros c i fuel H Hfuel;
    (destruct fuel as [|fuel]; [lia|]); simpl in *.
  - subst c. f_equal. lia.
  - destruct H as (-> & n & Hn & H). rewrite Hn.
    rewrite (IH (next n) (S i) fuel H ltac:(lia)). f_equal. lia.
Qed.

(** X1: for an array whose children form the chain [l], [cJSON_GetArraySize]
    returns the length of [l] and [cJSON_GetArrayItem] returns the node at
    the given position of [l], NULL for every index at or beyond the size;
    a NULL array has no items. *)
Theorem X1_array_size_and_item (m : memory) (array : addr) (arr : cJSON) (l : list addr)
  (fuel : nat) :
  nodes m !! array = Some arr -> chain (nodes m) (child arr) l ->
  (List.length l < fuel)%nat ->
  cJSON_GetArraySize fuel m array = Some (List.length l)
  /\ (forall item, cJSON_GetArrayItem fuel m (Some array) item = Some (l !! item))
  /\ (forall item, cJSON_GetArrayItem fuel m None item = Some None).
Proof.
  intros Harr Hl Hfuel. apply chain_lseg in Hl.
  unfold cJSON_GetArraySize, cJSON_GetArrayItem. rewrite Harr.
  split; [|split].
  - now rewrite (count_siblings_spec _ l _ 0%nat fuel Hl Hfuel).
  - intros item. destruct (l !! item) as [a|] eqn:Ha.
    + pose proof (lookup_lt_Some _ _ _ Ha) as Hlt.
      now rewrite (seek_in_range _ l _ None item a fuel Hl Ha ltac:(lia)).
    + apply lookup_ge_None in Ha.
      destruct (seek_out_of_range _ l (child arr) None item fuel Hl Ha Hfuel) as (q & ->).
      reflexivity.
  - reflexivity.
Qed.

Lemma X1_array_size_and_item_witness :
  cJSON_GetArraySize 4%nat memory_3 1%positive = Some 3%nat
  /\ (forall item, cJSON_GetArrayItem 4%nat memory_3 (Some 1%positive) item
                   = Some ([2; 3; 4]%positive !! item))
  /\ (forall item, cJSON_GetArrayItem 4%nat memory_3 None item = Some None).
Proof.
  destruct three_appends_in_order as (_ & Harr & Hl).
  apply (X1_array_size_and_item memory_3 1%positive array_3 [2; 3; 4]%positive 4%nat Harr Hl).
  simpl. lia.
Defined.

(** ** Lookup by key *)

(** [keyed m l keys]: the nodes [l] carry the keys [keys], in order. *)
Definition keyed (m : memory) (l : list addr) (keys : list text) : Prop :=
  Forall2 (fun a key => exists n k, nodes m !! a = Some n /\ name n = Some k
                                     /\ strings m !! k = Some key) l keys.

Lemma find_name_missing m key keys : forall l c i fuel,
  lseg (nodes m) c l None -> keyed m l keys -> key ∉ keys ->
  (List.length l < fuel)%nat ->
  find_name fuel m c key i = Some (None, (i + List.length l)%nat).
Proof.
  induction keys as [|k0 keys IH]; intros l c i fuel Hl Hk Hnot Hfuel;
    inversion Hk as [|a k1 l' ks (n & k & Hn & Hname & Hs) Hk']; subst;
    (destruct fuel as [|fuel]; [lia|]); simpl in *.
  - subst c. do 2 f_equal. lia.
  - destruct Hl as (-> & n' & Hn' & Hl). rewrite Hn' in Hn. injection Hn as ->.
    rewrite Hn', Hname, Hs. unfold strcmp.
    rewrite bool_decide_eq_false_2 by (intros ->; apply Hnot; now left).
    cbn [Z.eqb negb].
    rewrite (IH l' (next n) (S i) fuel Hl Hk' ltac:(intros H; apply Hnot; now right)
               ltac:(lia)).
    do 2 f_equal. lia.
Qed.

Lemma find_name_found m key ks1 : forall l c i fuel a keys,
  lseg (nodes m) c l None -> keyed m l (ks1 ++ key :: keys) -> key ∉ ks1 ->
  l !! List.length ks1 = Some a -> (List.length ks1 < fuel)%nat ->
  find_name fuel m c key i = Some (Some a, (i + List.length ks1)%nat).
Proof.
  induction ks1 as [|k0 ks1 IH]; intros l c i fuel a keys Hl Hk Hnot Ha Hfuel;
    inversion Hk as [|a0 k1 l' ks (n & k & Hn & Hname & Hs) Hk']; subst;
    (destruct fuel as [|fuel]; [lia|]); simpl in *;
    destruct Hl as (-> & n' & Hn' & Hl); rewrite Hn' in Hn; injection Hn as ->;
    rewrite Hn', Hname, Hs; unfold strcmp.
  - rewrite bool_decide_eq_true_2 by reflexivity. cbn [Z.eqb negb].
    injection Ha as ->. do 2 f_equal. lia.
  - rewrite bool_decide_eq_false_2 by (intros ->; apply Hnot; now left).
    cbn [Z.eqb negb].
    rewrite (IH l' (next n) (S i) fuel a keys Hl Hk'
               ltac:(intros H; apply Hnot; now right) Ha ltac:(lia)).
    do 2 f_equal. lia.
Qed.

(** X2: in an object whose children [l] carry the keys [keys],
    [cJSON_GetObjectItem] returns the first child whose key equals the name
    byte for byte, and NULL when no key equals it; [cJSON_HasObjectItem]
    tells the two cases apart. *)
Theorem X2_object_lookup (m : memory) (object : addr) (obj : cJSON) (l : list addr)
  (keys : list text) (key : text) (fuel : nat) :
  nodes m !! object = Some obj -> chain (nodes m) (child obj) l -> keyed m l keys ->
  (List.length l < fuel)%nat ->
  (forall ks1 ks2 a, keys = ks1 ++ key :: ks2 -> key ∉ ks1 -> l !! List.length ks1 = Some a ->
     cJSON_GetObjectItem fuel m (Some object) key = Some (Some a)
     /\ cJSON_HasObjectItem fuel m (Some object) key = Some true)
  /\ (key ∉ keys ->
      cJSON_GetObjectItem fuel m (Some object) key = Some None
      /\ cJSON_HasObjectItem fuel m (Some object) key = Some false).
Proof.
  intros Hobj Hl Hk Hfuel. apply chain_lseg in Hl.
  unfold cJSON_HasObjectItem, cJSON_GetObjectItem. rewrite Hobj. split.
  - intros ks1 ks2 a -> Hnot Ha.
    pose proof (lookup_lt_Some _ _ _ Ha) as Hlt.
    rewrite (find_name_found m key ks1 l (child obj) 0%nat fuel a ks2 Hl Hk Hnot Ha
               ltac:(lia)).
    split; reflexivity.
  - intros Hnot.
    rewrite (find_name_missing m key keys l (child obj) 0%nat fuel Hl Hk Hnot Hfuel).
    split; reflexivity.
Qed.

(** An object (at address 1) with the members [a] (node 2, key at 4) and
    [b] (node 3, key at 5). *)
Definition object_ab_run : option memory :=
  let '(o, m) := new_item cJSON_Object empty_memory in
  let '(x, m) := new_item cJSON_NULL m in
  let '(y, m) := new_item cJSON_True m in
  m ← cJSON_AddItemToObject 3%nat m o (bytes "a"%string) (Some x);
  cJSON_AddItemToObject 3%nat m o (bytes "b"%string) (Some y).

Definition object_ab : memory := default empty_memory object_ab_run.

Definition node_object_ab : cJSON :=
  {| next := None; child := Some 2%positive; type := cJSON_Object; valuestring := None;
     name := None; string_is_const := false; is_reference := false |}.

Lemma object_ab_chain :
  nodes object_ab !! 1%positive = Some node_object_ab
  /\ chain (nodes object_ab) (child node_object_ab) [2; 3]%positive
  /\ keyed object_ab [2; 3]%positive [bytes "a"%string; bytes "b"%string].
Proof.
  split; [reflexivity|]. split.
  - simpl. repeat (split; [reflexivity|]; eexists; split; [vm_compute; reflexivity|]).
    reflexivity.
  - repeat constructor; eexists _, _; repeat split; vm_compute; reflexivity.
Qed.

Lemma X2_object_lookup_witness :
  (forall ks1 ks2 a,
     [bytes "a"%string; bytes "b"%string] = ks1 ++ bytes "b"%string :: ks2 ->
     bytes "b"%string ∉ ks1 -> [2; 3]%positive !! List.length ks1 = Some a ->
     cJSON_GetObjectItem 3%nat object_ab (Some 1%positive) (bytes "b"%string) = Some (Some a)
     /\ cJSON_HasObjectItem 3%nat object_ab (Some 1%positive) (bytes "b"%string) = Some true)
  /\ (bytes "b"%string ∉ [bytes "a"%string; bytes "b"%string] ->
      cJSON_GetObjectItem 3%nat object_ab (Some 1%positive) (bytes "b"%string) = Some None
      /\ cJSON_HasObjectItem 3%nat object_ab (Some 1%positive) (bytes "b"%string)
         = Some false).
Proof.
  destruct object_ab_chain as (Hobj & Hl & Hk).
  apply (X2_object_lookup object_ab 1%positive node_object_ab [2; 3]%positive
           [bytes "a"%string; bytes "b"%string] (bytes "b"%string) 3%nat Hobj Hl Hk).
  simpl. lia.
Defined.

(** ** Insertion *)

Lemma head_not_later (h : gmap addr cJSON) (l1 : list addr) (c : addr) (l2 : list addr)
  (p : option addr) :
  lseg h p (l1 ++ c :: l2) None -> l1 <> [] -> Some c <> p.
Proof.
  intros H Hne E. pose proof (lseg_NoDup _ _ _ H) as Hnd.
  destruct l1 as [|x l1]; [contradiction|].
  simpl in H. destruct H as (Hx & _). rewrite <- E in Hx. injection Hx as <-.
  apply NoDup_cons in Hnd as (Hnot & _). apply Hnot. apply elem_of_app. right. now left.
Qed.

(** X3: [cJSON_InsertItemInArray] at an index inside the chain links the new
    node in front of the node at that index, every other child keeping its
    place; at an index at or beyond the size it appends the new node (with
    whatever follows it), as [cJSON_AddItemToArray] does. *)
Theorem X3_insert_item (m : memory) (array : addr) (arr : cJSON) (l : list addr)
  (new : addr) (n : cJSON) (which fuel : nat) :
  nodes m !! array = Some arr -> chain (nodes m) (child arr) l ->
  nodes m !! new = Some n -> new ∉ l -> new <> array ->
  (List.length l < fuel)%nat ->
  ((which < List.length l)%nat ->
   exists m' arr',
     cJSON_InsertItemInArray fuel m array which (Some new) = Some m'
     /\ nodes m' !! array = Some arr'
     /\ chain (nodes m') (child arr') (take which l ++ new :: drop which l))
  /\ ((List.length l <= which)%nat ->
      forall li, chain (nodes m) (Some new) li -> (forall a, a ∈ l -> a ∉ li) ->
      exists m' arr',
        cJSON_InsertItemInArray fuel m array which (Some new) = Some m'
        /\ nodes m' !! array = Some arr'
        /\ chain (nodes m') (child arr') (l ++ li)).
Proof.
  intros Harr Hl Hn Hnew Hna Hfuel. unfold cJSON_InsertItemInArray.
  rewrite Harr. cbn [mbind option_bind].
  pose proof Hl as Hseg. apply chain_lseg in Hseg.
  split.
  - intros Hw. destruct (lookup_lt_is_Some_2 l which Hw) as (c & Hc).
    rewrite (seek_in_range _ l (child arr) None which c fuel Hseg Hc ltac:(lia)).
    cbn [mbind option_bind]. rewrite Hn. cbn [mbind option_bind set_nodes nodes].
    pose proof (lseg_NoDup _ _ _ Hseg) as Hnd.
    pose proof (take_drop_middle l which c Hc) as Hsplit.
    rewrite (drop_S l c which Hc).
    set (l1 := take which l) in *. set (l2 := drop (S which) l) in *.
    rewrite <- Hsplit in Hseg, Hnd, Hnew.
    apply NoDup_app in Hnd as (Hnd1 & Hc1 & Hnd2).
    apply NoDup_cons in Hnd2 as (Hc2 & Hnd2).
    pose proof Hseg as Hseg'.
    apply lseg_app in Hseg as (r & H1 & H2).
    assert (Hrest : lseg (<[new := set_next (Some c) n]> (nodes m)) (Some c) (c :: l2) None).
    { eapply lseg_frame; [|].
      - intros b Hb. apply next_insert_ne. intros ->. apply Hnew.
        apply elem_of_app. now right.
      - simpl in H2. destruct H2 as (-> & H2). simpl. auto. }
    destruct which as [|w].
    + assert (l1 = []) as E1 by reflexivity. rewrite E1 in *. simpl in H1.
      simpl in H2. destruct H2 as (-> & H2).
      rewrite decide_True by (now rewrite H1).
      rewrite lookup_insert_ne by exact Hna. rewrite Harr. cbn [mbind option_bind].
      eexists _, _. split; [reflexivity|]. cbn [set_nodes nodes].
      rewrite lookup_insert_eq. split; [reflexivity|]. cbn [set_child child app].
      apply chain_lseg. change (new :: c :: l2) with ([new] ++ c :: l2).
      apply lseg_app. exists (Some c). split.
      * simpl. split; [reflexivity|].
        rewrite lookup_insert_ne by congruence. rewrite lookup_insert_eq.
        eexists. split; reflexivity.
      * eapply lseg_frame; [|exact Hrest]. intros b Hb.
        apply next_insert_child. rewrite lookup_insert_ne by exact Hna. exact Harr.
    + destruct (l !! w) as [p|] eqn:Hp.
      2:{ apply lookup_ge_None in Hp. lia. }
      assert (l1 = take w l ++ [p]) as E1 by (unfold l1; now apply take_S_r).
      assert (Hhead : Some c <> child arr).
      { apply (head_not_later (nodes m) l1 c l2); [exact Hseg'|].
        rewrite E1. intros E. apply app_eq_nil in E as (_ & E). discriminate. }
      rewrite decide_False by exact Hhead. cbn [mbind option_bind].
      rewrite E1 in H1, Hc1, Hnd1, Hnew |- *.
      apply lseg_app in H1 as (r0 & H0 & Hpseg).
      simpl in Hpseg. destruct Hpseg as (-> & pn & Hpn & Hpnext).
      assert (Hpnew : p <> new).
      { intros ->. apply Hnew. apply elem_of_app. left. apply elem_of_app. right. now left. }
      rewrite lookup_insert_ne by congruence. rewrite Hpn. cbn [mbind option_bind].
      assert (Harr1 : <[new := set_next (Some c) n]> (nodes m) !! array = Some arr)
        by (rewrite lookup_insert_ne by exact Hna; exact Harr).
      assert (Hpn1 : <[new := set_next (Some c) n]> (nodes m) !! p = Some pn)
        by (rewrite lookup_insert_ne by congruence; exact Hpn).
      destruct (child_insert_next _ p pn (Some new) array arr Hpn1 Harr1)
        as (arr2 & Harr2 & Hchild2).
      eexists _, arr2. split; [reflexivity|]. cbn [set_nodes nodes].
      split; [exact Harr2|]. rewrite Hchild2.
      apply chain_lseg. rewrite <- app_assoc. apply lseg_app. exists (Some p). split.
      * eapply lseg_frame; [|exact H0]. intros b Hb.
        rewrite next_insert_ne.
        -- apply next_insert_ne. intros ->. apply Hnew.
           apply elem_of_app. left. apply elem_of_app. now left.
        -- intros ->. apply NoDup_app in Hnd1 as (_ & Hd & _). apply (Hd b Hb). now left.
      * change ([p] ++ new :: c :: l2) with (p :: [new] ++ c :: l2).
        simpl. split; [reflexivity|]. rewrite lookup_insert_eq.
        eexists. split; [reflexivity|]. cbn [set_next next]. split; [reflexivity|].
        rewrite lookup_insert_ne by congruence. rewrite lookup_insert_eq.
        eexists. split; [reflexivity|]. cbn [set_next next].
        simpl in Hrest. destruct Hrest as (_ & cn & Hcn & Hrest).
        split; [reflexivity|]. exists cn. split.
        -- rewrite lookup_insert_ne; [exact Hcn|].
           intros ->. apply (Hc1 c); [apply elem_of_app; right; now left|now left].
        -- eapply lseg_frame; [|exact Hrest]. intros b Hb.
           apply next_insert_ne. intros ->.
           apply (Hc1 b); [apply elem_of_app; right; now left|now right].
  - intros Hw li Hli Hdisj.
    destruct (seek_out_of_range _ l (child arr) None which fuel Hseg Hw Hfuel) as (q & ->).
    cbn [mbind option_bind].
    apply (add_item_to_array m array arr l li new fuel Harr Hl Hli Hdisj). lia.
Qed.

(** [memory_3] with a fresh node at address 5. *)
Definition memory_3_new : memory := snd (new_item cJSON_True memory_3).

Definition node_5 : cJSON :=
  {| next := None; child := None; type := cJSON_True; valuestring := None;
     name := None; string_is_const := false; is_reference := false |}.

Lemma memory_3_new_chain :
  nodes memory_3_new !! 1%positive = Some array_3
  /\ chain (nodes memory_3_new) (child array_3) [2; 3; 4]%positive
  /\ nodes memory_3_new !! 5%positive = Some node_5.
Proof.
  split; [reflexivity|]. split; [|reflexivity].
  simpl. repeat (split; [reflexivity|]; eexists; split; [vm_compute; reflexivity|]).
  reflexivity.
Qed.

Lemma X3_insert_item_witness :
  ((1 < List.length [2; 3; 4]%positive)%nat ->
   exists m' arr',
     cJSON_InsertItemInArray 4%nat memory_3_new 1%positive 1%nat (Some 5%positive) = Some m'
     /\ nodes m' !! 1%positive = Some arr'
     /\ chain (nodes m') (child arr') [2; 5; 3; 4]%positive)
  /\ ((List.length [2; 3; 4]%positive <= 1)%nat ->
      forall li, chain (nodes memory_3_new) (Some 5%positive) li ->
      (forall a, a ∈ [2; 3; 4]%positive -> a ∉ li) ->
      exists m' arr',
        cJSON_InsertItemInArray 4%nat memory_3_new 1%positive 1%nat (Some 5%positive) = Some m'
        /\ nodes m' !! 1%positive = Some arr'
        /\ chain (nodes m') (child arr') ([2; 3; 4]%positive ++ li)).
Proof.
  destruct memory_3_new_chain as (Harr & Hl & Hn).
  apply (X3_insert_item memory_3_new 1%positive array_3 [2; 3; 4]%positive 5%positive
           node_5 1%nat 4%nat Harr Hl Hn).
  - intros H. repeat (apply elem_of_cons in H as [H|H]; [discriminate|]). inversion H.
  - discriminate.
  - simpl. lia.
Defined.

(** ** Teardown of a whole tree *)

(** The shape of what [internal_cJSON_Delete] walks from a node: the node,
    what hangs from its [child] link and what follows on its [next] link. *)
Inductive forest :=
| Leaf
| Tree (a : addr) (kids rest : forest).

Fixpoint size (f : forest) : nat :=
  match f with
  | Leaf => O
  | Tree _ kids rest => S (size kids + size rest)
  end.

(** [linked h c f]: the nodes reachable from [c] have the shape [f]; a
    reference owns no children, whatever its [child] link says. *)
Fixpoint linked (h : gmap addr cJSON) (c : option addr) (f : forest) : Prop :=
  match f with
  | Leaf => c = None
  | Tree a kids rest =>
    c = Some a /\ exists n, h !! a = Some n
      /\ (if is_reference n then kids = Leaf else linked h (child n) kids)
      /\ linked h (next n) rest
  end.

(** The buffers a node owns, in the order teardown releases them. *)
Definition buffers (n : cJSON) : list addr :=
  (match valuestring n with
   | Some v => if negb (is_reference n) && bool_decide (type n = cJSON_String) then [v] else []
   | None => []
   end)
  ++ (match name n with
      | Some k => if negb (string_is_const n) then [k] else []
      | None => []
      end).

(** The addresses teardown hands to [free_fn], in call order. *)
Fixpoint releases (h : gmap addr cJSON) (f : forest) : list addr :=
  match f with
  | Leaf => []
  | Tree a kids rest =>
    releases h kids ++ (match h !! a with Some n => buffers n | None => [] end)
      ++ a :: releases h rest
  end.

Fixpoint node_addrs (f : forest) : list addr :=
  match f with
  | Leaf => []
  | Tree a kids rest => a :: node_addrs kids ++ node_addrs rest
  end.

Lemma node_addrs_releases h f a : a ∈ node_addrs f -> a ∈ releases h f.
Proof.
  induction f as [|b kids IHk rest IHr]; simpl; [intros H; inversion H|].
  intros H. apply elem_of_cons in H as [->|H].
  - apply elem_of_app. right. apply elem_of_app. right. now left.
  - apply elem_of_app in H as [H|H].
    + apply elem_of_app. left. auto.
    + apply elem_of_app. right. apply elem_of_app. right. right. auto.
Qed.

Lemma linked_frame h h' f : forall c,
  (forall a, a ∈ node_addrs f -> h' !! a = h !! a) ->
  linked h c f -> linked h' c f /\ releases h' f = releases h f.
Proof.
  induction f as [|b kids IHk rest IHr]; intros c Hsame; simpl; [auto|].
  intros (-> & n & Hn & Hkids & Hrest).
  assert (Hb : h' !! b = Some n) by (rewrite Hsame; [exact Hn|now left]).
  destruct (IHr (next n)) as (Hr1 & Hr2); [|exact Hrest|].
  { intros a Ha. apply Hsame. right. apply elem_of_app. now right. }
  rewrite Hb, Hn, Hr2.
  destruct (is_reference n) eqn:Href.
  - subst kids. split; [|reflexivity]. split; [reflexivity|]. exists n.
    rewrite Href. auto.
  - destruct (IHk (child n)) as (Hk1 & Hk2); [|exact Hkids|].
    { intros a Ha. apply Hsame. right. apply elem_of_app. now left. }
    rewrite Hk2. split; [|reflexivity]. split; [reflexivity|]. exists n.
    rewrite Href. auto.
Qed.

(** Memory after the addresses [ps] were released. *)
Definition without (ps : list addr) (m m' : memory) : Prop :=
  released m' = released m ++ ps
  /\ (forall q, nodes m' !! q = if decide (q ∈ ps) then None else nodes m !! q)
  /\ (forall q, strings m' !! q = if decide (q ∈ ps) then None else strings m !! q)
  /\ brk m' = brk m.

Lemma without_nil m : without [] m m.
Proof.
  split; [now rewrite app_nil_r|].
  split; [|split; [|reflexivity]]; intros q;
    rewrite decide_False; auto; intros H; inversion H.
Qed.

Lemma without_free p m : without [p] m (free_fn p m).
Proof.
  split; [reflexivity|].
  split; [|split; [|reflexivity]]; cbn [free_fn nodes strings]; intros q;
    (destruct (decide (q ∈ [p])) as [H|H];
     [apply list_elem_of_singleton in H as ->; apply lookup_delete_eq
     |apply lookup_delete_ne; intros ->; apply H; now left]).
Qed.

Lemma without_trans ps1 ps2 m m1 m2 :
  without ps1 m m1 -> without ps2 m1 m2 -> without (ps1 ++ ps2) m m2.
Proof.
  intros (Hr1 & Hn1 & Hs1 & Hb1) (Hr2 & Hn2 & Hs2 & Hb2).
  split; [|split; [|split]].
  - now rewrite Hr2, Hr1, app_assoc.
  - intros q. rewrite Hn2, Hn1.
    destruct (decide (q ∈ ps2)), (decide (q ∈ ps1)), (decide (q ∈ ps1 ++ ps2)) as [H|H];
      try reflexivity; exfalso; rewrite elem_of_app in H; tauto.
  - intros q. rewrite Hs2, Hs1.
    destruct (decide (q ∈ ps2)), (decide (q ∈ ps1)), (decide (q ∈ ps1 ++ ps2)) as [H|H];
      try reflexivity; exfalso; rewrite elem_of_app in H; tauto.
  - congruence.
Qed.

Lemma free_buffers (n : cJSON) (m : memory) :
  without (buffers n) m
    (let m := match valuestring n with
              | Some v =>
                if negb (is_reference n) && bool_decide (type n = cJSON_String)
                then free_fn v m else m
              | None => m
              end in
     match name n with
     | Some k => if negb (string_is_const n) then free_fn k m else m
     | None => m
     end).
Proof.
  unfold buffers. cbv zeta.
  set (m1 := match valuestring n with Some _ => _ | None => m end).
  apply (without_trans _ _ m m1).
  - unfold m1. destruct (valuestring n); [|apply without_nil].
    destruct (negb (is_reference n) && bool_decide (type n = cJSON_String));
      [apply without_free|apply without_nil].
  - destruct (name n); [|apply without_nil].
    destruct (negb (string_is_const n)); [apply without_free|apply without_nil].
Qed.

(** Teardown of a well-formed tree. *)
Lemma delete_forest f : forall fuel m c,
  linked (nodes m) c f -> NoDup (releases (nodes m) f) -> (size f < fuel)%nat ->
  exists m', internal_cJSON_Delete fuel m c = Some m'
             /\ without (releases (nodes m) f) m m'.
Proof.
  induction f as [|a kids IHk rest IHr]; intros fuel m c Hl Hnd Hfuel;
    (destruct fuel as [|fuel]; [lia|]); cbn [linked releases size] in *.
  - subst c. exists m. split; [reflexivity|apply without_nil].
  - destruct Hl as (-> & n & Hn & Hkids & Hrest).
    cbn [internal_cJSON_Delete]. rewrite Hn in *.
    apply NoDup_app in Hnd as (Hnd1 & Hd1 & Hnd2).
    apply NoDup_app in Hnd2 as (Hndb & Hd2 & Hnd3).
    apply NoDup_cons in Hnd3 as (Ha & Hnd3).
    assert (Hchildren : exists m1,
               match child n with
               | Some ch => if negb (is_reference n)
                            then internal_cJSON_Delete fuel m (Some ch) else Some m
               | None => Some m
               end = Some m1 /\ without (releases (nodes m) kids) m m1).
    { destruct (is_reference n) eqn:Href; cbn [negb].
      - subst kids. exists m. split; [destruct (child n); reflexivity|apply without_nil].
      - destruct (child n) as [ch|] eqn:Hch.
        + apply (IHk fuel m (Some ch) Hkids Hnd1). lia.
        + destruct kids; [|destruct Hkids; discriminate].
          exists m. split; [reflexivity|apply without_nil]. }
    destruct Hchildren as (m1 & -> & Hw1).
    pose proof (free_buffers n m1) as Hw2. cbv zeta in Hw2.
    set (m2 := match name n with
               | Some k => if negb (string_is_const n) then free_fn k _ else _
               | None => _
               end) in *.
    pose proof (without_trans _ _ _ _ _ Hw2 (without_free a m2)) as Hw3.
    pose proof (without_trans _ _ _ _ _ Hw1 Hw3) as Hw4.
    destruct Hw4 as (Hr4 & Hn4 & Hs4 & Hb4).
    assert (Hsame : forall q, q ∈ node_addrs rest ->
                              nodes (free_fn a m2) !! q = nodes m !! q).
    { intros q Hq. apply (node_addrs_releases (nodes m)) in Hq.
      rewrite Hn4. apply decide_False. intros H.
      apply elem_of_app in H as [H|H].
      - apply (Hd1 q H). apply elem_of_app. right. now right.
      - apply elem_of_app in H as [H|H].
        + apply (Hd2 q H). now right.
        + apply list_elem_of_singleton in H as ->. contradiction. }
    destruct (linked_frame (nodes m) (nodes (free_fn a m2)) rest (next n) Hsame Hrest)
      as (Hrest' & Hrel').
    destruct (IHr fuel (free_fn a m2) (next n) Hrest') as (m' & Hdel & Hw5);
      [rewrite Hrel'; exact Hnd3|lia|].
    exists m'. split; [exact Hdel|]. rewrite Hrel' in Hw5.
    pose proof (without_trans _ _ _ _ _ (conj Hr4 (conj Hn4 (conj Hs4 Hb4))) Hw5) as Hw.
    rewrite <- !app_assoc in Hw. exact Hw.
Qed.

(** X8: teardown of a well-formed tree whose nodes and owned buffers are all
    distinct returns, hands each of them to [free_fn] exactly once (the
    children of a node before its buffers, its buffers before the node, the
    node before its successors), removes them from memory and leaves every
    other address as it was. *)
Theorem X8_teardown (f : forest) (fuel : nat) (m : memory) (c : option addr) :
  linked (nodes m) c f -> NoDup (releases (nodes m) f) -> (size f < fuel)%nat ->
  exists m',
    internal_cJSON_Delete fuel m c = Some m'
    /\ released m' = released m ++ releases (nodes m) f
    /\ (forall q, q ∈ releases (nodes m) f -> nodes m' !! q = None /\ strings m' !! q = None)
    /\ (forall q, q ∉ releases (nodes m) f ->
          nodes m' !! q = nodes m !! q /\ strings m' !! q = strings m !! q).
Proof.
  intros Hl Hnd Hfuel.
  destruct (delete_forest f fuel m c Hl Hnd Hfuel) as (m' & Hdel & Hr & Hn & Hs & _).
  exists m'. split; [exact Hdel|]. split; [exact Hr|]. split; intros q Hq.
  - rewrite Hn, Hs. now rewrite !decide_True by exact Hq.
  - rewrite Hn, Hs. now rewrite !decide_False by exact Hq.
Qed.

Definition forest_ab : forest :=
  Tree 1%positive (Tree 2%positive Leaf (Tree 3%positive Leaf Leaf)) Leaf.

Lemma X8_teardown_witness :
  exists m',
    internal_cJSON_Delete 4%nat object_ab (Some 1%positive) = Some m'
    /\ released m' = released object_ab ++ releases (nodes object_ab) forest_ab
    /\ (forall q, q ∈ releases (nodes object_ab) forest_ab ->
          nodes m' !! q = None /\ strings m' !! q = None)
    /\ (forall q, q ∉ releases (nodes object_ab) forest_ab ->
          nodes m' !! q = nodes object_ab !! q /\ strings m' !! q = strings object_ab !! q).
Proof.
  apply (X8_teardown forest_ab 4%nat object_ab (Some 1%positive)).
  - simpl. split; [reflexivity|]. eexists. split; [vm_compute; reflexivity|].
    cbn [is_reference child next]. split; [|reflexivity].
    split; [reflexivity|]. eexists. split; [vm_compute; reflexivity|].
    cbn [is_reference child next]. split; [reflexivity|].
    split; [reflexivity|]. eexists. split; [vm_compute; reflexivity|].
    cbn [is_reference child next]. split; reflexivity.
  - apply (bool_decide_unpack _). vm_compute. exact I.
  - simpl. lia.
Defined.

(** ** Replacement *)

(** X4: [internal_cJSON_ReplaceItemInArray] at an index inside the chain
    puts the new node in the place of the old one, every other child keeping
    its place, and tears the old node down with what it owns; at an index at
    or beyond the size it changes nothing. *)
Theorem X4_replace_item (m : memory) (array : addr) (arr : cJSON) (l : list addr)
  (new : addr) (n : cJSON) (which fuel : nat) :
  nodes m !! array = Some arr -> chain (nodes m) (child arr) l ->
  nodes m !! new = Some n -> new ∉ l -> new <> array ->
  (List.length l < fuel)%nat ->
  (forall c cn kids,
     l !! which = Some c -> nodes m !! c = Some cn ->
     (if is_reference cn then kids = Leaf else linked (nodes m) (child cn) kids) ->
     let rel := releases (nodes m) kids ++ buffers cn ++ [c] in
     NoDup rel -> array ∉ rel -> new ∉ rel -> (forall a, a ∈ l -> a <> c -> a ∉ rel) ->
     (S (size kids) < fuel)%nat ->
     exists m' arr',
       internal_cJSON_ReplaceItemInArray fuel m array which (Some new) = Some m'
       /\ nodes m' !! array = Some arr'
       /\ chain (nodes m') (child arr') (<[which := new]> l)
       /\ released m' = released m ++ rel)
  /\ ((List.length l <= which)%nat ->
      internal_cJSON_ReplaceItemInArray fuel m array which (Some new) = Some m).
Proof.
  intros Harr Hl Hn Hnew Hna Hfuel. unfold internal_cJSON_ReplaceItemInArray.
  rewrite Harr. cbn [mbind option_bind].
  pose proof Hl as Hseg. apply chain_lseg in Hseg.
  split.
  2:{ intros Hw.
      destruct (seek_out_of_range _ l (child arr) None which fuel Hseg Hw Hfuel) as (q & ->).
      reflexivity. }
  intros c cn kids Hc Hcn Hkids Hnd Harel Hnrel Hlrel Hsize.
  set (rel := releases (nodes m) kids ++ buffers cn ++ [c]) in *.
  pose proof (lookup_lt_Some _ _ _ Hc) as Hw.
  rewrite (seek_in_range _ l (child arr) None which c fuel Hseg Hc ltac:(lia)).
  cbn [mbind option_bind]. rewrite Hn, Hcn. cbn [mbind option_bind set_nodes nodes].
  pose proof (lseg_NoDup _ _ _ Hseg) as Hndl.
  pose proof (take_drop_middle l which c Hc) as Hsplit.
  assert (Hins : <[which := new]> l = take which l ++ new :: drop (S which) l).
  { rewrite <- Hsplit at 1. rewrite insert_app_r_alt by (rewrite length_take; lia).
    rewrite length_take. replace (which - which `min` List.length l)%nat with 0%nat by lia.
    reflexivity. }
  rewrite Hins.
  set (l1 := take which l) in *. set (l2 := drop (S which) l) in *.
  assert (Hcrel : c ∈ rel).
  { unfold rel. apply elem_of_app. right. apply elem_of_app. right. now left. }
  assert (Hca : c <> array) by (intros ->; contradiction).
  assert (Hcnew : c <> new) by (intros ->; contradiction).
  rewrite <- Hsplit in Hseg, Hndl, Hnew, Hlrel.
  apply NoDup_app in Hndl as (Hnd1 & Hc1 & Hnd2).
  apply NoDup_cons in Hnd2 as (Hc2 & Hnd2).
  pose proof Hseg as Hseg'.
  apply lseg_app in Hseg as (r & H1 & H2).
  simpl in H2. destruct H2 as (-> & cn' & Hcn' & H2).
  rewrite Hcn in Hcn'. injection Hcn' as <-.
  (* the chain after relinking and clearing the old node's successor *)
  assert (Hrelinked : exists m2 arr2,
    (if decide (Some c = child arr)
     then arr0 ← <[new := set_next (next cn) n]> (nodes m) !! array;
          Some (set_nodes <[array := set_child (Some new) arr0]>
                  (set_nodes <[new := set_next (next cn) n]> m))
     else p ← match which with O => None | S w => l !! w end;
          pn ← <[new := set_next (next cn) n]> (nodes m) !! p;
          Some (set_nodes <[p := set_next (Some new) pn]>
                  (set_nodes <[new := set_next (next cn) n]> m))) = Some m2
    /\ nodes m2 !! array = Some arr2
    /\ lseg (nodes m2) (child arr2) (l1 ++ new :: l2) None
    /\ nodes m2 !! c = Some cn
    /\ released m2 = released m /\ strings m2 = strings m /\ brk m2 = brk m
    /\ (forall q, q ∈ rel -> q <> c -> nodes m2 !! q = nodes m !! q)).
  { assert (Htail : lseg (<[new := set_next (next cn) n]> (nodes m)) (next cn) l2 None).
    { eapply lseg_frame; [|exact H2]. intros b Hb. apply next_insert_ne.
      intros ->. apply Hnew. apply elem_of_app. right. now right. }
    destruct which as [|w].
    - assert (l1 = []) as E1 by reflexivity. rewrite E1 in *. simpl in H1.
      rewrite decide_True by (now rewrite H1).
      rewrite lookup_insert_ne by exact Hna. rewrite Harr. cbn [mbind option_bind].
      eexists _, _. split; [reflexivity|]. cbn [set_nodes nodes released strings brk].
      rewrite lookup_insert_eq. split; [reflexivity|]. cbn [set_child child app].
      split; [|split; [|split; [reflexivity|split; [reflexivity|split; [reflexivity|]]]]].
      + simpl. split; [reflexivity|].
        rewrite lookup_insert_ne by congruence. rewrite lookup_insert_eq.
        eexists. split; [reflexivity|]. cbn [set_next next].
        eapply lseg_frame; [|exact Htail]. intros b Hb.
        apply next_insert_child. rewrite lookup_insert_ne by exact Hna. exact Harr.
      + rewrite !lookup_insert_ne by congruence. exact Hcn.
      + intros q Hq Hqc. rewrite !lookup_insert_ne; [reflexivity| |];
          intros ->; contradiction.
    - destruct (l !! w) as [p|] eqn:Hp.
      2:{ apply lookup_ge_None in Hp. lia. }
      assert (l1 = take w l ++ [p]) as E1 by (unfold l1; now apply take_S_r).
      assert (Hhead : Some c <> child arr).
      { apply (head_not_later (nodes m) l1 c l2); [exact Hseg'|].
        rewrite E1. intros E. apply app_eq_nil in E as (_ & E). discriminate. }
      rewrite decide_False by exact Hhead. cbn [mbind option_bind].
      rewrite E1 in H1, Hc1, Hnd1, Hnew, Hlrel |- *.
      apply lseg_app in H1 as (r0 & H0 & Hpseg).
      simpl in Hpseg. destruct Hpseg as (-> & pn & Hpn & Hpnext).
      assert (Hpl : p ∈ (take w l ++ [p]) ++ c :: l2)
        by (apply elem_of_app; left; apply elem_of_app; right; now left).
      assert (Hpnew : p <> new) by (intros ->; contradiction).
      assert (Hpc : p <> c).
      { intros ->. apply (Hc1 c); [apply elem_of_app; right; now left|now left]. }
      rewrite lookup_insert_ne by congruence. rewrite Hpn. cbn [mbind option_bind].
      assert (Harr1 : <[new := set_next (next cn) n]> (nodes m) !! array = Some arr)
        by (rewrite lookup_insert_ne by exact Hna; exact Harr).
      assert (Hpn1 : <[new := set_next (next cn) n]> (nodes m) !! p = Some pn)
        by (rewrite lookup_insert_ne by congruence; exact Hpn).
      destruct (child_insert_next _ p pn (Some new) array arr Hpn1 Harr1)
        as (arr2 & Harr2 & Hchild2).
      eexists _, arr2. split; [reflexivity|]. cbn [set_nodes nodes released strings brk].
      split; [exact Harr2|]. rewrite Hchild2.
      split; [|split; [|split; [reflexivity|split; [reflexivity|split; [reflexivity|]]]]].
      + rewrite <- app_assoc. apply lseg_app. exists (Some p). split.
        * eapply lseg_frame; [|exact H0]. intros b Hb.
          rewrite next_insert_ne.
          -- apply next_insert_ne. intros ->. apply Hnew.
             apply elem_of_app. left. apply elem_of_app. now left.
          -- intros ->. apply NoDup_app in Hnd1 as (_ & Hd & _). apply (Hd b Hb). now left.
        * change ([p] ++ new :: l2) with (p :: new :: l2).
          simpl. split; [reflexivity|]. rewrite lookup_insert_eq.
          eexists. split; [reflexivity|]. cbn [set_next next]. split; [reflexivity|].
          rewrite lookup_insert_ne by congruence. rewrite lookup_insert_eq.
          eexists. split; [reflexivity|]. cbn [set_next next].
          eapply lseg_frame; [|exact Htail]. intros b Hb.
          apply next_insert_ne. intros ->.
          apply (Hc1 b); [apply elem_of_app; right; now left|now right].
      + rewrite !lookup_insert_ne by congruence. exact Hcn.
      + intros q Hq Hqc. rewrite !lookup_insert_ne; [reflexivity| |].
        * intros ->. contradiction.
        * intros ->. apply (Hlrel q Hpl Hqc Hq). }
  destruct Hrelinked as (m2 & arr2 & -> & Harr2 & Hchain2 & Hc2' & Hrel2 & Hstr2 & Hbrk2 & Hsame2).
  cbn [mbind option_bind]. rewrite Hc2'. cbn [mbind option_bind].
  set (m3 := set_nodes <[c := set_next None cn]> m2).
  assert (Hkaddr : forall q, q ∈ node_addrs kids -> nodes m3 !! q = nodes m !! q).
  { intros q Hq. apply (node_addrs_releases (nodes m)) in Hq.
    assert (Hqrel : q ∈ rel) by (unfold rel; apply elem_of_app; now left).
    assert (Hqc : q <> c).
    { intros ->. unfold rel in Hnd. apply NoDup_app in Hnd as (_ & Hd & _).
      apply (Hd c Hq). apply elem_of_app. right. now left. }
    unfold m3. cbn [set_nodes nodes]. rewrite lookup_insert_ne by congruence.
    now apply Hsame2. }
  assert (Hlinked3 : linked (nodes m3) (Some c) (Tree c kids Leaf)
                     /\ releases (nodes m3) (Tree c kids Leaf) = rel).
  { cbn [linked releases]. unfold m3 at 1 2 4. cbn [set_nodes nodes].
    rewrite lookup_insert_eq. cbn [set_next is_reference child next].
    destruct (is_reference cn) eqn:Href.
    - subst kids. split; [|unfold rel; reflexivity].
      split; [reflexivity|]. eexists. split; [reflexivity|].
      cbn [set_next is_reference next]. rewrite Href. auto.
    - destruct (linked_frame (nodes m) (nodes m3) kids (child cn) Hkaddr Hkids) as (Hk1 & Hk2).
      rewrite Hk2. split; [|unfold rel; reflexivity].
      split; [reflexivity|]. eexists. split; [reflexivity|].
      cbn [set_next is_reference next child]. rewrite Href. auto. }
  destruct Hlinked3 as (Hlinked3 & Hrel3).
  destruct (delete_forest (Tree c kids Leaf) fuel m3 (Some c) Hlinked3) as (m' & Hdel & Hwo);
    [rewrite Hrel3; exact Hnd|cbn [size]; lia|].
  rewrite Hrel3 in Hwo. destruct Hwo as (Hr & Hnod & _ & _).
  exists m'. fold m3. rewrite Hdel.
  assert (Hkeep : forall q, q ∉ rel -> nodes m' !! q = nodes m2 !! q).
  { intros q Hq. rewrite Hnod, decide_False by exact Hq.
    unfold m3. cbn [set_nodes nodes]. apply lookup_insert_ne. intros ->. contradiction. }
  exists arr2. split; [reflexivity|]. split; [rewrite Hkeep; auto|].
  split; [|rewrite Hr; unfold m3; cbn [set_nodes released]; now rewrite Hrel2].
  apply chain_lseg. eapply lseg_frame; [|exact Hchain2].
  intros b Hb. rewrite Hkeep; [reflexivity|].
  apply elem_of_app in Hb as [Hb|Hb].
  - apply Hlrel; [apply elem_of_app; now left|].
    intros ->. apply (Hc1 c Hb). now left.
  - apply elem_of_cons in Hb as [->|Hb]; [exact Hnrel|].
    apply Hlrel; [apply elem_of_app; right; now right|].
    intros ->. contradiction.
Qed.

Definition node_3 : cJSON :=
  {| next := Some 4%positive; child := None; type := cJSON_Number; valuestring := None;
     name := None; string_is_const := false; is_reference := false |}.

Lemma X4_replace_item_witness :
  (forall c cn kids,
     [2; 3; 4]%positive !! 1%nat = Some c -> nodes memory_3_new !! c = Some cn ->
     (if is_reference cn then kids = Leaf
      else linked (nodes memory_3_new) (child cn) kids) ->
     let rel := releases (nodes memory_3_new) kids ++ buffers cn ++ [c] in
     NoDup rel -> 1%positive ∉ rel -> 5%positive ∉ rel ->
     (forall a, a ∈ [2; 3; 4]%positive -> a <> c -> a ∉ rel) ->
     (S (size kids) < 4)%nat ->
     exists m' arr',
       internal_cJSON_ReplaceItemInArray 4%nat memory_3_new 1%positive 1%nat (Some 5%positive)
       = Some m'
       /\ nodes m' !! 1%positive = Some arr'
       /\ chain (nodes m') (child arr') (<[1%nat := 5%positive]> [2; 3; 4]%positive)
       /\ released m' = released memory_3_new ++ rel)
  /\ ((List.length [2; 3; 4]%positive <= 1)%nat ->
      internal_cJSON_ReplaceItemInArray 4%nat memory_3_new 1%positive 1%nat (Some 5%positive)
      = Some memory_3_new).
Proof.
  destruct memory_3_new_chain as (Harr & Hl & Hn).
  apply (X4_replace_item memory_3_new 1%positive array_3 [2; 3; 4]%positive 5%positive
           node_5 1%nat 4%nat Harr Hl Hn).
  - intros H. repeat (apply elem_of_cons in H as [H|H]; [discriminate|]). inversion H.
  - discriminate.
  - simpl. lia.
Defined.

(** The replacement of the witness, run: node 5 takes the place of node 3,
    which is released. *)
Lemma replace_run :
  exists m', internal_cJSON_ReplaceItemInArray 4%nat memory_3_new 1%positive 1%nat
               (Some 5%positive) = Some m'
             /\ released m' = [3%positive]
             /\ cJSON_GetArrayItem 4%nat m' (Some 1%positive) 1%nat = Some (Some 5%positive).
Proof. eexists. split; [vm_compute; reflexivity|]. split; reflexivity. Qed.

(** ** Detaching by key *)

(** X5: [cJSON_DetachItemFromObject] unlinks the first child whose key
    equals the name, clears its successor link and returns it, the other
    children keeping their order; when no key equals the name it returns
    NULL and changes nothing. *)
Theorem X5_detach_by_key (m : memory) (object : addr) (obj : cJSON) (l : list addr)
  (keys : list text) (key : text) (fuel : nat) :
  nodes m !! object = Some obj -> chain (nodes m) (child obj) l -> keyed m l keys ->
  (List.length l < fuel)%nat ->
  (forall ks1 ks2 c, keys = ks1 ++ key :: ks2 -> key ∉ ks1 -> l !! List.length ks1 = Some c ->
     exists m' obj' n',
       cJSON_DetachItemFromObject fuel m object key = Some (Some c, m')
       /\ nodes m' !! object = Some obj'
       /\ chain (nodes m') (child obj') (delete (List.length ks1) l)
       /\ nodes m' !! c = Some n' /\ next n' = None)
  /\ (key ∉ keys -> cJSON_DetachItemFromObject fuel m object key = Some (None, m)).
Proof.
  intros Hobj Hl Hk Hfuel. pose proof Hl as Hseg. apply chain_lseg in Hseg.
  unfold cJSON_DetachItemFromObject. rewrite Hobj. cbn [mbind option_bind]. split.
  - intros ks1 ks2 c -> Hnot Hc.
    pose proof (lookup_lt_Some _ _ _ Hc) as Hlt.
    rewrite (find_name_found m key ks1 l (child obj) 0%nat fuel c ks2 Hseg Hk Hnot Hc
               ltac:(lia)).
    cbn [mbind option_bind Nat.add].
    apply (detach_in_range m object obj l (List.length ks1) c fuel Hobj Hl Hc). lia.
  - intros Hnot.
    now rewrite (find_name_missing m key keys l (child obj) 0%nat fuel Hseg Hk Hnot Hfuel).
Qed.

Lemma X5_detach_by_key_witness :
  (forall ks1 ks2 c,
     [bytes "a"%string; bytes "b"%string] = ks1 ++ bytes "a"%string :: ks2 ->
     bytes "a"%string ∉ ks1 -> [2; 3]%positive !! List.length ks1 = Some c ->
     exists m' obj' n',
       cJSON_DetachItemFromObject 3%nat object_ab 1%positive (bytes "a"%string)
       = Some (Some c, m')
       /\ nodes m' !! 1%positive = Some obj'
       /\ chain (nodes m') (child obj') (delete (List.length ks1) [2; 3]%positive)
       /\ nodes m' !! c = Some n' /\ next n' = None)
  /\ (bytes "a"%string ∉ [bytes "a"%string; bytes "b"%string] ->
      cJSON_DetachItemFromObject 3%nat object_ab 1%positive (bytes "a"%string)
      = Some (None, object_ab)).
Proof.
  destruct object_ab_chain as (Hobj & Hl & Hk).
  apply (X5_detach_by_key object_ab 1%positive node_object_ab [2; 3]%positive
           [bytes "a"%string; bytes "b"%string] (bytes "a"%string) 3%nat Hobj Hl Hk).
  simpl. lia.
Defined.

(** ** References *)

(** What [cJSON_AddItemToArray] leaves alone in every node. *)
Definition same_payload (n n' : cJSON) : Prop :=
  type n' = type n /\ valuestring n' = valuestring n /\ name n' = name n
  /\ string_is_const n' = string_is_const n /\ is_reference n' = is_reference n.

Lemma add_item_keeps_payload fuel m array item m' :
  cJSON_AddItemToArray fuel m array (Some item) = Some m' ->
  forall q n, nodes m !! q = Some n ->
    exists n', nodes m' !! q = Some n' /\ same_payload n n'
               /\ (q <> array -> child n' = child n).
Proof.
  unfold cJSON_AddItemToArray. intros H q n Hq.
  destruct (nodes m !! array) as [arr|] eqn:Harr; [|discriminate].
  destruct (child arr) as [c|].
  - destruct (last_sibling fuel (nodes m) c) as [z|]; [|discriminate].
    destruct (nodes m !! z) as [zn|] eqn:Hz; [|discriminate].
    injection H as <-. cbn [set_nodes nodes].
    destruct (decide (z = q)) as [->|Hne].
    + rewrite lookup_insert_eq. rewrite Hq in Hz. injection Hz as <-.
      eexists. split; [reflexivity|]. repeat split.
    + rewrite lookup_insert_ne by exact Hne. exists n. repeat split; auto.
  - injection H as <-. cbn [set_nodes nodes].
    destruct (decide (array = q)) as [->|Hne].
    + rewrite lookup_insert_eq. rewrite Hq in Harr. injection Harr as <-.
      eexists. split; [reflexivity|]. repeat split. intros H. contradiction.
    + rewrite lookup_insert_ne by exact Hne. exists n. repeat split; auto.
Qed.

(** [unused m]: the allocator has not handed out its next addresses. *)
Definition unused (m : memory) : Prop :=
  forall q : addr, (brk m <= q)%positive -> nodes m !! q = None.

(** X6: [cJSON_AddItemReferenceToArray] appends a fresh node that carries
    the type, the value and the child link of the item, no key and the
    reference mark, and releases nothing; teardown of such a node releases
    the node alone, so the item it refers to and the item's children stay in
    memory. *)
Theorem X6_reference (m : memory) (array item : addr) (arr n : cJSON) (l : list addr)
  (fuel : nat) :
  nodes m !! array = Some arr -> chain (nodes m) (child arr) l ->
  nodes m !! item = Some n -> unused m -> (List.length l <= fuel)%nat ->
  (exists m' arr' r,
     cJSON_AddItemReferenceToArray fuel m array item = Some m'
     /\ nodes m' !! array = Some arr'
     /\ chain (nodes m') (child arr') (l ++ [brk m])
     /\ nodes m' !! brk m = Some r
     /\ is_reference r = true /\ name r = None
     /\ type r = type n /\ valuestring r = valuestring n /\ child r = child n
     /\ released m' = released m)
  /\ (forall m1 a r k,
        nodes m1 !! a = Some r -> is_reference r = true -> name r = None ->
        next r = None ->
        internal_cJSON_Delete (S (S k)) m1 (Some a) = Some (free_fn a m1)).
Proof.
  intros Harr Hl Hn Hfresh Hfuel. split.
  - unfold cJSON_AddItemReferenceToArray, create_reference. rewrite Hn.
    cbn [mbind option_bind].
    set (r := {| next := None; child := child n; type := type n;
                 valuestring := valuestring n; name := None;
                 string_is_const := string_is_const n; is_reference := true |}).
    set (m1 := {| nodes := <[brk m := r]> (nodes m); strings := strings m;
                  released := released m; brk := Pos.succ (brk m) |}).
    assert (Hnone : nodes m !! brk m = None) by (apply Hfresh; lia).
    assert (Hab : array <> brk m) by (intros ->; congruence).
    assert (Hlb : brk m ∉ l).
    { intros Hin. apply chain_lseg in Hl.
      apply list_elem_of_split in Hin as (l1 & l2 & ->).
      apply lseg_app in Hl as (q & _ & Hq). simpl in Hq.
      destruct Hq as (_ & x & Hx & _). congruence. }
    assert (Harr1 : nodes m1 !! array = Some arr)
      by (unfold m1; cbn [nodes]; rewrite lookup_insert_ne by congruence; exact Harr).
    assert (Hl1 : chain (nodes m1) (child arr) l).
    { apply chain_lseg. apply chain_lseg in Hl. eapply lseg_frame; [|exact Hl].
      intros b Hb. unfold m1. cbn [nodes]. apply next_insert_ne. intros <-. contradiction. }
    assert (Hr1 : chain (nodes m1) (Some (brk m)) [brk m]).
    { simpl. split; [reflexivity|]. exists r. split; [|reflexivity].
      unfold m1. cbn [nodes]. apply lookup_insert_eq. }
    destruct (add_item_to_array m1 array arr l [brk m] (brk m) fuel Harr1 Hl1 Hr1)
      as (m' & arr' & Hadd & Harr' & Hchain); [|exact Hfuel|].
    { intros a Ha Hin. apply list_elem_of_singleton in Hin as ->. contradiction. }
    destruct (add_item_keeps_payload fuel m1 array (brk m) m' Hadd (brk m) r)
      as (r' & Hr' & (Ht & Hv & Hk & _ & Href) & Hch).
    { unfold m1. cbn [nodes]. apply lookup_insert_eq. }
    exists m', arr', r'. split; [exact Hadd|]. split; [exact Harr'|].
    split; [exact Hchain|]. split; [exact Hr'|].
    rewrite Href, Hk, Ht, Hv, Hch by congruence.
    repeat split. now rewrite (released_add_item_to_array _ _ _ _ _ Hadd).
  - intros m1 a r k Ha Href Hname Hnext.
    cbn [internal_cJSON_Delete]. rewrite Ha, Href, Hname, Hnext. cbn [negb andb].
    destruct (child r); destruct (valuestring r); reflexivity.
Qed.

Lemma unused_memory_3 : unused memory_3.
Proof.
  intros q Hq. change (brk memory_3) with 5%positive in Hq.
  destruct (nodes memory_3 !! q) as [x|] eqn:E; [exfalso|reflexivity].
  apply elem_of_map_to_list in E.
  assert (H : Forall (fun kv => (kv.1 < 5)%positive) (map_to_list (nodes memory_3)))
    by (apply (bool_decide_unpack _); vm_compute; exact I).
  rewrite Forall_forall in H. specialize (H _ E). cbn [fst] in H. lia.
Qed.

Definition node_2 : cJSON :=
  {| next := Some 3%positive; child := None; type := cJSON_Number; valuestring := None;
     name := None; string_is_const := false; is_reference := false |}.

Lemma X6_reference_witness :
  (exists m' arr' r,
     cJSON_AddItemReferenceToArray 3%nat memory_3 1%positive 2%positive = Some m'
     /\ nodes m' !! 1%positive = Some arr'
     /\ chain (nodes m') (child arr') ([2; 3; 4]%positive ++ [brk memory_3])
     /\ nodes m' !! brk memory_3 = Some r
     /\ is_reference r = true /\ name r = None
     /\ type r = type node_2 /\ valuestring r = valuestring node_2
     /\ child r = child node_2
     /\ released m' = released memory_3)
  /\ (forall m1 a r k,
        nodes m1 !! a = Some r -> is_reference r = true -> name r = None ->
        next r = None ->
        internal_cJSON_Delete (S (S k)) m1 (Some a) = Some (free_fn a m1)).
Proof.
  destruct three_appends_in_order as (_ & Harr & Hl).
  apply (X6_reference memory_3 1%positive 2%positive array_3 node_2 [2; 3; 4]%positive
           3%nat Harr Hl).
  - reflexivity.
  - exact unused_memory_3.
  - simpl. lia.
Defined.

(** ** Arrays of strings *)

(** [string_at m c s]: the node [c] is a string node that owns a buffer
    holding [s]. *)
Definition string_at (m : memory) (c : addr) (s : text) : Prop :=
  exists n v, nodes m !! c = Some n /\ type n = cJSON_String /\ valuestring n = Some v
              /\ name n = None /\ child n = None /\ strings m !! v = Some s
              /\ (v < brk m)%positive /\ (c < brk m)%positive.

Lemma Forall2_impl_in {A B} (P Q : A -> B -> Prop) (l : list A) (k : list B) :
  Forall2 P l k -> (forall x y, x ∈ l -> P x y -> Q x y) -> Forall2 Q l k.
Proof.
  induction 1 as [|x y l k Hxy _ IH]; intros HPQ; constructor.
  - apply HPQ; [now left|exact Hxy].
  - apply IH. intros x' y' Hin. apply HPQ. now right.
Qed.

Lemma create_string (s : text) (m : memory) :
  exists m', internal_cJSON_CreateString s m = Some (brk m, m')
    /\ nodes m' = <[brk m := {| next := None; child := None; type := cJSON_String;
                               valuestring := Some (Pos.succ (brk m)); name := None;
                               string_is_const := false; is_reference := false |}]> (nodes m)
    /\ strings m' = <[Pos.succ (brk m) := s]> (strings m)
    /\ released m' = released m /\ brk m' = Pos.succ (Pos.succ (brk m)).
Proof.
  unfold internal_cJSON_CreateString, new_item, cJSON_strdup. cbn [nodes brk strings released].
  rewrite lookup_insert_eq. cbn [mbind option_bind]. eexists. split; [reflexivity|].
  cbn [set_nodes nodes strings released brk set_valuestring next child type name
       string_is_const is_reference].
  rewrite insert_insert_eq. repeat split.
Qed.

Lemma string_array_loop_spec (strs : list text) :
  forall (i : nat) (a : addr) (p : option addr) (m : memory) (arr : cJSON)
         (l0 : list addr) (strs0 : list text),
  nodes m !! a = Some arr -> type arr = cJSON_Array ->
  chain (nodes m) (child arr) l0 -> List.length l0 = i ->
  p = last l0 -> (a < brk m)%positive ->
  Forall2 (string_at m) l0 strs0 ->
  exists m' arr' l,
    string_array_loop strs i a p m = Some m'
    /\ nodes m' !! a = Some arr' /\ type arr' = cJSON_Array
    /\ chain (nodes m') (child arr') (l0 ++ l)
    /\ Forall2 (string_at m') (l0 ++ l) (strs0 ++ strs)
    /\ released m' = released m.
Proof.
  induction strs as [|s strs IH]; intros i a p m arr l0 strs0 Harr Hty Hl Hi Hp Ha Hs.
  - exists m, arr, []. rewrite !app_nil_r. cbn [string_array_loop]. auto 10.
  - cbn [string_array_loop].
    destruct (create_string s m) as (m1 & -> & Hn1 & Hs1 & Hr1 & Hb1).
    cbn [mbind option_bind].
    set (new := brk m) in *.
    set (node := {| next := None; child := None; type := cJSON_String;
                    valuestring := Some (Pos.succ new); name := None;
                    string_is_const := false; is_reference := false |}) in *.
    assert (Hlt : forall c, c ∈ l0 -> (c < new)%positive).
    { intros c Hc. apply list_elem_of_lookup in Hc as (j & Hj).
      destruct (Forall2_lookup_l _ _ _ _ _ Hs Hj) as (x & _ & (? & ? & _ & _ & _ & _ & _ & _ & _ & H)).
      exact H. }
    assert (Hlseg : lseg (nodes m) (child arr) l0 None) by (now apply chain_lseg).
    (* the memory after linking the new node *)
    assert (Hlink : exists m2 arr2,
      match i with
      | O => arr0 ← nodes m1 !! a; Some (set_nodes <[a := set_child (Some new) arr0]> m1)
      | S _ => prev ← p; pn ← nodes m1 !! prev;
               Some (set_nodes <[prev := set_next (Some new) pn]> m1)
      end = Some m2
      /\ nodes m2 !! a = Some arr2 /\ type arr2 = cJSON_Array
      /\ lseg (nodes m2) (child arr2) (l0 ++ [new]) None
      /\ nodes m2 !! new = Some node
      /\ (forall c n, c ∈ l0 -> nodes m !! c = Some n ->
            exists n', nodes m2 !! c = Some n' /\ same_payload n n' /\ child n' = child n)
      /\ strings m2 = strings m1 /\ released m2 = released m1 /\ brk m2 = brk m1).
    { assert (Harr1 : nodes m1 !! a = Some arr)
        by (rewrite Hn1, lookup_insert_ne by lia; exact Harr).
      destruct l0 as [|c0 l0'] using rev_ind.
      - cbn [List.length] in Hi. subst i. rewrite Harr1. cbn [mbind option_bind].
        eexists _, _. split; [reflexivity|]. cbn [set_nodes nodes strings released brk].
        rewrite lookup_insert_eq. split; [reflexivity|]. split; [exact Hty|].
        cbn [set_child child app].
        assert (Hnew : <[a := set_child (Some new) arr]> (nodes m1) !! new = Some node)
          by (rewrite lookup_insert_ne by lia; rewrite Hn1; apply lookup_insert_eq).
        split; [|split; [exact Hnew|split; [|auto]]].
        + simpl. split; [reflexivity|]. exists node. split; [exact Hnew|reflexivity].
        + intros c n Hc. inversion Hc.
      - clear IHl0'. rewrite length_app in Hi. cbn [List.length] in Hi.
        replace i with (S (List.length l0')) by lia.
        rewrite last_snoc in Hp. subst p. cbn [mbind option_bind].
        pose proof (lseg_NoDup _ _ _ Hlseg) as Hnd.
        apply NoDup_app in Hnd as (_ & Hz & _).
        apply lseg_app in Hlseg as (r & H1 & H2).
        simpl in H2. destruct H2 as (-> & zn & Hzn & Hend).
        assert (Hc0 : (c0 < new)%positive) by (apply Hlt, elem_of_app; right; now left).
        rewrite Hn1. rewrite lookup_insert_ne by lia. rewrite Hzn. cbn [mbind option_bind].
        assert (Hzn1 : nodes m1 !! c0 = Some zn)
          by (rewrite Hn1, lookup_insert_ne by lia; exact Hzn).
        destruct (child_insert_next (nodes m1) c0 zn (Some new) a arr Hzn1 Harr1)
          as (arr2 & Harr2 & Hchild2).
        eexists _, arr2. split; [reflexivity|]. cbn [set_nodes nodes strings released brk].
        split; [exact Harr2|].
        assert (Hty2 : type arr2 = cJSON_Array).
        { destruct (decide (c0 = a)) as [->|Hne].
          - rewrite lookup_insert_eq in Harr2. injection Harr2 as <-.
            rewrite Hzn in Harr. injection Harr as ->. exact Hty.
          - rewrite lookup_insert_ne in Harr2 by exact Hne.
            rewrite Harr1 in Harr2. injection Harr2 as <-. exact Hty. }
        split; [exact Hty2|]. rewrite Hchild2.
        assert (Hnew : <[c0 := set_next (Some new) zn]> (nodes m1) !! new = Some node)
          by (rewrite lookup_insert_ne by lia; rewrite Hn1; apply lookup_insert_eq).
        split; [|split; [exact Hnew|split; [|auto]]].
        + rewrite <- app_assoc. apply lseg_app. exists (Some c0). split.
          * eapply lseg_frame; [|exact H1]. intros b Hb.
            rewrite next_insert_ne by (intros ->; apply (Hz b Hb); now left).
            rewrite Hn1. apply next_insert_ne.
            assert (b < new)%positive by (apply Hlt, elem_of_app; now left). lia.
          * simpl. split; [reflexivity|]. rewrite lookup_insert_eq.
            eexists. split; [reflexivity|]. cbn [set_next next]. split; [reflexivity|].
            exists node. split; [exact Hnew|reflexivity].
        + intros c n Hc Hn. pose proof (Hlt c Hc) as Hcn.
          destruct (decide (c0 = c)) as [->|Hne].
          * rewrite lookup_insert_eq. rewrite Hzn in Hn. injection Hn as <-.
            eexists. split; [reflexivity|]. repeat split.
          * rewrite lookup_insert_ne by exact Hne. rewrite Hn1.
            rewrite lookup_insert_ne by lia. exists n. repeat split; auto. }
    destruct Hlink as (m2 & arr2 & -> & Harr2 & Hty2 & Hchain2 & Hnew2 & Hold2 & Hs2 & Hr2 & Hb2).
    cbn [mbind option_bind].
    assert (Hstr2 : Forall2 (string_at m2) (l0 ++ [new]) (strs0 ++ [s])).
    { apply Forall2_app.
      - apply (Forall2_impl_in _ _ _ _ Hs).
        intros c x Hc (n & v & Hn & Ht & Hv & Hk & Hch & Hsv & Hvb & Hcb).
        destruct (Hold2 c n Hc Hn) as (n' & Hn' & (Ht' & Hv' & Hk' & _) & Hch').
        exists n', v. rewrite Ht', Hv', Hk', Hch', Hs2, Hs1, Hb2, Hb1.
        repeat split; auto; try (fold new; lia).
        rewrite lookup_insert_ne by (fold new; lia). exact Hsv.
      - constructor; [|constructor].
        exists node, (Pos.succ new). rewrite Hs2, Hs1, Hb2, Hb1.
        repeat split; auto; try lia. apply lookup_insert_eq. }
    destruct (IH (S i) a (Some new) m2 arr2 (l0 ++ [new]) (strs0 ++ [s]))
      as (m' & arr' & l & Hloop & Harr' & Hty' & Hchain' & Hstr' & Hrel');
      auto.
    + now apply chain_lseg.
    + rewrite length_app. cbn [List.length]. lia.
    + now rewrite last_snoc.
    + rewrite Hb2, Hb1. fold new. lia.
    + exists m', arr', (new :: l). rewrite <- !app_assoc in *. cbn [app] in *.
      split; [exact Hloop|]. repeat split; auto. now rewrite Hrel', Hr2, Hr1.
Qed.

(** X7: [internal_cJSON_CreateStringArray] returns a fresh array node whose
    children are string nodes, one for each given string and in the same
    order, each owning its own copy of the text; nothing is released. *)
Theorem X7_create_string_array (strs : list text) (m : memory) :
  exists m' arr l,
    internal_cJSON_CreateStringArray strs m = Some (brk m, m')
    /\ nodes m' !! brk m = Some arr /\ type arr = cJSON_Array
    /\ chain (nodes m') (child arr) l
    /\ Forall2 (string_at m') l strs
    /\ released m' = released m.
Proof.
  unfold internal_cJSON_CreateStringArray, internal_cJSON_CreateArray, new_item.
  set (arr := {| next := None; child := None; type := cJSON_Array; valuestring := None;
                 name := None; string_is_const := false; is_reference := false |}).
  set (m0 := {| nodes := <[brk m := arr]> (nodes m); strings := strings m;
                released := released m; brk := Pos.succ (brk m) |}).
  assert (H0 : nodes m0 !! brk m = Some arr)
    by (unfold m0; cbn [nodes]; apply lookup_insert_eq).
  assert (Hb : (brk m < brk m0)%positive) by (unfold m0; cbn [brk]; lia).
  destruct (string_array_loop_spec strs 0%nat (brk m) None m0 arr [] []
              H0 eq_refl eq_refl eq_refl eq_refl Hb (List.Forall2_nil _))
    as (m' & arr' & l & Hloop & Harr' & Hty' & Hchain & Hstr & Hrel).
  rewrite Hloop. cbn [mbind option_bind]. exists m', arr', l. auto 10.
Qed.

(** ** Ownership *)

(** [walked h c a]: teardown from [c] visits the node [a]: the node at [c],
    what follows a visited node on its [next] link, and what hangs from the
    [child] link of a visited node that is not a reference. *)
Inductive walked (h : gmap addr cJSON) : option addr -> addr -> Prop :=
| walked_here a n : h !! a = Some n -> walked h (Some a) a
| walked_child a n q :
    h !! a = Some n -> is_reference n = false -> walked h (child n) q ->
    walked h (Some a) q
| walked_next a n q :
    h !! a = Some n -> walked h (next n) q -> walked h (Some a) q.

(** [owned_by h c p]: teardown from [c] owns [p]: a visited node, the text
    of a visited string node that is not a reference, or the key of a visited
    node that is not marked constant. *)
Definition owned_by (h : gmap addr cJSON) (c : option addr) (p : addr) : Prop :=
  exists a n, walked h c a /\ h !! a = Some n /\
    (p = a
     \/ (valuestring n = Some p /\ is_reference n = false /\ type n = cJSON_String)
     \/ (name n = Some p /\ string_is_const n = false)).

Lemma walked_mono (h h' : gmap addr cJSON) c a : h' ⊆ h -> walked h' c a -> walked h c a.
Proof.
  intros Hsub. induction 1 as [a n Hn|a n q Hn Href _ IH|a n q Hn _ IH].
  - eapply walked_here, lookup_weaken; eauto.
  - eapply walked_child; [eapply lookup_weaken; eauto|exact Href|exact IH].
  - eapply walked_next; [eapply lookup_weaken; eauto|exact IH].
Qed.

Lemma owned_by_mono (h h' : gmap addr cJSON) c p :
  h' ⊆ h -> owned_by h' c p -> owned_by h c p.
Proof.
  intros Hsub (a & n & Hw & Hn & H). exists a, n.
  split; [eapply walked_mono; eauto|]. split; [eapply lookup_weaken; eauto|exact H].
Qed.

Lemma owned_by_child h a n p :
  h !! a = Some n -> is_reference n = false -> owned_by h (child n) p ->
  owned_by h (Some a) p.
Proof.
  intros Hn Href (b & nb & Hw & Hb & H). exists b, nb.
  split; [eapply walked_child; eauto|]. auto.
Qed.

Lemma owned_by_next h a n p :
  h !! a = Some n -> owned_by h (next n) p -> owned_by h (Some a) p.
Proof.
  intros Hn (b & nb & Hw & Hb & H). exists b, nb.
  split; [eapply walked_next; eauto|]. auto.
Qed.

Lemma delete_owned_by fuel : forall m c m',
  internal_cJSON_Delete fuel m c = Some m' ->
  nodes m' ⊆ nodes m
  /\ (forall p, p ∈ released m' -> p ∈ released m \/ owned_by (nodes m) c p).
Proof.
  induction fuel as [|fuel IH]; intros m c m' H; [discriminate|].
  simpl in H. destruct c as [a|]; [|injection H as <-; split; [reflexivity|auto]].
  destruct (nodes m !! a) as [n|] eqn:Hn; [|discriminate].
  assert (Hhere : forall (P : Prop), P -> nodes m !! a = Some n /\ P) by auto.
  set (after := match child n with
                | Some ch => if negb (is_reference n)
                             then internal_cJSON_Delete fuel m (Some ch) else Some m
                | None => Some m
                end) in H.
  destruct after as [m1|] eqn:Hafter; [|discriminate].
  assert (H1 : nodes m1 ⊆ nodes m
               /\ (forall p, p ∈ released m1 ->
                     p ∈ released m \/ owned_by (nodes m) (Some a) p)).
  { unfold after in Hafter. destruct (child n) as [ch|] eqn:Hch.
    - destruct (is_reference n) eqn:Href; cbn [negb] in Hafter.
      + injection Hafter as <-. split; [reflexivity|auto].
      + apply IH in Hafter as (Hsub & Hrel). split; [exact Hsub|].
        intros p Hp. apply Hrel in Hp as [Hp|Hp]; [auto|]. right.
        apply (owned_by_child _ a n p Hn Href). now rewrite Hch.
    - injection Hafter as <-. split; [reflexivity|auto]. }
  destruct H1 as (Hsub1 & Hrel1).
  assert (Hself : forall p,
             p = a
             \/ (valuestring n = Some p /\ is_reference n = false /\ type n = cJSON_String)
             \/ (name n = Some p /\ string_is_const n = false) ->
             owned_by (nodes m) (Some a) p).
  { intros p Hp. exists a, n. split; [eapply walked_here; eauto|]. auto. }
  set (m2 := match valuestring n with
             | Some v => if negb (is_reference n) && bool_decide (type n = cJSON_String)
                         then free_fn v m1 else m1
             | None => m1
             end) in H.
  assert (H2 : nodes m2 ⊆ nodes m
               /\ (forall p, p ∈ released m2 ->
                     p ∈ released m \/ owned_by (nodes m) (Some a) p)).
  { unfold m2. destruct (valuestring n) as [v|] eqn:Hv; [|split; assumption].
    destruct (negb (is_reference n) && bool_decide (type n = cJSON_String)) eqn:Hc;
      [|split; assumption].
    apply andb_true_iff in Hc as (Hr & Ht).
    apply negb_true_iff in Hr. apply bool_decide_eq_true in Ht.
    split; [etransitivity; [apply nodes_free_fn|exact Hsub1]|].
    intros p Hp. cbn [free_fn released] in Hp. apply elem_of_app in Hp as [Hp|Hp]; [auto|].
    apply list_elem_of_singleton in Hp as ->. right. apply Hself. auto. }
  destruct H2 as (Hsub2 & Hrel2).
  set (m3 := match name n with
             | Some k => if negb (string_is_const n) then free_fn k m2 else m2
             | None => m2
             end) in H.
  assert (H3 : nodes m3 ⊆ nodes m
               /\ (forall p, p ∈ released m3 ->
                     p ∈ released m \/ owned_by (nodes m) (Some a) p)).
  { unfold m3. destruct (name n) as [k|] eqn:Hk; [|split; assumption].
    destruct (negb (string_is_const n)) eqn:Hc; [|split; assumption].
    apply negb_true_iff in Hc.
    split; [etransitivity; [apply nodes_free_fn|exact Hsub2]|].
    intros p Hp. cbn [free_fn released] in Hp. apply elem_of_app in Hp as [Hp|Hp]; [auto|].
    apply list_elem_of_singleton in Hp as ->. right. apply Hself. auto. }
  destruct H3 as (Hsub3 & Hrel3).
  apply IH in H as (Hsub4 & Hrel4).
  assert (Hsub : nodes (free_fn a m3) ⊆ nodes m)
    by (etransitivity; [apply nodes_free_fn|exact Hsub3]).
  split.
  - etransitivity; [exact Hsub4|exact Hsub].
  - intros p Hp. apply Hrel4 in Hp as [Hp|Hp].
    + cbn [free_fn released] in Hp. apply elem_of_app in Hp as [Hp|Hp]; [auto|].
      apply list_elem_of_singleton in Hp as ->. right. apply Hself. auto.
    + right. apply (owned_by_next _ a n p Hn).
      eapply owned_by_mono; [exact Hsub|exact Hp].
Qed.

(** X9: whatever the shape of the memory, every address a teardown hands to
    [free_fn] belongs to a node that the teardown visits (the start node, the
    successors of visited nodes, and the children of visited nodes that are
    not references): it is such a node, the text of such a string node that
    is not a reference, or the key of such a node that is not marked
    constant.  What hangs from a reference and a key marked constant are
    released by no other way; teardown adds no node. *)
Theorem X9_teardown_releases_owned_only (fuel : nat) (m m' : memory) (c : option addr) :
  internal_cJSON_Delete fuel m c = Some m' ->
  nodes m' ⊆ nodes m
  /\ (forall q, q ∈ released m' -> q ∈ released m \/ owned_by (nodes m) c q).
Proof. apply delete_owned_by. Qed.

(** Beside the array of [memory_3], an object (at address 5) with two
    members: a node (at 6) under the host's key at address 1000, added by
    [cJSON_AddItemToObjectCS], and a reference (at 7, key at 8) to the
    array. *)
Definition borrowing_run : option memory :=
  let '(o, m) := new_item cJSON_Object memory_3 in
  let '(t, m) := new_item cJSON_True m in
  m ← cJSON_AddItemToObjectCS 3%nat m o host_key (Some t);
  cJSON_AddItemReferenceToObject 3%nat m o (bytes "r"%string) 1%positive.

Definition borrowing : memory := default empty_memory borrowing_run.

Definition borrowing_gone : memory :=
  default empty_memory (internal_cJSON_Delete 4%nat borrowing (Some 5%positive)).

(** Teardown of the object releases its two members, the key of the
    reference and the object; the host's key and the array behind the
    reference, with its three numbers, stay. *)
Lemma teardown_spares_borrowed :
  internal_cJSON_Delete 4%nat borrowing (Some 5%positive) = Some borrowing_gone
  /\ (exists r, nodes borrowing !! 7%positive = Some r
        /\ is_reference r = true /\ child r = Some 2%positive
        /\ name r = Some 8%positive /\ string_is_const r = false)
  /\ (exists t, nodes borrowing !! 6%positive = Some t
        /\ name t = Some host_key /\ string_is_const t = true)
  /\ released borrowing_gone = [6; 8; 7; 5]%positive
  /\ Forall (fun q => nodes borrowing_gone !! q = nodes memory_3 !! q
                      /\ is_Some (nodes memory_3 !! q)) [1; 2; 3; 4]%positive.
Proof.
  split; [vm_compute; reflexivity|].
  split; [eexists; split; [vm_compute; reflexivity|repeat split]|].
  split; [eexists; split; [vm_compute; reflexivity|repeat split]|].
  split; [vm_compute; reflexivity|].
  repeat constructor; try (vm_compute; reflexivity); eexists; vm_compute; reflexivity.
Qed.

Lemma X9_teardown_releases_owned_only_witness :
  nodes borrowing_gone ⊆ nodes borrowing
  /\ (forall q, q ∈ released borrowing_gone ->
        q ∈ released borrowing \/ owned_by (nodes borrowing) (Some 5%positive) q).
Proof.
  apply (X9_teardown_releases_owned_only 4%nat borrowing borrowing_gone (Some 5%positive)).
  vm_compute. reflexivity.
Defined.

(** X10: on a node of memory whose earlier key, when it owns one, is no
    node, [cJSON_AddItemToObjectCS] returns: it installs the caller's pointer
    as the key of the item and marks it constant, appends the item to the
    members of the object, and releases the key the item had before exactly
    when that key was not marked constant, and nothing else. *)
Theorem X10_const_key_append (fuel : nat) (m : memory) (object key item : addr)
  (obj n : cJSON) (l li : list addr) :
  nodes m !! object = Some obj -> chain (nodes m) (child obj) l ->
  nodes m !! item = Some n -> chain (nodes m) (Some item) li ->
  (forall a, a ∈ l -> a ∉ li) ->
  (forall k, name n = Some k -> string_is_const n = false -> nodes m !! k = None) ->
  (List.length l <= fuel)%nat ->
  exists m' obj' n',
    cJSON_AddItemToObjectCS fuel m object key (Some item) = Some m'
    /\ released m' = released m ++ (match name n with
                                    | Some k => if string_is_const n then [] else [k]
                                    | None => []
                                    end)
    /\ nodes m' !! item = Some n' /\ name n' = Some key /\ string_is_const n' = true
    /\ type n' = type n /\ valuestring n' = valuestring n
    /\ is_reference n' = is_reference n
    /\ nodes m' !! object = Some obj' /\ chain (nodes m') (child obj') (l ++ li).
Proof.
  intros Hobj Hl Hn Hli Hdisj Hkey Hfuel.
  unfold cJSON_AddItemToObjectCS. rewrite Hn.
  set (m1 := match name n with
             | Some k => if negb (string_is_const n) then free_fn k m else m
             | None => m
             end).
  assert (Hm1 : nodes m1 = nodes m).
  { unfold m1. destruct (name n) as [k|] eqn:Hk; [|reflexivity].
    destruct (string_is_const n) eqn:Hc; cbn [negb]; [reflexivity|].
    cbn [free_fn nodes]. apply delete_id. now apply Hkey. }
  set (n2 := set_string_is_const true (set_name (Some key) n)).
  set (m2 := set_nodes <[item := n2]> m1).
  assert (Hframe : forall a, next <$> (nodes m2 !! a) = next <$> (nodes m !! a)).
  { intros a. unfold m2. cbn [set_nodes nodes]. rewrite Hm1.
    destruct (decide (item = a)) as [<-|Hne].
    - rewrite lookup_insert_eq, Hn. reflexivity.
    - now rewrite lookup_insert_ne. }
  assert (Hobj2 : exists obj2, nodes m2 !! object = Some obj2 /\ child obj2 = child obj).
  { unfold m2. cbn [set_nodes nodes]. rewrite Hm1.
    destruct (decide (item = object)) as [->|Hne].
    - rewrite lookup_insert_eq. exists n2. split; [reflexivity|].
      rewrite Hn in Hobj. now injection Hobj as <-.
    - rewrite lookup_insert_ne by exact Hne. eauto. }
  destruct Hobj2 as (obj2 & Hobj2 & Hch).
  assert (Hl2 : chain (nodes m2) (child obj2) l).
  { rewrite Hch. apply chain_lseg. apply chain_lseg in Hl.
    eapply lseg_frame; [|exact Hl]. intros a _. apply Hframe. }
  assert (Hli2 : chain (nodes m2) (Some item) li).
  { apply chain_lseg. apply chain_lseg in Hli.
    eapply lseg_frame; [|exact Hli]. intros a _. apply Hframe. }
  destruct (add_item_to_array m2 object obj2 l li item fuel Hobj2 Hl2 Hli2 Hdisj Hfuel)
    as (m' & obj' & Hadd & Hobj' & Hchain).
  destruct (add_item_keeps_payload _ _ _ _ _ Hadd item n2)
    as (n' & Hn' & (Hty & Hvs & Hk & Hc & Href) & _).
  { unfold m2. cbn [set_nodes nodes]. apply lookup_insert_eq. }
  exists m', obj', n'. split; [exact Hadd|]. split.
  - rewrite (released_add_item_to_array _ _ _ _ _ Hadd). cbn [m2 set_nodes released].
    unfold m1. destruct (name n); [|now rewrite app_nil_r].
    destruct (string_is_const n); cbn [negb free_fn released]; [now rewrite app_nil_r|].
    reflexivity.
  - rewrite Hk, Hc, Hty, Hvs, Href. repeat split; auto.
Qed.

(** [object_ab] after its member [b] (node 3, key at 5) was detached. *)
Definition object_a_b : memory :=
  default object_ab (snd <$> cJSON_DetachItemFromArray 3%nat object_ab 1%positive 1%nat).

Definition node_b : cJSON :=
  {| next := None; child := None; type := cJSON_True; valuestring := None;
     name := Some 5%positive; string_is_const := false; is_reference := false |}.

(** The detached member is added again under the host's key at address
    1000: its own key, at 5, is released. *)
Lemma X10_const_key_append_witness :
  exists m' obj' n',
    cJSON_AddItemToObjectCS 3%nat object_a_b 1%positive 1000%positive (Some 3%positive)
    = Some m'
    /\ released m' = released object_a_b ++ (match name node_b with
                                             | Some k => if string_is_const node_b
                                                         then [] else [k]
                                             | None => []
                                             end)
    /\ nodes m' !! 3%positive = Some n' /\ name n' = Some 1000%positive
    /\ string_is_const n' = true
    /\ type n' = type node_b /\ valuestring n' = valuestring node_b
    /\ is_reference n' = is_reference node_b
    /\ nodes m' !! 1%positive = Some obj'
    /\ chain (nodes m') (child obj') ([2%positive] ++ [3%positive]).
Proof.
  apply (X10_const_key_append 3%nat object_a_b 1%positive 1000%positive 3%positive
           node_object_ab node_b [2%positive] [3%positive]).
  - vm_compute. reflexivity.
  - simpl. split; [reflexivity|]. eexists. split; [vm_compute; reflexivity|]. reflexivity.
  - vm_compute. reflexivity.
  - simpl. split; [reflexivity|]. eexists. split; [vm_compute; reflexivity|]. reflexivity.
  - intros a Ha Hb. apply list_elem_of_singleton in Ha, Hb. congruence.
  - intros k [= <-] _. vm_compute. reflexivity.
  - simpl. lia.
Defined.

End HeapOpsFacts.

(** * Deleting an item from an array or an object *)

Module HeapDelete.
Import Heap HeapOps HeapFacts HeapOpsFacts.

(** What detaching leaves alone: the released addresses, the strings, and
    every node outside the array node and its chain; the detached node only
    loses its successor link. *)
Lemma detach_footprint (m m' : memory) (array : addr) (arr : cJSON) (l : list addr)
  (which : nat) (c : addr) (cn : cJSON) (fuel : nat) :
  nodes m !! array = Some arr -> chain (nodes m) (child arr) l ->
  l !! which = Some c -> (which < fuel)%nat -> nodes m !! c = Some cn -> c <> array ->
  cJSON_DetachItemFromArray fuel m array which = Some (Some c, m') ->
  released m' = released m /\ strings m' = strings m /\ brk m' = brk m
  /\ nodes m' !! c = Some (set_next None cn)
  /\ (forall q, q <> array -> q ∉ l -> nodes m' !! q = nodes m !! q).
Proof.
  intros Harr Hl Hw Hfuel Hcn Hca. unfold cJSON_DetachItemFromArray. rewrite Harr.
  pose proof Hl as Hseg. apply chain_lseg in Hseg.
  rewrite (seek_in_range _ l (child arr) None which c fuel Hseg Hw Hfuel). rewrite Hcn.
  assert (Hcl : c ∈ l) by (eapply list_elem_of_lookup_2; exact Hw).
  destruct (decide (Some c = child arr)) as [Hhead|Hhead].
  - cbn [set_nodes nodes]. rewrite lookup_insert_ne by congruence. rewrite Hcn.
    intros [= <-]. cbn [set_nodes nodes released strings brk].
    repeat split; try reflexivity; [apply lookup_insert_eq|].
    intros q Hqa Hql. rewrite !lookup_insert_ne; [reflexivity|congruence|].
    intros ->. contradiction.
  - destruct which as [|w]; [discriminate|].
    destruct (l !! w) as [p|] eqn:Hp; [|discriminate].
    assert (Hpl : p ∈ l) by (eapply list_elem_of_lookup_2; exact Hp).
    destruct (nodes m !! p) as [pn|] eqn:Hpn; [|discriminate].
    cbn [set_nodes nodes].
    assert (Hpc : p <> c).
    { intros ->. pose proof (lseg_NoDup _ _ _ Hseg) as Hnd.
      pose proof (NoDup_lookup _ _ _ _ Hnd Hp Hw). lia. }
    rewrite lookup_insert_ne by exact Hpc. rewrite Hcn.
    intros [= <-]. cbn [set_nodes nodes released strings brk].
    repeat split; try reflexivity; [apply lookup_insert_eq|].
    intros q Hqa Hql. rewrite !lookup_insert_ne; [reflexivity| |]; intros ->; contradiction.
Qed.

(** The child at [which] is unlinked and torn down with what it owns. *)
Lemma delete_item_in_range (m : memory) (array : addr) (arr : cJSON) (l : list addr)
  (which fuel : nat) (c : addr) (cn : cJSON) (kids : forest) :
  nodes m !! array = Some arr -> chain (nodes m) (child arr) l ->
  (List.length l < fuel)%nat ->
  l !! which = Some c -> nodes m !! c = Some cn ->
  (if is_reference cn then kids = Leaf else linked (nodes m) (child cn) kids) ->
  NoDup (releases (nodes m) kids ++ buffers cn ++ [c]) ->
  array ∉ releases (nodes m) kids ++ buffers cn ++ [c] ->
  (forall a, a ∈ l -> a <> c -> a ∉ releases (nodes m) kids ++ buffers cn ++ [c]) ->
  (S (size kids) < fuel)%nat ->
  exists m' arr',
    internal_cJSON_DeleteItemFromArray fuel m array which = Some m'
    /\ nodes m' !! array = Some arr'
    /\ chain (nodes m') (child arr') (delete which l)
    /\ released m' = released m ++ releases (nodes m) kids ++ buffers cn ++ [c]
    /\ (forall q, q ∈ releases (nodes m) kids ++ buffers cn ++ [c] ->
          nodes m' !! q = None /\ strings m' !! q = None).
Proof.
  intros Harr Hl Hfuel Hc Hcn Hkids Hnd Harel Hlrel Hsize.
  set (rel := releases (nodes m) kids ++ buffers cn ++ [c]) in *.
  pose proof (lookup_lt_Some _ _ _ Hc) as Hw.
  assert (Hcrel : c ∈ rel).
  { unfold rel. apply elem_of_app. right. apply elem_of_app. right. now left. }
  assert (Hca : c <> array) by (intros ->; contradiction).
  destruct (detach_in_range m array arr l which c fuel Harr Hl Hc ltac:(lia))
    as (m1 & arr1 & n1 & Hdet & Harr1 & Hchain1 & _ & _).
  destruct (detach_footprint m m1 array arr l which c cn fuel Harr Hl Hc ltac:(lia) Hcn Hca
              Hdet) as (Hrel1 & Hstr1 & Hbrk1 & Hc1 & Hsame1).
  unfold internal_cJSON_DeleteItemFromArray. rewrite Hdet. cbn [mbind option_bind].
  assert (Hkaddr : forall q, q ∈ node_addrs kids -> nodes m1 !! q = nodes m !! q).
  { intros q Hq. apply (node_addrs_releases (nodes m)) in Hq.
    assert (Hqrel : q ∈ rel) by (unfold rel; apply elem_of_app; now left).
    assert (Hqc : q <> c).
    { intros ->. unfold rel in Hnd. apply NoDup_app in Hnd as (_ & Hd & _).
      apply (Hd c Hq). apply elem_of_app. right. now left. }
    apply Hsame1; [intros ->; contradiction|].
    intros Hql. exact (Hlrel q Hql Hqc Hqrel). }
  assert (Hlinked : linked (nodes m1) (Some c) (Tree c kids Leaf)
                    /\ releases (nodes m1) (Tree c kids Leaf) = rel).
  { cbn [linked releases]. rewrite Hc1. cbn [set_next is_reference child next].
    destruct (is_reference cn) eqn:Href.
    - subst kids. split; [|unfold rel; reflexivity].
      split; [reflexivity|]. eexists. split; [reflexivity|].
      cbn [set_next is_reference next]. rewrite Href. auto.
    - destruct (linked_frame (nodes m) (nodes m1) kids (child cn) Hkaddr Hkids) as (Hk1 & Hk2).
      rewrite Hk2. split; [|unfold rel; reflexivity].
      split; [reflexivity|]. eexists. split; [reflexivity|].
      cbn [set_next is_reference next child]. rewrite Href. auto. }
  destruct Hlinked as (Hlinked & Hrels).
  destruct (delete_forest (Tree c kids Leaf) fuel m1 (Some c) Hlinked) as (m' & Hdel & Hwo);
    [rewrite Hrels; exact Hnd|cbn [size]; lia|].
  rewrite Hrels in Hwo. destruct Hwo as (Hr & Hnod & Hstr & _).
  exists m'. rewrite Hdel.
  assert (Hkeep : forall q, q ∉ rel -> nodes m' !! q = nodes m1 !! q).
  { intros q Hq. now rewrite Hnod, decide_False by exact Hq. }
  exists arr1. split; [reflexivity|]. split; [rewrite Hkeep; auto|].
  split; [|split; [rewrite Hr, Hrel1; reflexivity|]].
  - apply chain_lseg. apply chain_lseg in Hchain1.
    eapply lseg_frame; [|exact Hchain1].
    intros b Hb. rewrite Hkeep; [reflexivity|].
    assert (Hbl : b ∈ l) by (eapply list_elem_of_delete_inv; exact Hb).
    assert (Hbc : b <> c).
    { intros ->. apply chain_lseg in Hl. pose proof (lseg_NoDup _ _ _ Hl) as Hndl.
      rewrite <- (take_drop_middle l which c Hc) in Hndl.
      rewrite delete_take_drop in Hb.
      apply NoDup_app in Hndl as (_ & Hd & Hnd2). apply NoDup_cons in Hnd2 as (Hc2 & _).
      apply elem_of_app in Hb as [Hb|Hb]; [apply (Hd c Hb); now left|contradiction]. }
    exact (Hlrel b Hbl Hbc).
  - intros q Hq. rewrite Hnod, Hstr. now rewrite !decide_True by exact Hq.
Qed.

(** X28: [internal_cJSON_DeleteItemFromArray] at an index inside the chain
    unlinks the child there, the other children keeping their order, and
    tears it down: the nodes and buffers it owns are handed to [free_fn],
    children first, and are gone from memory; at an index at or beyond the
    size it changes nothing. *)
Theorem X28_delete_from_array (m : memory) (array : addr) (arr : cJSON) (l : list addr)
  (which fuel : nat) :
  nodes m !! array = Some arr -> chain (nodes m) (child arr) l ->
  (List.length l < fuel)%nat ->
  (forall c cn kids,
     l !! which = Some c -> nodes m !! c = Some cn ->
     (if is_reference cn then kids = Leaf else linked (nodes m) (child cn) kids) ->
     let rel := releases (nodes m) kids ++ buffers cn ++ [c] in
     NoDup rel -> array ∉ rel -> (forall a, a ∈ l -> a <> c -> a ∉ rel) ->
     (S (size kids) < fuel)%nat ->
     exists m' arr',
       internal_cJSON_DeleteItemFromArray fuel m array which = Some m'
       /\ nodes m' !! array = Some arr'
       /\ chain (nodes m') (child arr') (delete which l)
       /\ released m' = released m ++ rel
       /\ (forall q, q ∈ rel -> nodes m' !! q = None /\ strings m' !! q = None))
  /\ ((List.length l <= which)%nat ->
      internal_cJSON_DeleteItemFromArray fuel m array which = Some m).
Proof.
  intros Harr Hl Hfuel. split.
  - intros c cn kids Hc Hcn Hkids. cbv zeta. intros Hnd Harel Hlrel Hsize.
    exact (delete_item_in_range m array arr l which fuel c cn kids Harr Hl Hfuel Hc Hcn
             Hkids Hnd Harel Hlrel Hsize).
  - intros Hw. unfold internal_cJSON_DeleteItemFromArray.
    rewrite (detach_out_of_range m array arr l which fuel Harr Hl Hw Hfuel).
    cbn [mbind option_bind]. destruct fuel; [lia|reflexivity].
Qed.

Lemma X28_delete_from_array_witness :
  (forall c cn kids,
     [2; 3; 4]%positive !! 1%nat = Some c -> nodes memory_3_new !! c = Some cn ->
     (if is_reference cn then kids = Leaf
      else linked (nodes memory_3_new) (child cn) kids) ->
     let rel := releases (nodes memory_3_new) kids ++ buffers cn ++ [c] in
     NoDup rel -> 1%positive ∉ rel ->
     (forall a, a ∈ [2; 3; 4]%positive -> a <> c -> a ∉ rel) ->
     (S (size kids) < 4)%nat ->
     exists m' arr',
       internal_cJSON_DeleteItemFromArray 4%nat memory_3_new 1%positive 1%nat = Some m'
       /\ nodes m' !! 1%positive = Some arr'
       /\ chain (nodes m') (child arr') (delete 1%nat [2; 3; 4]%positive)
       /\ released m' = released memory_3_new ++ rel
       /\ (forall q, q ∈ rel -> nodes m' !! q = None /\ strings m' !! q = None))
  /\ ((List.length [2; 3; 4]%positive <= 1)%nat ->
      internal_cJSON_DeleteItemFromArray 4%nat memory_3_new 1%positive 1%nat
      = Some memory_3_new).
Proof.
  destruct memory_3_new_chain as (Harr & Hl & Hn).
  apply (X28_delete_from_array memory_3_new 1%positive array_3 [2; 3; 4]%positive
           1%nat 4%nat Harr Hl).
  simpl. lia.
Defined.

(** X29: [internal_cJSON_DeleteItemFromObject] unlinks the first child whose
    key equals the name, the other children keeping their order, and tears
    it down with what it owns; when no key equals the name it changes
    nothing. *)
Theorem X29_delete_from_object (m : memory) (object : addr) (obj : cJSON) (l : list addr)
  (keys : list text) (key : text) (fuel : nat) :
  nodes m !! object = Some obj -> chain (nodes m) (child obj) l -> keyed m l keys ->
  (List.length l < fuel)%nat ->
  (forall ks1 ks2 c cn kids,
     keys = ks1 ++ key :: ks2 -> key ∉ ks1 -> l !! List.length ks1 = Some c ->
     nodes m !! c = Some cn ->
     (if is_reference cn then kids = Leaf else linked (nodes m) (child cn) kids) ->
     let rel := releases (nodes m) kids ++ buffers cn ++ [c] in
     NoDup rel -> object ∉ rel -> (forall a, a ∈ l -> a <> c -> a ∉ rel) ->
     (S (size kids) < fuel)%nat ->
     exists m' obj',
       internal_cJSON_DeleteItemFromObject fuel m object key = Some m'
       /\ nodes m' !! object = Some obj'
       /\ chain (nodes m') (child obj') (delete (List.length ks1) l)
       /\ released m' = released m ++ rel
       /\ (forall q, q ∈ rel -> nodes m' !! q = None /\ strings m' !! q = None))
  /\ (key ∉ keys -> internal_cJSON_DeleteItemFromObject fuel m object key = Some m).
Proof.
  intros Hobj Hl Hk Hfuel. pose proof Hl as Hseg. apply chain_lseg in Hseg.
  unfold internal_cJSON_DeleteItemFromObject, cJSON_DetachItemFromObject.
  rewrite Hobj. cbn [mbind option_bind]. split.
  - intros ks1 ks2 c cn kids -> Hnot Hc Hcn Hkids. cbv zeta. intros Hnd Horel Hlrel Hsize.
    pose proof (lookup_lt_Some _ _ _ Hc) as Hlt.
    rewrite (find_name_found m key ks1 l (child obj) 0%nat fuel c ks2 Hseg Hk Hnot Hc
               ltac:(lia)).
    cbn [mbind option_bind Nat.add].
    exact (delete_item_in_range m object obj l (List.length ks1) fuel c cn kids Hobj Hl Hfuel
             Hc Hcn Hkids Hnd Horel Hlrel Hsize).
  - intros Hnot.
    rewrite (find_name_missing m key keys l (child obj) 0%nat fuel Hseg Hk Hnot Hfuel).
    cbn [mbind option_bind]. destruct fuel; [lia|reflexivity].
Qed.

Lemma X29_delete_from_object_witness :
  (forall ks1 ks2 c cn kids,
     [bytes "a"%string; bytes "b"%string] = ks1 ++ bytes "a"%string :: ks2 ->
     bytes "a"%string ∉ ks1 -> [2; 3]%positive !! List.length ks1 = Some c ->
     nodes object_ab !! c = Some cn ->
     (if is_reference cn then kids = Leaf else linked (nodes object_ab) (child cn) kids) ->
     let rel := releases (nodes object_ab) kids ++ buffers cn ++ [c] in
     NoDup rel -> 1%positive ∉ rel ->
     (forall a, a ∈ [2; 3]%positive -> a <> c -> a ∉ rel) ->
     (S (size kids) < 3)%nat ->
     exists m' obj',
       internal_cJSON_DeleteItemFromObject 3%nat object_ab 1%positive (bytes "a"%string)
       = Some m'
       /\ nodes m' !! 1%positive = Some obj'
       /\ chain (nodes m') (child obj') (delete (List.length ks1) [2; 3]%positive)
       /\ released m' = released object_ab ++ rel
       /\ (forall q, q ∈ rel -> nodes m' !! q = None /\ strings m' !! q = None))
  /\ (bytes "a"%string ∉ [bytes "a"%string; bytes "b"%string] ->
      internal_cJSON_DeleteItemFromObject 3%nat object_ab 1%positive (bytes "a"%string)
      = Some object_ab).
Proof.
  destruct object_ab_chain as (Hobj & Hl & Hk).
  apply (X29_delete_from_object object_ab 1%positive node_object_ab [2; 3]%positive
           [bytes "a"%string; bytes "b"%string] (bytes "a"%string) 3%nat Hobj Hl Hk).
  simpl. lia.
Defined.

End HeapDelete.

(** * Round trip through the compact text *)

(** ** Induction on values *)

Lemma json_induction (P : json -> Prop) :
  P JNull -> P JFalse -> P JTrue ->
  (forall d, P (JNumber d)) -> (forall s, P (JString s)) ->
  (forall items, Forall P items -> P (JArray items)) ->
  (forall members, Forall (fun m => P (snd m)) members -> P (JObject members)) ->
  forall j, P j.
Proof.
  intros Hn Hf Ht Hd Hs Ha Ho.
  fix IH 1. intros [| | |d|s|items|members];
    [exact Hn|exact Hf|exact Ht|apply Hd|apply Hs| |].
  - apply Ha. induction items as [|i items IHl]; constructor; [apply IH|exact IHl].
  - apply Ho. induction members as [|m members IHl]; constructor; [apply IH|exact IHl].
Qed.

(** ** The composer on the parser's trees *)

Lemma compose_array_sep : forall (entries : list text) n i,
  n = (i + length entries)%nat ->
  compose_array false n i entries = sep_by [44] entries.
Proof.
  induction entries as [|e entries IH]; intros n i Hn; [reflexivity|].
  cbn [compose_array sep_by]. destruct entries as [|e' entries].
  - cbn [length] in Hn. subst n. replace (i + 1 - 1)%nat with i by lia.
    rewrite Nat.eqb_refl. cbn. now rewrite app_nil_r.
  - rewrite (IH n (S i)) by (cbn [length] in *; lia).
    cbn [length] in Hn.
    destruct (Nat.eqb_spec i (n - 1)); [lia|]. reflexivity.
Qed.

Lemma compose_object_sep : forall (names entries : list text) depth n i,
  length names = length entries -> n = (i + length entries)%nat ->
  compose_object false depth n i names entries
  = sep_by [44] (map (fun ne => fst ne ++ 58 :: snd ne) (combine names entries)).
Proof.
  induction names as [|k names IH]; intros entries depth n i Hlen Hn.
  - destruct entries; [reflexivity|discriminate].
  - destruct entries as [|e entries]; [discriminate|].
    injection Hlen as Hlen.
    cbn [compose_object combine map sep_by fst snd].
    rewrite (IH entries depth n (S i) Hlen) by (cbn [length] in *; lia).
    destruct names as [|k' names], entries as [|e' entries]; try discriminate.
    + cbn [length] in Hn. subst n. replace (i + 1 - 1)%nat with i by lia.
      rewrite Nat.eqb_refl. cbn [negb combine map sep_by].
      norm_app. now rewrite ?app_nil_r.
    + cbn [length] in Hn. destruct (Nat.eqb_spec i (n - 1)); [lia|].
      cbn [combine map negb]. now norm_app.
Qed.

Lemma combine_map {A B C} (f : A -> B) (g : A -> C) (l : list A) :
  combine (map f l) (map g l) = map (fun x => (f x, g x)) l.
Proof. induction l as [|x l IH]; [reflexivity|]. cbn. now rewrite IH. Qed.

Lemma name_of_node_of k j : name_of (node_of k j) = k.
Proof. destruct j; reflexivity. Qed.

Lemma print_value_compact (j : json) : forall k depth,
  print_value (node_of k j) depth false = Some (compact j).
Proof.
  induction j as [| | |d|s|items IH|members IH] using json_induction;
    intros k depth; try reflexivity.
  - cbn [node_of print_value compact]. unfold print_array_of.
    rewrite !length_map, map_map.
    rewrite (collect_Forall2 _ _ (map compact items)).
    2:{ clear k. induction IH as [|i items Hi _ IHl]; constructor; auto. }
    destruct items as [|i items]; [reflexivity|]. cbn [length].
    rewrite compose_array_sep by (rewrite length_map; reflexivity).
    reflexivity.
  - cbn [node_of print_value compact]. unfold print_object_of.
    rewrite !length_map, !map_map.
    rewrite (collect_Forall2 _ _ (map (fun m => compact (snd m)) members)).
    2:{ clear k. induction IH as [|m members Hm _ IHl]; constructor; auto. }
    destruct members as [|m members]; [reflexivity|]. cbn [length].
    rewrite compose_object_sep; [|rewrite !length_map; reflexivity|rewrite length_map; reflexivity].
    cbn [app]. do 3 f_equal.
    rewrite combine_map, map_map. f_equal. apply map_ext. intros a. cbn [fst snd].
    now rewrite name_of_node_of.
Qed.

(** ** Strings: the escaped text decodes to the string *)

Lemma escape_copy_unflagged (str : text) :
  cstr str -> existsb escape_flag str = false -> escape_copy str = str.
Proof.
  induction 1 as [|c str Hc _ IH]; [reflexivity|].
  cbn [existsb escape_copy]. intros H. apply orb_false_iff in H as (Hf & Hrest).
  unfold escape_flag, schar in Hf.
  apply orb_false_iff in Hf as (Hf & H92). apply orb_false_iff in Hf as (Hf & H34).
  rewrite H34, H92. cbn [negb andb].
  destruct (Z.ltb_spec 31 c) as [_|Hlow].
  - cbn [andb]. now rewrite IH.
  - exfalso. destruct (Z.ltb_spec c 128); [|lia].
    destruct (Z.ltb_spec 0 c); [|lia]. destruct (Z.ltb_spec c 32); [|lia]. discriminate.
Qed.

Lemma print_string_ptr_escaped (str : text) :
  cstr str -> print_string_ptr (Some str) = 34 :: escape_copy str ++ [34].
Proof.
  intros H. unfold print_string_ptr.
  destruct (existsb escape_flag str) eqn:E; cbn [negb]; [reflexivity|].
  now rewrite escape_copy_unflagged.
Qed.

Lemma hex_digit_hex_char v : 0 <= v < 16 -> hex_digit (hex_char v) = Some v.
Proof.
  intros H. unfold hex_char, hex_digit.
  destruct (Z.ltb_spec v 10).
  - destruct (Z.leb_spec 48 (48 + v)); [|lia]. destruct (Z.leb_spec (48 + v) 57); [|lia].
    cbn [andb]. f_equal. lia.
  - destruct (Z.leb_spec 48 (97 + (v - 10))); [|lia].
    destruct (Z.leb_spec (97 + (v - 10)) 57); [lia|]. cbn [andb].
    destruct (Z.leb_spec 65 (97 + (v - 10))); [|lia].
    destruct (Z.leb_spec (97 + (v - 10)) 70); [lia|]. cbn [andb].
    destruct (Z.leb_spec 97 (97 + (v - 10))); [|lia].
    destruct (Z.leb_spec (97 + (v - 10)) 102); [|lia]. cbn [andb]. f_equal. lia.
Qed.

Lemma hex_char_plain v : 0 <= v < 16 -> plain (hex_char v).
Proof. intros H. unfold plain, hex_char. destruct (Z.ltb_spec v 10); lia. Qed.

Lemma quartet_sprintf_04x c :
  0 <= c < 256 ->
  quartet (hex_char (c / 4096 mod 16)) (hex_char (c / 256 mod 16))
          (hex_char (c / 16 mod 16)) (hex_char (c mod 16)) = Some c.
Proof.
  intros H. unfold quartet.
  rewrite !hex_digit_hex_char by (apply Z.mod_pos_bound; lia).
  f_equal.
  rewrite (Z.div_small c 4096), (Z.div_small c 256) by lia.
  rewrite (Z.mod_small (c / 16) 16) by (split; [apply Z.div_pos; lia|apply Z.div_lt_upper_bound; lia]).
  change (0 mod 16) with 0.
  pose proof (Z.div_mod c 16 ltac:(lia)). lia.
Qed.

(** The control characters that are escaped by a letter. *)
Definition escape_letter (c : Z) : option Z :=
  if c =? 92 then Some 92
  else if c =? 34 then Some 34
  else if c =? 8 then Some 98
  else if c =? 12 then Some 102
  else if c =? 10 then Some 110
  else if c =? 13 then Some 114
  else if c =? 9 then Some 116
  else None.

Lemma escape_copy_cons c str :
  escape_copy (c :: str) =
  if (31 <? c) && negb (c =? 34) && negb (c =? 92) then c :: escape_copy str
  else match escape_letter c with
       | Some e => 92 :: e :: escape_copy str
       | None => 92 :: 117 :: hex_char (c / 4096 mod 16) :: hex_char (c / 256 mod 16)
                    :: hex_char (c / 16 mod 16) :: hex_char (c mod 16) :: escape_copy str
       end.
Proof.
  cbn [escape_copy]. unfold escape_letter, sprintf_04x.
  destruct ((31 <? c) && negb (c =? 34) && negb (c =? 92)); [reflexivity|].
  repeat match goal with
         | |- context [if ?b then _ else _] => destruct b; [reflexivity|]
         end.
  reflexivity.
Qed.

Lemma escape_letter_cases c e :
  escape_letter c = Some e ->
  e <> 0 /\ (e = 98 /\ c = 8 \/ e = 102 /\ c = 12 \/ e = 110 /\ c = 10 \/ e = 114 /\ c = 13
             \/ e = 116 /\ c = 9 \/ e = 34 /\ c = 34 \/ e = 92 /\ c = 92).
Proof.
  unfold escape_letter.
  repeat match goal with
         | |- context [?x =? ?y] => destruct (Z.eqb_spec x y); [intros [= <-]; lia|]
         end.
  discriminate.
Qed.

Lemma scan_end_escaped (str : text) : forall fuel s i len l,
  cstr str -> at_pos s i (escape_copy str ++ 34 :: l) ->
  (length (escape_copy str) < fuel)%nat ->
  exists len', scan_end fuel s i len = Ok ((i + length (escape_copy str))%nat, len').
Proof.
  induction str as [|c str IH]; intros fuel s i len l Hc Hat Hfuel;
    (destruct fuel as [|fuel]; [lia|]).
  - cbn [escape_copy app length] in *. rewrite scan_end_eq, (at_pos_peek _ _ _ _ Hat).
    cbn. exists len. now rewrite Nat.add_0_r.
  - inversion Hc as [|? ? Hc1 Hc2]; subst. rewrite escape_copy_cons in *.
    destruct ((31 <? c) && negb (c =? 34) && negb (c =? 92)) eqn:Eplain.
    + apply andb_true_iff in Eplain as (Eplain & E92).
      apply andb_true_iff in Eplain as (E31 & E34).
      cbn [app length] in *. rewrite scan_end_eq, (at_pos_peek _ _ _ _ Hat). cbn [bind].
      apply negb_true_iff in E34, E92. rewrite E34, E92.
      destruct (Z.eqb_spec c 0); [lia|]. cbn [negb andb].
      destruct (IH fuel s (S i) (S len) l Hc2 (at_pos_next _ _ _ _ Hat) ltac:(lia)) as (len' & ->).
      exists len'. do 2 f_equal; lia.
    + destruct (escape_letter c) as [e|] eqn:Ee.
      * apply escape_letter_cases in Ee as (He0 & _).
        cbn [app length] in *. rewrite scan_end_eq, (at_pos_peek _ _ _ _ Hat).
        cbn [bind Z.eqb Pos.eqb negb andb].
        pose proof (at_pos_next _ _ _ _ Hat) as Hat1.
        rewrite (at_pos_peek _ _ _ _ Hat1). cbn [bind].
        destruct (Z.eqb_spec e 0); [contradiction|].
        destruct (IH fuel s (S (S i)) (S len) l Hc2 (at_pos_next _ _ _ _ Hat1) ltac:(lia))
          as (len' & ->).
        exists len'. do 2 f_equal; lia.
      * cbn [app length] in *. rewrite scan_end_eq, (at_pos_peek _ _ _ _ Hat).
        cbn [bind Z.eqb Pos.eqb negb andb].
        pose proof (at_pos_next _ _ _ _ Hat) as Hat1.
        rewrite (at_pos_peek _ _ _ _ Hat1). cbn [bind Z.eqb Pos.eqb].
        pose proof (at_pos_next _ _ _ _ Hat1) as Hat2.
        destruct fuel as [|[|[|[|fuel]]]]; try lia.
        change (S (S (S (S fuel)))) with (length [hex_char (c / 4096 mod 16); hex_char (c / 256 mod 16);
                  hex_char (c / 16 mod 16); hex_char (c mod 16)] + fuel)%nat.
        rewrite (scan_end_plain_prefix _ fuel s (S (S i)) (S len) (escape_copy str ++ 34 :: l)).
        -- cbn [length].
           destruct (IH fuel s (S (S i) + 4)%nat (S len + 4)%nat l Hc2) as (len' & ->).
           ++ apply (at_pos_app s (S (S i)) [_; _; _; _]) in Hat2. exact Hat2.
           ++ lia.
           ++ exists len'. do 2 f_equal; lia.
        -- repeat constructor; apply hex_char_plain; apply Z.mod_pos_bound; lia.
        -- exact Hat2.
Qed.

Lemma unescape_plain_step fuel s str end_ptr ptr out c rest :
  at_pos s ptr (c :: rest) -> (ptr < end_ptr)%nat -> c <> 92 ->
  unescape (S fuel) s str end_ptr ptr out = unescape fuel s str end_ptr (S ptr) (out ++ [c]).
Proof.
  intros Hat Hlt Hc. cbn [unescape].
  destruct (Nat.ltb_spec ptr end_ptr) as [_|]; [|lia].
  rewrite (at_pos_peek _ _ _ _ Hat). cbn [bind].
  destruct (Z.eqb_spec c 92); [contradiction|]. reflexivity.
Qed.

Lemma unescape_letter_step fuel s str end_ptr ptr out c e rest :
  at_pos s ptr (92 :: e :: rest) -> (ptr < end_ptr)%nat -> escape_letter c = Some e ->
  unescape (S fuel) s str end_ptr ptr out = unescape fuel s str end_ptr (S (S ptr)) (out ++ [c]).
Proof.
  intros Hat Hlt He. cbn [unescape].
  destruct (Nat.ltb_spec ptr end_ptr) as [_|]; [|lia].
  rewrite (at_pos_peek _ _ _ _ Hat). cbn [bind Z.eqb Pos.eqb negb].
  rewrite (at_pos_peek _ _ _ _ (at_pos_next _ _ _ _ Hat)). cbn [bind].
  apply escape_letter_cases in He as (_ & He).
  destruct He as [(-> & ->)|[(-> & ->)|[(-> & ->)|[(-> & ->)|[(-> & ->)|[(-> & ->)|(-> & ->)]]]]]];
    reflexivity.
Qed.

Lemma utf8_encode_ascii c : 0 < c < 128 -> utf8_encode c = [c].
Proof.
  intros H. unfold utf8_encode, utf8_len.
  destruct (Z.ltb_spec c 128); [|lia]. cbn [firstByteMark].
  rewrite Z.lor_0_r. unfold to_char. now rewrite Z.mod_small by lia.
Qed.

Lemma unescape_escaped (str : text) : forall fuel s st end_ptr ptr out l,
  cstr str -> at_pos s ptr (escape_copy str ++ l) ->
  end_ptr = (ptr + length (escape_copy str))%nat ->
  (length (escape_copy str) < fuel)%nat ->
  unescape fuel s st end_ptr ptr out = Ok (end_ptr, out ++ str).
Proof.
  induction str as [|c str IH]; intros fuel s st end_ptr ptr out l Hc Hat He Hfuel;
    (destruct fuel as [|fuel]; [lia|]).
  - cbn [escape_copy length] in He. rewrite Nat.add_0_r in He. subst end_ptr.
    cbn [unescape]. rewrite Nat.ltb_irrefl. now rewrite app_nil_r.
  - inversion Hc as [|? ? Hc1 Hc2]; subst. rewrite escape_copy_cons in *.
    replace (out ++ c :: str) with ((out ++ [c]) ++ str) by now rewrite <- app_assoc.
    destruct ((31 <? c) && negb (c =? 34) && negb (c =? 92)) eqn:Eplain.
    + apply andb_true_iff in Eplain as (_ & E92). apply negb_true_iff in E92.
      cbn [app length] in *.
      rewrite (unescape_plain_step fuel s st _ ptr out c _ Hat) by lia.
      apply (IH fuel s st _ (S ptr) (out ++ [c]) l Hc2 (at_pos_next _ _ _ _ Hat)); lia.
    + destruct (escape_letter c) as [e|] eqn:Ee.
      * cbn [app length] in *.
        rewrite (unescape_letter_step fuel s st _ ptr out c e _ Hat) by (lia || exact Ee).
        apply (IH fuel s st _ (S (S ptr)) (out ++ [c]) l Hc2); [|lia|lia].
        eapply at_pos_next, at_pos_next, Hat.
      * cbn [app length] in *.
        assert (Hlow : c <= 31).
        { apply andb_false_iff in Eplain as [Eplain|Eplain];
            [apply andb_false_iff in Eplain as [Eplain|Eplain]|].
          - lia.
          - apply negb_false_iff in Eplain. unfold escape_letter in Ee.
            rewrite Eplain in Ee. destruct (c =? 92); discriminate.
          - apply negb_false_iff in Eplain. unfold escape_letter in Ee.
            rewrite Eplain in Ee. discriminate. }
        rewrite (unescape_u_step fuel s st _ ptr out _ _ _ _ _ Hat) by lia.
        rewrite quartet_sprintf_04x by lia. cbn zeta.
        destruct (Nat.leb_spec (ptr + S (S (S (S (S (S (length (escape_copy str)))))))) (ptr + 5));
          [lia|].
        unfold is_low_surrogate, is_high_surrogate.
        destruct (Z.leb_spec 56320 c); [lia|]. destruct (Z.eqb_spec c 0); [lia|].
        destruct (Z.leb_spec 55296 c); [lia|]. cbn [andb orb].
        rewrite utf8_encode_ascii by lia.
        apply (IH fuel s st _ (ptr + 6)%nat (out ++ [c]) l Hc2); [|lia|lia].
        apply (at_pos_app s ptr [_; _; _; _; _; _]) in Hat. exact Hat.
Qed.

Lemma parse_string_printed (str : text) (s : text) (i : nat) (l : text) :
  cstr str -> at_pos s i (print_string_ptr (Some str) ++ l) ->
  parse_string s i = Ok (str, (i + length (print_string_ptr (Some str)))%nat).
Proof.
  intros Hc Hat. rewrite print_string_ptr_escaped in * by exact Hc.
  cbn [app length] in *. rewrite <- app_assoc in Hat. cbn [app] in Hat.
  pose proof (at_pos_length _ _ _ Hat) as Hlen. cbn [length] in Hlen.
  rewrite length_app in Hlen. cbn [length] in Hlen.
  pose proof (at_pos_next _ _ _ _ Hat) as Hat1.
  unfold parse_string. rewrite (at_pos_peek _ _ _ _ Hat). cbn [bind Z.eqb Pos.eqb negb].
  destruct (scan_end_escaped str (S (length s)) s (S i) 0 l Hc Hat1 ltac:(lia)) as (len' & ->).
  cbn [bind].
  rewrite (unescape_escaped str (S (length s)) s i _ (S i) [] (34 :: l) Hc Hat1 eq_refl ltac:(lia)).
  cbn [bind app].
  pose proof (at_pos_app _ _ _ _ Hat1) as Hat2.
  rewrite (at_pos_peek _ _ _ _ Hat2). cbn [bind Z.eqb Pos.eqb].
  rewrite length_app. cbn [length]. do 2 f_equal; lia.
Qed.

(** ** Numbers: the rendering is read back whole *)

Definition digits (ds : text) : Prop := Forall (fun c => is_digit c = true) ds /\ ds <> [].

Definition digits_value (acc : Z) (ds : text) : Z :=
  fold_left (fun a c => a * 10 + (c - 48)) ds acc.

(** What may follow a value in compact text: a comma, a closing bracket or
    brace, or the end of the input. *)
Definition ends_value (l : text) : Prop :=
  match l with
  | [] => True
  | c :: _ => c = 44 \/ c = 93 \/ c = 125
  end.

(** The shape of a rendered number: sign, integer digits, optional
    fraction, optional exponent with its sign. *)
Definition num_text (neg : bool) (d1 : text) (d2 : option text) (ex : option (bool * text)) : text :=
  (if neg then [45] else []) ++ d1
    ++ match d2 with Some f => 46 :: f | None => [] end
    ++ match ex with Some (eneg, ds) => 101 :: (if eneg then 45 else 43) :: ds | None => [] end.

Definition num_value (neg : bool) (d1 : text) (d2 : option text) (ex : option (bool * text)) : double :=
  let f := match d2 with Some f => f | None => [] end in
  let x := match ex with
           | Some (eneg, ds) => if eneg then - digits_value 0 ds else digits_value 0 ds
           | None => 0
           end in
  d_of_decimal neg (digits_value (digits_value 0 d1) f) (x - Z.of_nat (length f)).

Definition num_shape (neg : bool) (d1 : text) (d2 : option text) (ex : option (bool * text)) : Prop :=
  digits d1
  /\ match d2 with Some f => digits f | None => True end
  /\ match ex with Some (_, ds) => digits ds | None => True end.

Lemma uint_chars_digits u : Forall (fun c => is_digit c = true) (uint_chars u).
Proof. induction u; constructor; auto. Qed.

Lemma uint_chars_nil u : uint_chars u = [] -> u = Decimal.Nil.
Proof. destruct u; simpl; congruence. Qed.

Lemma dec_digits_digits n : digits (dec_digits n).
Proof.
  split; [apply uint_chars_digits|].
  unfold dec_digits. intros H. apply uint_chars_nil in H.
  destruct (Z.to_N n) as [|p]; [discriminate|].
  simpl in H. now apply DecimalPos.Unsigned.to_uint_nonnil in H.
Qed.

Lemma dec_pad_digits w n : digits (dec_pad w n).
Proof.
  destruct (dec_digits_digits n) as (Hd & Hn). unfold dec_pad. split.
  - apply Forall_app. split; [|exact Hd].
    induction (w - length (dec_digits n))%nat; simpl; constructor; auto.
  - intros H. apply app_eq_nil in H as (_ & H). contradiction.
Qed.

Lemma scan_digits_spec (ds : text) : forall fuel s i acc n l,
  Forall (fun c => is_digit c = true) ds -> at_pos s i (ds ++ l) ->
  match l with [] => True | c :: _ => is_digit c = false end ->
  (length ds < fuel)%nat ->
  scan_digits fuel s i acc n
  = Ok (digits_value acc ds, (n + length ds)%nat, (i + length ds)%nat).
Proof.
  induction ds as [|c ds IH]; intros fuel s i acc n l Hd Hat Hl Hfuel;
    (destruct fuel as [|fuel]; [lia|]); cbn [scan_digits app length] in *.
  - destruct l as [|c l].
    + rewrite (at_pos_peek_nil _ _ Hat). cbn. now rewrite !Nat.add_0_r.
    + rewrite (at_pos_peek _ _ _ _ Hat). cbn [bind]. rewrite Hl. now rewrite !Nat.add_0_r.
  - inversion Hd as [|? ? Hc Hd']; subst.
    rewrite (at_pos_peek _ _ _ _ Hat). cbn [bind]. rewrite Hc.
    rewrite (IH fuel s (S i) _ (S n) l Hd' (at_pos_next _ _ _ _ Hat) Hl) by lia.
    cbn [digits_value fold_left]. do 2 f_equal; [f_equal|]; lia.
Qed.

Lemma ends_value_head (l : text) (P : Z -> Prop) :
  ends_value l -> P 0 -> P 44 -> P 93 -> P 125 ->
  match l with [] => P 0 | c :: _ => P c end.
Proof. destruct l as [|c l]; [auto|]. intros [->|[->| ->]]; auto. Qed.

Lemma peek_ends_value s i l : at_pos s i l -> ends_value l ->
  exists c, peek s i = Ok c /\ (c = 0 \/ c = 44 \/ c = 93 \/ c = 125).
Proof.
  intros Hat He. destruct l as [|c l].
  - rewrite (at_pos_peek_nil _ _ Hat). eauto.
  - rewrite (at_pos_peek _ _ _ _ Hat). exists c. split; [reflexivity|]. right. exact He.
Qed.

Lemma scan_exponent_none s i l :
  at_pos s i l -> ends_value l -> scan_exponent s i 101 = Ok (0, i).
Proof.
  intros Hat He. unfold scan_exponent.
  destruct (peek_ends_value s i l Hat He) as (c & -> & [->|[->|[->| ->]]]); reflexivity.
Qed.

Lemma ends_value_nondigit l :
  ends_value l -> match l with [] => True | c :: _ => is_digit c = false end.
Proof. destruct l as [|c l]; [auto|]. intros [->|[->| ->]]; reflexivity. Qed.

Lemma scan_exponent_some s i (eneg : bool) ds l :
  at_pos s i (101 :: (if eneg then 45 else 43) :: ds ++ l) -> digits ds -> ends_value l ->
  scan_exponent s i 101
  = Ok (if eneg then - digits_value 0 ds else digits_value 0 ds, (i + 2 + length ds)%nat).
Proof.
  intros Hat (Hd & Hn) He. unfold scan_exponent.
  rewrite (at_pos_peek _ _ _ _ Hat). cbn [bind lower Z.leb Z.compare Pos.compare Pos.compare_cont andb Z.eqb Pos.eqb].
  pose proof (at_pos_next _ _ _ _ Hat) as Hat1.
  rewrite (at_pos_peek _ _ _ _ Hat1). cbn [bind].
  pose proof (at_pos_next _ _ _ _ Hat1) as Hat2.
  pose proof (at_pos_length _ _ _ Hat2) as Hlen. rewrite length_app in Hlen.
  assert (Hj : (if ((if eneg then 45 else 43) =? 45) || ((if eneg then 45 else 43) =? 43)
                then S (S i) else S i) = S (S i)) by (destruct eneg; reflexivity).
  rewrite Hj.
  rewrite (scan_digits_spec ds _ s (S (S i)) 0 0 l Hd Hat2 (ends_value_nondigit l He)) by lia.
  cbn [bind]. destruct ds as [|d ds]; [contradiction|]. cbn [length Nat.add].
  destruct eneg; cbn [Z.eqb Pos.eqb]; do 2 f_equal; lia.
Qed.

Lemma is_digit_range c : is_digit c = true -> 48 <= c <= 57.
Proof. unfold is_digit. intros H. apply andb_true_iff in H as (H1 & H2). lia. Qed.

Lemma digit_facts c : is_digit c = true ->
  lower c = c /\ c <> 105 /\ c <> 110 /\ c <> 120 /\ c <> 45 /\ c <> 43 /\ c <> 46 /\ c <> 0.
Proof.
  unfold is_digit, lower. intros H. apply andb_true_iff in H as (H1 & H2).
  destruct (Z.leb_spec 65 c); [lia|]. cbn [andb]. lia.
Qed.

(** ** The parts of a rendered number after its integer digits *)

Definition num_tail (d2 : option text) (ex : option (bool * text)) : text :=
  match d2 with Some f => 46 :: f | None => [] end
  ++ match ex with Some (eneg, ds) => 101 :: (if eneg then 45 else 43) :: ds | None => [] end.

Lemma num_text_tail neg d1 d2 ex :
  num_text neg d1 d2 ex = (if neg then [45] else []) ++ d1 ++ num_tail d2 ex.
Proof. reflexivity. Qed.

Lemma num_tail_head d2 ex l (P : Z -> Prop) :
  ends_value l -> P 0 -> P 44 -> P 93 -> P 125 -> P 46 -> P 101 ->
  match num_tail d2 ex ++ l with [] => P 0 | c :: _ => P c end.
Proof.
  intros He H0 H44 H93 H125 H46 H101. unfold num_tail.
  destruct d2 as [f|]; [exact H46|].
  destruct ex as [[eneg ds]|]; [exact H101|].
  cbn [app]. now apply ends_value_head.
Qed.

Lemma num_tail_nondigit d2 ex l :
  ends_value l ->
  match num_tail d2 ex ++ l with [] => True | c :: _ => is_digit c = false end.
Proof.
  intros He. unfold num_tail.
  destruct d2 as [f|]; [reflexivity|].
  destruct ex as [[eneg ds]|]; [reflexivity|].
  cbn [app]. now apply ends_value_nondigit.
Qed.

Lemma strtod_decimal_shape s neg start i d1 d2 ex l :
  num_shape neg d1 d2 ex -> at_pos s i (d1 ++ num_tail d2 ex ++ l) -> ends_value l ->
  strtod_decimal s neg start i
  = Ok (num_value neg d1 d2 ex, (i + length (d1 ++ num_tail d2 ex))%nat).
Proof.
  intros ((Hd1 & Hn1) & H2 & H3) Hat He. unfold strtod_decimal.
  pose proof (at_pos_length _ _ _ Hat) as Hlen. rewrite !length_app in Hlen.
  rewrite (scan_digits_spec d1 _ s i 0 0 (num_tail d2 ex ++ l) Hd1 Hat) by
    (try lia; now apply num_tail_nondigit).
  cbn [bind Nat.add].
  pose proof (at_pos_app _ _ _ _ Hat) as Hat1.
  assert (Hn : forall n2, exists k, (length d1 + n2 = S k)%nat).
  { intros n2. destruct d1; [contradiction|]. cbn [length]. eexists. reflexivity. }
  unfold num_value. destruct d2 as [f|].
  - destruct H2 as (Hf & Hfn). cbn [num_tail app] in Hat1 |- *.
    rewrite <- app_assoc in Hat1. cbn [app] in Hat1.
    rewrite (at_pos_peek _ _ _ _ Hat1). cbn [bind Z.eqb Pos.eqb].
    pose proof (at_pos_next _ _ _ _ Hat1) as Hat2.
    pose proof (at_pos_length _ _ _ Hat2) as Hlen2. rewrite length_app in Hlen2.
    rewrite (scan_digits_spec f _ s (S (i + length d1)) _ 0 _ Hf Hat2).
    2:{ destruct ex as [[eneg ds]|]; [reflexivity|]. now apply ends_value_nondigit. }
    2:{ lia. }
    cbn [bind Nat.add]. destruct (Hn (length f)) as (k & ->).
    pose proof (at_pos_app _ _ _ _ Hat2) as Hat3. cbn [Nat.add] in Hat3.
    destruct ex as [[eneg ds]|].
    + cbn [app] in Hat3. rewrite (scan_exponent_some s _ eneg ds l Hat3 H3 He). cbn [bind].
      rewrite !length_app. cbn [length]. rewrite length_app. cbn [length].
      do 2 f_equal; lia.
    + cbn [app] in Hat3. rewrite (scan_exponent_none s _ l Hat3 He). cbn [bind].
      rewrite !length_app. cbn [length]. rewrite app_nil_r.
      do 2 f_equal; lia.
  - cbn [num_tail app] in Hat1 |- *. destruct ex as [[eneg ds]|].
    + cbn [app] in Hat1. rewrite (at_pos_peek _ _ _ _ Hat1). cbn [bind Z.eqb Pos.eqb].
      destruct (Hn 0%nat) as (k & ->).
      rewrite (scan_exponent_some s _ eneg ds l Hat1 H3 He). cbn [bind].
      rewrite !length_app. cbn [length digits_value fold_left].
      do 2 f_equal; lia.
    + cbn [app] in Hat1.
      destruct (peek_ends_value s _ l Hat1 He) as (c & Hc & Hcases). rewrite Hc. cbn [bind].
      assert ((c =? 46) = false) as -> by (destruct Hcases as [-> | [-> | [-> | ->]]]; reflexivity).
      cbn [bind]. destruct (Hn 0%nat) as (k & ->).
      rewrite (scan_exponent_none s _ l Hat1 He). cbn [bind].
      rewrite app_nil_r. cbn [length digits_value fold_left]. reflexivity.
Qed.

Lemma strtod_shape s i neg d1 d2 ex l :
  num_shape neg d1 d2 ex -> at_pos s i (num_text neg d1 d2 ex ++ l) -> ends_value l ->
  strtod s i = Ok (num_value neg d1 d2 ex, (i + length (num_text neg d1 d2 ex))%nat).
Proof.
  intros Hshape Hat He. pose proof Hshape as ((Hd1 & Hn1) & _).
  rewrite num_text_tail in *. rewrite <- !app_assoc in Hat.
  destruct d1 as [|c1 d1]; [contradiction|].
  inversion Hd1 as [|? ? Hc1 Hd1']; subst.
  destruct (digit_facts c1 Hc1) as (Hlow & Hi & Hn & Hx & Hm & Hp & Hdot & Hz).
  assert (Hpre : forall j, at_pos s j ((c1 :: d1) ++ num_tail d2 ex ++ l) ->
            (let* inf := match_ci s j [105; 110; 102] in
             if inf then
               let* inity := match_ci s (j + 3) [105; 110; 105; 116; 121] in
               Ok (S754_infinity neg, if inity then (j + 8)%nat else (j + 3)%nat)
             else
               let* nan := match_ci s j [110; 97; 110] in
               if nan then
                 let* e := nan_end s (j + 3) in
                 Ok (S754_nan, e)
               else
                 let* hex := match_ci s j [48; 120] in
                 if hex then
                   let* h := strtod_hex s neg (j + 2) in
                   match h with
                   | Some r => Ok r
                   | None => Ok (S754_zero neg, S j)
                   end
                 else strtod_decimal s neg i j)
            = strtod_decimal s neg i j).
  { intros j Hj. cbn [app] in Hj. cbn [match_ci].
    rewrite (at_pos_peek _ _ _ _ Hj). cbn [bind]. rewrite Hlow.
    destruct (Z.eqb_spec c1 105); [contradiction|]. cbn [bind].
    destruct (Z.eqb_spec c1 110); [contradiction|]. cbn [bind].
    destruct (Z.eqb_spec c1 48) as [->|]; [|reflexivity].
    pose proof (at_pos_next _ _ _ _ Hj) as Hj1.
    assert (Hc2 : exists c2, peek s (S j) = Ok c2 /\ lower c2 <> 120).
    { destruct d1 as [|c2 d1].
      - cbn [app] in Hj1.
        pose proof (num_tail_head d2 ex l (fun c => lower c <> 120) He) as Hh.
        destruct (num_tail d2 ex ++ l) as [|c2 r].
        + rewrite (at_pos_peek_nil _ _ Hj1). eexists; split; [reflexivity|]. now cbv.
        + rewrite (at_pos_peek _ _ _ _ Hj1). eexists; split; [reflexivity|].
          apply Hh; now cbv.
      - inversion Hd1' as [|? ? Hc2 _]; subst.
        cbn [app] in Hj1. rewrite (at_pos_peek _ _ _ _ Hj1). eexists; split; [reflexivity|].
        destruct (digit_facts c2 Hc2) as (-> & _ & _ & ? & _). assumption. }
    destruct Hc2 as (c2 & -> & Hc2). cbn [bind].
    destruct (Z.eqb_spec (lower c2) 120); [contradiction|]. reflexivity. }
  unfold strtod. destruct neg.
  - cbn [app] in Hat. rewrite (at_pos_peek _ _ _ _ Hat). cbn [bind Z.eqb Pos.eqb orb].
    pose proof (at_pos_next _ _ _ _ Hat) as Hat1.
    rewrite (Hpre (S i) Hat1).
    rewrite (strtod_decimal_shape s true i (S i) (c1 :: d1) d2 ex l Hshape Hat1 He).
    cbn [app length]. do 2 f_equal; lia.
  - cbn [app] in Hat. rewrite (at_pos_peek _ _ _ _ Hat). cbn [bind].
    destruct (Z.eqb_spec c1 45); [contradiction|].
    destruct (Z.eqb_spec c1 43); [contradiction|]. cbn [orb].
    rewrite (Hpre i Hat).
    now rewrite (strtod_decimal_shape s false i i (c1 :: d1) d2 ex l Hshape Hat He).
Qed.

(** ** The shape of [print_number] on finite values *)

Lemma format_null_not_finite d : number_format_of d = FmtNull -> is_finite d = false.
Proof.
  rewrite number_format_ordered. unfold ordered_policy.
  destruct d as [sg|sg| |sg m e]; try reflexivity; cbn [is_nan_or_inf];
    repeat match goal with
           | |- context [if ?b then _ else _] => destruct b; try discriminate
           end.
Qed.

Lemma sign_chars_neg d : sign_chars d = if sign_of d then [45] else [].
Proof. reflexivity. Qed.

Lemma print_number_shape d :
  is_finite d = true ->
  exists neg d1 d2 ex, print_number d = num_text neg d1 d2 ex /\ num_shape neg d1 d2 ex.
Proof.
  intros Hfin. unfold print_number.
  destruct (number_format_of d) as [|v| | | |] eqn:Hfmt.
  - exists false, [48], None, None. split; [reflexivity|].
    repeat split; auto; try discriminate; repeat constructor.
  - unfold sprintf_d. destruct (v <? 0).
    + exists true, (dec_digits (- v)), None, None. split.
      * unfold num_text. cbn [app]. now rewrite !app_nil_r.
      * repeat split; auto; apply dec_digits_digits.
    + exists false, (dec_digits v), None, None. split.
      * unfold num_text. cbn [app]. now rewrite !app_nil_r.
      * repeat split; auto; apply dec_digits_digits.
  - apply format_null_not_finite in Hfmt. congruence.
  - unfold sprintf_f. destruct (magnitude d) as (n & dn).
    eexists (sign_of d), _, None, None. split.
    + unfold num_text. rewrite sign_chars_neg. cbn [app]. reflexivity.
    + repeat split; auto; apply dec_digits_digits.
  - unfold sprintf_e. destruct (magnitude d) as (n & dn).
    destruct (n =? 0).
    + exists (sign_of d), [48], (Some [48; 48; 48; 48; 48; 48]), (Some (false, [48; 48])).
      split; [reflexivity|].
      repeat split; auto; try discriminate; repeat constructor.
    + match goal with
      | |- context [let '(r, x) := ?p in _] => destruct p as (r & x)
      end.
      eexists (sign_of d), _, (Some _), (Some (x <? 0, _)). split.
      * unfold num_text. rewrite sign_chars_neg. cbn [app]. reflexivity.
      * repeat split; auto; try apply dec_digits_digits; try apply dec_pad_digits.
  - unfold sprintf_f. destruct (magnitude d) as (n & dn).
    eexists (sign_of d), _, (Some _), None. split.
    + unfold num_text. rewrite sign_chars_neg. cbn [app].
      rewrite app_nil_r. reflexivity.
    + repeat split; auto; try apply dec_digits_digits; try apply dec_pad_digits.
Qed.

(** A finite number is read back whole from wherever its rendering stands,
    and the value read is [reread d]. *)
Lemma strtod_printed d s i l :
  is_finite d = true -> at_pos s i (print_number d ++ l) -> ends_value l ->
  strtod s i = Ok (reread d, (i + length (print_number d))%nat).
Proof.
  intros Hfin Hat He.
  destruct (print_number_shape d Hfin) as (neg & d1 & d2 & ex & Htxt & Hshape).
  unfold reread. rewrite Htxt in *.
  rewrite (strtod_shape (num_text neg d1 d2 ex) 0 neg d1 d2 ex []);
    [|exact Hshape|rewrite app_nil_r; apply at_pos_start|exact I].
  now apply (strtod_shape s i neg d1 d2 ex l).
Qed.

(** ** White space and literals in compact text *)

(** Nothing to skip: the end of the input or a character above the space. *)
Definition visible (l : text) : Prop :=
  match l with
  | [] => True
  | c :: _ => 32 < c
  end.

Lemma skip_visible s i l : at_pos s i l -> visible l -> skip s i = Ok i.
Proof.
  intros Hat Hv. unfold skip. cbn [skip_loop]. destruct l as [|c l].
  - now rewrite (at_pos_peek_nil _ _ Hat).
  - rewrite (at_pos_peek _ _ _ _ Hat). cbn [bind]. simpl in Hv.
    destruct (Z.leb_spec c 32); [lia|]. now rewrite andb_false_r.
Qed.

Lemma ends_value_visible l : ends_value l -> visible l.
Proof. destruct l as [|c l]; [auto|]. intros [-> | [-> | ->]]; simpl; lia. Qed.

Lemma starts_with_lit lit : forall s i l,
  at_pos s i (lit ++ l) -> starts_with s i lit = Ok true.
Proof.
  induction lit as [|p lit IH]; intros s i l Hat; [reflexivity|].
  cbn [starts_with]. cbn [app] in Hat. rewrite (at_pos_peek _ _ _ _ Hat). cbn [bind].
  rewrite Z.eqb_refl. eapply IH. eapply at_pos_next. exact Hat.
Qed.

Lemma starts_with_other s i c l lit :
  at_pos s i (c :: l) -> hd c lit <> c -> starts_with s i lit = Ok false.
Proof.
  intros Hat Hc. destruct lit as [|p lit]; [contradiction|]. cbn [hd] in Hc.
  cbn [starts_with]. rewrite (at_pos_peek _ _ _ _ Hat). cbn [bind].
  destruct (Z.eqb_spec c p); [congruence|reflexivity].
Qed.

(** ** The first character of a value *)

(** The characters a rendered value can start with, by kind. *)
Definition starts (j : json) (c : Z) : Prop :=
  match j with
  | JNull => c = 110
  | JFalse => c = 102
  | JTrue => c = 116
  | JNumber _ => c = 45 \/ is_digit c = true
  | JString _ => c = 34
  | JArray _ => c = 91
  | JObject _ => c = 123
  end.

Lemma compact_head (j : json) :
  numbers_finite j -> exists c r, compact j = c :: r /\ starts j c.
Proof.
  destruct j as [| | |d|s|items|members]; intros Hf; cbn [compact starts];
    try (eexists _, _; split; reflexivity).
  - cbn [numbers_finite] in Hf.
    destruct (print_number_shape d Hf) as (neg & d1 & d2 & ex & -> & (Hd1 & Hn1) & _).
    unfold num_text. destruct neg; cbn [app].
    + eexists _, _. split; [reflexivity|]. now left.
    + destruct d1 as [|c1 d1]; [contradiction|]. inversion Hd1; subst.
      eexists _, _. split; [reflexivity|]. now right.
  - unfold print_string_ptr. destruct (negb (existsb escape_flag s));
      eexists _, _; split; reflexivity.
Qed.

Lemma starts_visible j c : starts j c -> 32 < c /\ c <> 93 /\ c <> 125.
Proof.
  destruct j; cbn [starts]; try lia.
  intros [->|H]; [lia|]. apply is_digit_range in H. lia.
Qed.

Lemma print_string_ptr_head s : exists r, print_string_ptr (Some s) = 34 :: r.
Proof.
  unfold print_string_ptr. destruct (negb (existsb escape_flag s)); eauto.
Qed.

Definition blank (k : option text) (t : cJSON_type) : cJSON := Item t false d_zero None k [].

(** [pv_ok pv j]: the value parser [pv] reads the compact text of [j],
    wherever it stands, into the node of the requantized value. *)
Definition pv_ok (pv : cJSON -> text -> nat -> outcome (cJSON * nat)) (j : json) : Prop :=
  forall k t s i l,
    at_pos s i (compact j ++ l) -> ends_value l ->
    pv (blank k t) s i = Ok (node_of k (requantize j), (i + length (compact j))%nat).

(** ** Scalars *)

Lemma parse_value_scalar fuel (j : json) :
  match j with JArray _ | JObject _ => False | _ => True end ->
  strings_ok j -> numbers_finite j -> pv_ok (parse_value (S fuel)) j.
Proof.
  intros Hscalar Hs Hf k t s i l Hat He.
  destruct j as [| | |d|str|items|members]; try contradiction;
    cbn [compact requantize node_of] in *.
  - cbn [parse_value]. rewrite (starts_with_lit lit_null s i l Hat). reflexivity.
  - cbn [parse_value].
    rewrite (starts_with_other s i 102 _ lit_null Hat) by (cbn; lia). cbn [bind].
    rewrite (starts_with_lit lit_false s i l Hat). reflexivity.
  - cbn [parse_value].
    rewrite (starts_with_other s i 116 _ lit_null Hat) by (cbn; lia). cbn [bind].
    rewrite (starts_with_other s i 116 _ lit_false Hat) by (cbn; lia). cbn [bind].
    rewrite (starts_with_lit lit_true s i l Hat). reflexivity.
  - cbn [numbers_finite] in Hf.
    destruct (compact_head (JNumber d) Hf) as (c & r & Hhead & Hc).
    cbn [compact starts] in Hhead, Hc.
    pose proof Hat as Hat'. rewrite Hhead in Hat'. cbn [app] in Hat'.
    assert (Hc' : c <> 110 /\ c <> 102 /\ c <> 116 /\ c <> 34).
    { destruct Hc as [->|Hc]; [lia|]. apply is_digit_range in Hc. lia. }
    cbn [parse_value].
    rewrite (starts_with_other s i c _ lit_null Hat') by (cbn; lia). cbn [bind].
    rewrite (starts_with_other s i c _ lit_false Hat') by (cbn; lia). cbn [bind].
    rewrite (starts_with_other s i c _ lit_true Hat') by (cbn; lia). cbn [bind].
    rewrite (at_pos_peek _ _ _ _ Hat'). cbn [bind].
    destruct (Z.eqb_spec c 34); [lia|].
    assert (Hd : (c =? 45) || ((48 <=? c) && (c <=? 57)) = true).
    { destruct Hc as [->|Hc]; [reflexivity|]. unfold is_digit in Hc. rewrite Hc.
      apply orb_true_r. }
    rewrite Hd. unfold parse_number.
    rewrite (strtod_printed d s i l Hf Hat He). cbn [bind].
    rewrite Hhead. cbn [length].
    destruct (Nat.eqb_spec i (i + S (length r))); [lia|]. reflexivity.
  - cbn [strings_ok] in Hs.
    destruct (print_string_ptr_head str) as (r & Hhead).
    pose proof Hat as Hat'. rewrite Hhead in Hat'. cbn [app] in Hat'.
    cbn [parse_value].
    rewrite (starts_with_other s i 34 _ lit_null Hat') by (cbn; lia). cbn [bind].
    rewrite (starts_with_other s i 34 _ lit_false Hat') by (cbn; lia). cbn [bind].
    rewrite (starts_with_other s i 34 _ lit_true Hat') by (cbn; lia). cbn [bind].
    rewrite (at_pos_peek _ _ _ _ Hat'). cbn [bind Z.eqb Pos.eqb].
    rewrite (parse_string_printed str s i l Hs Hat). reflexivity.
Qed.

(** ** Arrays *)

Definition tail_items (items : list json) : text :=
  concat (map (fun j => 44 :: compact j) items).

Lemma sep_by_cons (x : text) (xs : list text) :
  sep_by [44] (x :: xs) = x ++ concat (map (fun y => 44 :: y) xs).
Proof.
  revert x. induction xs as [|y xs IH]; intros x.
  - cbn. now rewrite app_nil_r.
  - change (sep_by [44] (x :: y :: xs)) with (x ++ [44] ++ sep_by [44] (y :: xs)).
    rewrite IH. reflexivity.
Qed.

Lemma sep_by_items j items :
  sep_by [44] (map compact (j :: items)) = compact j ++ tail_items items.
Proof.
  cbn [map]. rewrite sep_by_cons. unfold tail_items. now rewrite map_map.
Qed.

Lemma compact_visible j l : numbers_finite j -> visible (compact j ++ l).
Proof.
  intros Hf. destruct (compact_head j Hf) as (c & r & -> & Hc).
  apply starts_visible in Hc. simpl. lia.
Qed.

Lemma length_tail_items items : (length items <= length (tail_items items))%nat.
Proof.
  induction items as [|j items IH]; [reflexivity|].
  unfold tail_items in *. cbn [map concat length]. rewrite length_app. cbn [length]. lia.
Qed.

Section ContainerLemmas.
Variable pv : cJSON -> text -> nat -> outcome (cJSON * nat).

Lemma parse_array_loop_ok : forall items done fuel s i l,
  Forall (pv_ok pv) items -> Forall numbers_finite items ->
  at_pos s i (tail_items items ++ 93 :: l) -> (length items < fuel)%nat ->
  parse_array_loop pv fuel s i done
  = Ok (done ++ map (fun j => node_of None (requantize j)) items,
        S (i + length (tail_items items))).
Proof.
  induction items as [|j items IH]; intros done fuel s i l Hpv Hfin Hat Hfuel;
    (destruct fuel as [|fuel]; [cbn [length] in Hfuel; lia|]); cbn [parse_array_loop].
  - cbn [tail_items map concat app] in Hat. rewrite (at_pos_peek _ _ _ _ Hat).
    cbn [bind Z.eqb Pos.eqb map length tail_items concat].
    now rewrite app_nil_r, Nat.add_0_r.
  - inversion Hpv as [|? ? Hj Hpv']; inversion Hfin as [|? ? Hfj Hfin']; subst.
    unfold tail_items in Hat. cbn [map concat app] in Hat. rewrite <- app_assoc in Hat.
    fold (tail_items items) in Hat.
    rewrite (at_pos_peek _ _ _ _ Hat). cbn [bind Z.eqb Pos.eqb].
    pose proof (at_pos_next _ _ _ _ Hat) as Hat1.
    rewrite (skip_visible _ _ _ Hat1 (compact_visible j _ Hfj)). cbn [bind].
    assert (He : ends_value (tail_items items ++ 93 :: l)).
    { destruct items; simpl; auto. }
    change cJSON_New_Item with (blank None cJSON_Invalid).
    rewrite (Hj None cJSON_Invalid s (S i) _ Hat1 He). cbn [bind].
    pose proof (at_pos_app _ _ _ _ Hat1) as Hat2.
    rewrite (skip_visible _ _ _ Hat2 (ends_value_visible _ He)). cbn [bind].
    rewrite (IH _ fuel s _ l Hpv' Hfin' Hat2) by (cbn [length] in Hfuel; lia).
    rewrite <- app_assoc. cbn [app map].
    unfold tail_items. cbn [map concat length]. rewrite length_app.
    do 2 f_equal. cbn [length]. lia.
Qed.

Lemma parse_array_ok items :
  Forall (pv_ok pv) items -> Forall numbers_finite items ->
  pv_ok (parse_array pv) (JArray items).
Proof.
  intros Hpv Hfin k t s i l Hat He. cbn [compact] in Hat |- *. cbn [app] in Hat.
  pose proof (at_pos_length _ _ _ Hat) as Hlen.
  unfold parse_array. rewrite (at_pos_peek _ _ _ _ Hat). cbn [bind Z.eqb Pos.eqb negb].
  pose proof (at_pos_next _ _ _ _ Hat) as Hat1.
  destruct items as [|j items].
  - cbn [map sep_by app] in Hat1 |- *.
    rewrite (skip_visible _ _ _ Hat1 ltac:(simpl; lia)). cbn [bind].
    rewrite (at_pos_peek _ _ _ _ Hat1). cbn [bind Z.eqb Pos.eqb set_type blank].
    cbn [requantize map node_of length]. do 2 f_equal. lia.
  - inversion Hpv as [|? ? Hj Hpv']; inversion Hfin as [|? ? Hfj Hfin']; subst.
    rewrite sep_by_items in *. rewrite <- !app_assoc in Hat1. cbn [app] in Hat1.
    rewrite (skip_visible _ _ _ Hat1 (compact_visible j _ Hfj)). cbn [bind].
    destruct (compact_head j Hfj) as (c & r & Hhead & Hc).
    apply starts_visible in Hc.
    pose proof Hat1 as Hat1'. rewrite Hhead in Hat1'. cbn [app] in Hat1'.
    rewrite (at_pos_peek _ _ _ _ Hat1'). cbn [bind].
    destruct (Z.eqb_spec c 93); [lia|].
    rewrite (skip_visible _ _ _ Hat1 (compact_visible j _ Hfj)). cbn [bind].
    assert (He' : ends_value (tail_items items ++ 93 :: l)).
    { destruct items; simpl; auto. }
    change cJSON_New_Item with (blank None cJSON_Invalid).
    rewrite (Hj None cJSON_Invalid s (S i) _ Hat1 He'). cbn [bind].
    pose proof (at_pos_app _ _ _ _ Hat1) as Hat2.
    rewrite (skip_visible _ _ _ Hat2 (ends_value_visible _ He')). cbn [bind].
    rewrite (parse_array_loop_ok items _ (S (length s)) s _ l Hpv' Hfin' Hat2).
    2:{ cbn [length] in Hlen. rewrite !length_app in Hlen.
        pose proof (length_tail_items items). lia. }
    cbn [bind]. f_equal. f_equal.
    + cbn [set_type set_child blank requantize node_of map app]. now rewrite map_map.
    + cbn [length]. rewrite !length_app. cbn [length]. lia.
Qed.

(** ** Objects *)

Definition member_text (m : text * json) : text :=
  print_string_ptr (Some (fst m)) ++ 58 :: compact (snd m).

Definition tail_members (members : list (text * json)) : text :=
  concat (map (fun m => 44 :: member_text m) members).

Lemma sep_by_members m members :
  sep_by [44] (map member_text (m :: members)) = member_text m ++ tail_members members.
Proof.
  cbn [map]. rewrite sep_by_cons. unfold tail_members. now rewrite map_map.
Qed.

Lemma length_tail_members members : (length members <= length (tail_members members))%nat.
Proof.
  induction members as [|m members IH]; [reflexivity|].
  unfold tail_members in *. cbn [map concat length]. rewrite length_app. cbn [length]. lia.
Qed.

Definition member_ok (m : text * json) : Prop :=
  cstr (fst m) /\ pv_ok pv (snd m) /\ numbers_finite (snd m).

Lemma parse_member_ok m s i l :
  member_ok m -> at_pos s i (member_text m ++ l) -> ends_value l ->
  parse_member pv cJSON_New_Item s i
  = Ok (node_of (Some (fst m)) (requantize (snd m)), (i + length (member_text m))%nat).
Proof.
  intros (Hkey & Hv & Hfin) Hat He. destruct m as (key & v). cbn [fst snd] in *.
  unfold member_text in *. cbn [fst snd] in *. rewrite <- app_assoc in Hat. cbn [app] in Hat.
  unfold parse_member.
  destruct (print_string_ptr_head key) as (r & Hhead).
  assert (Hvis : visible (print_string_ptr (Some key) ++ 58 :: compact v ++ l))
    by (rewrite Hhead; simpl; lia).
  rewrite (skip_visible _ _ _ Hat Hvis). cbn [bind].
  rewrite (parse_string_printed key s i _ Hkey Hat). cbn [bind].
  pose proof (at_pos_app _ _ _ _ Hat) as Hat1.
  rewrite (skip_visible _ _ _ Hat1 ltac:(simpl; lia)). cbn [bind].
  rewrite (at_pos_peek _ _ _ _ Hat1). cbn [bind Z.eqb Pos.eqb negb].
  pose proof (at_pos_next _ _ _ _ Hat1) as Hat2.
  rewrite (skip_visible _ _ _ Hat2 (compact_visible v _ Hfin)). cbn [bind].
  change (set_name (Some key) (set_string None (set_type cJSON_String cJSON_New_Item)))
    with (blank (Some key) cJSON_String).
  rewrite (Hv (Some key) cJSON_String s _ l Hat2 He). cbn [bind].
  pose proof (at_pos_app _ _ _ _ Hat2) as Hat3.
  rewrite (skip_visible _ _ _ Hat3 (ends_value_visible _ He)). cbn [bind].
  rewrite length_app. cbn [length]. do 2 f_equal. lia.
Qed.

Lemma parse_object_loop_ok : forall members done fuel s i l,
  Forall member_ok members ->
  at_pos s i (tail_members members ++ 125 :: l) -> (length members < fuel)%nat ->
  parse_object_loop pv fuel s i done
  = Ok (done ++ map (fun m => node_of (Some (fst m)) (requantize (snd m))) members,
        S (i + length (tail_members members))).
Proof.
  induction members as [|m members IH]; intros done fuel s i l Hok Hat Hfuel;
    (destruct fuel as [|fuel]; [cbn [length] in Hfuel; lia|]); cbn [parse_object_loop].
  - cbn [tail_members map concat app] in Hat. rewrite (at_pos_peek _ _ _ _ Hat).
    cbn [bind Z.eqb Pos.eqb map length tail_members concat].
    now rewrite app_nil_r, Nat.add_0_r.
  - inversion Hok as [|? ? Hm Hok']; subst.
    unfold tail_members in Hat. cbn [map concat app] in Hat. rewrite <- app_assoc in Hat.
    fold (tail_members members) in Hat.
    rewrite (at_pos_peek _ _ _ _ Hat). cbn [bind Z.eqb Pos.eqb].
    pose proof (at_pos_next _ _ _ _ Hat) as Hat1.
    assert (He : ends_value (tail_members members ++ 125 :: l)).
    { destruct members; simpl; auto. }
    rewrite (parse_member_ok m s (S i) _ Hm Hat1 He). cbn [bind].
    pose proof (at_pos_app _ _ _ _ Hat1) as Hat2.
    rewrite (IH _ fuel s _ l Hok' Hat2) by (cbn [length] in Hfuel; lia).
    rewrite <- app_assoc. cbn [app map].
    unfold tail_members. cbn [map concat length]. rewrite length_app.
    do 2 f_equal. cbn [length]. lia.
Qed.

Lemma parse_object_ok members :
  Forall member_ok members -> pv_ok (parse_object pv) (JObject members).
Proof.
  intros Hok k t s i l Hat He. cbn [compact] in Hat |- *. cbn [app] in Hat.
  change (map (fun m => print_string_ptr (Some (fst m)) ++ 58 :: compact (snd m)) members)
    with (map member_text members) in *.
  pose proof (at_pos_length _ _ _ Hat) as Hlen.
  unfold parse_object. rewrite (at_pos_peek _ _ _ _ Hat). cbn [bind Z.eqb Pos.eqb negb].
  pose proof (at_pos_next _ _ _ _ Hat) as Hat1.
  destruct members as [|m members].
  - cbn [map sep_by app] in Hat1 |- *.
    rewrite (skip_visible _ _ _ Hat1 ltac:(simpl; lia)). cbn [bind].
    rewrite (at_pos_peek _ _ _ _ Hat1). cbn [bind Z.eqb Pos.eqb set_type blank].
    cbn [requantize map node_of length]. do 2 f_equal. lia.
  - inversion Hok as [|? ? Hm Hok']; subst.
    rewrite sep_by_members in *. rewrite <- !app_assoc in Hat1. cbn [app] in Hat1.
    destruct (print_string_ptr_head (fst m)) as (r & Hhead).
    assert (Hvis : visible (member_text m ++ tail_members members ++ 125 :: l)).
    { unfold member_text. rewrite Hhead. simpl. lia. }
    rewrite (skip_visible _ _ _ Hat1 Hvis). cbn [bind].
    pose proof Hat1 as Hat1'. unfold member_text in Hat1'. rewrite Hhead in Hat1'.
    cbn [app] in Hat1'.
    rewrite (at_pos_peek _ _ _ _ Hat1'). cbn [bind Z.eqb Pos.eqb].
    assert (He' : ends_value (tail_members members ++ 125 :: l)).
    { destruct members; simpl; auto. }
    rewrite (parse_member_ok m s (S i) _ Hm Hat1 He'). cbn [bind].
    pose proof (at_pos_app _ _ _ _ Hat1) as Hat2.
    rewrite (parse_object_loop_ok members _ (S (length s)) s _ l Hok' Hat2).
    2:{ cbn [length] in Hlen. rewrite !length_app in Hlen.
        pose proof (length_tail_members members). lia. }
    cbn [bind]. f_equal. f_equal.
    + cbn [set_type set_child blank requantize node_of map app fst snd].
      now rewrite map_map.
    + cbn [length]. rewrite !length_app. cbn [length]. lia.
Qed.

End ContainerLemmas.

(** ** The value parser on compact text *)

Lemma strings_ok_array items : strings_ok (JArray items) <-> Forall strings_ok items.
Proof.
  cbn [strings_ok]. induction items as [|j items IH]; cbn [fold_right].
  - split; [constructor|auto].
  - rewrite IH. split; [intros (? & ?); now constructor|now inversion 1].
Qed.

Lemma strings_ok_object members :
  strings_ok (JObject members) <-> Forall (fun m => cstr (fst m) /\ strings_ok (snd m)) members.
Proof.
  cbn [strings_ok]. induction members as [|m members IH]; cbn [fold_right].
  - split; [constructor|auto].
  - rewrite IH. split; [intros (? & ?); now constructor|now inversion 1].
Qed.

Lemma numbers_finite_array items : numbers_finite (JArray items) <-> Forall numbers_finite items.
Proof.
  cbn [numbers_finite]. induction items as [|j items IH]; cbn [fold_right].
  - split; [constructor|auto].
  - rewrite IH. split; [intros (? & ?); now constructor|now inversion 1].
Qed.

Lemma numbers_finite_object members :
  numbers_finite (JObject members) <-> Forall (fun m => numbers_finite (snd m)) members.
Proof.
  cbn [numbers_finite]. induction members as [|m members IH]; cbn [fold_right].
  - split; [constructor|auto].
  - rewrite IH. split; [intros (? & ?); now constructor|now inversion 1].
Qed.

Lemma depth_items items n :
  (fold_right (fun i m => Nat.max (depth_of i) m) O items < n)%nat ->
  Forall (fun j => (depth_of j < n)%nat) items.
Proof.
  induction items as [|j items IH]; cbn [fold_right]; intros H; constructor; [lia|].
  apply IH. lia.
Qed.

Lemma depth_members (members : list (text * json)) n :
  (fold_right (fun m k => Nat.max (depth_of (snd m)) k) O members < n)%nat ->
  Forall (fun m => (depth_of (snd m) < n)%nat) members.
Proof.
  induction members as [|m members IH]; cbn [fold_right]; intros H; constructor; [lia|].
  apply IH. lia.
Qed.

Lemma parse_value_container fuel (pa : cJSON -> text -> nat -> outcome (cJSON * nat))
  (c : Z) (j : json) :
  (c = 91 /\ pa = parse_array (parse_value fuel)
   \/ c = 123 /\ pa = parse_object (parse_value fuel)) ->
  (exists r, compact j = c :: r) -> pv_ok pa j -> pv_ok (parse_value (S fuel)) j.
Proof.
  intros Hc (r & Hhead) Hpa k t s i l Hat He.
  pose proof Hat as Hat'. rewrite Hhead in Hat'. cbn [app] in Hat'.
  cbn [parse_value].
  rewrite (starts_with_other s i c _ lit_null Hat') by (cbn; lia). cbn [bind].
  rewrite (starts_with_other s i c _ lit_false Hat') by (cbn; lia). cbn [bind].
  rewrite (starts_with_other s i c _ lit_true Hat') by (cbn; lia). cbn [bind].
  rewrite (at_pos_peek _ _ _ _ Hat'). cbn [bind].
  destruct Hc as [(-> & ->)|(-> & ->)]; cbn [Z.eqb Pos.eqb Z.leb Z.compare Pos.compare
    Pos.compare_cont andb orb]; exact (Hpa k t s i l Hat He).
Qed.

Lemma parse_compact (j : json) : forall fuel,
  strings_ok j -> numbers_finite j -> (depth_of j < fuel)%nat ->
  pv_ok (parse_value fuel) j.
Proof.
  induction j as [| | |d|str|items IH|members IH] using json_induction;
    intros fuel Hs Hf Hd; (destruct fuel as [|fuel]; [lia|]);
    try (now apply parse_value_scalar).
  - apply (parse_value_container fuel (parse_array (parse_value fuel)) 91);
      [now left|cbn [compact]; eauto|].
    apply strings_ok_array in Hs. apply numbers_finite_array in Hf.
    cbn [depth_of] in Hd. apply Nat.succ_lt_mono in Hd. apply depth_items in Hd.
    apply parse_array_ok; [|exact Hf].
    clear -IH Hs Hf Hd. induction IH; inversion Hs; inversion Hf; inversion Hd; subst;
      constructor; auto.
  - apply (parse_value_container fuel (parse_object (parse_value fuel)) 123);
      [now right|cbn [compact]; eauto|].
    apply strings_ok_object in Hs. apply numbers_finite_object in Hf.
    cbn [depth_of] in Hd. apply Nat.succ_lt_mono in Hd. apply depth_members in Hd.
    apply parse_object_ok.
    clear -IH Hs Hf Hd.
    induction IH as [|m members Hm _ IHl]; inversion Hs as [|? ? (Hk & Hv) Hs'];
      inversion Hf; inversion Hd; subst; constructor; auto.
    unfold member_ok. auto.
Qed.

Lemma depth_le_length (j : json) : (depth_of j <= length (compact j))%nat.
Proof.
  induction j as [| | |d|str|items IH|members IH] using json_induction;
    cbn [depth_of compact length]; try lia.
  - apply le_n_S. rewrite length_app. cbn [length].
    destruct items as [|j items]; [cbn; lia|]. rewrite sep_by_items, length_app.
    inversion IH as [|? ? Hj IH']; subst. cbn [fold_right].
    assert (fold_right (fun i n => Nat.max (depth_of i) n) O items
            <= length (tail_items items))%nat.
    { clear -IH'. induction IH' as [|j' items Hj' _ IHl]; [cbn; lia|].
      unfold tail_items in *. cbn [fold_right map concat length]. rewrite length_app.
      cbn [length]. lia. }
    lia.
  - apply le_n_S. rewrite length_app. cbn [length].
    change (map (fun m => print_string_ptr (Some (fst m)) ++ 58 :: compact (snd m)) members)
      with (map member_text members).
    destruct members as [|m members]; [cbn; lia|]. rewrite sep_by_members, length_app.
    inversion IH as [|? ? Hj IH']; subst. cbn [fold_right].
    assert (fold_right (fun m n => Nat.max (depth_of (snd m)) n) O members
            <= length (tail_members members))%nat.
    { clear -IH'. induction IH' as [|m' members Hm' _ IHl]; [cbn; lia|].
      unfold tail_members, member_text in *. cbn [fold_right map concat length].
      rewrite !length_app. cbn [length]. rewrite length_app in *. cbn [length]. lia. }
    unfold member_text. rewrite length_app. cbn [length]. lia.
Qed.

(** The compact text of a value with finite numbers parses back to the
    requantized value, and leaves no error position. *)
Lemma parse_of_compact (j : json) (st : slots) (rnt : bool) :
  strings_ok j -> numbers_finite j ->
  cJSON_ParseWithOpts st (compact j) false rnt
  = Some (Some (node_of None (requantize j)),
          {| global_ep := None; return_parse_end := return_parse_end st |}).
Proof.
  intros Hs Hf. unfold cJSON_ParseWithOpts.
  assert (Hat : at_pos (compact j) 0 (compact j ++ [])) by (rewrite app_nil_r; apply at_pos_start).
  rewrite (skip_visible _ _ _ Hat (compact_visible j [] Hf)). cbn [bind].
  change cJSON_New_Item with (blank None cJSON_Invalid).
  rewrite (parse_compact j (S (length (compact j))) Hs Hf
             ltac:(pose proof (depth_le_length j); lia) None cJSON_Invalid _ 0%nat [] Hat I).
  cbn [Nat.add store_ep global_ep return_parse_end].
  destruct rnt; [|reflexivity].
  assert (Hend : at_pos (compact j) (length (compact j)) []).
  { exists (compact j). split; [now rewrite app_nil_r|reflexivity]. }
  rewrite (skip_visible _ _ _ Hend I), rd_end. reflexivity.
Qed.

(** ** What the parser builds *)

Lemma to_char_bit7 z : Z.testbit z 7 = true -> 0 < to_char z < 256.
Proof.
  intros H. unfold to_char.
  pose proof (Z.mod_pos_bound z 256 ltac:(lia)) as Hb.
  assert (z mod 256 <> 0); [|lia].
  intros E. change 256 with (2 ^ 8) in E.
  pose proof (Z.mod_pow2_bits_low z 8 7 ltac:(lia)) as Hlow.
  rewrite E, Z.bits_0 in Hlow. congruence.
Qed.

Lemma continuation_cstr uc : 0 < continuation uc < 256.
Proof.
  unfold continuation. apply to_char_bit7.
  rewrite Z.land_spec, Z.lor_spec. change (Z.testbit 128 7) with true.
  change (Z.testbit 191 7) with true. now rewrite orb_true_r.
Qed.

Lemma first_byte_cstr x m : Z.testbit m 7 = true -> 0 < to_char (Z.lor x m) < 256.
Proof. intros H. apply to_char_bit7. rewrite Z.lor_spec, H. apply orb_true_r. Qed.

Lemma utf8_encode_cstr uc : 0 < uc -> cstr (utf8_encode uc).
Proof.
  intros H. unfold utf8_encode, utf8_len.
  destruct (Z.ltb_spec uc 128).
  - cbn [firstByteMark]. rewrite Z.lor_0_r. unfold to_char.
    rewrite Z.mod_small by lia. repeat constructor; lia.
  - destruct (uc <? 2048); [|destruct (uc <? 65536)];
      repeat constructor; try apply continuation_cstr; now apply first_byte_cstr.
Qed.

Lemma peek_cstr s i c : cstr s -> peek s i = Ok c -> c <> 0 -> 0 < c < 256.
Proof.
  intros Hs. unfold peek, rd. destruct (nth_error s i) as [x|] eqn:E.
  - intros [= <-] _. apply nth_error_In in E.
    unfold cstr in Hs. rewrite Forall_forall in Hs. apply Hs. now apply list_elem_of_In.
  - destruct (Nat.eqb i (length s)); [|discriminate]. intros [= <-]. congruence.
Qed.

Lemma parse_hex4_nonneg s i v : parse_hex4 s i = Ok v -> 0 <= v.
Proof.
  unfold parse_hex4. intros H.
  repeat match type of H with
         | bind ?m _ = _ => destruct m; cbn [bind] in H; try discriminate H
         | match hex_digit ?c with _ => _ end = _ =>
           let E := fresh "E" in
           destruct (hex_digit c) eqn:E; [apply hex_digit_range in E|injection H as <-; lia]
         end.
  injection H as <-. rewrite !Z.shiftl_mul_pow2 by lia. lia.
Qed.

Lemma cstr_app a b : cstr a -> cstr b -> cstr (a ++ b).
Proof. intros. now apply Forall_app. Qed.

Lemma peek_lt_cstr s i :
  cstr s -> (i < length s)%nat -> exists c, peek s i = Ok c /\ 0 < c < 256.
Proof.
  intros Hs Hi. destruct (rd_lt s i Hi) as (c & Hc & Hn).
  exists c. unfold peek. rewrite Hc. split; [reflexivity|].
  apply nth_error_In in Hn. unfold cstr in Hs. rewrite Forall_forall in Hs.
  apply Hs. now apply list_elem_of_In.
Qed.

Lemma unescape_cstr fuel : forall s str end_ptr ptr out,
  cstr s -> (end_ptr <= length s)%nat -> cstr out ->
  match unescape fuel s str end_ptr ptr out with
  | Ok (_, o) => cstr o
  | _ => True
  end.
Proof.
  induction fuel as [|fuel IH]; intros s str end_ptr ptr out Hs He Ho; [exact I|].
  cbn [unescape].
  destruct (Nat.ltb_spec ptr end_ptr) as [Hlt|]; [|exact Ho].
  destruct (peek_lt_cstr s ptr Hs ltac:(lia)) as (c & -> & Hc). cbn [bind].
  assert (Hnext : forall p x, 0 < x < 256 ->
            match unescape fuel s str end_ptr p (out ++ [x]) with
            | Ok (_, o) => cstr o
            | _ => True
            end).
  { intros p x Hx. apply IH; auto. apply cstr_app; [exact Ho|]. repeat constructor; lia. }
  destruct (negb (c =? 92)); [now apply Hnext|].
  destruct (peek s (S ptr)) as [e| | |]; cbn [bind]; try exact I.
  destruct (e =? 98); [apply Hnext; lia|].
  destruct (e =? 102); [apply Hnext; lia|].
  destruct (e =? 110); [apply Hnext; lia|].
  destruct (e =? 114); [apply Hnext; lia|].
  destruct (e =? 116); [apply Hnext; lia|].
  destruct ((e =? 34) || (e =? 92) || (e =? 47)) eqn:E; [apply Hnext; lia|].
  destruct (e =? 117); [|exact I].
  destruct (parse_hex4 s (S ptr + 1)) as [uc| | |] eqn:Huc; cbn [bind]; try exact I.
  apply parse_hex4_nonneg in Huc.
  destruct (end_ptr <=? S ptr + 4)%nat; [exact I|].
  destruct (is_low_surrogate uc || (uc =? 0)) eqn:Elow; [exact I|].
  apply orb_false_iff in Elow as (_ & Ez). apply Z.eqb_neq in Ez.
  destruct (is_high_surrogate uc).
  - destruct (end_ptr <? S ptr + 4 + 6)%nat; [exact I|].
    destruct (peek s (S ptr + 4 + 1)) as [c1| | |]; cbn [bind]; try exact I.
    destruct (negb (c1 =? 92)); [exact I|].
    destruct (peek s (S ptr + 4 + 2)) as [c2| | |]; cbn [bind]; try exact I.
    destruct (negb (c2 =? 117)); [exact I|].
    destruct (parse_hex4 s (S ptr + 4 + 3)) as [uc2| | |] eqn:Huc2; cbn [bind]; try exact I.
    apply parse_hex4_nonneg in Huc2.
    destruct ((uc2 <? 56320) || (57343 <? uc2)); [exact I|].
    apply IH; auto. apply cstr_app; [exact Ho|]. apply utf8_encode_cstr.
    assert (0 <= Z.lor (Z.shiftl (Z.land uc 1023) 10) (Z.land uc2 1023)); [|lia].
    apply Z.lor_nonneg. split.
    + apply Z.shiftl_nonneg. apply Z.land_nonneg. now left.
    + apply Z.land_nonneg. now left.
  - apply IH; auto. apply cstr_app; [exact Ho|]. apply utf8_encode_cstr. lia.
Qed.

Lemma parse_string_cstr s i out e :
  cstr s -> parse_string s i = Ok (out, e) -> cstr out.
Proof.
  intros Hs. unfold parse_string.
  destruct (peek s i) as [q| | |] eqn:Hq; cbn [bind]; try discriminate.
  destruct (Z.eqb_spec q 34) as [->|]; cbn [negb]; [|discriminate].
  assert (Hi : (i < length s)%nat).
  { unfold peek in Hq. destruct (rd s i) eqn:Hr; [|discriminate].
    injection Hq as ->. apply (rd_nonzero_lt s i 34); [exact Hr|lia]. }
  destruct (scan_end_safe (S (length s)) s (S i) 0) as [->|(e' & l' & -> & Hb & _)];
    [lia|lia|discriminate|].
  cbn [bind].
  pose proof (unescape_cstr (S (length s)) s i e' (S i) [] Hs ltac:(lia) ltac:(constructor)) as H.
  destruct (unescape _ _ _ _ _ _) as [[p o]| | |]; cbn [bind]; try discriminate.
  destruct (peek s p) as [c| | |]; cbn [bind]; try discriminate.
  destruct (c =? 34); intros [= <- <-]; exact H.
Qed.

(** [sound j]: the strings of [j] are C strings and its numbers are doubles
    of the format. *)
Definition sound (j : json) : Prop := strings_ok j /\ numbers_valid j.

Lemma numbers_valid_array items : numbers_valid (JArray items) <-> Forall numbers_valid items.
Proof.
  cbn [numbers_valid]. induction items as [|j items IH]; cbn [fold_right].
  - split; [constructor|auto].
  - rewrite IH. split; [intros (H1 & H2); now constructor|intros H; now inversion H].
Qed.

Lemma numbers_valid_object members :
  numbers_valid (JObject members) <-> Forall (fun m => numbers_valid (snd m)) members.
Proof.
  cbn [numbers_valid]. induction members as [|m members IH]; cbn [fold_right].
  - split; [constructor|auto].
  - rewrite IH. split; [intros (H1 & H2); now constructor|intros H; now inversion H].
Qed.

Lemma sound_array items : Forall sound items -> sound (JArray items).
Proof.
  intros H. split.
  - apply strings_ok_array. eapply Forall_impl; [exact H|]. now intros j (? & _).
  - apply numbers_valid_array. eapply Forall_impl; [exact H|]. now intros j (_ & ?).
Qed.

(** [shape_ok pv]: on a C string, whatever [pv] builds in a blank node is
    the node of a value whose strings are C strings and whose numbers are
    doubles of the format. *)
Definition shape_ok (pv : cJSON -> text -> nat -> outcome (cJSON * nat)) : Prop :=
  forall k ty s i t e,
    cstr s -> pv (blank k ty) s i = Ok (t, e) ->
    exists j, t = node_of k j /\ sound j.

Ltac inv_bind H :=
  match type of H with
  | bind ?m _ = Ok _ =>
    let E := fresh "E" in
    destruct m as [?| | |] eqn:E; cbn [bind] in H; [|discriminate H..]
  end.

Section ShapeLemmas.
Variable pv : cJSON -> text -> nat -> outcome (cJSON * nat).
Hypothesis Hpv : shape_ok pv.

Lemma parse_array_loop_shape fuel : forall s i js children e,
  cstr s -> Forall sound js ->
  parse_array_loop pv fuel s i (map (node_of None) js) = Ok (children, e) ->
  exists js', children = map (node_of None) js' /\ Forall sound js'.
Proof.
  induction fuel as [|fuel IH]; intros s i js children e Hs Hjs H; [discriminate|].
  cbn [parse_array_loop] in H. inv_bind H.
  destruct (a =? 44).
  - inv_bind H. inv_bind H. destruct a1 as (child & v). inv_bind H.
    change cJSON_New_Item with (blank None cJSON_Invalid) in E1.
    apply Hpv in E1 as (j & -> & Hj); [|exact Hs].
    apply (IH s a1 (js ++ [j]) children e Hs).
    + apply Forall_app. split; [exact Hjs|]. now constructor.
    + now rewrite map_app.
  - destruct (a =? 93); [|discriminate]. injection H as <- <-. eauto.
Qed.

Lemma parse_array_shape : shape_ok (parse_array pv).
Proof.
  intros k ty s i t e Hs H. unfold parse_array in H. inv_bind H.
  destruct (negb (a =? 91)); [discriminate|]. inv_bind H. inv_bind H.
  destruct (a1 =? 93).
  - injection H as <- <-. exists (JArray []). split; [reflexivity|split; exact I].
  - inv_bind H. inv_bind H. destruct a3 as (child & v). inv_bind H. inv_bind H.
    destruct a4 as (children & value). injection H as <- <-.
    change cJSON_New_Item with (blank None cJSON_Invalid) in E3.
    apply Hpv in E3 as (j & -> & Hj); [|exact Hs].
    apply (parse_array_loop_shape _ s a3 [j] children value Hs) in E5 as (js' & -> & Hjs');
      [|now constructor].
    exists (JArray js'). split; [reflexivity|]. now apply sound_array.
Qed.

Definition node_of_member (m : text * json) : cJSON := node_of (Some (fst m)) (snd m).

Definition member_sound (m : text * json) : Prop := cstr (fst m) /\ sound (snd m).

Lemma sound_object members : Forall member_sound members -> sound (JObject members).
Proof.
  intros H. split.
  - apply strings_ok_object. eapply Forall_impl; [exact H|]. now intros m (? & ? & _).
  - apply numbers_valid_object. eapply Forall_impl; [exact H|]. now intros m (_ & _ & ?).
Qed.

Lemma parse_member_shape s i child e :
  cstr s -> parse_member pv cJSON_New_Item s i = Ok (child, e) ->
  exists m, child = node_of_member m /\ member_sound m.
Proof.
  intros Hs H. unfold parse_member in H. inv_bind H. inv_bind H.
  destruct a0 as (key & v). inv_bind H. inv_bind H.
  destruct (negb (a1 =? 58)); [discriminate|]. inv_bind H. inv_bind H.
  destruct a3 as (c & v'). inv_bind H. injection H as <- <-.
  change (set_name (Some key) (set_string None (set_type cJSON_String cJSON_New_Item)))
    with (blank (Some key) cJSON_String) in E4.
  apply Hpv in E4 as (j & -> & Hj); [|exact Hs].
  apply parse_string_cstr in E0; [|exact Hs].
  exists (key, j). split; [reflexivity|]. split; assumption.
Qed.

Lemma parse_object_loop_shape fuel : forall s i ms children e,
  cstr s -> Forall member_sound ms ->
  parse_object_loop pv fuel s i (map node_of_member ms) = Ok (children, e) ->
  exists ms', children = map node_of_member ms' /\ Forall member_sound ms'.
Proof.
  induction fuel as [|fuel IH]; intros s i ms children e Hs Hms H; [discriminate|].
  cbn [parse_object_loop] in H. inv_bind H.
  destruct (a =? 44).
  - inv_bind H. destruct a0 as (child & v).
    apply parse_member_shape in E0 as (m & -> & Hm); [|exact Hs].
    apply (IH s v (ms ++ [m]) children e Hs).
    + apply Forall_app. split; [exact Hms|]. now constructor.
    + now rewrite map_app.
  - destruct (a =? 125); [|discriminate]. injection H as <- <-. eauto.
Qed.

Lemma parse_object_shape : shape_ok (parse_object pv).
Proof.
  intros k ty s i t e Hs H. unfold parse_object in H. inv_bind H.
  destruct (negb (a =? 123)); [discriminate|]. inv_bind H. inv_bind H.
  destruct (a1 =? 125).
  - injection H as <- <-. exists (JObject []). split; [reflexivity|split; exact I].
  - inv_bind H. destruct a2 as (child & v). inv_bind H.
    destruct a2 as (children & value). injection H as <- <-.
    apply parse_member_shape in E2 as (m & -> & Hm); [|exact Hs].
    apply (parse_object_loop_shape _ s v [m] children value Hs) in E3 as (ms' & -> & Hms');
      [|now constructor].
    exists (JObject ms'). split; [reflexivity|]. now apply sound_object.
Qed.

End ShapeLemmas.

Lemma parse_value_shape fuel : shape_ok (parse_value fuel).
Proof.
  induction fuel as [|fuel IH]; intros k ty s i t e Hs H; [discriminate|].
  cbn [parse_value] in H. inv_bind H.
  destruct a; [injection H as <- <-; exists JNull; split; [reflexivity|split; exact I]|].
  inv_bind H.
  destruct a; [injection H as <- <-; exists JFalse; split; [reflexivity|split; exact I]|].
  inv_bind H.
  destruct a; [injection H as <- <-; exists JTrue; split; [reflexivity|split; exact I]|].
  inv_bind H.
  destruct (a =? 34).
  { inv_bind H. destruct a0 as (out & e'). injection H as <- <-.
    apply parse_string_cstr in E3; [|exact Hs].
    exists (JString out). split; [reflexivity|split; [exact E3|exact I]]. }
  destruct ((a =? 45) || ((48 <=? a) && (a <=? 57))).
  { unfold parse_number in H. inv_bind H. destruct a0 as (number & endpointer).
    destruct (i =? endpointer)%nat; [discriminate|]. injection H as <- <-.
    exists (JNumber number). split; [reflexivity|]. split; [exact I|].
    exact (strtod_valid _ _ _ _ E3). }
  destruct (a =? 91); [now apply (parse_array_shape _ IH k ty s i t e)|].
  destruct (a =? 123); [now apply (parse_object_shape _ IH k ty s i t e)|].
  discriminate.
Qed.

(** Every successful parse of a C string builds the node of a value whose
    numbers are doubles of the format. *)
Lemma parse_builds_sound_value (st st' : slots) (s : text) (given rnt : bool) (t : cJSON) :
  cstr s -> cJSON_ParseWithOpts st s given rnt = Some (Some t, st') ->
  exists j, t = node_of None j /\ sound j.
Proof.
  intros Hs H. unfold cJSON_ParseWithOpts in H.
  destruct (skip s 0) as [v|[p|]| |]; cbn [bind] in H; try discriminate H.
  destruct (parse_value (S (length s)) cJSON_New_Item s v) as [[c e]|[p|]| |] eqn:E;
    cbv beta iota in H; try discriminate H.
  change cJSON_New_Item with (blank None cJSON_Invalid) in E.
  apply parse_value_shape in E as (j & -> & Hj); [|exact Hs].
  assert (Ht : t = node_of None j); [|exists j; split; assumption].
  destruct rnt.
  - destruct (skip s e) as [e'| | |]; try discriminate H.
    destruct (rd s e') as [ch|]; [|discriminate H].
    destruct (negb (ch =? 0)); [discriminate H|]. now injection H.
  - now injection H.
Qed.

Lemma parse_builds_value (st st' : slots) (s : text) (given rnt : bool) (t : cJSON) :
  cstr s -> cJSON_ParseWithOpts st s given rnt = Some (Some t, st') ->
  exists j, t = node_of None j /\ strings_ok j.
Proof.
  intros Hs H. destruct (parse_builds_sound_value st st' s given rnt t Hs H) as (j & Ht & Hj & _).
  eauto.
Qed.


(** * Numbers across the round trip *)

(** ** The value of decimal digits *)









Lemma length_uint_chars u : length (uint_chars u) = Decimal.nb_digits u.
Proof. induction u; simpl; congruence. Qed.






(** ** The decimal a rendering writes *)





Lemma reread_num neg d1 d2 ex :
  num_shape neg d1 d2 ex ->
  match strtod (num_text neg d1 d2 ex) 0 with
  | Ok (d', _) => d'
  | _ => d_zero
  end = num_value neg d1 d2 ex.
Proof.
  intros Hshape.
  rewrite (strtod_shape (num_text neg d1 d2 ex) 0 neg d1 d2 ex []);
    [reflexivity|exact Hshape|rewrite app_nil_r; apply at_pos_start|exact I].
Qed.


(** ** Rounding to the nearest integer *)




(** ** The decimal exponent *)



(** ** From integers to rationals *)








(** ** What the rendering loses *)




















(** ** Rounding to nearest *)




























(** ** Claim C1 *)

Lemma cstrb_cstr s : cstrb s = true -> cstr s.
Proof.
  unfold cstrb, cstr. intros H. apply Forall_forall. intros c Hc.
  rewrite forallb_forall in H. specialize (H c ltac:(now apply list_elem_of_In)).
  apply andb_true_iff in H as (H1 & H2). lia.
Qed.

Lemma finite_numbers_node_of (j : json) : forall k,
  finite_numbers (node_of k j) = true -> numbers_finite j.
Proof.
  induction j as [| | |d|str|items IH|members IH] using json_induction;
    intros k H; cbn [node_of finite_numbers numbers_finite] in *; auto.
  - rewrite decide_True in H by reflexivity. now rewrite andb_true_r in H.
  - rewrite decide_False in H by discriminate. cbn [andb] in H.
    induction IH as [|j items Hj _ IHl]; cbn [fold_right map forallb] in *; [exact I|].
    apply andb_true_iff in H as (H1 & H2). split; eauto.
  - rewrite decide_False in H by discriminate. cbn [andb] in H.
    induction IH as [|m members Hm _ IHl]; cbn [fold_right map forallb] in *; [exact I|].
    apply andb_true_iff in H as (H1 & H2). split; eauto.
Qed.

Lemma deep_equal_requantize (j : json) : forall k,
  deep_equal (node_of k j) (node_of k (requantize j)).
Proof.
  induction j as [| | |d|str|items IH|members IH] using json_induction;
    intros k; cbn [node_of requantize]; constructor;
    try (rewrite decide_False by discriminate; reflexivity);
    try (rewrite decide_True by reflexivity; reflexivity);
    try constructor.
  - induction IH as [|j items Hj _ IHl]; cbn [map]; constructor; auto.
  - induction IH as [|m members Hm _ IHl]; cbn [map fst snd]; constructor; auto.
Qed.

Lemma deep_equal_type (c c' : cJSON) : deep_equal c c' -> type_of c = type_of c'.
Proof. intros H. destruct H. reflexivity. Qed.




(** The numbers that C1 (amended) leaves out.  The text -1.9999999999999998
    is read as the double next above -2; [floor] of it is -2, within
    [DBL_EPSILON], so the integer branch is taken, and the cast [(int)]
    rounds toward zero: the rendering is -1, and the number read back
    differs from the original by more than nine tenths. *)
Lemma truncating_cast :
  let d := d_of_decimal true 19999999999999998 (-16) in
  let t := Item cJSON_Number false d None None [] in
  let t' := Item cJSON_Number false (d_of_Z (-1)) None None [] in
  cJSON_Parse no_error (bytes "-1.9999999999999998"%string) = Some (Some t, no_error)
  /\ truncated d = true
  /\ floor d = d_of_Z (-2) /\ int_of_double d = -1
  /\ cJSON_PrintUnformatted t = Some (bytes "-1"%string)
  /\ cJSON_Parse no_error (bytes "-1"%string) = Some (Some t', no_error)
  /\ (9 # 10 < Qabs (value (d_of_Z (-1)) - value d))%Q.
Proof. cbv zeta. repeat split; vm_compute; reflexivity. Qed.


Definition sample_text : text :=
  map (fun c => if c =? 39 then 34 else c)
      (bytes " { 'k\n' : [1, -2.5, 1e-7, true, null, {}, [], 'xé'], 'b' : {'c': false} } "%string).

Definition sample_tree : cJSON :=
  match cJSON_Parse no_error sample_text with
  | Some (Some t, _) => t
  | _ => cJSON_New_Item
  end.


(** * Further properties of the composer and the string parser *)

(** X15: the string parser reads back what the string composer wrote:
    wherever the printed form of a C string stands in the input,
    [parse_string] returns the string and stops just after the closing
    quote. *)
Theorem X15_string_round_trip (str pre post : text) :
  cstr str ->
  parse_string (pre ++ print_string_ptr (Some str) ++ post) (length pre)
  = Ok (str, (length pre + length (print_string_ptr (Some str)))%nat).
Proof.
  intros Hc. apply (parse_string_printed str _ _ post Hc).
  exists pre. split; reflexivity.
Qed.

(** The bytes of [a], a quote, a line feed, the control byte 1, a backslash
    and the byte 200. *)
Definition sample_string : text := [97; 34; 10; 1; 92; 200].

Lemma X15_string_round_trip_witness :
  parse_string (lit_null ++ print_string_ptr (Some sample_string) ++ lit_true) (length lit_null)
  = Ok (sample_string,
        (length lit_null + length (print_string_ptr (Some sample_string)))%nat).
Proof.
  apply (X15_string_round_trip sample_string lit_null lit_true).
  apply cstrb_cstr. reflexivity.
Defined.

Lemma hex_char_range v : 0 <= v < 16 -> 48 <= hex_char v <= 102.
Proof. intros H. unfold hex_char. destruct (v <? 10) eqn:E; lia. Qed.

Lemma escape_copy_plain (str : text) :
  cstr str ->
  Forall (fun c => 32 <= c < 256) (escape_copy str)
  /\ (length str <= length (escape_copy str) <= 6 * length str)%nat.
Proof.
  induction 1 as [|c str Hc _ (IH1 & IH2)]; [split; [constructor|simpl; lia]|].
  cbn [escape_copy].
  destruct ((31 <? c) && negb (c =? 34) && negb (c =? 92)) eqn:E.
  - split; [constructor; [lia|exact IH1]|cbn [length]; lia].
  - assert (Hesc : forall e, 32 <= e < 256 ->
              Forall (fun c => 32 <= c < 256) (92 :: [e] ++ escape_copy str)
              /\ (length (c :: str) <= length (92%Z :: [e] ++ escape_copy str)
                  <= 6 * length (c :: str))%nat).
    { intros e He. split; [repeat constructor; try lia; exact IH1|cbn [length app]; lia]. }
    destruct (c =? 92); [apply Hesc; lia|].
    destruct (c =? 34); [apply Hesc; lia|].
    destruct (c =? 8); [apply Hesc; lia|].
    destruct (c =? 12); [apply Hesc; lia|].
    destruct (c =? 10); [apply Hesc; lia|].
    destruct (c =? 13); [apply Hesc; lia|].
    destruct (c =? 9); [apply Hesc; lia|].
    unfold sprintf_04x. cbn [app length].
    assert (H1 := hex_char_range (c / 4096 mod 16) ltac:(apply Z.mod_pos_bound; lia)).
    assert (H2 := hex_char_range (c / 256 mod 16) ltac:(apply Z.mod_pos_bound; lia)).
    assert (H3 := hex_char_range (c / 16 mod 16) ltac:(apply Z.mod_pos_bound; lia)).
    assert (H4 := hex_char_range (c mod 16) ltac:(apply Z.mod_pos_bound; lia)).
    split; [repeat constructor; try lia; exact IH1|lia].
Qed.

(** X16: the printed form of a C string is a quote, a body and a quote;
    the body holds no control character (every byte is at least the space),
    is at least as long as the string and at most six times as long. *)
Theorem X16_printed_string_is_plain (str : text) :
  cstr str ->
  exists body,
    print_string_ptr (Some str) = 34 :: body ++ [34]
    /\ Forall (fun c => 32 <= c < 256) body
    /\ (length str <= length body <= 6 * length str)%nat.
Proof.
  intros Hc. exists (escape_copy str). split; [now apply print_string_ptr_escaped|].
  now apply escape_copy_plain.
Qed.

Lemma X16_printed_string_is_plain_witness :
  exists body,
    print_string_ptr (Some sample_string) = 34 :: body ++ [34]
    /\ Forall (fun c => 32 <= c < 256) body
    /\ (length sample_string <= length body
        <= 6 * length sample_string)%nat.
Proof.
  apply (X16_printed_string_is_plain sample_string).
  apply cstrb_cstr. reflexivity.
Defined.

Lemma compose_array_layout (fmt : bool) : forall (entries : list text) n i,
  n = (i + length entries)%nat ->
  compose_array fmt n i entries = sep_by (44 :: (if fmt then [32] else [])) entries.
Proof.
  induction entries as [|e entries IH]; intros n i Hn; [reflexivity|].
  cbn [compose_array sep_by]. destruct entries as [|e' entries].
  - cbn [length] in Hn. subst n. replace (i + 1 - 1)%nat with i by lia.
    rewrite Nat.eqb_refl. cbn. now rewrite app_nil_r.
  - rewrite (IH n (S i)) by (cbn [length] in *; lia).
    cbn [length] in Hn.
    destruct (Nat.eqb_spec i (n - 1)); [lia|]. reflexivity.
Qed.

Lemma collect_None {A} (l : list (option A)) : In None l -> collect l = None.
Proof.
  induction l as [|[a|] l IH]; cbn [collect]; [intros []| |reflexivity].
  intros [H|H]; [discriminate|]. now rewrite IH.
Qed.

(** X17: an array whose children all render is composed as a bracket, the
    renderings of the children in order, separated by a comma (followed by
    one space in pretty mode), and a bracket; an array without children is
    the two brackets; an array with a child that does not render does not
    render. *)
Theorem X17_array_layout (b : bool) (n : double) (s k : option text)
  (children : list cJSON) (depth : nat) (fmt : bool) :
  (forall entries,
     Forall2 (fun c e => print_value c (S depth) fmt = Some e) children entries ->
     print_value (Item cJSON_Array b n s k children) depth fmt
     = Some (91 :: sep_by (44 :: (if fmt then [32] else [])) entries ++ [93]))
  /\ (Exists (fun c => print_value c (S depth) fmt = None) children ->
      print_value (Item cJSON_Array b n s k children) depth fmt = None).
Proof.
  cbn [print_value]. unfold print_array_of. rewrite length_map. split.
  - intros entries H. rewrite (collect_Forall2 _ _ _ H).
    pose proof (Forall2_length _ _ _ H) as Hlen.
    destruct children as [|c children].
    + destruct entries; [reflexivity|discriminate].
    + cbn [length]. rewrite compose_array_layout by (cbn [length] in *; lia).
      reflexivity.
  - intros H. destruct children as [|c children]; [inversion H|]. cbn [length].
    rewrite collect_None; [reflexivity|].
    apply Exists_exists in H as (x & Hx & Hnone).
    apply list_elem_of_In in Hx. apply in_map_iff. exists x. auto.
Qed.

(** * The buffered composer writes what the unbuffered composer returns *)

Module BufferedFacts.
Import PrintBuffer Buffered.

Lemma bind_eq {A B} (m : M A) (k : A -> M B) (st : state) :
  (m ≫= k) st = match m st with Some (a, st') => k a st' | None => None end.
Proof. reflexivity. Qed.

Lemma ret_eq {A} (a : A) (st : state) : (mret a : M A) st = Some (a, st).
Proof. reflexivity. Qed.

(** ** The buffer as a text *)

(** [live K st data]: the print buffer of [st] is in use, [data] are the
    bytes of its block, and the allocator can still serve every request that
    ends within [K] bytes. *)
Definition live (K : Z) (st : state) (data : list Z) : Prop :=
  exists b, buffer (p st) = Some b /\ blocks (hooks st) !! b = Some data
    /\ Z.of_nat (List.length data) = length (p st)
    /\ (0 <= offset (p st) <= length (p st) /\ length (p st) <= SIZE_MAX)
    /\ (forall q : addr, (next_block (hooks st) <= q)%positive -> blocks (hooks st) !! q = None)
    /\ 4 * K <= avail (hooks st) + 2 * length (p st)
    /\ 4 * K <= SIZE_MAX.

(** [at_end K st pre]: [pre] is what was printed so far, and the offset is
    at its end. *)
Definition at_end (K : Z) (st : state) (pre : text) : Prop :=
  exists rest, live K st (pre ++ rest) /\ offset (p st) = Z.of_nat (List.length pre).

(** [pending K st pre out]: after [pre] the buffer holds [out] and a
    terminator, and the offset is somewhere in [out]. *)
Definition pending (K : Z) (st : state) (pre out : text) : Prop :=
  exists rest, live K st (pre ++ out ++ 0 :: rest)
    /\ Z.of_nat (List.length pre) <= offset (p st)
       <= Z.of_nat (List.length pre) + Z.of_nat (List.length out).

(** ** The primitive steps *)

Lemma ensure_at_end K st pre n :
  at_end K st pre -> 0 <= n -> Z.of_nat (List.length pre) + n <= K ->
  exists b st' rest,
    ensure n st = Some (Some (b, Z.of_nat (List.length pre)), st')
    /\ live K st' (pre ++ rest) /\ buffer (p st') = Some b
    /\ offset (p st') = Z.of_nat (List.length pre)
    /\ n <= Z.of_nat (List.length rest).
Proof.
  intros (rest & (b & Hb & Hdata & Hlen & Hoff & Hfresh & Hfund & HK) & Hat) Hn Hfit.
  unfold ensure, PrintBuffer.ensure. rewrite Hb.
  assert (Hsz : size_t (n + offset (p st)) = n + offset (p st)).
  { unfold size_t, SIZE_MAX in *. apply Z.mod_small. lia. }
  rewrite Hsz. rewrite length_app in Hlen.
  destruct (Z.leb_spec (n + offset (p st)) (length (p st))) as [Hle|Hgt].
  - exists b, st, rest. destruct st as [pb a]. cbn [p hooks] in *. rewrite Hat.
    repeat split; auto; try lia.
    exists b. cbn [p hooks]. repeat split; auto; try lia. rewrite length_app. lia.
  - unfold max. destruct (Z.ltb_spec (n + offset (p st)) (length (p st))) as [|_]; [lia|].
    assert (Hsz2 : size_t ((n + offset (p st)) * 2) = (n + offset (p st)) * 2).
    { unfold size_t, SIZE_MAX in *. apply Z.mod_small. lia. }
    rewrite Hsz2.
    destruct (Z.leb_spec ((n + offset (p st)) * 2) (n + offset (p st))) as [|_]; [lia|].
    unfold malloc_fn.
    destruct (Z.leb_spec ((n + offset (p st)) * 2) (avail (hooks st))) as [_|]; [|lia].
    cbv beta iota. unfold memcpy. cbn [blocks].
    rewrite lookup_insert_eq.
    assert (Hne : next_block (hooks st) <> b).
    { intros E. specialize (Hfresh b ltac:(lia)). congruence. }
    rewrite lookup_insert_ne by exact Hne. rewrite Hdata, repeat_length.
    assert (Hnew : (Z.to_nat (length (p st)) <=? Z.to_nat ((n + offset (p st)) * 2))%nat = true)
      by (apply Nat.leb_le; lia).
    assert (Hold : (Z.to_nat (length (p st)) <=? List.length (pre ++ rest))%nat = true)
      by (apply Nat.leb_le; rewrite length_app; lia).
    rewrite Hnew, Hold. cbn [andb].
    set (ext := drop (Z.to_nat (length (p st)))
                     (repeat (fill (hooks st)) (Z.to_nat ((n + offset (p st)) * 2)))).
    assert (Htake : take (Z.to_nat (length (p st))) (pre ++ rest) = pre ++ rest).
    { apply take_ge. rewrite length_app. lia. }
    rewrite Htake.
    assert (Hext : Z.of_nat (List.length ext) = (n + offset (p st)) * 2 - length (p st)).
    { unfold ext. rewrite length_drop, repeat_length. lia. }
    exists (next_block (hooks st)). eexists. exists (rest ++ ext).
    rewrite <- Hat. split; [reflexivity|]. unfold free_fn.
    cbn [p hooks buffer offset length blocks avail next_block].
    split; [|repeat split; auto; rewrite length_app; lia].
    exists (next_block (hooks st)).
    cbn [p hooks buffer offset length blocks avail next_block].
    split; [reflexivity|]. split.
    { rewrite lookup_delete_ne by congruence. rewrite lookup_insert_eq.
      now rewrite app_assoc. }
    split; [rewrite !length_app; lia|].
    split; [lia|]. split; [|lia].
    intros q Hq.
    destruct (decide (b = q)) as [->|Hbq]; [apply lookup_delete_eq|].
    rewrite lookup_delete_ne by exact Hbq.
    rewrite lookup_insert_ne by lia. rewrite lookup_insert_ne by lia. apply Hfresh. lia.
Qed.

Lemma write_live K st pre rest b bs :
  live K st (pre ++ rest) -> buffer (p st) = Some b ->
  (List.length bs <= List.length rest)%nat ->
  exists st', write (b, Z.of_nat (List.length pre)) bs st = Some (tt, st')
    /\ live K st' (pre ++ bs ++ drop (List.length bs) rest) /\ p st' = p st.
Proof.
  intros (b0 & Hb & Hdata & Hlen & Hoff & Hfresh & Hfund & HK) Hb' Hfit.
  rewrite Hb in Hb'. injection Hb' as <-.
  unfold write. cbn [fst snd]. rewrite Hdata.
  destruct (Z.leb_spec 0 (Z.of_nat (List.length pre))) as [_|]; [|lia].
  rewrite Nat2Z.id.
  destruct (Nat.leb_spec (List.length pre + List.length bs) (List.length (pre ++ rest)))
    as [_|Hlt]; [|rewrite length_app in Hlt; lia].
  cbn [andb]. eexists. split; [reflexivity|].
  assert (Hnew : take (List.length pre) (pre ++ rest) ++ bs
                   ++ drop (List.length pre + List.length bs) (pre ++ rest)
                 = pre ++ bs ++ drop (List.length bs) rest).
  { rewrite take_app_length. f_equal. f_equal.
    rewrite <- drop_drop. now rewrite drop_app_length. }
  rewrite Hnew. split; [|reflexivity].
  exists b0. cbn [p hooks set_blocks blocks avail next_block].
  split; [exact Hb|]. split; [apply lookup_insert_eq|].
  split.
  { rewrite <- Hlen. rewrite !length_app, length_drop. lia. }
  split; [exact Hoff|]. split; [|split; assumption].
  intros q Hq. rewrite lookup_insert_ne; [now apply Hfresh|].
  intros ->. specialize (Hfresh q Hq). congruence.
Qed.

(** A request followed by a store of no more bytes than requested. *)
Lemma ensure_write K st pre n bs :
  at_end K st pre -> Z.of_nat (List.length bs) <= n ->
  Z.of_nat (List.length pre) + n <= K ->
  exists b st1 st2 rest,
    ensure n st = Some (Some (b, Z.of_nat (List.length pre)), st1)
    /\ write (b, Z.of_nat (List.length pre)) bs st1 = Some (tt, st2)
    /\ live K st2 (pre ++ bs ++ rest) /\ buffer (p st2) = Some b
    /\ offset (p st2) = Z.of_nat (List.length pre).
Proof.
  intros Hat Hbs Hfit.
  destruct (ensure_at_end K st pre n Hat ltac:(lia) Hfit)
    as (b & st1 & rest & He & Hlive & Hb & Hoff & Hroom).
  destruct (write_live K st1 pre rest b bs Hlive Hb ltac:(lia)) as (st2 & Hw & Hlive2 & Hp).
  exists b, st1, st2, (drop (List.length bs) rest).
  rewrite Hp. auto.
Qed.

Lemma first_nul_app (l r : list Z) :
  Forall (fun c => c <> 0) l -> first_nul (l ++ 0 :: r) = Some (List.length l).
Proof.
  induction 1 as [|c l Hc _ IH]; [reflexivity|].
  cbn [app first_nul List.length]. destruct (Z.eqb_spec c 0); [contradiction|].
  now rewrite IH.
Qed.

(** [p->offset = update(p)] after a value was printed. *)
Lemma update_pending K st pre out :
  pending K st pre out -> Forall (fun c => c <> 0) out ->
  exists st', (o ← update; set_offset o) st = Some (tt, st') /\ at_end K st' (pre ++ out).
Proof.
  intros (rest & (b & Hb & Hdata & Hlen & Hoff & Hfresh & Hfund & HK) & Ho) Hnz.
  rewrite bind_eq. unfold update. rewrite Hb. unfold strlen. cbn [fst snd]. rewrite Hdata.
  rewrite !length_app in Hlen. cbn [List.length] in Hlen.
  destruct (Z.leb_spec 0 (offset (p st))) as [_|]; [|lia].
  destruct (Z.leb_spec (offset (p st)) (Z.of_nat (List.length (pre ++ out ++ 0 :: rest))))
    as [_|Hlt]; [|rewrite !length_app in Hlt; cbn [List.length] in Hlt; lia].
  cbn [andb].
  set (k := (Z.to_nat (offset (p st)) - List.length pre)%nat).
  assert (Hdrop : drop (Z.to_nat (offset (p st))) (pre ++ out ++ 0 :: rest)
                  = drop k out ++ 0 :: rest).
  { replace (Z.to_nat (offset (p st))) with (List.length pre + k)%nat by (unfold k; lia).
    rewrite <- drop_drop, drop_app_length.
    rewrite drop_app_le by (unfold k; lia). reflexivity. }
  rewrite Hdrop, first_nul_app by (now apply Forall_drop).
  cbn [option_map]. rewrite length_drop.
  assert (Hsz : size_t (offset (p st) + Z.of_nat (List.length out - k))
                = Z.of_nat (List.length (pre ++ out))).
  { rewrite length_app. unfold size_t, SIZE_MAX in *. rewrite Z.mod_small; unfold k; lia. }
  rewrite Hsz. unfold set_offset. eexists. split; [reflexivity|].
  exists (0 :: rest). cbn [p hooks offset buffer length]. split; [|reflexivity].
  exists b. cbn [p hooks offset buffer length].
  rewrite <- app_assoc. repeat split; auto; try lia.
  - rewrite !length_app. cbn [List.length]. lia.
  - rewrite length_app. lia.
Qed.

(** [p->offset += len] over bytes just stored. *)
Lemma add_offset_live K st pre bs rest :
  live K st (pre ++ bs ++ rest) -> offset (p st) = Z.of_nat (List.length pre) ->
  exists st', add_offset (Z.of_nat (List.length bs)) st = Some (tt, st')
    /\ at_end K st' (pre ++ bs).
Proof.
  intros (b & Hb & Hdata & Hlen & Hoff & Hfresh & Hfund & HK) Ho.
  unfold add_offset. rewrite bind_eq. unfold get_offset, set_offset.
  rewrite !length_app in Hlen.
  assert (Hsz : size_t (offset (p st) + Z.of_nat (List.length bs))
                = Z.of_nat (List.length (pre ++ bs))).
  { rewrite length_app. unfold size_t, SIZE_MAX in *. rewrite Z.mod_small; lia. }
  rewrite Hsz. eexists. split; [reflexivity|].
  exists rest. cbn [p hooks offset buffer length]. split; [|reflexivity].
  exists b. cbn [p hooks offset buffer length].
  rewrite <- app_assoc. repeat split; auto; try lia.
  - rewrite !length_app. lia.
  - rewrite length_app. lia.
Qed.

End BufferedFacts.

(** * Properties of cJSON_Minify *)

Module MinifyFacts.
Import Minify.

(** ** Lexical shape of a text *)

Definition ws (c : Z) : Prop := c = 32 \/ c = 9 \/ c = 13 \/ c = 10.

(** A byte that is copied as it is, outside a string literal. *)
Definition plain (c : Z) : Prop := c <> 0 /\ ~ ws c /\ c <> 47 /\ c <> 34.

(** The body of a terminated string literal: bytes other than the quote and
    the backslash, and backslashes each followed by a byte. *)
Inductive body : text -> Prop :=
| body_nil : body []
| body_char c b : c <> 0 -> c <> 34 -> c <> 92 -> body b -> body (c :: b)
| body_escape e b : e <> 0 -> body b -> body (92 :: e :: b).

(** No star of [l] is followed by a slash. *)
Definition no_close (l : text) : Prop :=
  forall i, l !! i = Some 42 -> l !! S i <> Some 47.

(** [squeeze a b]: the text [a] is made of blanks, of line comments each
    ended by a line feed or by the end of the text, of closed block
    comments, of terminated string literals and of other bytes; [b] is [a]
    without the blanks and the comments. *)
Inductive squeeze : text -> text -> Prop :=
| squeeze_nil : squeeze [] []
| squeeze_ws w a b : ws w -> squeeze a b -> squeeze (w :: a) b
| squeeze_plain c a b : plain c -> squeeze a b -> squeeze (c :: a) (c :: b)
| squeeze_string s a b :
    body s -> squeeze a b -> squeeze (34 :: s ++ 34 :: a) (34 :: s ++ 34 :: b)
| squeeze_line cm a b :
    Forall (fun c => c <> 0 /\ c <> 10) cm ->
    match a with [] => True | c :: _ => c = 10 end ->
    squeeze a b -> squeeze (47 :: 47 :: cm ++ a) b
| squeeze_block cm a b :
    Forall (fun c => c <> 0) cm -> no_close (47 :: 42 :: cm ++ [42]) ->
    squeeze a b -> squeeze (47 :: 42 :: cm ++ 42 :: 47 :: a) b.

(** ** Cells *)

Lemma load_app (pre : list Z) (c : Z) (post : list Z) :
  load (pre ++ c :: post) (length pre) = Ok c.
Proof.
  unfold load. rewrite nth_error_app2 by lia. now rewrite Nat.sub_diag.
Qed.

Lemma load_app_next (pre : list Z) (c0 c : Z) (post : list Z) :
  load (pre ++ c0 :: c :: post) (S (length pre)) = Ok c.
Proof.
  unfold load. rewrite nth_error_app2 by lia.
  now replace (S (length pre) - length pre)%nat with 1%nat by lia.
Qed.

Lemma step_app (pre : list Z) (c : Z) (l : list Z) :
  pre ++ c :: l = (pre ++ [c]) ++ l /\ S (length pre) = length (pre ++ [c]).
Proof. rewrite <- app_assoc, length_app. cbn. split; [reflexivity|lia]. Qed.

(** Copying the byte under [json] to [into]: the bytes between the two
    indices shift, their number stays. *)
Lemma emit (out mid : list Z) (c : Z) (rest : list Z) :
  exists mid', length mid' = length mid
    /\ store (out ++ mid ++ c :: rest) (length out) c = Ok ((out ++ [c]) ++ mid' ++ rest).
Proof.
  unfold store.
  destruct (Nat.ltb_spec (length out) (length (out ++ mid ++ c :: rest))) as [_|H].
  2:{ rewrite !length_app in H. cbn [length] in H. destruct mid; cbn [length] in H; lia. }
  destruct mid as [|m mid].
  - exists []. split; [reflexivity|]. cbn [app].
    rewrite insert_app_r_alt by lia. rewrite Nat.sub_diag. cbn.
    now rewrite <- app_assoc.
  - exists (mid ++ [c]). split; [rewrite length_app; cbn [length]; lia|]. cbn [app].
    rewrite insert_app_r_alt by lia. rewrite Nat.sub_diag. cbn.
    now rewrite <- !app_assoc.
Qed.

(** ** The inner loops *)

Lemma skip_line_comment_spec (cm : text) : forall fuel pre post,
  Forall (fun c => c <> 0 /\ c <> 10) cm ->
  match post with [] => False | c :: _ => c = 0 \/ c = 10 end ->
  (length cm < fuel)%nat ->
  skip_line_comment fuel (pre ++ cm ++ post) (length pre) = Ok (length pre + length cm)%nat.
Proof.
  induction cm as [|c cm IH]; intros fuel pre post Hcm Hpost Hfuel;
    (destruct fuel as [|fuel]; [lia|]); cbn [skip_line_comment app length].
  - destruct post as [|c post]; [contradiction|]. rewrite load_app. cbn [bind].
    destruct Hpost as [-> | ->]; cbn; f_equal; lia.
  - rewrite load_app. cbn [bind]. apply Forall_cons in Hcm as ((H0 & H10) & Hcm).
    destruct (Z.eqb_spec c 0); [contradiction|]. destruct (Z.eqb_spec c 10); [contradiction|].
    cbn [negb andb].
    replace (pre ++ c :: cm ++ post) with ((pre ++ [c]) ++ cm ++ post)
      by (now rewrite <- app_assoc).
    replace (S (length pre)) with (length (pre ++ [c])) by (rewrite length_app; cbn; lia).
    rewrite IH by (auto; cbn [length] in *; lia).
    rewrite length_app. cbn [length]. f_equal. lia.
Qed.

Lemma no_close_tail (c : Z) (l : text) : no_close (c :: l) -> no_close l.
Proof. intros H i Hi. apply (H (S i)). exact Hi. Qed.

Lemma skip_block_comment_spec (l : text) : forall fuel pre post,
  Forall (fun c => c <> 0) l -> no_close (l ++ [42]) ->
  (length l < fuel)%nat ->
  skip_block_comment fuel (pre ++ l ++ 42 :: 47 :: post) (length pre)
  = Ok (length pre + length l)%nat.
Proof.
  induction l as [|c l IH]; intros fuel pre post Hl Hnc Hfuel;
    (destruct fuel as [|fuel]; [lia|]); cbn [skip_block_comment app length].
  - rewrite load_app. cbn [bind Z.eqb Pos.eqb].
    rewrite load_app_next. cbn [bind Z.eqb Pos.eqb]. f_equal. lia.
  - rewrite load_app. cbn [bind]. apply Forall_cons in Hl as (H0 & Hl).
    destruct (Z.eqb_spec c 0); [contradiction|].
    assert (Hnext : exists c1 post1, l ++ 42 :: 47 :: post = c1 :: post1
                                     /\ (c = 42 -> c1 <> 47)).
    { destruct l as [|c1 l]; cbn [app].
      - eexists _, _. split; [reflexivity|]. intros _. discriminate.
      - eexists _, _. split; [reflexivity|]. intros ->.
        intros ->. apply (Hnc 0%nat); reflexivity. }
    destruct Hnext as (c1 & post1 & Hshape & Hc1). rewrite Hshape.
    assert (Hclosing : (if c =? 42 then let* c2 := load (pre ++ c :: c1 :: post1)
                                                      (S (length pre)) in Ok (c2 =? 47)
                        else Ok false) = Ok false).
    { destruct (Z.eqb_spec c 42) as [E|_]; [|reflexivity].
      rewrite load_app_next. cbn [bind]. destruct (Z.eqb_spec c1 47); [|reflexivity].
      now apply Hc1 in E. }
    rewrite Hclosing. cbn [bind]. rewrite <- Hshape.
    destruct (step_app pre c (l ++ 42 :: 47 :: post)) as (-> & ->).
    rewrite (IH fuel (pre ++ [c]) post Hl (no_close_tail c _ Hnc)
               ltac:(cbn [length] in *; lia)).
    rewrite length_app. cbn [length]. f_equal. lia.
Qed.

(** ** The buffer during the run

    The buffer is [out ++ mid ++ rest]: [out] is what was written, [rest]
    what is still to be read, [mid] the cells in between; [into] is the
    length of [out] and [json] the length of [out ++ mid]. *)

Lemma load_conf (out mid : list Z) (c : Z) (rest : list Z) (json : nat) :
  json = (length out + length mid)%nat -> load (out ++ mid ++ c :: rest) json = Ok c.
Proof.
  intros ->. rewrite app_assoc. rewrite <- length_app. apply load_app.
Qed.

Lemma load_conf_next (out mid : list Z) (c0 c : Z) (rest : list Z) (json : nat) :
  json = (length out + length mid)%nat ->
  load (out ++ mid ++ c0 :: c :: rest) (S json) = Ok c.
Proof.
  intros ->. rewrite app_assoc. rewrite <- length_app. apply load_app_next.
Qed.

Lemma emit_at (out mid : list Z) (c : Z) (rest : list Z) (into : nat) :
  into = length out ->
  exists mid', length mid' = length mid
    /\ store (out ++ mid ++ c :: rest) into c = Ok ((out ++ [c]) ++ mid' ++ rest).
Proof. intros ->. apply emit. Qed.

Ltac conf_eq :=
  f_equal; apply pair_equal_spec; split;
  [apply pair_equal_spec; split; [rewrite <- ?app_assoc; reflexivity|lia]|lia].

Lemma copy_string_stop (t : Z) (s : text) : t = 0 \/ t = 34 -> body s ->
  forall fuel out mid a json into,
    json = (length out + length mid)%nat -> into = length out -> (length s < fuel)%nat ->
    exists mid', length mid' = length mid
      /\ copy_string fuel (out ++ mid ++ s ++ t :: a) json into
         = Ok ((out ++ s) ++ mid' ++ t :: a, (json + length s)%nat, (into + length s)%nat).
Proof.
  intros Ht.
  induction 1 as [|c b H0 H34 H92 _ IH|e b He _ IH]; intros fuel out mid a json into Hj Hi Hf;
    (destruct fuel as [|fuel]; [lia|]); cbn [copy_string app length] in *.
  - rewrite (load_conf out mid t a json Hj). cbn [bind].
    assert (Hstop : negb (t =? 0) && negb (t =? 34) = false) by (destruct Ht as [-> | ->]; reflexivity).
    rewrite Hstop. exists mid. split; [reflexivity|]. rewrite app_nil_r. conf_eq.
  - rewrite (load_conf out mid c _ json Hj). cbn [bind].
    destruct (Z.eqb_spec c 0); [contradiction|]. destruct (Z.eqb_spec c 34); [contradiction|].
    destruct (Z.eqb_spec c 92); [contradiction|]. cbn [negb andb bind].
    rewrite (load_conf out mid c _ json Hj). cbn [bind].
    destruct (emit_at out mid c (b ++ t :: a) into Hi) as (mid1 & Hm1 & ->). cbn [bind].
    destruct (IH fuel (out ++ [c]) mid1 a (S json) (S into)) as (mid' & Hm' & ->).
    { rewrite length_app; cbn [length]; lia. }
    { rewrite length_app; cbn [length]; lia. }
    { lia. }
    exists mid'. split; [lia|]. conf_eq.
  - rewrite (load_conf out mid 92 _ json Hj). cbn [bind Z.eqb Pos.eqb negb andb].
    destruct (emit_at out mid 92 (e :: b ++ t :: a) into Hi) as (mid1 & Hm1 & ->).
    cbn [bind].
    rewrite (load_conf (out ++ [92]) mid1 e _ (S json))
      by (rewrite length_app; cbn [length]; lia).
    cbn [bind].
    destruct (emit_at (out ++ [92]) mid1 e (b ++ t :: a) (S into)) as (mid2 & Hm2 & ->);
      [rewrite length_app; cbn [length]; lia|]. cbn [bind].
    destruct (IH fuel ((out ++ [92]) ++ [e]) mid2 a (S (S json)) (S (S into)))
      as (mid' & Hm' & ->);
      [rewrite !length_app; cbn [length]; lia|rewrite !length_app; cbn [length]; lia|lia|].
    exists mid'. split; [lia|]. conf_eq.
Qed.

Lemma copy_string_spec (s : text) : body s ->
  forall fuel out mid a json into,
    json = (length out + length mid)%nat -> into = length out -> (length s < fuel)%nat ->
    exists mid', length mid' = length mid
      /\ copy_string fuel (out ++ mid ++ s ++ 34 :: a) json into
         = Ok ((out ++ s) ++ mid' ++ 34 :: a, (json + length s)%nat, (into + length s)%nat).
Proof. apply copy_string_stop. now right. Qed.

Lemma not_ws_tests (c : Z) :
  ~ ws c -> (c =? 32) = false /\ (c =? 9) = false /\ (c =? 13) = false /\ (c =? 10) = false.
Proof.
  unfold ws. intros H. repeat split; apply Z.eqb_neq; intros ->; apply H; auto.
Qed.

(** The main loop on a text of the shape [squeeze] describes. *)
Lemma minify_loop_squeeze (a b : text) : squeeze a b ->
  forall fuel out mid json into,
    json = (length out + length mid)%nat -> into = length out -> (length a < fuel)%nat ->
    exists tail, minify_loop fuel (out ++ mid ++ a ++ [0]) json into
                 = Ok (out ++ b ++ 0 :: tail).
Proof.
  induction 1 as [|w a b Hw _ IH|c a b Hc _ IH|s a b Hs _ IH|cm a b Hcm Ha _ IH
                 |cm a b Hcm Hnc _ IH];
    intros fuel out mid json into Hj Hi Hf;
    (destruct fuel as [|fuel]; [lia|]); cbn [minify_loop app length] in *.
  - rewrite (load_conf out mid 0 [] json Hj). cbn [bind Z.eqb].
    destruct (emit_at out mid 0 [] into Hi) as (mid' & _ & ->).
    exists (mid' ++ []). now rewrite <- app_assoc.
  - rewrite (load_conf out mid w _ json Hj). cbn [bind].
    assert (Hnext : exists tail, minify_loop fuel (out ++ mid ++ w :: a ++ [0]) (S json) into
                                 = Ok (out ++ b ++ 0 :: tail)).
    { destruct (IH fuel out (mid ++ [w]) (S json) into) as (tail & Ht);
        [rewrite length_app; cbn [length]; lia|exact Hi|lia|].
      exists tail. rewrite <- Ht. now rewrite <- app_assoc. }
    destruct Hw as [-> | [-> | [-> | ->]]]; exact Hnext.
  - rewrite (load_conf out mid c _ json Hj). cbn [bind].
    destruct Hc as (H0 & Hnws & H47 & H34).
    destruct (not_ws_tests c Hnws) as (E1 & E2 & E3 & E4).
    destruct (Z.eqb_spec c 0); [contradiction|]. rewrite E1, E2, E3, E4.
    unfold slash_then. rewrite (load_conf out mid c _ json Hj). cbn [bind].
    destruct (Z.eqb_spec c 47); [contradiction|]. cbn [bind].
    destruct (Z.eqb_spec c 34); [contradiction|].
    destruct (emit_at out mid c (a ++ [0]) into Hi) as (mid1 & Hm1 & ->). cbn [bind].
    destruct (IH fuel (out ++ [c]) mid1 (S json) (S into)) as (tail & ->);
      [rewrite length_app; cbn [length]; lia|rewrite length_app; cbn [length]; lia|lia|].
    exists tail. now rewrite <- app_assoc.
  - rewrite (load_conf out mid 34 _ json Hj). cbn [bind Z.eqb Pos.eqb].
    unfold slash_then. rewrite (load_conf out mid 34 _ json Hj). cbn [bind Z.eqb Pos.eqb].
    destruct (emit_at out mid 34 ((s ++ 34 :: a) ++ [0]) into Hi) as (mid1 & Hm1 & ->).
    cbn [bind]. rewrite <- (app_assoc s). cbn [app].
    set (buf1 := (out ++ [34]) ++ mid1 ++ s ++ 34 :: a ++ [0]).
    destruct (copy_string_spec s Hs (length buf1) (out ++ [34]) mid1 (a ++ [0])
                (S json) (S into)) as (mid2 & Hm2 & Hcopy);
      [rewrite length_app; cbn [length]; lia|rewrite length_app; cbn [length]; lia| |].
    { unfold buf1. rewrite !length_app. cbn [length]. rewrite length_app. lia. }
    fold buf1 in Hcopy. rewrite Hcopy. cbn [bind].
    rewrite (load_conf ((out ++ [34]) ++ s) mid2 34 _ (S json + length s))
      by (rewrite !length_app; cbn [length]; lia).
    cbn [bind].
    destruct (emit_at ((out ++ [34]) ++ s) mid2 34 (a ++ [0]) (S into + length s))
      as (mid3 & Hm3 & ->); [rewrite !length_app; cbn [length]; lia|]. cbn [bind].
    destruct (IH fuel (((out ++ [34]) ++ s) ++ [34]) mid3
                (S (S json + length s)) (S (S into + length s))) as (tail & ->);
      [rewrite !length_app; cbn [length]; lia|rewrite !length_app; cbn [length]; lia| |].
    { rewrite length_app in Hf. cbn [length] in Hf. lia. }
    exists tail. rewrite <- !app_assoc. reflexivity.
  - rewrite (load_conf out mid 47 _ json Hj). cbn [bind Z.eqb Pos.eqb].
    unfold slash_then at 1. rewrite (load_conf out mid 47 _ json Hj).
    cbn [bind Z.eqb Pos.eqb]. rewrite (load_conf_next out mid 47 47 _ json Hj).
    cbn [bind Z.eqb Pos.eqb].
    set (buf := out ++ mid ++ 47 :: 47 :: (cm ++ a) ++ [0]).
    assert (Hskip : skip_line_comment (length buf) buf json
                    = Ok (json + S (S (length cm)))%nat).
    { unfold buf. rewrite app_assoc. rewrite <- (app_assoc cm).
      change (47 :: 47 :: cm ++ a ++ [0]) with ((47 :: 47 :: cm) ++ a ++ [0]).
      rewrite Hj, <- length_app. apply skip_line_comment_spec.
      - repeat constructor; try discriminate. exact Hcm.
      - destruct a as [|c a]; cbn [app]; auto.
      - rewrite !length_app. cbn [length]. lia. }
    rewrite Hskip. cbn [bind].
    destruct (IH fuel out (mid ++ 47 :: 47 :: cm) (json + S (S (length cm)))%nat into)
      as (tail & Ht); [rewrite length_app; cbn [length]; lia|exact Hi| |].
    { rewrite length_app in Hf. lia. }
    exists tail. rewrite <- Ht. unfold buf. rewrite <- !app_assoc. reflexivity.
  - rewrite (load_conf out mid 47 _ json Hj). cbn [bind Z.eqb Pos.eqb].
    unfold slash_then. rewrite (load_conf out mid 47 _ json Hj).
    cbn [bind Z.eqb Pos.eqb]. rewrite (load_conf_next out mid 47 42 _ json Hj).
    cbn [bind Z.eqb Pos.eqb].
    set (buf := out ++ mid ++ 47 :: 42 :: (cm ++ 42 :: 47 :: a) ++ [0]).
    assert (Hskip : skip_block_comment (length buf) buf json
                    = Ok (json + S (S (length cm)))%nat).
    { unfold buf. rewrite app_assoc. rewrite <- (app_assoc cm). cbn [app].
      change (47 :: 42 :: cm ++ 42 :: 47 :: a ++ [0])
        with ((47 :: 42 :: cm) ++ 42 :: 47 :: a ++ [0]).
      rewrite Hj, <- length_app. apply skip_block_comment_spec.
      - repeat constructor; try discriminate. exact Hcm.
      - exact Hnc.
      - rewrite !length_app. cbn [length]. rewrite length_app. cbn [length]. lia. }
    rewrite Hskip. cbn [bind].
    destruct (IH fuel out (mid ++ 47 :: 42 :: cm ++ [42; 47])
                (json + S (S (length cm)) + 2)%nat into)
      as (tail & Ht); [|exact Hi| |].
    { rewrite length_app. cbn [length]. rewrite length_app. cbn [length]. lia. }
    { rewrite length_app in Hf. cbn [length] in Hf. lia. }
    exists tail. rewrite <- Ht. unfold buf. f_equal.
    rewrite <- !app_assoc. cbn [app]. rewrite <- !app_assoc. reflexivity.
Qed.

Lemma squeeze_nonzero (a b : text) : squeeze a b -> Forall (fun c => c <> 0) b.
Proof.
  induction 1 as [|w a b Hw _ IH|c a b Hc _ IH|s a b Hs _ IH|cm a b Hcm Ha _ IH
                 |cm a b Hcm Hnc _ IH]; auto.
  - constructor; [apply Hc|exact IH].
  - constructor; [discriminate|]. apply Forall_app. split.
    + clear -Hs. induction Hs; repeat constructor; auto.
    + constructor; [discriminate|exact IH].
Qed.

Lemma c_string_app (b tail : text) :
  Forall (fun c => c <> 0) b -> c_string (b ++ 0 :: tail) = b.
Proof.
  induction 1 as [|c b Hc _ IH]; [reflexivity|]. cbn [app c_string].
  destruct (Z.eqb_spec c 0); [contradiction|]. now rewrite IH.
Qed.

Lemma minify_squeeze (a b : text) : squeeze a b -> cJSON_Minify a = Ok b.
Proof.
  intros H. unfold cJSON_Minify.
  destruct (minify_loop_squeeze a b H (S (length a)) [] [] 0%nat 0%nat eq_refl eq_refl
              ltac:(lia)) as (tail & Ht).
  cbn [app] in Ht. rewrite Ht. cbn [bind app].
  now rewrite (c_string_app b tail (squeeze_nonzero a b H)).
Qed.






(** ** Printed text *)

(** [spaced a b]: [a] is [b] with blanks added outside its string
    literals. *)
Inductive spaced : text -> text -> Prop :=
| spaced_nil : spaced [] []
| spaced_ws w a b : ws w -> spaced a b -> spaced (w :: a) b
| spaced_plain c a b : plain c -> spaced a b -> spaced (c :: a) (c :: b)
| spaced_string s a b :
    body s -> spaced a b -> spaced (34 :: s ++ 34 :: a) (34 :: s ++ 34 :: b).

Lemma spaced_squeeze (a b : text) : spaced a b -> squeeze a b.
Proof.
  induction 1;
    [apply squeeze_nil|apply squeeze_ws|apply squeeze_plain|apply squeeze_string]; auto.
Qed.

Lemma spaced_app (a b a' b' : text) :
  spaced a b -> spaced a' b' -> spaced (a ++ a') (b ++ b').
Proof.
  intros H H'. induction H as [|w a b Hw _ IH|c a b Hc _ IH|s a b Hs _ IH]; cbn [app].
  - exact H'.
  - now apply spaced_ws.
  - now apply spaced_plain.
  - rewrite <- !app_assoc. cbn [app]. now apply spaced_string.
Qed.

Lemma spaced_plain_text (l : text) : Forall plain l -> spaced l l.
Proof. induction 1; [apply spaced_nil|apply spaced_plain; auto]. Qed.

Lemma spaced_blank (l : text) : Forall ws l -> spaced l [].
Proof. induction 1; [apply spaced_nil|apply spaced_ws; auto]. Qed.

Lemma hex_char_cases v : 0 <= v < 16 ->
  48 <= hex_char v <= 57 \/ 97 <= hex_char v <= 102.
Proof. intros H. unfold hex_char. destruct (v <? 10) eqn:E; lia. Qed.

Lemma body_escape_copy (str : text) : cstr str -> body (escape_copy str).
Proof.
  induction 1 as [|c str Hc _ IH]; [constructor|].
  cbn [escape_copy].
  destruct ((31 <? c) && negb (c =? 34) && negb (c =? 92)) eqn:E.
  - apply andb_true_iff in E as (E & E92). apply andb_true_iff in E as (E31 & E34).
    apply negb_true_iff, Z.eqb_neq in E92, E34. constructor; auto; lia.
  - assert (Hesc : forall e, e <> 0 -> body (92 :: [e] ++ escape_copy str))
      by (intros e He; cbn [app]; now constructor).
    destruct (c =? 92); [apply Hesc; lia|].
    destruct (c =? 34); [apply Hesc; lia|].
    destruct (c =? 8); [apply Hesc; lia|].
    destruct (c =? 12); [apply Hesc; lia|].
    destruct (c =? 10); [apply Hesc; lia|].
    destruct (c =? 13); [apply Hesc; lia|].
    destruct (c =? 9); [apply Hesc; lia|].
    unfold sprintf_04x. cbn [app].
    assert (H1 := hex_char_cases (c / 4096 mod 16) ltac:(apply Z.mod_pos_bound; lia)).
    assert (H2 := hex_char_cases (c / 256 mod 16) ltac:(apply Z.mod_pos_bound; lia)).
    assert (H3 := hex_char_cases (c / 16 mod 16) ltac:(apply Z.mod_pos_bound; lia)).
    assert (H4 := hex_char_cases (c mod 16) ltac:(apply Z.mod_pos_bound; lia)).
    apply body_escape; [lia|]. repeat (apply body_char; [lia|lia|lia|]). exact IH.
Qed.

Lemma spaced_string_literal (str : text) :
  cstr str -> spaced (print_string_ptr (Some str)) (print_string_ptr (Some str)).
Proof.
  intros Hc. rewrite print_string_ptr_escaped by exact Hc.
  apply (spaced_string (escape_copy str) [] []); [now apply body_escape_copy|constructor].
Qed.

(** The bytes [sprintf] produces for a number. *)
Definition numeric (c : Z) : Prop :=
  is_digit c = true \/ c = 45 \/ c = 43 \/ c = 46 \/ c = 101.

Lemma numeric_plain c : numeric c -> plain c.
Proof.
  unfold numeric, plain, ws. intros [H|H]; [apply is_digit_range in H|]; lia.
Qed.

Lemma numeric_digits (l : text) : Forall (fun c => is_digit c = true) l -> Forall numeric l.
Proof. intros H. eapply Forall_impl; [exact H|]. intros c Hc. now left. Qed.

Lemma numeric_dec_digits n : Forall numeric (dec_digits n).
Proof. apply numeric_digits, dec_digits_digits. Qed.

Lemma numeric_dec_pad w n : Forall numeric (dec_pad w n).
Proof. apply numeric_digits, dec_pad_digits. Qed.

Lemma numeric_text (l : text) :
  forallb (fun c => is_digit c || (c =? 45) || (c =? 43) || (c =? 46) || (c =? 101)) l = true ->
  Forall numeric l.
Proof.
  intros H. apply Forall_forall. intros c Hc.
  rewrite forallb_forall in H. specialize (H c ltac:(now apply list_elem_of_In)).
  unfold numeric. repeat (apply orb_true_iff in H as [H|H]); try apply Z.eqb_eq in H; auto 6.
Qed.

Lemma numeric_sign_chars d : Forall numeric (sign_chars d).
Proof. unfold sign_chars. destruct (sign_of d); now apply numeric_text. Qed.

Lemma numeric_sprintf_d v : Forall numeric (sprintf_d v).
Proof.
  unfold sprintf_d. destruct (v <? 0).
  - apply (Forall_app _ [45]). split; [now apply numeric_text|apply numeric_dec_digits].
  - apply numeric_dec_digits.
Qed.

Lemma numeric_sprintf_f p d : Forall numeric (sprintf_f p d).
Proof.
  unfold sprintf_f. destruct (magnitude d) as [n dn].
  apply Forall_app. split; [apply numeric_sign_chars|].
  apply Forall_app. split; [apply numeric_dec_digits|].
  destruct p; [constructor|].
  apply (Forall_app _ [46]). split; [now apply numeric_text|apply numeric_dec_pad].
Qed.

Lemma numeric_sprintf_e d : Forall numeric (sprintf_e d).
Proof.
  unfold sprintf_e. destruct (magnitude d) as [n dn].
  destruct (n =? 0).
  - apply Forall_app. split; [apply numeric_sign_chars|now apply numeric_text].
  - match goal with |- context [if ?b then (1000000, _) else _] => destruct b end.
    + apply Forall_app. split; [apply numeric_sign_chars|].
      apply Forall_app. split; [apply numeric_dec_digits|].
      apply (Forall_app _ [46]). split; [now apply numeric_text|].
      apply Forall_app. split; [apply numeric_dec_pad|].
      apply (Forall_app _ [101; _]). split; [|apply numeric_dec_pad].
      destruct (_ <? 0); now apply numeric_text.
    + apply Forall_app. split; [apply numeric_sign_chars|].
      apply Forall_app. split; [apply numeric_dec_digits|].
      apply (Forall_app _ [46]). split; [now apply numeric_text|].
      apply Forall_app. split; [apply numeric_dec_pad|].
      apply (Forall_app _ [101; _]). split; [|apply numeric_dec_pad].
      destruct (_ <? 0); now apply numeric_text.
Qed.

Lemma plain_print_number d : Forall plain (print_number d).
Proof.
  unfold print_number. destruct (number_format_of d).
  - repeat (apply List.Forall_cons; [unfold plain, ws; lia|]). apply List.Forall_nil.
  - eapply Forall_impl; [apply numeric_sprintf_d|apply numeric_plain].
  - repeat (apply List.Forall_cons; [unfold plain, ws; lia|]). apply List.Forall_nil.
  - eapply Forall_impl; [apply numeric_sprintf_f|apply numeric_plain].
  - eapply Forall_impl; [apply numeric_sprintf_e|apply numeric_plain].
  - eapply Forall_impl; [apply numeric_sprintf_f|apply numeric_plain].
Qed.

Lemma spaced_sep_by (sep : text) : spaced sep [44] ->
  forall entries cs, Forall2 spaced entries cs -> spaced (sep_by sep entries) (sep_by [44] cs).
Proof.
  intros Hsep entries cs H. induction H as [|e c entries cs He Hes IH]; [apply spaced_nil|].
  destruct Hes as [|e' c' entries cs He' Hes]; [exact He|].
  change (spaced (e ++ sep ++ sep_by sep (e' :: entries))
                 (c ++ [44] ++ sep_by [44] (c' :: cs))).
  apply spaced_app; [exact He|]. apply spaced_app; [exact Hsep|exact IH].
Qed.

Lemma spaced_tabs (n : nat) : spaced (repeat 9 n) [].
Proof.
  apply spaced_blank. induction n; [apply List.Forall_nil|].
  apply List.Forall_cons; [unfold ws; lia|exact IHn].
Qed.

Lemma spaced_blank_l (a a' b : text) : spaced a [] -> spaced a' b -> spaced (a ++ a') b.
Proof. intros H H'. exact (spaced_app a [] a' b H H'). Qed.

Lemma spaced_blank_r (a a' b : text) : spaced a b -> spaced a' [] -> spaced (a ++ a') b.
Proof. intros H H'. rewrite <- (app_nil_r b). now apply spaced_app. Qed.

Lemma compose_object_cons fmt depth n i k names e entries :
  compose_object fmt depth n i (k :: names) (e :: entries)
  = (if fmt then repeat 9 depth else []) ++ k ++ 58 :: (if fmt then [9] else []) ++ e
      ++ (if negb (i =? n - 1)%nat then [44] else [])
      ++ (if fmt then [10] else [])
      ++ compose_object fmt depth n (S i) names entries.
Proof. reflexivity. Qed.

Lemma sep_by_cons2 (sep x y : text) (l : list text) :
  sep_by sep (x :: y :: l) = x ++ sep ++ sep_by sep (y :: l).
Proof. reflexivity. Qed.

Lemma spaced_compose_object (fmt : bool) (depth : nat) :
  forall (names entries cs : list text) n i,
  Forall (fun k => spaced k k) names -> Forall2 spaced entries cs ->
  length names = length entries -> n = (i + length entries)%nat ->
  spaced (compose_object fmt depth n i names entries)
         (sep_by [44] (map (fun kc => fst kc ++ 58 :: snd kc) (combine names cs))).
Proof.
  induction names as [|k names IH]; intros entries cs n i Hk H Hlen Hn.
  - apply spaced_nil.
  - destruct H as [|e c entries cs He Hes]; [discriminate|].
    injection Hlen as Hlen. apply Forall_cons in Hk as [Hk1 Hk2].
    cbn [length] in Hn.
    specialize (IH entries cs n (S i) Hk2 Hes Hlen ltac:(lia)).
    rewrite compose_object_cons. cbn [combine map fst snd].
    destruct Hes as [|e' c' entries cs He' Hes].
    + destruct names; [|discriminate]. cbn [compose_object combine map sep_by].
      subst n. cbn [length]. replace (i + 1 - 1)%nat with i by lia.
      rewrite Nat.eqb_refl. cbn [negb].
      apply spaced_blank_l; [destruct fmt; [apply spaced_tabs|apply spaced_nil]|].
      apply spaced_app; [exact Hk1|].
      apply spaced_plain; [unfold plain, ws; lia|].
      destruct fmt; cbn [app]; rewrite ?app_nil_r.
      * apply spaced_ws; [unfold ws; lia|]. apply spaced_blank_r; [exact He|].
        apply spaced_ws; [unfold ws; lia|apply spaced_nil].
      * exact He.
    + destruct names as [|k' names]; [discriminate|].
      cbn [combine map] in IH |- *. rewrite sep_by_cons2.
      cbn [length] in Hn.
      destruct (Nat.eqb_spec i (n - 1)); [lia|]. cbn [negb].
      apply spaced_blank_l; [destruct fmt; [apply spaced_tabs|apply spaced_nil]|].
      rewrite <- app_assoc. apply spaced_app; [exact Hk1|].
      cbn [app]. apply spaced_plain; [unfold plain, ws; lia|].
      destruct fmt; cbn [app] in IH |- *.
      * apply spaced_ws; [unfold ws; lia|]. apply spaced_app; [exact He|].
        apply spaced_plain; [unfold plain, ws; lia|].
        apply spaced_ws; [unfold ws; lia|]. exact IH.
      * apply spaced_app; [exact He|].
        apply spaced_plain; [unfold plain, ws; lia|]. exact IH.
Qed.

Lemma strings_ok_items (items : list json) :
  strings_ok (JArray items) -> Forall strings_ok items.
Proof.
  cbn [strings_ok]. induction items as [|i items IH]; cbn [fold_right];
    [intros _; apply List.Forall_nil|].
  intros [Hi H]. apply List.Forall_cons; auto.
Qed.

Lemma strings_ok_members (members : list (text * json)) :
  strings_ok (JObject members) ->
  Forall (fun m => cstr (fst m) /\ strings_ok (snd m)) members.
Proof.
  cbn [strings_ok]. induction members as [|m members IH]; cbn [fold_right];
    [intros _; apply List.Forall_nil|].
  intros [Hm H]. apply List.Forall_cons; auto.
Qed.

Lemma print_spaced (j : json) : strings_ok j -> forall k depth fmt,
  exists out, print_value (node_of k j) depth fmt = Some out /\ spaced out (compact j).
Proof.
  induction j as [| | |d|s|items IH|members IH] using json_induction;
    intros Hok k depth fmt.
  - eexists. split; [reflexivity|]. apply spaced_plain_text.
    repeat (apply List.Forall_cons; [unfold plain, ws; lia|]). apply List.Forall_nil.
  - eexists. split; [reflexivity|]. apply spaced_plain_text.
    repeat (apply List.Forall_cons; [unfold plain, ws; lia|]). apply List.Forall_nil.
  - eexists. split; [reflexivity|]. apply spaced_plain_text.
    repeat (apply List.Forall_cons; [unfold plain, ws; lia|]). apply List.Forall_nil.
  - eexists. split; [reflexivity|]. apply spaced_plain_text, plain_print_number.
  - eexists. split; [reflexivity|]. now apply spaced_string_literal.
  - apply strings_ok_items in Hok.
    assert (He : exists entries,
      Forall2 (fun i e => print_value (node_of None i) (S depth) fmt = Some e) items entries
      /\ Forall2 spaced entries (map compact items)).
    { clear k. induction IH as [|i items Hi _ IHl].
      - exists []. split; constructor.
      - inversion Hok as [|? ? Hi1 Hi2]; subst.
        destruct (Hi Hi1 None (S depth) fmt) as (e & He & Hs).
        destruct (IHl Hi2) as (es & Hes & Hss).
        exists (e :: es). split; constructor; auto. }
    destruct He as (entries & Hp & Hs).
    cbn [node_of print_value compact]. unfold print_array_of.
    rewrite !length_map, map_map. rewrite (collect_Forall2 _ _ _ Hp).
    pose proof (Forall2_length _ _ _ Hp) as Hlen.
    destruct items as [|i items].
    + eexists. split; [reflexivity|]. apply spaced_plain_text.
      repeat (apply List.Forall_cons; [unfold plain, ws; lia|]). apply List.Forall_nil.
    + cbn [length]. eexists. split; [reflexivity|].
      rewrite compose_array_layout by (cbn [length] in *; lia).
      apply spaced_plain; [unfold plain, ws; lia|].
      apply spaced_app.
      * apply spaced_sep_by; [|exact Hs].
        apply spaced_plain; [unfold plain, ws; lia|].
        destruct fmt; [apply spaced_ws; [unfold ws; lia|]|]; apply spaced_nil.
      * apply spaced_plain; [unfold plain, ws; lia|apply spaced_nil].
  - apply strings_ok_members in Hok.
    assert (He : exists entries,
      Forall2 (fun m e => print_value (node_of (Some (fst m)) (snd m)) (S depth) fmt = Some e)
              members entries
      /\ Forall2 spaced entries (map (fun m => compact (snd m)) members)).
    { clear k. induction IH as [|m members Hm _ IHl].
      - exists []. split; constructor.
      - inversion Hok as [|? ? Hm1 Hm2]; subst.
        destruct (Hm (proj2 Hm1) (Some (fst m)) (S depth) fmt) as (e & He & Hs).
        destruct (IHl Hm2) as (es & Hes & Hss).
        exists (e :: es). split; constructor; auto. }
    destruct He as (entries & Hp & Hs).
    cbn [node_of print_value compact]. unfold print_object_of.
    rewrite !length_map, !map_map. rewrite (collect_Forall2 _ _ _ Hp).
    pose proof (Forall2_length _ _ _ Hp) as Hlen.
    destruct members as [|m members].
    + eexists. split; [reflexivity|].
      apply spaced_plain; [unfold plain, ws; lia|].
      apply (spaced_app _ [] _ [125]).
      * destruct fmt; [apply spaced_ws; [unfold ws; lia|apply spaced_tabs]|apply spaced_nil].
      * apply spaced_plain; [unfold plain, ws; lia|apply spaced_nil].
    + cbn [length]. eexists. split; [reflexivity|].
      apply spaced_plain; [unfold plain, ws; lia|].
      apply (spaced_app _ [] _ _).
      { destruct fmt; [apply spaced_ws; [unfold ws; lia|]|]; apply spaced_nil. }
      apply spaced_app.
      * set (names := map (fun m0 => print_string_ptr (name_of (node_of (Some (fst m0)) (snd m0))))
                          (m :: members)).
        replace (map (fun m0 => print_string_ptr (Some (fst m0)) ++ 58 :: compact (snd m0))
                     (m :: members))
          with (map (fun kc => fst kc ++ 58 :: snd kc)
                    (combine names (map (fun m0 => compact (snd m0)) (m :: members)))).
        2:{ unfold names. rewrite combine_map, map_map. apply map_ext. intros a.
            cbn [fst snd]. now rewrite name_of_node_of. }
        apply spaced_compose_object; [|exact Hs| |cbn [length] in *; lia].
        -- unfold names. apply Forall_forall. intros x Hx.
           apply list_elem_of_In, in_map_iff in Hx as (m0 & <- & Hm0).
           rewrite name_of_node_of. apply spaced_string_literal.
           rewrite Forall_forall in Hok. apply (Hok m0). now apply list_elem_of_In.
        -- unfold names. rewrite length_map. exact Hlen.
      * apply (spaced_app _ [] _ [125]).
        -- destruct fmt; [apply spaced_tabs|apply spaced_nil].
        -- apply spaced_plain; [unfold plain, ws; lia|apply spaced_nil].
Qed.

(** X23: for a tree as the parser builds it whose strings and keys are C
    strings, both printers return a text, and [cJSON_Minify] turns the
    pretty text into the compact one and leaves the compact one as it
    is. *)
Theorem X23_minify_printed (j : json) (k : option text) :
  strings_ok j ->
  exists pretty,
    cJSON_Print (node_of k j) = Some pretty
    /\ cJSON_PrintUnformatted (node_of k j) = Some (compact j)
    /\ cJSON_Minify pretty = Ok (compact j)
    /\ cJSON_Minify (compact j) = Ok (compact j).
Proof.
  intros Hok.
  destruct (print_spaced j Hok k 0%nat true) as (pretty & Hp & Hs).
  destruct (print_spaced j Hok k 0%nat false) as (out & Hc & Hs').
  rewrite print_value_compact in Hc. injection Hc as <-.
  exists pretty. split; [exact Hp|]. split; [apply print_value_compact|].
  split; apply minify_squeeze; now apply spaced_squeeze.
Qed.

(** An object with a key that holds a blank, and an array with a number, a
    string that holds a comment opener and a quote, literals and an empty
    object. *)
Definition sample_value : json :=
  JObject [([97; 32; 98],
            JArray [JNumber (d_of_decimal false 25 (-1)); JString [47; 42; 34];
                    JTrue; JNull; JObject []])].

Lemma X23_minify_printed_witness :
  exists pretty,
    cJSON_Print (node_of None sample_value) = Some pretty
    /\ cJSON_PrintUnformatted (node_of None sample_value) = Some (compact sample_value)
    /\ cJSON_Minify pretty = Ok (compact sample_value)
    /\ cJSON_Minify (compact sample_value) = Ok (compact sample_value).
Proof.
  apply (X23_minify_printed sample_value None).
  cbn [strings_ok sample_value fold_right fst snd]. unfold cstr.
  repeat first [exact I | split | apply List.Forall_cons | apply List.Forall_nil | lia].
Defined.

(** ** Texts that end inside a comment or a string literal *)

(** [lead a b]: as [squeeze], for the beginning of a text: every line
    comment is ended by a line feed. *)
Inductive lead : text -> text -> Prop :=
| lead_nil : lead [] []
| lead_ws w a b : ws w -> lead a b -> lead (w :: a) b
| lead_plain c a b : plain c -> lead a b -> lead (c :: a) (c :: b)
| lead_string s a b :
    body s -> lead a b -> lead (34 :: s ++ 34 :: a) (34 :: s ++ 34 :: b)
| lead_line cm a b :
    Forall (fun c => c <> 0 /\ c <> 10) cm -> lead a b -> lead (47 :: 47 :: cm ++ 10 :: a) b
| lead_block cm a b :
    Forall (fun c => c <> 0) cm -> no_close (47 :: 42 :: cm ++ [42]) ->
    lead a b -> lead (47 :: 42 :: cm ++ 42 :: 47 :: a) b.

(** The end of a text inside a block comment, inside a string literal, or
    after the backslash of an escape. *)
Inductive unclosed : text -> Prop :=
| unclosed_block cm :
    Forall (fun c => c <> 0) cm -> no_close (47 :: 42 :: cm) -> unclosed (47 :: 42 :: cm)
| unclosed_string s : body s -> unclosed (34 :: s)
| unclosed_escape s : body s -> unclosed (34 :: s ++ [92]).

Lemma minify_loop_lead (a b : text) : lead a b ->
  forall rest fuel out mid json into,
    json = (length out + length mid)%nat -> into = length out ->
    exists mid' fuel', (fuel <= fuel')%nat
      /\ (length b + length mid' = length mid + length a)%nat
      /\ minify_loop (length a + fuel) (out ++ mid ++ a ++ rest) json into
         = minify_loop fuel' ((out ++ b) ++ mid' ++ rest)
             (json + length a) (into + length b).
Proof.
  induction 1 as [|w a b Hw _ IH|c a b Hc _ IH|s a b Hs _ IH|cm a b Hcm _ IH
                 |cm a b Hcm Hnc _ IH];
    intros rest fuel out mid json into Hj Hi.
  - exists mid, fuel. cbn [length app]. rewrite app_nil_r, !Nat.add_0_r.
    split; [lia|]. split; [lia|reflexivity].
  - cbn [length app Nat.add minify_loop].
    rewrite (load_conf out mid w _ json Hj). cbn [bind].
    destruct (IH rest fuel out (mid ++ [w]) (S json) into) as (mid' & fuel' & Hf & Hl & Ht);
      [rewrite length_app; cbn [length]; lia|exact Hi|].
    rewrite <- app_assoc in Ht. cbn [app] in Ht.
    assert (Hnext : exists mid' fuel', (fuel <= fuel')%nat
      /\ (length b + length mid' = length mid + S (length a))%nat
      /\ minify_loop (length a + fuel) (out ++ mid ++ w :: a ++ rest) (S json) into
         = minify_loop fuel' ((out ++ b) ++ mid' ++ rest) (json + S (length a)) (into + length b)).
    { exists mid', fuel'. rewrite length_app in Hl. cbn [length] in Hl.
      split; [exact Hf|]. split; [lia|]. rewrite Ht. f_equal. lia. }
    destruct Hw as [-> | [-> | [-> | ->]]]; exact Hnext.
  - cbn [length app Nat.add minify_loop].
    rewrite (load_conf out mid c _ json Hj). cbn [bind].
    destruct Hc as (H0 & Hnws & H47 & H34).
    destruct (not_ws_tests c Hnws) as (E1 & E2 & E3 & E4).
    destruct (Z.eqb_spec c 0); [contradiction|]. rewrite E1, E2, E3, E4.
    unfold slash_then. rewrite (load_conf out mid c _ json Hj). cbn [bind].
    destruct (Z.eqb_spec c 47); [contradiction|]. cbn [bind].
    destruct (Z.eqb_spec c 34); [contradiction|].
    destruct (emit_at out mid c (a ++ rest) into Hi) as (mid1 & Hm1 & ->). cbn [bind].
    destruct (IH rest fuel (out ++ [c]) mid1 (S json) (S into))
      as (mid' & fuel' & Hf & Hl & Ht);
      [rewrite length_app; cbn [length]; lia|rewrite length_app; cbn [length]; lia|].
    exists mid', fuel'. split; [exact Hf|]. split; [lia|]. rewrite Ht.
    rewrite <- (app_assoc out [c] b). cbn [app]. f_equal; lia.
  - replace (length (34%Z :: s ++ 34%Z :: a) + fuel)%nat
      with (S (length a + (fuel + S (length s))))
      by (cbn [length]; rewrite length_app; cbn [length]; lia).
    cbn [app minify_loop].
    rewrite (load_conf out mid 34 _ json Hj). cbn [bind Z.eqb Pos.eqb].
    unfold slash_then. rewrite (load_conf out mid 34 _ json Hj). cbn [bind Z.eqb Pos.eqb].
    destruct (emit_at out mid 34 ((s ++ 34 :: a) ++ rest) into Hi) as (mid1 & Hm1 & ->).
    cbn [bind]. rewrite <- (app_assoc s). cbn [app].
    set (buf1 := (out ++ [34]) ++ mid1 ++ s ++ 34 :: a ++ rest).
    destruct (copy_string_spec s Hs (length buf1) (out ++ [34]) mid1 (a ++ rest)
                (S json) (S into)) as (mid2 & Hm2 & Hcopy);
      [rewrite length_app; cbn [length]; lia|rewrite length_app; cbn [length]; lia| |].
    { unfold buf1. rewrite !length_app. cbn [length]. rewrite length_app. lia. }
    fold buf1 in Hcopy. rewrite Hcopy. cbn [bind].
    rewrite (load_conf ((out ++ [34]) ++ s) mid2 34 _ (S json + length s))
      by (rewrite !length_app; cbn [length]; lia).
    cbn [bind].
    destruct (emit_at ((out ++ [34]) ++ s) mid2 34 (a ++ rest) (S into + length s))
      as (mid3 & Hm3 & ->); [rewrite !length_app; cbn [length]; lia|]. cbn [bind].
    destruct (IH rest (fuel + S (length s))%nat (((out ++ [34]) ++ s) ++ [34]) mid3
                (S (S json + length s)) (S (S into + length s)))
      as (mid' & fuel' & Hf & Hl & Ht);
      [rewrite !length_app; cbn [length]; lia|rewrite !length_app; cbn [length]; lia|].
    exists mid', fuel'. split; [lia|].
    split; [cbn [length]; rewrite !length_app; cbn [length]; lia|].
    rewrite Ht. rewrite <- !app_assoc. cbn [app]. rewrite <- !app_assoc. cbn [app].
    f_equal; cbn [length]; rewrite !length_app; cbn [length]; lia.
  - replace (length (47%Z :: 47%Z :: cm ++ 10%Z :: a) + fuel)%nat
      with (S (S (length a + (fuel + S (length cm)))))
      by (cbn [length]; rewrite length_app; cbn [length]; lia).
    cbn [app]. cbn [minify_loop].
    rewrite (load_conf out mid 47 _ json Hj). cbn [bind Z.eqb Pos.eqb].
    unfold slash_then at 1. rewrite (load_conf out mid 47 _ json Hj).
    cbn [bind Z.eqb Pos.eqb]. rewrite (load_conf_next out mid 47 47 _ json Hj).
    cbn [bind Z.eqb Pos.eqb].
    set (buf := out ++ mid ++ 47 :: 47 :: (cm ++ 10 :: a) ++ rest).
    assert (Hskip : skip_line_comment (length buf) buf json
                    = Ok (json + S (S (length cm)))%nat).
    { unfold buf. rewrite app_assoc. rewrite <- (app_assoc cm).
      change (47 :: 47 :: cm ++ (10 :: a) ++ rest) with ((47 :: 47 :: cm) ++ 10 :: a ++ rest).
      rewrite Hj, <- length_app. apply skip_line_comment_spec.
      - repeat constructor; try discriminate. exact Hcm.
      - now right.
      - rewrite !length_app. cbn [length]. lia. }
    rewrite Hskip. cbn [bind].
    assert (Hbuf : buf = out ++ (mid ++ 47 :: 47 :: cm) ++ 10 :: a ++ rest).
    { unfold buf. rewrite <- !app_assoc. reflexivity. }
    rewrite Hbuf.
    rewrite (load_conf out (mid ++ 47 :: 47 :: cm) 10 _ (json + S (S (length cm))))
      by (rewrite length_app; cbn [length]; lia).
    cbn [bind Z.eqb Pos.eqb].
    destruct (IH rest (fuel + S (length cm))%nat out ((mid ++ 47 :: 47 :: cm) ++ [10])
                (S (json + S (S (length cm)))) into)
      as (mid' & fuel' & Hf & Hl & Ht);
      [rewrite !length_app; cbn [length]; lia|exact Hi|].
    rewrite <- (app_assoc _ [10]) in Ht. cbn [app] in Ht.
    exists mid', fuel'. split; [lia|].
    split; [rewrite !length_app in Hl; cbn [length] in *; rewrite length_app; cbn [length]; lia|].
    rewrite Ht. f_equal. cbn [length]. rewrite length_app. cbn [length]. lia.
  - replace (length (47%Z :: 42%Z :: cm ++ 42%Z :: 47%Z :: a) + fuel)%nat
      with (S (length a + (fuel + S (S (S (length cm))))))
      by (cbn [length]; rewrite length_app; cbn [length]; lia).
    cbn [app]. cbn [minify_loop].
    rewrite (load_conf out mid 47 _ json Hj). cbn [bind Z.eqb Pos.eqb].
    unfold slash_then. rewrite (load_conf out mid 47 _ json Hj).
    cbn [bind Z.eqb Pos.eqb]. rewrite (load_conf_next out mid 47 42 _ json Hj).
    cbn [bind Z.eqb Pos.eqb].
    set (buf := out ++ mid ++ 47 :: 42 :: (cm ++ 42 :: 47 :: a) ++ rest).
    assert (Hskip : skip_block_comment (length buf) buf json
                    = Ok (json + S (S (length cm)))%nat).
    { unfold buf. rewrite app_assoc. rewrite <- (app_assoc cm). cbn [app].
      change (47 :: 42 :: cm ++ 42 :: 47 :: a ++ rest)
        with ((47 :: 42 :: cm) ++ 42 :: 47 :: a ++ rest).
      rewrite Hj, <- length_app. apply skip_block_comment_spec.
      - repeat constructor; try discriminate. exact Hcm.
      - exact Hnc.
      - rewrite !length_app. cbn [length]. rewrite length_app. cbn [length]. lia. }
    rewrite Hskip. cbn [bind].
    destruct (IH rest (fuel + S (S (S (length cm))))%nat out (mid ++ 47 :: 42 :: cm ++ [42; 47])
                (json + S (S (length cm)) + 2)%nat into)
      as (mid' & fuel' & Hf & Hl & Ht); [|exact Hi|].
    { rewrite length_app. cbn [length]. rewrite length_app. cbn [length]. lia. }
    assert (Hbuf : buf = out ++ (mid ++ 47 :: 42 :: cm ++ [42; 47]) ++ a ++ rest).
    { unfold buf. f_equal. rewrite <- !app_assoc. cbn [app]. rewrite <- !app_assoc.
      reflexivity. }
    rewrite Hbuf, Ht.
    exists mid', fuel'. split; [lia|].
    split; [rewrite !length_app in Hl; cbn [length] in *; rewrite !length_app in *;
            cbn [length] in *; lia|].
    f_equal. cbn [length]. rewrite length_app. cbn [length]. lia.
Qed.

Lemma load_beyond (buf : list Z) (i : nat) : (length buf <= i)%nat -> load buf i = Fault.
Proof.
  intros H. unfold load. now rewrite (proj2 (nth_error_None buf i) H).
Qed.

Lemma skip_block_comment_open (l : text) : forall fuel pre,
  Forall (fun c => c <> 0) l -> no_close l -> (length l < fuel)%nat ->
  skip_block_comment fuel (pre ++ l ++ [0]) (length pre) = Ok (length pre + length l)%nat.
Proof.
  induction l as [|c l IH]; intros fuel pre Hl Hnc Hfuel;
    (destruct fuel as [|fuel]; [lia|]); cbn [skip_block_comment app length].
  - rewrite load_app. cbn [bind Z.eqb]. f_equal. lia.
  - rewrite load_app. cbn [bind]. apply Forall_cons in Hl as (H0 & Hl).
    destruct (Z.eqb_spec c 0); [contradiction|].
    assert (Hnext : exists c1 post1, l ++ [0] = c1 :: post1 /\ (c = 42 -> c1 <> 47)).
    { destruct l as [|c1 l]; cbn [app].
      - eexists _, _. split; [reflexivity|]. intros _. discriminate.
      - eexists _, _. split; [reflexivity|]. intros ->.
        intros ->. apply (Hnc 0%nat); reflexivity. }
    destruct Hnext as (c1 & post1 & Hshape & Hc1). rewrite Hshape.
    assert (Hclosing : (if c =? 42 then let* c2 := load (pre ++ c :: c1 :: post1)
                                                      (S (length pre)) in Ok (c2 =? 47)
                        else Ok false) = Ok false).
    { destruct (Z.eqb_spec c 42) as [E|_]; [|reflexivity].
      rewrite load_app_next. cbn [bind]. destruct (Z.eqb_spec c1 47); [|reflexivity].
      now apply Hc1 in E. }
    rewrite Hclosing. cbn [bind]. rewrite <- Hshape.
    destruct (step_app pre c (l ++ [0])) as (-> & ->).
    rewrite (IH fuel (pre ++ [c]) Hl (no_close_tail c _ Hnc) ltac:(cbn [length] in *; lia)).
    rewrite length_app. cbn [length]. f_equal. lia.
Qed.

(** The string loop on a body that ends with a backslash before the
    terminator: the terminator is copied as the escaped byte and the loop
    reads the cell behind it. *)
Lemma copy_string_dangling (s : text) : body s ->
  forall fuel out mid json into,
    json = (length out + length mid)%nat -> into = length out ->
    (S (length s) < fuel)%nat ->
    copy_string fuel (out ++ mid ++ s ++ [92; 0]) json into = Fault.
Proof.
  induction 1 as [|c b H0 H34 H92 _ IH|e b He _ IH]; intros fuel out mid json into Hj Hi Hf;
    (destruct fuel as [|fuel]; [lia|]); cbn [copy_string app length] in *.
  - rewrite (load_conf out mid 92 _ json Hj). cbn [bind Z.eqb Pos.eqb negb andb].
    destruct (emit_at out mid 92 [0] into Hi) as (mid1 & Hm1 & ->). cbn [bind].
    rewrite (load_conf (out ++ [92]) mid1 0 [] (S json))
      by (rewrite length_app; cbn [length]; lia).
    cbn [bind].
    destruct (emit_at (out ++ [92]) mid1 0 [] (S into)) as (mid2 & Hm2 & ->);
      [rewrite length_app; cbn [length]; lia|]. cbn [bind].
    destruct fuel as [|fuel]; [lia|]. cbn [copy_string].
    rewrite load_beyond; [reflexivity|].
    repeat (rewrite ?length_app; cbn [length]). lia.
  - rewrite (load_conf out mid c _ json Hj). cbn [bind].
    destruct (Z.eqb_spec c 0); [contradiction|]. destruct (Z.eqb_spec c 34); [contradiction|].
    destruct (Z.eqb_spec c 92); [contradiction|]. cbn [negb andb bind].
    rewrite (load_conf out mid c _ json Hj). cbn [bind].
    destruct (emit_at out mid c (b ++ [92; 0]) into Hi) as (mid1 & Hm1 & ->). cbn [bind].
    apply IH; [rewrite length_app; cbn [length]; lia|rewrite length_app; cbn [length]; lia|lia].
  - rewrite (load_conf out mid 92 _ json Hj). cbn [bind Z.eqb Pos.eqb negb andb].
    destruct (emit_at out mid 92 (e :: b ++ [92; 0]) into Hi) as (mid1 & Hm1 & ->).
    cbn [bind].
    rewrite (load_conf (out ++ [92]) mid1 e _ (S json))
      by (rewrite length_app; cbn [length]; lia).
    cbn [bind].
    destruct (emit_at (out ++ [92]) mid1 e (b ++ [92; 0]) (S into)) as (mid2 & Hm2 & ->);
      [rewrite length_app; cbn [length]; lia|]. cbn [bind].
    apply IH; [rewrite !length_app; cbn [length]; lia|rewrite !length_app; cbn [length]; lia|lia].
Qed.

Lemma minify_loop_unclosed (u : text) : unclosed u ->
  forall fuel out mid json into,
    json = (length out + length mid)%nat -> into = length out -> (2 <= fuel)%nat ->
    minify_loop fuel (out ++ mid ++ u ++ [0]) json into = Fault.
Proof.
  intros [cm Hcm Hnc|s Hs|s Hs] fuel out mid json into Hj Hi Hf;
    (destruct fuel as [|fuel]; [lia|]); cbn [minify_loop app].
  - rewrite (load_conf out mid 47 _ json Hj). cbn [bind Z.eqb Pos.eqb].
    unfold slash_then. rewrite (load_conf out mid 47 _ json Hj).
    cbn [bind Z.eqb Pos.eqb]. rewrite (load_conf_next out mid 47 42 _ json Hj).
    cbn [bind Z.eqb Pos.eqb].
    set (buf := out ++ mid ++ 47 :: 42 :: cm ++ [0]).
    assert (Hskip : skip_block_comment (length buf) buf json
                    = Ok (json + S (S (length cm)))%nat).
    { unfold buf. rewrite app_assoc.
      change (47 :: 42 :: cm ++ [0]) with ((47 :: 42 :: cm) ++ [0]).
      rewrite Hj, <- length_app. apply skip_block_comment_open.
      - repeat constructor; try discriminate. exact Hcm.
      - exact Hnc.
      - repeat (rewrite ?length_app; cbn [length]). lia. }
    rewrite Hskip. cbn [bind].
    destruct fuel as [|fuel]; [lia|]. cbn [minify_loop].
    rewrite load_beyond; [reflexivity|].
    unfold buf. repeat (rewrite ?length_app; cbn [length]). lia.
  - rewrite (load_conf out mid 34 _ json Hj). cbn [bind Z.eqb Pos.eqb].
    unfold slash_then. rewrite (load_conf out mid 34 _ json Hj). cbn [bind Z.eqb Pos.eqb].
    destruct (emit_at out mid 34 (s ++ [0]) into Hi) as (mid1 & Hm1 & ->).
    cbn [bind].
    set (buf1 := (out ++ [34]) ++ mid1 ++ s ++ [0]).
    destruct (copy_string_stop 0 s (or_introl eq_refl) Hs (length buf1) (out ++ [34]) mid1 []
                (S json) (S into)) as (mid2 & Hm2 & Hcopy);
      [rewrite length_app; cbn [length]; lia|rewrite length_app; cbn [length]; lia| |].
    { unfold buf1. repeat (rewrite ?length_app; cbn [length]). lia. }
    fold buf1 in Hcopy. rewrite Hcopy. cbn [bind].
    rewrite (load_conf ((out ++ [34]) ++ s) mid2 0 _ (S json + length s))
      by (rewrite !length_app; cbn [length]; lia).
    cbn [bind].
    destruct (emit_at ((out ++ [34]) ++ s) mid2 0 [] (S into + length s))
      as (mid3 & Hm3 & ->); [rewrite !length_app; cbn [length]; lia|]. cbn [bind].
    destruct fuel as [|fuel]; [lia|]. cbn [minify_loop].
    rewrite load_beyond; [reflexivity|].
    repeat (rewrite ?length_app; cbn [length]). lia.
  - rewrite (load_conf out mid 34 _ json Hj). cbn [bind Z.eqb Pos.eqb].
    unfold slash_then. rewrite (load_conf out mid 34 _ json Hj). cbn [bind Z.eqb Pos.eqb].
    destruct (emit_at out mid 34 ((s ++ [92]) ++ [0]) into Hi) as (mid1 & Hm1 & ->).
    cbn [bind]. rewrite <- (app_assoc s). cbn [app].
    rewrite (copy_string_dangling s Hs _ (out ++ [34]) mid1 (S json) (S into));
      [reflexivity|rewrite length_app; cbn [length]; lia|rewrite length_app; cbn [length]; lia|].
    repeat (rewrite ?length_app; cbn [length]). lia.
Qed.

Lemma minify_lead_unclosed (a b u : text) :
  lead a b -> unclosed u -> cJSON_Minify (a ++ u) = Fault.
Proof.
  intros Ha Hu. unfold cJSON_Minify.
  replace (S (length (a ++ u))) with (length a + S (length u))%nat
    by (rewrite length_app; lia).
  rewrite <- app_assoc.
  destruct (minify_loop_lead a b Ha (u ++ [0]) (S (length u)) [] [] 0%nat 0%nat
              eq_refl eq_refl) as (mid' & fuel' & Hf & Hl & Ht).
  cbn [app length] in Ht, Hl. rewrite Ht.
  rewrite (minify_loop_unclosed u Hu fuel' b mid'); [reflexivity|lia|lia|].
  destruct Hu; cbn [length] in Hf; lia.
Qed.

(** X24: on a buffer that holds a text and its terminator, [cJSON_Minify]
    reads a cell behind the terminator when the text ends inside a block
    comment, inside a string literal, or just after the backslash of an
    escape in a string literal. *)
Theorem X24_minify_unclosed (a b u : text) :
  lead a b -> unclosed u -> cJSON_Minify (a ++ u) = Fault.
Proof. intros Ha Hu. now apply (minify_lead_unclosed a b u). Qed.

Lemma lead_brace : lead [123; 32] [123].
Proof.
  apply lead_plain; [unfold plain, ws; lia|].
  apply lead_ws; [unfold ws; lia|]. apply lead_nil.
Qed.

Lemma unclosed_star : unclosed [47; 42; 120; 42].
Proof.
  apply (unclosed_block [120; 42]).
  - repeat (apply List.Forall_cons; [lia|]). apply List.Forall_nil.
  - intros i Hi.
    do 4 (destruct i as [|i]; [first [discriminate Hi|cbn; discriminate]|]).
    discriminate Hi.
Qed.

Lemma X24_minify_unclosed_witness : cJSON_Minify ([123; 32] ++ [47; 42; 120; 42]) = Fault.
Proof. apply (X24_minify_unclosed [123; 32] [123] [47; 42; 120; 42] lead_brace unclosed_star). Defined.

End MinifyFacts.

(** * Printing into a buffer gives the text of the unbuffered printer *)

Module BufferedPrint.
Import PrintBuffer BufferedFacts MinifyFacts.

Local Abbreviation len l := (Z.of_nat (List.length l)).

(** ** What a printing step leaves in the buffer *)

(** After [pre], the buffer holds [out] and its terminator; the returned
    pointer is into the buffer's block, at the start of [out] (or at the
    offset [depth], which [print_object] returns in pretty mode). *)
Definition printed (K : Z) (pre out : text) (depth : nat)
  (r : option Buffered.pointer) (st : Buffered.state) : Prop :=
  pending K st pre out
  /\ exists b i, r = Some (b, i) /\ buffer (Buffered.p st) = Some b
       /\ (i = len pre \/ i = Z.of_nat depth).

Definition emits (K : Z) (m : Buffered.M (option Buffered.pointer)) (depth : nat)
  (out : text) : Prop :=
  forall st pre, at_end K st pre -> len pre + len out + Z.of_nat depth + 64 <= K ->
    exists r st', m st = Some (r, st') /\ printed K pre out depth r st'.

Lemma at_end_bound K st pre : at_end K st pre -> 4 * K <= SIZE_MAX.
Proof. intros (rest & (b & _ & _ & _ & _ & _ & _ & H) & _). exact H. Qed.

Lemma strcpy_emits K n txt depth :
  len txt + 1 <= n <= len txt + 64 ->
  emits K (str ← Buffered.ensure n; Buffered.strcpy_to str txt) depth txt.
Proof.
  intros Hn st pre Hat Hfit.
  destruct (ensure_write K st pre n (txt ++ [0]) Hat)
    as (b & st1 & st2 & rest & He & Hw & Hlive & Hb & Ho);
    [rewrite length_app; cbn [List.length]; lia|lia|].
  exists (Some (b, len pre)), st2. split.
  - rewrite bind_eq, He. cbv beta iota. cbn [Buffered.strcpy_to]. unfold Buffered.strcpy.
    rewrite bind_eq, Hw. reflexivity.
  - split.
    + exists rest. rewrite <- app_assoc in Hlive. split; [exact Hlive|lia].
    + exists b, (len pre). auto.
Qed.

(** ** Numbers *)

(** The bytes [print_number] requests for a number. *)
Definition reserve (d : double) : Z :=
  match number_format_of d with
  | FmtZero => 2
  | FmtInt _ => 21
  | _ => 64
  end.

(** The text of the number and its terminator fit in the request. *)
Definition number_fits (d : double) : Prop := len (print_number d) < reserve d.

Lemma print_number_emits K d depth :
  number_fits d -> emits K (Buffered.print_number d) depth (print_number d).
Proof.
  unfold number_fits, reserve, Buffered.print_number, print_number.
  destruct (number_format_of d); intros H; apply strcpy_emits;
    cbn [List.length lit_null] in *; lia.
Qed.

(** ** Strings *)

Lemma escape_len_spec (str : text) : cstr str -> forall l,
  0 <= l -> l + len (escape_copy str) <= SIZE_MAX ->
  Buffered.escape_len str l = l + len (escape_copy str).
Proof.
  induction 1 as [|c str Hc _ IH]; intros l Hl Hfit; cbn [Buffered.escape_len escape_copy].
  - cbn [List.length]. lia.
  - assert (Hsz : forall z, 0 <= z <= SIZE_MAX -> size_t z = z)
      by (intros z Hz; unfold size_t, SIZE_MAX in *; apply Z.mod_small; lia).
    assert (Hcopy : len (escape_copy (c :: str))
                    = len (escape_copy str)
                      + (if existsb (Z.eqb c) [34; 92; 8; 12; 10; 13; 9] then 2
                         else if c <? 32 then 6 else 1)).
    { cbn [escape_copy existsb].
      destruct (Z.eqb_spec c 34) as [->|]; [vm_compute (_ && _); cbn; lia|].
      destruct (Z.eqb_spec c 92) as [->|]; [vm_compute (_ && _); cbn; lia|].
      destruct (Z.eqb_spec c 8) as [->|]; [vm_compute (_ && _); cbn; lia|].
      destruct (Z.eqb_spec c 12) as [->|]; [vm_compute (_ && _); cbn; lia|].
      destruct (Z.eqb_spec c 10) as [->|]; [vm_compute (_ && _); cbn; lia|].
      destruct (Z.eqb_spec c 13) as [->|]; [vm_compute (_ && _); cbn; lia|].
      destruct (Z.eqb_spec c 9) as [->|]; [vm_compute (_ && _); cbn; lia|].
      cbn [orb negb andb]. rewrite !andb_true_r.
      destruct (Z.ltb_spec c 32); destruct (Z.ltb_spec 31 c); try lia.
      - cbn [List.length app]. rewrite length_app. cbn [List.length sprintf_04x]. lia.
      - cbn [List.length]. lia. }
    rewrite Hcopy in Hfit. cbn [escape_copy] in Hcopy. rewrite Hcopy. clear Hcopy.
    pose proof (Nat2Z.is_nonneg (List.length (escape_copy str))) as Hpos.
    assert (Hstep : 0 < (if existsb (Z.eqb c) [34; 92; 8; 12; 10; 13; 9] then 2
                         else if c <? 32 then 6 else 1))
      by (destruct (existsb _ _); [lia|]; destruct (c <? 32); lia).
    rewrite (Hsz (l + 1)) by lia.
    destruct (Z.eqb_spec (l + 1) 0); [lia|].
    destruct (existsb (Z.eqb c) [34; 92; 8; 12; 10; 13; 9]).
    + rewrite (Hsz (l + 1 + 1)) by lia. rewrite IH by lia. lia.
    + destruct (c <? 32).
      * rewrite (Hsz (l + 1 + 5)) by lia. rewrite IH by lia. lia.
      * rewrite IH by lia. lia.
Qed.

Lemma print_string_emits K (s : text) depth :
  cstr s -> emits K (Buffered.print_string_ptr (Some s)) depth (print_string_ptr (Some s)).
Proof.
  intros Hs st pre Hat Hfit. pose proof (at_end_bound K st pre Hat) as HK.
  assert (Hsz : forall z, 0 <= z <= SIZE_MAX -> size_t z = z)
    by (intros z Hz; unfold size_t, SIZE_MAX in *; apply Z.mod_small; lia).
  assert (Hshape : exists body,
    print_string_ptr (Some s) = 34 :: body ++ [34]
    /\ Buffered.print_string_ptr (Some s)
       = (out ← Buffered.ensure (len body + 3);
          match out with
          | None => mret None
          | Some q => Buffered.write q (34 :: body ++ [34; 0]);; mret (Some q)
          end)).
  { cbn [print_string_ptr Buffered.print_string_ptr] in *.
    destruct (negb (existsb escape_flag s)).
    - exists s. split; [reflexivity|]. rewrite Hsz; [reflexivity|].
      cbn [List.length] in Hfit. rewrite length_app in Hfit. lia.
    - exists (escape_copy s). split; [reflexivity|].
      cbn [List.length] in Hfit. rewrite length_app in Hfit.
      rewrite escape_len_spec by (auto; lia). cbn [Z.add]. rewrite Hsz; [reflexivity|lia]. }
  destruct Hshape as (body & Hout & Hprog). rewrite Hout in *. rewrite Hprog.
  cbn [List.length] in Hfit. rewrite length_app in Hfit. cbn [List.length] in Hfit.
  destruct (ensure_write K st pre (len body + 3) (34 :: body ++ [34; 0]) Hat)
    as (b & st1 & st2 & rest & He & Hw & Hlive & Hb & Ho);
    [cbn [List.length]; rewrite length_app; cbn [List.length]; lia|lia|].
  exists (Some (b, len pre)), st2. split.
  - rewrite bind_eq, He. cbv beta iota. rewrite bind_eq, Hw. reflexivity.
  - split.
    + exists rest. split.
      * replace ((34 :: body ++ [34]) ++ 0 :: rest) with ((34 :: body ++ [34; 0]) ++ rest)
          by (cbn [app]; rewrite <- !app_assoc; reflexivity).
        exact Hlive.
      * cbn [List.length]. lia.
    + exists b, (len pre). auto.
Qed.

(** ** Running the steps of the composer *)

Lemma emits_then K m depth out st pre :
  emits K m depth out -> at_end K st pre ->
  len pre + len out + Z.of_nat depth + 64 <= K ->
  exists r st', printed K pre out depth r st'
    /\ forall B (k : option Buffered.pointer -> Buffered.M B), (m ≫= k) st = k r st'.
Proof.
  intros Hm Hat Hfit. destruct (Hm st pre Hat Hfit) as (r & st' & Hrun & Hp).
  exists r, st'. split; [exact Hp|]. intros B k. now rewrite bind_eq, Hrun.
Qed.

Lemma update_then K st pre out :
  pending K st pre out -> Forall (fun c => c <> 0) out ->
  exists st', at_end K st' (pre ++ out)
    /\ forall B (k : Buffered.M B),
         (o ← Buffered.update; Buffered.set_offset o;; k) st = k st'.
Proof.
  intros Hp Hnz. destruct (update_pending K st pre out Hp Hnz) as (st' & Hrun & Hat).
  exists st'. split; [exact Hat|]. intros B k.
  rewrite bind_eq in Hrun. rewrite bind_eq.
  destruct (Buffered.update st) as [[o s1]|]; [|discriminate].
  rewrite bind_eq, Hrun. reflexivity.
Qed.

Lemma ensure_write_then K st pre n bs :
  at_end K st pre -> len bs <= n -> len pre + n <= K ->
  exists b st2 rest,
    live K st2 (pre ++ bs ++ rest) /\ buffer (Buffered.p st2) = Some b
    /\ offset (Buffered.p st2) = len pre
    /\ forall B (k0 : Buffered.M B) (k : Buffered.pointer -> Buffered.M B),
         (ptr ← Buffered.ensure n;
          match ptr with
          | None => k0
          | Some q => Buffered.write q bs;; k q
          end) st = k (b, len pre) st2.
Proof.
  intros Hat Hbs Hfit.
  destruct (ensure_write K st pre n bs Hat Hbs Hfit)
    as (b & st1 & st2 & rest & He & Hw & Hlive & Hb & Ho).
  exists b, st2, rest. repeat split; auto. intros B k0 k.
  rewrite bind_eq, He. cbv beta iota. rewrite bind_eq, Hw. reflexivity.
Qed.

Lemma add_offset_then K st pre bs rest n :
  live K st (pre ++ bs ++ rest) -> offset (Buffered.p st) = len pre -> n = len bs ->
  exists st', at_end K st' (pre ++ bs)
    /\ forall B (k : Buffered.M B), (Buffered.add_offset n;; k) st = k st'.
Proof.
  intros Hlive Ho ->. destruct (add_offset_live K st pre bs rest Hlive Ho) as (st' & Hrun & Hat).
  exists st'. split; [exact Hat|]. intros B k. now rewrite bind_eq, Hrun.
Qed.

Lemma at_end_eq K st (a b : text) : at_end K st a -> a = b -> at_end K st b.
Proof. now intros H <-. Qed.

Lemma live_eq K st (a b : list Z) : live K st a -> a = b -> live K st b.
Proof. now intros H <-. Qed.

Ltac lens :=
  repeat (rewrite ?length_app, ?repeat_length in *; cbn [List.length] in * ); lia.

Ltac lists := repeat (rewrite <- ?app_assoc; cbn [app]); try reflexivity.

(** ** The loop of print_array *)

Lemma array_loop_emits K (fmt : bool) (pv : cJSON -> Buffered.M (option Buffered.pointer))
  (depth : nat) : forall children entries,
  Forall2 (fun c e => emits K (pv c) depth e /\ Forall (fun x => x <> 0) e) children entries ->
  forall st pre, at_end K st pre ->
    len pre + len (sep_by (44 :: (if fmt then [32] else [])) entries) + Z.of_nat depth + 64 <= K ->
    exists st', Buffered.array_loop pv fmt children st = Some (true, st')
      /\ at_end K st' (pre ++ sep_by (44 :: (if fmt then [32] else [])) entries).
Proof.
  induction 1 as [|c e children entries (Hc & Hnz) Hrest IH]; intros st pre Hat Hfit.
  - exists st. split; [reflexivity|]. cbn [sep_by]. now rewrite app_nil_r.
  - cbn [Buffered.array_loop].
    assert (Hle : len e <= len (sep_by (44 :: (if fmt then [32] else [])) (e :: entries))).
    { destruct entries; cbn [sep_by]; lens. }
    destruct (emits_then K (pv c) depth e st pre Hc Hat ltac:(lia))
      as (r & st1 & (Hpend & _) & Hrun1).
    rewrite Hrun1.
    destruct (update_then K st1 pre e Hpend Hnz) as (st2 & Hat2 & Hrun2).
    rewrite Hrun2.
    destruct Hrest as [|c' e' children entries Hc' Hrest].
    + exists st2. split; [reflexivity|]. exact Hat2.
    + set (sep := 44 :: (if fmt then [32] else [])) in *.
      assert (Hsep : len sep = if fmt then 2 else 1) by (unfold sep; destruct fmt; reflexivity).
      change (sep_by sep (e :: e' :: entries))
        with (e ++ sep ++ sep_by sep (e' :: entries)) in *.
      destruct (ensure_write_then K st2 (pre ++ e) ((if fmt then 2 else 1) + 1)
                  (44 :: (if fmt then [32] else []) ++ [0]) Hat2)
        as (b & st3 & rest & Hlive3 & Hb3 & Ho3 & Hrun3);
        [destruct fmt; cbn; lia|lens|].
      rewrite Hrun3.
      destruct (add_offset_then K st3 (pre ++ e) sep (0 :: rest) (if fmt then 2 else 1))
        as (st4 & Hat4 & Hrun4); [|exact Ho3|now rewrite Hsep|].
      { apply (live_eq _ _ _ _ Hlive3). unfold sep. lists. }
      rewrite Hrun4.
      destruct (IH st4 ((pre ++ e) ++ sep) Hat4)
        as (st5 & Hrun5 & Hat5); [lens|].
      exists st5. split; [exact Hrun5|].
      apply (at_end_eq _ _ _ _ Hat5). lists.
Qed.

(** ** The loop of print_object *)

(** What the loop of [print_object] writes for the rendered keys and
    values. *)
Fixpoint object_body (fmt : bool) (depth : nat) (names entries : list text) : text :=
  match names, entries with
  | k :: names, e :: entries =>
    (if fmt then repeat 9 depth else []) ++ k ++ 58 :: (if fmt then [9] else []) ++ e
      ++ (match entries with [] => [] | _ => [44] end)
      ++ (if fmt then [10] else [])
      ++ object_body fmt depth names entries
  | _, _ => []
  end.

Lemma compose_object_body (fmt : bool) (depth : nat) : forall (names entries : list text) n i,
  List.length names = List.length entries -> n = (i + List.length entries)%nat ->
  compose_object fmt depth n i names entries = object_body fmt depth names entries.
Proof.
  induction names as [|k names IH]; intros entries n i Hlen Hn; [reflexivity|].
  destruct entries as [|e entries]; [discriminate|].
  injection Hlen as Hlen. cbn [List.length] in Hn.
  cbn [compose_object object_body].
  rewrite (IH entries n (S i) Hlen) by lia.
  destruct entries as [|e' entries].
  - cbn [List.length] in Hn. subst n. replace (i + 1 - 1)%nat with i by lia.
    now rewrite Nat.eqb_refl.
  - cbn [List.length] in Hn. destruct (Nat.eqb_spec i (n - 1)); [lia|]. reflexivity.
Qed.

Lemma spaced_nonzero (a b : text) : spaced a b -> Forall (fun c => c <> 0) a.
Proof.
  induction 1 as [|w a b Hw _ IH|c a b Hc _ IH|s a b Hs _ IH].
  - apply List.Forall_nil.
  - apply List.Forall_cons; [unfold ws in Hw; lia|exact IH].
  - apply List.Forall_cons; [apply Hc|exact IH].
  - apply List.Forall_cons; [lia|]. apply Forall_app. split.
    + clear -Hs. induction Hs as [|c b H0 _ _ _ IHb|e b He _ IHb].
      * apply List.Forall_nil.
      * apply List.Forall_cons; assumption.
      * apply List.Forall_cons; [lia|]. apply List.Forall_cons; assumption.
    + apply List.Forall_cons; [lia|exact IH].
Qed.

Lemma tabs_then K (fmt : bool) st pre (depth : nat) :
  at_end K st pre -> len pre + Z.of_nat depth <= K ->
  exists st', at_end K st' (pre ++ (if fmt then repeat 9 depth else []))
    /\ (if fmt then
          ptr ← Buffered.ensure (Z.of_nat depth);
          match ptr with
          | None => mret false
          | Some q =>
            Buffered.write q (repeat 9 (Z.to_nat (Z.of_nat depth)));;
            Buffered.add_offset (Z.of_nat depth);; mret true
          end
        else mret true) st = Some (true, st').
Proof.
  intros Hat Hfit. destruct fmt.
  - rewrite Nat2Z.id.
    destruct (ensure_write_then K st pre (Z.of_nat depth) (repeat 9 depth) Hat)
      as (b & st2 & rest & Hlive & Hb & Ho & Hrun); [lens|lia|].
    destruct (add_offset_then K st2 pre (repeat 9 depth) rest (Z.of_nat depth) Hlive Ho)
      as (st3 & Hat3 & Hrun3); [lens|].
    exists st3. split; [exact Hat3|]. rewrite Hrun, Hrun3. reflexivity.
  - exists st. split; [now rewrite app_nil_r|reflexivity].
Qed.

Lemma object_loop_emits K (fmt : bool) (pv : cJSON -> Buffered.M (option Buffered.pointer))
  (depth : nat) : forall children entries,
  Forall2 (fun c e => emits K (pv c) depth e /\ Forall (fun x => x <> 0) e
                      /\ exists nm, name_of c = Some nm /\ cstr nm) children entries ->
  forall st pre, at_end K st pre ->
    len pre
    + len (object_body fmt depth (map (fun c => print_string_ptr (name_of c)) children) entries)
    + Z.of_nat depth + 64 <= K ->
    exists st', Buffered.object_loop pv fmt (Z.of_nat depth) children st = Some (true, st')
      /\ at_end K st'
           (pre ++ object_body fmt depth
                     (map (fun c => print_string_ptr (name_of c)) children) entries).
Proof.
  induction 1 as [|c e children entries (Hc & Hnz & nm & Hname & Hnm) Hrest IH];
    intros st pre Hat Hfit.
  - exists st. split; [reflexivity|]. cbn [map object_body]. now rewrite app_nil_r.
  - cbn [Buffered.object_loop map object_body] in *. rewrite Hname in *.
    set (names := map (fun c => print_string_ptr (name_of c)) children) in *.
    set (tabs := if fmt then repeat 9 depth else []) in *.
    set (key := print_string_ptr (Some nm)) in *.
    set (colon := 58 :: (if fmt then [9] else [])) in *.
    set (comma := (match entries with [] => [] | _ => [44] end) ++ (if fmt then [10] else [])).
    set (tail := object_body fmt depth names entries) in *.
    assert (Hshape : tabs ++ key ++ 58 :: (if fmt then [9] else []) ++ e
                       ++ (match entries with [] => [] | _ => [44] end)
                       ++ (if fmt then [10] else []) ++ tail
                     = tabs ++ key ++ colon ++ e ++ comma ++ tail)
      by (unfold colon, comma; lists).
    rewrite Hshape in *. clear Hshape.
    assert (Htabs : len tabs <= Z.of_nat depth) by (unfold tabs; destruct fmt; lens).
    (* the tabs *)
    destruct (tabs_then K fmt st pre depth Hat ltac:(lens)) as (st1 & Hat1 & Hrun1).
    rewrite bind_eq, Hrun1. cbv beta iota. cbn [negb].
    (* the key *)
    destruct (emits_then K (Buffered.print_string_ptr (Some nm)) depth key st1 (pre ++ tabs)
                (print_string_emits K nm depth Hnm) Hat1 ltac:(lens))
      as (r2 & st2 & (Hpend2 & _) & Hrun2).
    rewrite Hrun2.
    destruct (update_then K st2 (pre ++ tabs) key Hpend2
                (spaced_nonzero _ _ (spaced_string_literal nm Hnm)))
      as (st3 & Hat3 & Hrun3).
    rewrite Hrun3.
    (* the colon *)
    assert (Hcolon : len colon = if fmt then 2 else 1)
      by (unfold colon; destruct fmt; reflexivity).
    destruct (ensure_write_then K st3 ((pre ++ tabs) ++ key) (if fmt then 2 else 1) colon Hat3)
      as (b4 & st4 & rest4 & Hlive4 & Hb4 & Ho4 & Hrun4); [lia|destruct fmt; lens|].
    cbv zeta. fold colon. rewrite Hrun4.
    destruct (add_offset_then K st4 ((pre ++ tabs) ++ key) colon rest4 (if fmt then 2 else 1)
                Hlive4 Ho4 ltac:(lia)) as (st5 & Hat5 & Hrun5).
    rewrite Hrun5.
    (* the value *)
    destruct (emits_then K (pv c) depth e st5 (((pre ++ tabs) ++ key) ++ colon) Hc Hat5
                ltac:(lens)) as (r6 & st6 & (Hpend6 & _) & Hrun6).
    rewrite Hrun6.
    destruct (update_then K st6 (((pre ++ tabs) ++ key) ++ colon) e Hpend6 Hnz)
      as (st7 & Hat7 & Hrun7).
    rewrite Hrun7.
    (* the comma and the line feed *)
    assert (Hnext : (match children with [] => [] | _ => [44] end : list Z)
                    = match entries with [] => [] | _ => [44] end
                    /\ (match children with [] => 0 | _ => 1 end)
                       = match entries with [] => 0 | _ => 1 end)
      by (destruct Hrest; split; reflexivity).
    destruct Hnext as (Hnext1 & Hnext2). rewrite Hnext1, Hnext2.
    assert (Hcomma : len comma = (if fmt then 1 else 0)
                                 + match entries with [] => 0 | _ => 1 end)
      by (unfold comma; destruct entries, fmt; reflexivity).
    destruct (ensure_write_then K st7 ((((pre ++ tabs) ++ key) ++ colon) ++ e)
                ((if fmt then 1 else 0) + match entries with [] => 0 | _ => 1 end + 1)
                ((match entries with [] => [] | _ => [44] end)
                   ++ (if fmt then [10] else []) ++ [0]) Hat7)
      as (b8 & st8 & rest8 & Hlive8 & Hb8 & Ho8 & Hrun8);
      [destruct entries, fmt; cbn; lia|destruct entries, fmt; lens|].
    rewrite Hrun8.
    destruct (add_offset_then K st8 ((((pre ++ tabs) ++ key) ++ colon) ++ e) comma
                (0 :: rest8)
                ((if fmt then 1 else 0) + match entries with [] => 0 | _ => 1 end))
      as (st9 & Hat9 & Hrun9); [|exact Ho8|lia|].
    { apply (live_eq _ _ _ _ Hlive8). unfold comma. lists. }
    rewrite Hrun9.
    destruct (IH st9 (((((pre ++ tabs) ++ key) ++ colon) ++ e) ++ comma) Hat9)
      as (st10 & Hrun10 & Hat10); [fold tail; lens|].
    exists st10. split; [exact Hrun10|].
    apply (at_end_eq _ _ _ _ Hat10). fold tail. lists.
Qed.

(** ** print_value *)

(** Every number of the value fits in the bytes requested for it. *)
Fixpoint numbers_fit (j : json) : Prop :=
  match j with
  | JNumber d => number_fits d
  | JArray items => fold_right (fun i P => numbers_fit i /\ P) True items
  | JObject members => fold_right (fun m P => numbers_fit (snd m) /\ P) True members
  | _ => True
  end.

Lemma numbers_fit_items (items : list json) :
  numbers_fit (JArray items) -> Forall numbers_fit items.
Proof.
  cbn [numbers_fit]. induction items as [|i items IH]; cbn [fold_right];
    [intros _; apply List.Forall_nil|].
  intros [Hi H]. apply List.Forall_cons; auto.
Qed.

Lemma numbers_fit_members (members : list (text * json)) :
  numbers_fit (JObject members) -> Forall (fun m => numbers_fit (snd m)) members.
Proof.
  cbn [numbers_fit]. induction members as [|m members IH]; cbn [fold_right];
    [intros _; apply List.Forall_nil|].
  intros [Hm H]. apply List.Forall_cons; auto.
Qed.

Lemma buffered_array_cons b n s k c cs depth fmt :
  Buffered.print_value (Item cJSON_Array b n s k (c :: cs)) depth fmt
  = (i ← Buffered.get_offset;
     ptr ← Buffered.ensure 1;
     match ptr with
     | None => mret None
     | Some q =>
       Buffered.write q [91];;
       Buffered.add_offset 1;;
       finished ← Buffered.array_loop
                    (fun c => Buffered.print_value c (size_t (depth + 1)) fmt) fmt (c :: cs);
       if negb finished then mret None
       else
         ptr ← Buffered.ensure 2;
         match ptr with
         | None => mret None
         | Some q =>
           Buffered.write q [93; 0];;
           b ← Buffered.get_buffer;
           mret (option_map (fun b => (b, i)) b)
         end
     end).
Proof. reflexivity. Qed.

Lemma buffered_object_cons b n s k c cs depth fmt :
  Buffered.print_value (Item cJSON_Object b n s k (c :: cs)) depth fmt
  = (i ← Buffered.get_offset;
     ptr ← Buffered.ensure ((if fmt then 2 else 1) + 1);
     match ptr with
     | None => mret None
     | Some q =>
       Buffered.write q (123 :: (if fmt then [10] else []) ++ [0]);;
       Buffered.add_offset (if fmt then 2 else 1);;
       finished ← Buffered.object_loop
                    (fun c => Buffered.print_value c (size_t (depth + 1)) fmt) fmt
                    (size_t (depth + 1)) (c :: cs);
       if negb finished then mret None
       else
         ptr ← Buffered.ensure (if fmt then size_t (size_t (depth + 1) + 1) else 2);
         match ptr with
         | None => mret None
         | Some q =>
           Buffered.write q
             ((if fmt then repeat 9 (Z.to_nat (size_t (size_t (depth + 1) - 1))) else [])
                ++ [125; 0]);;
           b ← Buffered.get_buffer;
           mret (option_map
                   (fun b => (b, if fmt then size_t (size_t (depth + 1) - 1) else i)) b)
         end
     end).
Proof. reflexivity. Qed.

Lemma at_end_offset K st pre : at_end K st pre -> offset (Buffered.p st) = len pre.
Proof. now intros (rest & _ & H). Qed.

Lemma print_value_emits K (fmt : bool) (j : json) :
  strings_ok j -> numbers_fit j -> forall k depth out,
  print_value (node_of k j) depth fmt = Some out ->
  emits K (Buffered.print_value (node_of k j) (Z.of_nat depth) fmt) depth out.
Proof.
  induction j as [| | |d|s|items IH|members IH] using json_induction;
    intros Hok Hfit k depth out Hout.
  - injection Hout as <-. apply (strcpy_emits K 5 lit_null). cbn. lia.
  - injection Hout as <-. apply (strcpy_emits K 6 lit_false). cbn. lia.
  - injection Hout as <-. apply (strcpy_emits K 5 lit_true). cbn. lia.
  - injection Hout as <-. now apply print_number_emits.
  - injection Hout as <-. now apply print_string_emits.
  - apply strings_ok_items in Hok. apply numbers_fit_items in Hfit.
    assert (He : exists entries,
      Forall2 (fun c e => print_value c (S depth) fmt = Some e)
              (map (node_of None) items) entries
      /\ Forall2 (fun c e =>
                    emits K (Buffered.print_value c (Z.of_nat (S depth)) fmt) (S depth) e
                    /\ Forall (fun x => x <> 0) e)
                 (map (node_of None) items) entries).
    { clear k Hout. induction IH as [|i items Hi _ IHl].
      - exists []. split; constructor.
      - apply Forall_cons in Hok as [Hok1 Hok2]. apply Forall_cons in Hfit as [Hfit1 Hfit2].
        destruct (print_spaced i Hok1 None (S depth) fmt) as (e & He & Hs).
        destruct (IHl Hok2 Hfit2) as (es & Hes & Hems).
        exists (e :: es). cbn [map]. split; constructor; auto.
        split; [now apply Hi|]. exact (spaced_nonzero _ _ Hs). }
    destruct He as (entries & Hp & Hem).
    pose proof (Forall2_length _ _ _ Hp) as Hlen. rewrite length_map in Hlen.
    cbn [node_of print_value] in Hout. unfold print_array_of in Hout.
    rewrite !length_map, (collect_Forall2 _ _ _ Hp) in Hout.
    cbn [node_of].
    destruct items as [|i items].
    + injection Hout as <-. apply (strcpy_emits K 3 [91; 93]). cbn. lia.
    + cbn [List.length] in Hout.
      rewrite compose_array_layout in Hout by (cbn [List.length] in *; lia).
      injection Hout as <-. cbn [map] in *. rewrite buffered_array_cons.
      set (body := sep_by (44 :: (if fmt then [32] else [])) entries) in *.
      intros st pre Hat Hroom. pose proof (at_end_bound K st pre Hat) as HK.
      pose proof (at_end_offset K st pre Hat) as Hoff.
      assert (Hd : size_t (Z.of_nat depth + 1) = Z.of_nat (S depth)).
      { unfold size_t, SIZE_MAX in *. rewrite Z.mod_small; lia. }
      rewrite Hd.
      assert (Hbody : len (91 :: body ++ [93]) = len body + 2) by lens.
      rewrite Hbody in Hroom.
      rewrite bind_eq. unfold Buffered.get_offset. cbv beta iota.
      destruct (ensure_write_then K st pre 1 [91] Hat)
        as (b2 & st2 & rest2 & Hlive2 & Hb2 & Ho2 & Hrun2); [cbn; lia|lia|].
      rewrite Hrun2.
      destruct (add_offset_then K st2 pre [91] rest2 1 Hlive2 Ho2 eq_refl)
        as (st3 & Hat3 & Hrun3).
      rewrite Hrun3.
      destruct (array_loop_emits K fmt _ (S depth) _ _ Hem st3 (pre ++ [91]) Hat3)
        as (st4 & Hrun4 & Hat4); [fold body; lens|].
      rewrite bind_eq, Hrun4. cbv beta iota. cbn [negb].
      destruct (ensure_write_then K st4 ((pre ++ [91]) ++ body) 2 [93; 0] Hat4)
        as (b5 & st5 & rest5 & Hlive5 & Hb5 & Ho5 & Hrun5); [cbn; lia|lens|].
      rewrite Hrun5.
      rewrite bind_eq. unfold Buffered.get_buffer. cbv beta iota. rewrite Hb5.
      cbn [option_map]. eexists _, st5. split; [reflexivity|]. split.
      * exists rest5. split; [apply (live_eq _ _ _ _ Hlive5); lists|].
        rewrite Ho5. lens.
      * exists b5, (offset (Buffered.p st)). auto.
  - apply strings_ok_members in Hok. apply numbers_fit_members in Hfit.
    assert (He : exists entries,
      Forall2 (fun c e => print_value c (S depth) fmt = Some e)
              (map (fun m => node_of (Some (fst m)) (snd m)) members) entries
      /\ Forall2 (fun c e =>
                    emits K (Buffered.print_value c (Z.of_nat (S depth)) fmt) (S depth) e
                    /\ Forall (fun x => x <> 0) e
                    /\ exists nm, name_of c = Some nm /\ cstr nm)
                 (map (fun m => node_of (Some (fst m)) (snd m)) members) entries).
    { clear k Hout. induction IH as [|m members Hm _ IHl].
      - exists []. split; constructor.
      - apply Forall_cons in Hok as [[Hk1 Hok1] Hok2].
        apply Forall_cons in Hfit as [Hfit1 Hfit2].
        destruct (print_spaced (snd m) Hok1 (Some (fst m)) (S depth) fmt) as (e & He & Hs).
        destruct (IHl Hok2 Hfit2) as (es & Hes & Hems).
        exists (e :: es). cbn [map]. split; constructor; auto.
        split; [now apply Hm|]. split; [exact (spaced_nonzero _ _ Hs)|].
        exists (fst m). split; [apply name_of_node_of|exact Hk1]. }
    destruct He as (entries & Hp & Hem).
    pose proof (Forall2_length _ _ _ Hp) as Hlen. rewrite length_map in Hlen.
    cbn [node_of print_value] in Hout. unfold print_object_of in Hout.
    rewrite !length_map, (collect_Forall2 _ _ _ Hp) in Hout.
    cbn [node_of].
    destruct members as [|m members].
    + injection Hout as <-. cbn [map Buffered.print_value].
      intros st pre Hat Hroom. pose proof (at_end_bound K st pre Hat) as HK.
      assert (Hd : size_t (Z.of_nat depth + 4) = Z.of_nat depth + 4).
      { unfold size_t, SIZE_MAX in *. rewrite Z.mod_small; lia. }
      rewrite Hd, Nat2Z.id.
      set (mid := if fmt then 10 :: repeat 9 depth else []) in *.
      assert (Hmid : len mid <= Z.of_nat depth + 1) by (unfold mid; destruct fmt; lens).
      destruct (ensure_write_then K st pre (if fmt then Z.of_nat depth + 4 else 3)
                  (123 :: mid ++ [125; 0]) Hat)
        as (b2 & st2 & rest2 & Hlive2 & Hb2 & Ho2 & Hrun2);
        [unfold mid; destruct fmt; lens|destruct fmt; lens|].
      rewrite Hrun2. eexists _, st2. split; [reflexivity|]. split.
      * exists rest2. split; [apply (live_eq _ _ _ _ Hlive2); lists|]. rewrite Ho2. lens.
      * exists b2, (len pre). auto.
    + cbn [List.length] in Hout.
      rewrite compose_object_body in Hout
        by (rewrite ?length_map; cbn [List.length] in *; lia).
      replace (S depth - 1)%nat with depth in Hout by lia.
      pose proof (f_equal (fun o => match o with Some t => t | None => out end) Hout) as E.
      cbv beta iota in E. subst out. clear Hout.
      set (names := map (fun c => print_string_ptr (name_of c))
                        (map (fun m0 => node_of (Some (fst m0)) (snd m0)) (m :: members))) in *.
      set (body := object_body fmt (S depth) names entries) in *.
      rewrite map_cons, buffered_object_cons.
      set (open := 123 :: (if fmt then [10] else [])).
      set (close := if fmt then repeat 9 depth else []).
      intros st pre Hat Hroom. pose proof (at_end_bound K st pre Hat) as HK.
      pose proof (at_end_offset K st pre Hat) as Hoff.
      assert (Hout : 123 :: (if fmt then [10] else []) ++ body ++ close ++ [125]
                     = open ++ body ++ close ++ [125]) by (unfold open; lists).
      rewrite Hout in *. clear Hout.
      assert (Hopen : len open = if fmt then 2 else 1)
        by (unfold open; destruct fmt; reflexivity).
      assert (Hclose : len close <= Z.of_nat depth) by (unfold close; destruct fmt; lens).
      assert (Hlenout : len (open ++ body ++ close ++ [125])
                        = len open + len body + len close + 1) by lens.
      rewrite Hlenout in Hroom.
      assert (Hd : size_t (Z.of_nat depth + 1) = Z.of_nat (S depth)).
      { unfold size_t, SIZE_MAX in *. rewrite Z.mod_small; lia. }
      rewrite Hd.
      assert (Hd1 : size_t (Z.of_nat (S depth) + 1) = Z.of_nat (S depth) + 1).
      { unfold size_t, SIZE_MAX in *. rewrite Z.mod_small; lia. }
      assert (Hd2 : size_t (Z.of_nat (S depth) - 1) = Z.of_nat depth).
      { unfold size_t, SIZE_MAX in *. rewrite Z.mod_small; lia. }
      rewrite Hd1, Hd2, Nat2Z.id. fold close.
      rewrite bind_eq. unfold Buffered.get_offset. cbv beta iota.
      destruct (ensure_write_then K st pre ((if fmt then 2 else 1) + 1)
                  (123 :: (if fmt then [10] else []) ++ [0]) Hat)
        as (b2 & st2 & rest2 & Hlive2 & Hb2 & Ho2 & Hrun2);
        [destruct fmt; cbn; lia|destruct fmt; lia|].
      rewrite Hrun2.
      destruct (add_offset_then K st2 pre open (0 :: rest2) (if fmt then 2 else 1))
        as (st3 & Hat3 & Hrun3); [|exact Ho2|lia|].
      { apply (live_eq _ _ _ _ Hlive2). unfold open. lists. }
      rewrite Hrun3.
      destruct (object_loop_emits K fmt _ (S depth) _ _ Hem st3 (pre ++ open) Hat3)
        as (st4 & Hrun4 & Hat4); [fold names; fold body; lens|].
      fold names in Hat4. fold body in Hat4. rewrite map_cons in Hrun4.
      rewrite bind_eq, Hrun4. cbv beta iota. cbn [negb].
      destruct (ensure_write_then K st4 ((pre ++ open) ++ body)
                  (if fmt then Z.of_nat (S depth) + 1 else 2) (close ++ [125; 0]) Hat4)
        as (b5 & st5 & rest5 & Hlive5 & Hb5 & Ho5 & Hrun5);
        [unfold close; destruct fmt; lens|destruct fmt; lens|].
      rewrite Hrun5.
      rewrite bind_eq. unfold Buffered.get_buffer. cbv beta iota. rewrite Hb5.
      cbn [option_map]. eexists _, st5. split; [reflexivity|]. split.
      * exists rest5. split; [apply (live_eq _ _ _ _ Hlive5); lists|].
        rewrite Ho5. lens.
      * exists b5, (if fmt then Z.of_nat depth else offset (Buffered.p st)).
        split; [reflexivity|]. split; [exact Hb5|]. destruct fmt; auto.
Qed.

(** ** cJSON_PrintBuffered *)

(** X25: for a tree as the parser builds it whose strings and keys are C
    strings and whose numbers fit in the bytes requested for them, on an
    allocator that can hand out the prebuffer and four times the length of
    the text plus 64, [cJSON_PrintBuffered] returns a pointer to the start
    of its buffer, and the C string there is the text that the unbuffered
    printer returns for the same tree and mode. *)
Theorem X25_buffered_print (a : allocator) (j : json) (k : option text)
  (prebuffer : Z) (fmt : bool) (out : text) :
  strings_ok j -> numbers_fit j ->
  print_value (node_of k j) 0 fmt = Some out ->
  (forall q : addr, (next_block a <= q)%positive -> blocks a !! q = None) ->
  0 <= prebuffer -> prebuffer + 4 * (len out + 64) <= avail a -> avail a <= SIZE_MAX ->
  exists b st',
    Buffered.cJSON_PrintBuffered a (node_of k j) prebuffer fmt = Some (Some (b, 0), st')
    /\ buffer (Buffered.p st') = Some b
    /\ Buffered.string_at (Buffered.hooks st') (b, 0) = Some out.
Proof.
  intros Hok Hnum Hout Hfresh Hpre Havail Hmax.
  pose proof (print_value_emits (len out + 64) fmt j Hok Hnum k 0%nat out Hout) as Hemits.
  destruct (print_spaced j Hok k 0%nat fmt) as (out' & Hout' & Hsp).
  rewrite Hout in Hout'. injection Hout' as <-.
  pose proof (spaced_nonzero _ _ Hsp) as Hnz.
  unfold Buffered.cJSON_PrintBuffered, malloc_fn.
  destruct (Z.leb_spec prebuffer (avail a)) as [_|]; [|lia].
  set (st0 := {| Buffered.p := {| buffer := Some (next_block a); length := prebuffer;
                                  offset := 0 |};
                 Buffered.hooks := _ |}).
  assert (Hat : at_end (len out + 64) st0 []).
  { exists (repeat (fill a) (Z.to_nat prebuffer)). split; [|reflexivity].
    exists (next_block a). unfold st0. cbn [Buffered.p Buffered.hooks buffer length offset
                                             blocks avail next_block app].
    split; [reflexivity|]. split; [apply lookup_insert_eq|].
    split; [rewrite repeat_length; lia|]. split; [lia|].
    split; [|lia].
    intros q Hq. rewrite lookup_insert_ne by lia. apply Hfresh. lia. }
  destruct (Hemits st0 [] Hat ltac:(cbn [List.length]; lia))
    as (r & st' & Hrun & (rest & Hlive & _) & b & i & -> & Hb & Hi).
  assert (i = 0) as -> by (destruct Hi as [-> | ->]; reflexivity).
  exists b, st'. split; [exact Hrun|]. split; [exact Hb|].
  destruct Hlive as (b' & Hb' & Hdata & _).
  rewrite Hb in Hb'. injection Hb' as <-. cbn [app] in Hdata.
  unfold Buffered.string_at, Buffered.strlen. cbn [fst snd]. rewrite Hdata.
  change (Z.to_nat 0) with 0%nat. rewrite !drop_0.
  change (0 <=? 0) with true.
  destruct (Z.leb_spec 0 (len (out ++ 0 :: rest))) as [_|]; [|lia].
  cbn [andb]. rewrite first_nul_app by exact Hnz. cbn [option_map].
  rewrite Nat2Z.id, take_app_length. reflexivity.
Qed.

(** An allocator without blocks that can hand out 4096 bytes. *)
Definition sample_allocator : allocator :=
  {| blocks := ∅; released := []; next_block := 1%positive; avail := 4096; fill := 170 |}.

Definition sample_pretty : text :=
  match cJSON_Print (node_of None sample_value) with
  | Some t => t
  | None => []
  end.

Lemma X25_buffered_print_witness :
  exists b st',
    Buffered.cJSON_PrintBuffered sample_allocator (node_of None sample_value) 8 true
    = Some (Some (b, 0), st')
    /\ buffer (Buffered.p st') = Some b
    /\ Buffered.string_at (Buffered.hooks st') (b, 0) = Some sample_pretty.
Proof.
  apply (X25_buffered_print sample_allocator sample_value None 8 true sample_pretty).
  - cbn [strings_ok sample_value fold_right fst snd]. unfold cstr.
    repeat first [exact I | split | apply List.Forall_cons | apply List.Forall_nil | lia].
  - cbn [numbers_fit sample_value fold_right fst snd].
    repeat first [exact I | apply conj]. vm_compute. reflexivity.
  - vm_compute. reflexivity.
  - intros q _. apply lookup_empty.
  - lia.
  - apply Z.leb_le. vm_compute. reflexivity.
  - apply Z.leb_le. vm_compute. reflexivity.
Defined.

End BufferedPrint.

(** * Parsing text with white space between its tokens *)

Module LooseText.
Import MinifyFacts.

(** ** What may follow a value *)

(** A value is followed by a comma, a closing bracket or brace, a blank, or
    the end of the input. *)
Definition stops (l : text) : Prop :=
  match l with
  | [] => True
  | c :: _ => c = 44 \/ c = 93 \/ c = 125 \/ is_blank c
  end.

Definition stop_char (c : Z) : Prop := 0 <= c <= 32 \/ c = 44 \/ c = 93 \/ c = 125.

Lemma peek_stops s i l : at_pos s i l -> stops l ->
  exists c, peek s i = Ok c /\ stop_char c.
Proof.
  intros Hat He. destruct l as [|c l].
  - rewrite (at_pos_peek_nil _ _ Hat). exists 0. split; [reflexivity|]. left. lia.
  - rewrite (at_pos_peek _ _ _ _ Hat). exists c. split; [reflexivity|].
    cbn [stops] in He. unfold stop_char, is_blank in *. lia.
Qed.

Lemma stop_char_facts c : stop_char c ->
  is_digit c = false /\ (c =? 46) = false /\ (lower c =? 101) = false /\ lower c <> 120.
Proof.
  unfold stop_char, is_digit, lower. intros H.
  assert (Hlow : (65 <=? c) && (c <=? 90) = false).
  { destruct (Z.leb_spec 65 c); [|reflexivity]. destruct (Z.leb_spec c 90); [lia|reflexivity]. }
  rewrite Hlow. repeat split.
  - destruct (Z.leb_spec 48 c); [|reflexivity]. destruct (Z.leb_spec c 57); [lia|reflexivity].
  - apply Z.eqb_neq. lia.
  - apply Z.eqb_neq. lia.
  - lia.
Qed.

Lemma stops_nondigit l :
  stops l -> match l with [] => True | c :: _ => is_digit c = false end.
Proof.
  destruct l as [|c l]; [auto|]. intros H. apply stop_char_facts.
  cbn [stops] in H. unfold stop_char, is_blank in *. lia.
Qed.

Lemma scan_exponent_stops s i l :
  at_pos s i l -> stops l -> scan_exponent s i 101 = Ok (0, i).
Proof.
  intros Hat He. unfold scan_exponent.
  destruct (peek_stops s i l Hat He) as (c & -> & Hc). cbn [bind].
  destruct (stop_char_facts c Hc) as (_ & _ & -> & _). reflexivity.
Qed.

Lemma scan_exponent_digits s i (eneg : bool) ds l :
  at_pos s i (101 :: (if eneg then 45 else 43) :: ds ++ l) -> digits ds -> stops l ->
  scan_exponent s i 101
  = Ok (if eneg then - digits_value 0 ds else digits_value 0 ds, (i + 2 + length ds)%nat).
Proof.
  intros Hat (Hd & Hn) He. unfold scan_exponent.
  rewrite (at_pos_peek _ _ _ _ Hat).
  cbn [bind lower Z.leb Z.compare Pos.compare Pos.compare_cont andb Z.eqb Pos.eqb].
  pose proof (at_pos_next _ _ _ _ Hat) as Hat1.
  rewrite (at_pos_peek _ _ _ _ Hat1). cbn [bind].
  pose proof (at_pos_next _ _ _ _ Hat1) as Hat2.
  pose proof (at_pos_length _ _ _ Hat2) as Hlen. rewrite length_app in Hlen.
  assert (Hj : (if ((if eneg then 45 else 43) =? 45) || ((if eneg then 45 else 43) =? 43)
                then S (S i) else S i) = S (S i)) by (destruct eneg; reflexivity).
  rewrite Hj.
  rewrite (scan_digits_spec ds _ s (S (S i)) 0 0 l Hd Hat2 (stops_nondigit l He)) by lia.
  cbn [bind]. destruct ds as [|d ds]; [contradiction|]. cbn [length Nat.add].
  destruct eneg; cbn [Z.eqb Pos.eqb]; do 2 f_equal; lia.
Qed.

(** The character after the integer digits of a rendered number. *)
Lemma num_tail_next d2 ex l s i :
  stops l -> at_pos s i (num_tail d2 ex ++ l) ->
  exists c, peek s i = Ok c /\ is_digit c = false /\ lower c <> 120.
Proof.
  intros He Hat. unfold num_tail in Hat.
  destruct d2 as [f|].
  { cbn [app] in Hat. rewrite (at_pos_peek _ _ _ _ Hat). eexists. split; [reflexivity|].
    split; [reflexivity|now cbv]. }
  destruct ex as [[eneg ds]|].
  { cbn [app] in Hat. rewrite (at_pos_peek _ _ _ _ Hat). eexists. split; [reflexivity|].
    split; [reflexivity|now cbv]. }
  cbn [app] in Hat. destruct (peek_stops s i l Hat He) as (c & Hc & Hstop).
  exists c. split; [exact Hc|]. destruct (stop_char_facts c Hstop) as (? & _ & _ & ?). auto.
Qed.

Lemma num_tail_stops_nondigit d2 ex l :
  stops l ->
  match num_tail d2 ex ++ l with [] => True | c :: _ => is_digit c = false end.
Proof.
  intros He. unfold num_tail.
  destruct d2 as [f|]; [reflexivity|].
  destruct ex as [[eneg ds]|]; [reflexivity|].
  cbn [app]. now apply stops_nondigit.
Qed.

Lemma strtod_decimal_stops s neg start i d1 d2 ex l :
  num_shape neg d1 d2 ex -> at_pos s i (d1 ++ num_tail d2 ex ++ l) -> stops l ->
  strtod_decimal s neg start i
  = Ok (num_value neg d1 d2 ex, (i + length (d1 ++ num_tail d2 ex))%nat).
Proof.
  intros ((Hd1 & Hn1) & H2 & H3) Hat He. unfold strtod_decimal.
  pose proof (at_pos_length _ _ _ Hat) as Hlen. rewrite !length_app in Hlen.
  rewrite (scan_digits_spec d1 _ s i 0 0 (num_tail d2 ex ++ l) Hd1 Hat) by
    (try lia; now apply num_tail_stops_nondigit).
  cbn [bind Nat.add].
  pose proof (at_pos_app _ _ _ _ Hat) as Hat1.
  assert (Hn : forall n2, exists k, (length d1 + n2 = S k)%nat).
  { intros n2. destruct d1; [contradiction|]. cbn [length]. eexists. reflexivity. }
  unfold num_value. destruct d2 as [f|].
  - destruct H2 as (Hf & Hfn). cbn [num_tail app] in Hat1 |- *.
    rewrite <- app_assoc in Hat1. cbn [app] in Hat1.
    rewrite (at_pos_peek _ _ _ _ Hat1). cbn [bind Z.eqb Pos.eqb].
    pose proof (at_pos_next _ _ _ _ Hat1) as Hat2.
    pose proof (at_pos_length _ _ _ Hat2) as Hlen2. rewrite length_app in Hlen2.
    rewrite (scan_digits_spec f _ s (S (i + length d1)) _ 0 _ Hf Hat2).
    2:{ destruct ex as [[eneg ds]|]; [reflexivity|]. now apply stops_nondigit. }
    2:{ lia. }
    cbn [bind Nat.add]. destruct (Hn (length f)) as (k & ->).
    pose proof (at_pos_app _ _ _ _ Hat2) as Hat3. cbn [Nat.add] in Hat3.
    destruct ex as [[eneg ds]|].
    + cbn [app] in Hat3. rewrite (scan_exponent_digits s _ eneg ds l Hat3 H3 He). cbn [bind].
      rewrite !length_app. cbn [length]. rewrite length_app. cbn [length].
      do 2 f_equal; lia.
    + cbn [app] in Hat3. rewrite (scan_exponent_stops s _ l Hat3 He). cbn [bind].
      rewrite !length_app. cbn [length]. rewrite app_nil_r.
      do 2 f_equal; lia.
  - cbn [num_tail app] in Hat1 |- *. destruct ex as [[eneg ds]|].
    + cbn [app] in Hat1. rewrite (at_pos_peek _ _ _ _ Hat1). cbn [bind Z.eqb Pos.eqb].
      destruct (Hn 0%nat) as (k & ->).
      rewrite (scan_exponent_digits s _ eneg ds l Hat1 H3 He). cbn [bind].
      rewrite !length_app. cbn [length digits_value fold_left].
      do 2 f_equal; lia.
    + cbn [app] in Hat1.
      destruct (peek_stops s _ l Hat1 He) as (c & Hc & Hstop). rewrite Hc. cbn [bind].
      destruct (stop_char_facts c Hstop) as (_ & -> & _ & _).
      cbn [bind]. destruct (Hn 0%nat) as (k & ->).
      rewrite (scan_exponent_stops s _ l Hat1 He). cbn [bind].
      rewrite app_nil_r. cbn [length digits_value fold_left]. reflexivity.
Qed.

Lemma strtod_stops s i neg d1 d2 ex l :
  num_shape neg d1 d2 ex -> at_pos s i (num_text neg d1 d2 ex ++ l) -> stops l ->
  strtod s i = Ok (num_value neg d1 d2 ex, (i + length (num_text neg d1 d2 ex))%nat).
Proof.
  intros Hshape Hat He. pose proof Hshape as ((Hd1 & Hn1) & _).
  rewrite num_text_tail in *. rewrite <- !app_assoc in Hat.
  destruct d1 as [|c1 d1]; [contradiction|].
  inversion Hd1 as [|? ? Hc1 Hd1']; subst.
  destruct (digit_facts c1 Hc1) as (Hlow & Hi & Hn & Hx & Hm & Hp & Hdot & Hz).
  assert (Hpre : forall j, at_pos s j ((c1 :: d1) ++ num_tail d2 ex ++ l) ->
            (let* inf := match_ci s j [105; 110; 102] in
             if inf then
               let* inity := match_ci s (j + 3) [105; 110; 105; 116; 121] in
               Ok (S754_infinity neg, if inity then (j + 8)%nat else (j + 3)%nat)
             else
               let* nan := match_ci s j [110; 97; 110] in
               if nan then
                 let* e := nan_end s (j + 3) in
                 Ok (S754_nan, e)
               else
                 let* hex := match_ci s j [48; 120] in
                 if hex then
                   let* h := strtod_hex s neg (j + 2) in
                   match h with
                   | Some r => Ok r
                   | None => Ok (S754_zero neg, S j)
                   end
                 else strtod_decimal s neg i j)
            = strtod_decimal s neg i j).
  { intros j Hj. cbn [app] in Hj. cbn [match_ci].
    rewrite (at_pos_peek _ _ _ _ Hj). cbn [bind]. rewrite Hlow.
    destruct (Z.eqb_spec c1 105); [contradiction|]. cbn [bind].
    destruct (Z.eqb_spec c1 110); [contradiction|]. cbn [bind].
    destruct (Z.eqb_spec c1 48) as [->|]; [|reflexivity].
    pose proof (at_pos_next _ _ _ _ Hj) as Hj1.
    assert (Hc2 : exists c2, peek s (S j) = Ok c2 /\ lower c2 <> 120).
    { destruct d1 as [|c2 d1].
      - cbn [app] in Hj1.
        destruct (num_tail_next d2 ex l s (S j) He Hj1) as (c2 & Hc2 & _ & Hx2). eauto.
      - inversion Hd1' as [|? ? Hc2 _]; subst.
        cbn [app] in Hj1. rewrite (at_pos_peek _ _ _ _ Hj1). eexists; split; [reflexivity|].
        destruct (digit_facts c2 Hc2) as (-> & _ & _ & ? & _). assumption. }
    destruct Hc2 as (c2 & -> & Hc2). cbn [bind].
    destruct (Z.eqb_spec (lower c2) 120); [contradiction|]. reflexivity. }
  unfold strtod. destruct neg.
  - cbn [app] in Hat. rewrite (at_pos_peek _ _ _ _ Hat). cbn [bind Z.eqb Pos.eqb orb].
    pose proof (at_pos_next _ _ _ _ Hat) as Hat1.
    rewrite (Hpre (S i) Hat1).
    rewrite (strtod_decimal_stops s true i (S i) (c1 :: d1) d2 ex l Hshape Hat1 He).
    cbn [app length]. do 2 f_equal; lia.
  - cbn [app] in Hat. rewrite (at_pos_peek _ _ _ _ Hat). cbn [bind].
    destruct (Z.eqb_spec c1 45); [contradiction|].
    destruct (Z.eqb_spec c1 43); [contradiction|]. cbn [orb].
    rewrite (Hpre i Hat).
    now rewrite (strtod_decimal_stops s false i i (c1 :: d1) d2 ex l Hshape Hat He).
Qed.

(** A finite number is read back whole wherever its rendering stands before
    a separator or a blank. *)
Lemma strtod_printed_stops d s i l :
  is_finite d = true -> at_pos s i (print_number d ++ l) -> stops l ->
  strtod s i = Ok (reread d, (i + length (print_number d))%nat).
Proof.
  intros Hfin Hat He.
  destruct (print_number_shape d Hfin) as (neg & d1 & d2 & ex & Htxt & Hshape).
  unfold reread. rewrite Htxt in *.
  rewrite (strtod_shape (num_text neg d1 d2 ex) 0 neg d1 d2 ex []);
    [|exact Hshape|rewrite app_nil_r; apply at_pos_start|exact I].
  now apply (strtod_stops s i neg d1 d2 ex l).
Qed.

(** ** Reading a value wherever it stands *)

(** [reads pv j t]: the value parser [pv] reads the text [t], wherever it
    stands before a separator or a blank, into the node of the requantized
    value [j]. *)
Definition reads (pv : cJSON -> text -> nat -> outcome (cJSON * nat)) (j : json) (t : text)
  : Prop :=
  forall k ty s i l,
    at_pos s i (t ++ l) -> stops l ->
    pv (blank k ty) s i = Ok (node_of k (requantize j), (i + length t)%nat).

(** The text starts with a character above the space that closes no
    container. *)
Definition headed (t : text) : Prop :=
  match t with
  | [] => False
  | c :: _ => 32 < c /\ c <> 93 /\ c <> 125
  end.

Lemma headed_visible t l : headed t -> visible (t ++ l).
Proof. destruct t as [|c t]; [contradiction|]. cbn. lia. Qed.

Lemma skip_blanks s i b l :
  at_pos s i (b ++ l) -> Forall is_blank b -> visible l ->
  skip s i = Ok (i + length b)%nat.
Proof.
  intros Hat Hb Hv. unfold skip.
  apply (skip_loop_blank b _ s i l Hat Hb); [destruct l; exact Hv|].
  apply at_pos_length in Hat. rewrite length_app in Hat. lia.
Qed.

Lemma stops_blanks b l : Forall is_blank b -> ends_value l -> stops (b ++ l).
Proof.
  intros Hb He. destruct b as [|c b]; cbn [app stops].
  - destruct l as [|c l]; [exact I|]. cbn [ends_value stops] in *. tauto.
  - apply Forall_cons in Hb as [Hc _]. auto.
Qed.

Lemma parse_value_scalar_stops fuel (j : json) :
  match j with JArray _ | JObject _ => False | _ => True end ->
  strings_ok j -> numbers_finite j -> reads (parse_value (S fuel)) j (compact j).
Proof.
  intros Hscalar Hs Hf k t s i l Hat He.
  destruct j as [| | |d|str|items|members]; try contradiction;
    cbn [compact requantize node_of] in *.
  - cbn [parse_value]. rewrite (starts_with_lit lit_null s i l Hat). reflexivity.
  - cbn [parse_value].
    rewrite (starts_with_other s i 102 _ lit_null Hat) by (cbn; lia). cbn [bind].
    rewrite (starts_with_lit lit_false s i l Hat). reflexivity.
  - cbn [parse_value].
    rewrite (starts_with_other s i 116 _ lit_null Hat) by (cbn; lia). cbn [bind].
    rewrite (starts_with_other s i 116 _ lit_false Hat) by (cbn; lia). cbn [bind].
    rewrite (starts_with_lit lit_true s i l Hat). reflexivity.
  - cbn [numbers_finite] in Hf.
    destruct (compact_head (JNumber d) Hf) as (c & r & Hhead & Hc).
    cbn [compact starts] in Hhead, Hc.
    pose proof Hat as Hat'. rewrite Hhead in Hat'. cbn [app] in Hat'.
    assert (Hc' : c <> 110 /\ c <> 102 /\ c <> 116 /\ c <> 34).
    { destruct Hc as [->|Hc]; [lia|]. apply is_digit_range in Hc. lia. }
    cbn [parse_value].
    rewrite (starts_with_other s i c _ lit_null Hat') by (cbn; lia). cbn [bind].
    rewrite (starts_with_other s i c _ lit_false Hat') by (cbn; lia). cbn [bind].
    rewrite (starts_with_other s i c _ lit_true Hat') by (cbn; lia). cbn [bind].
    rewrite (at_pos_peek _ _ _ _ Hat'). cbn [bind].
    destruct (Z.eqb_spec c 34); [lia|].
    assert (Hd : (c =? 45) || ((48 <=? c) && (c <=? 57)) = true).
    { destruct Hc as [->|Hc]; [reflexivity|]. unfold is_digit in Hc. rewrite Hc.
      apply orb_true_r. }
    rewrite Hd. unfold parse_number.
    rewrite (strtod_printed_stops d s i l Hf Hat He). cbn [bind].
    rewrite Hhead. cbn [length].
    destruct (Nat.eqb_spec i (i + S (length r))); [lia|]. reflexivity.
  - cbn [strings_ok] in Hs.
    destruct (print_string_ptr_head str) as (r & Hhead).
    pose proof Hat as Hat'. rewrite Hhead in Hat'. cbn [app] in Hat'.
    cbn [parse_value].
    rewrite (starts_with_other s i 34 _ lit_null Hat') by (cbn; lia). cbn [bind].
    rewrite (starts_with_other s i 34 _ lit_false Hat') by (cbn; lia). cbn [bind].
    rewrite (starts_with_other s i 34 _ lit_true Hat') by (cbn; lia). cbn [bind].
    rewrite (at_pos_peek _ _ _ _ Hat'). cbn [bind Z.eqb Pos.eqb].
    rewrite (parse_string_printed str s i l Hs Hat). reflexivity.
Qed.

(** ** Arrays *)

(** An element with the blanks before and after it. *)
Record cell := { cell_before : text; cell_value : text; cell_after : text }.

Definition cell_text (c : cell) : text := cell_before c ++ cell_value c ++ cell_after c.

Definition tail_cells (cells : list cell) : text :=
  concat (map (fun c => 44 :: cell_text c) cells).

Lemma sep_by_cells c cells :
  sep_by [44] (map cell_text (c :: cells)) = cell_text c ++ tail_cells cells.
Proof. cbn [map]. rewrite sep_by_cons. unfold tail_cells. now rewrite map_map. Qed.

Lemma length_tail_cells cells : (length cells <= length (tail_cells cells))%nat.
Proof.
  induction cells as [|c cells IH]; [reflexivity|].
  unfold tail_cells in *. cbn [map concat length]. rewrite length_app. cbn [length]. lia.
Qed.

Section Containers.
Variable pv : cJSON -> text -> nat -> outcome (cJSON * nat).

Definition cell_reads (j : json) (c : cell) : Prop :=
  Forall is_blank (cell_before c) /\ Forall is_blank (cell_after c)
  /\ reads pv j (cell_value c) /\ headed (cell_value c).

(** The three steps on an element: the blanks, the value, the blanks. *)
Lemma read_cell j c s i l :
  cell_reads j c -> at_pos s i (cell_text c ++ l) -> ends_value l ->
  skip s i = Ok (i + length (cell_before c))%nat
  /\ (forall k ty, pv (blank k ty) s (i + length (cell_before c))
                   = Ok (node_of k (requantize j),
                         (i + length (cell_before c) + length (cell_value c))%nat))
  /\ skip s (i + length (cell_before c) + length (cell_value c))
     = Ok (i + length (cell_text c))%nat.
Proof.
  intros (Hb & Ha & Hv & Hh) Hat He. unfold cell_text in *.
  rewrite <- !app_assoc in Hat.
  split; [apply (skip_blanks _ _ _ _ Hat Hb), headed_visible, Hh|].
  pose proof (at_pos_app _ _ _ _ Hat) as Hat1.
  split; [intros k ty; apply (Hv k ty s _ _ Hat1), stops_blanks; assumption|].
  pose proof (at_pos_app _ _ _ _ Hat1) as Hat2.
  rewrite (skip_blanks _ _ _ _ Hat2 Ha (ends_value_visible _ He)).
  rewrite !length_app. f_equal. lia.
Qed.

Lemma ends_value_tail_cells cells c l : ends_value (tail_cells cells ++ c :: l) <->
  (cells <> [] \/ c = 44 \/ c = 93 \/ c = 125).
Proof.
  destruct cells as [|c0 cells]; cbn.
  - split; [auto|]. intros [H|H]; [contradiction|exact H].
  - split; [left; discriminate|auto].
Qed.

Lemma parse_array_loop_cells : forall items cells done fuel s i l,
  Forall2 cell_reads items cells ->
  at_pos s i (tail_cells cells ++ 93 :: l) -> (length items < fuel)%nat ->
  parse_array_loop pv fuel s i done
  = Ok (done ++ map (fun j => node_of None (requantize j)) items,
        S (i + length (tail_cells cells))).
Proof.
  induction items as [|j items IH]; intros cells done fuel s i l Hok Hat Hfuel;
    (destruct fuel as [|fuel]; [cbn [length] in Hfuel; lia|]); cbn [parse_array_loop];
    inversion Hok as [|? c ? cells' Hc Hok']; subst.
  - cbn [tail_cells map concat app] in Hat. rewrite (at_pos_peek _ _ _ _ Hat).
    cbn [bind Z.eqb Pos.eqb map length tail_cells concat].
    now rewrite app_nil_r, Nat.add_0_r.
  - unfold tail_cells in Hat. cbn [map concat app] in Hat. rewrite <- app_assoc in Hat.
    fold (tail_cells cells') in Hat.
    rewrite (at_pos_peek _ _ _ _ Hat). cbn [bind Z.eqb Pos.eqb].
    pose proof (at_pos_next _ _ _ _ Hat) as Hat1.
    assert (He : ends_value (tail_cells cells' ++ 93 :: l))
      by (apply ends_value_tail_cells; auto).
    destruct (read_cell j c s (S i) _ Hc Hat1 He) as (E1 & E2 & E3).
    rewrite E1. cbn [bind]. change cJSON_New_Item with (blank None cJSON_Invalid).
    rewrite E2. cbn [bind]. rewrite E3. cbn [bind].
    pose proof (at_pos_app _ _ _ _ Hat1) as Hat2.
    rewrite (IH _ _ fuel s _ l Hok' Hat2) by (cbn [length] in Hfuel; lia).
    rewrite <- app_assoc. cbn [app map].
    unfold tail_cells. cbn [map concat length]. rewrite length_app.
    do 2 f_equal. cbn [length]. lia.
Qed.

Lemma parse_array_empty b : Forall is_blank b -> reads (parse_array pv) (JArray []) (91 :: b ++ [93]).
Proof.
  intros Hb k t s i l Hat He. cbn [app] in Hat.
  unfold parse_array. rewrite (at_pos_peek _ _ _ _ Hat). cbn [bind Z.eqb Pos.eqb negb].
  pose proof (at_pos_next _ _ _ _ Hat) as Hat1. rewrite <- app_assoc in Hat1.
  rewrite (skip_blanks _ _ _ _ Hat1 Hb ltac:(cbn; lia)). cbn [bind].
  pose proof (at_pos_app _ _ _ _ Hat1) as Hat2. cbn [app] in Hat2.
  rewrite (at_pos_peek _ _ _ _ Hat2). cbn [bind Z.eqb Pos.eqb set_type blank].
  cbn [requantize map node_of length]. rewrite length_app. cbn [length].
  do 2 f_equal. lia.
Qed.

Lemma parse_array_cells j items cells :
  Forall2 cell_reads (j :: items) cells ->
  reads (parse_array pv) (JArray (j :: items)) (91 :: sep_by [44] (map cell_text cells) ++ [93]).
Proof.
  intros Hok k t s i l Hat He. cbn [app] in Hat.
  inversion Hok as [|? c ? cells' Hc Hok']; subst.
  pose proof (at_pos_length _ _ _ Hat) as Hlen.
  unfold parse_array. rewrite (at_pos_peek _ _ _ _ Hat). cbn [bind Z.eqb Pos.eqb negb].
  pose proof (at_pos_next _ _ _ _ Hat) as Hat1.
  rewrite sep_by_cells in *. rewrite <- !app_assoc in Hat1. cbn [app] in Hat1.
  assert (He' : ends_value (tail_cells cells' ++ 93 :: l))
    by (apply ends_value_tail_cells; auto).
  destruct (read_cell j c s (S i) _ Hc Hat1 He') as (E1 & E2 & E3).
  rewrite E1. cbn [bind].
  destruct Hc as (Hb & Ha & Hv & Hh).
  unfold cell_text in Hat1. rewrite <- !app_assoc in Hat1.
  pose proof (at_pos_app _ _ _ _ Hat1) as Hat2.
  destruct (cell_value c) as [|c0 r] eqn:Hval; [contradiction|]. cbn [headed] in Hh.
  pose proof Hat2 as Hat2'. cbn [app] in Hat2'.
  rewrite (at_pos_peek _ _ _ _ Hat2'). cbn [bind].
  destruct (Z.eqb_spec c0 93); [lia|].
  rewrite (skip_visible _ _ _ Hat2 ltac:(cbn; lia)). cbn [bind].
  change cJSON_New_Item with (blank None cJSON_Invalid).
  rewrite E2. cbn [bind]. rewrite E3. cbn [bind].
  assert (Hat3 : at_pos s (S i + length (cell_text c)) (tail_cells cells' ++ 93 :: l)).
  { pose proof (at_pos_next _ _ _ _ Hat) as H. rewrite <- !app_assoc in H.
    apply (at_pos_app _ _ _ _ H). }
  pose proof (Forall2_length _ _ _ Hok') as Hlen'.
  rewrite (parse_array_loop_cells items cells' _ (S (length s)) s _ l Hok' Hat3).
  2:{ cbn [length] in Hlen. rewrite !length_app in Hlen.
      pose proof (length_tail_cells cells'). lia. }
  cbn [bind]. f_equal. f_equal.
  + cbn [set_type set_child blank requantize node_of map app]. now rewrite map_map.
  + cbn [length]. rewrite !length_app. cbn [length]. lia.
Qed.

(** ** Objects *)

(** A member with the blanks around its key, colon and value. *)
Record mcell := {
  key_before : text;
  key_text : text;
  key_after : text;
  colon_after : text;
  member_value : text;
  value_after : text
}.

Definition mcell_text (c : mcell) : text :=
  key_before c ++ key_text c ++ key_after c ++ 58 :: colon_after c
    ++ member_value c ++ value_after c.

Definition tail_mcells (cells : list mcell) : text :=
  concat (map (fun c => 44 :: mcell_text c) cells).

Lemma sep_by_mcells c cells :
  sep_by [44] (map mcell_text (c :: cells)) = mcell_text c ++ tail_mcells cells.
Proof. cbn [map]. rewrite sep_by_cons. unfold tail_mcells. now rewrite map_map. Qed.

Lemma length_tail_mcells cells : (length cells <= length (tail_mcells cells))%nat.
Proof.
  induction cells as [|c cells IH]; [reflexivity|].
  unfold tail_mcells in *. cbn [map concat length]. rewrite length_app. cbn [length]. lia.
Qed.

Definition mcell_reads (m : text * json) (c : mcell) : Prop :=
  Forall is_blank (key_before c) /\ Forall is_blank (key_after c)
  /\ Forall is_blank (colon_after c) /\ Forall is_blank (value_after c)
  /\ key_text c = print_string_ptr (Some (fst m)) /\ cstr (fst m)
  /\ reads pv (snd m) (member_value c) /\ headed (member_value c).

Lemma parse_member_cells m c s i l :
  mcell_reads m c -> at_pos s i (mcell_text c ++ l) -> ends_value l ->
  parse_member pv cJSON_New_Item s i
  = Ok (node_of (Some (fst m)) (requantize (snd m)), (i + length (mcell_text c))%nat).
Proof.
  intros (Hb1 & Hb2 & Hb3 & Hb4 & Hkey & Hcstr & Hv & Hh) Hat He.
  destruct m as (key & v). cbn [fst snd] in *.
  unfold mcell_text in *. rewrite Hkey in *. rewrite <- !app_assoc in Hat. cbn [app] in Hat.
  rewrite <- !app_assoc in Hat.
  unfold parse_member.
  destruct (print_string_ptr_head key) as (r & Hhead).
  rewrite (skip_blanks _ _ _ _ Hat Hb1) by (rewrite Hhead; cbn; lia). cbn [bind].
  pose proof (at_pos_app _ _ _ _ Hat) as Hat1.
  rewrite (parse_string_printed key s _ _ Hcstr Hat1). cbn [bind].
  pose proof (at_pos_app _ _ _ _ Hat1) as Hat2.
  rewrite (skip_blanks _ _ _ _ Hat2 Hb2) by (cbn; lia). cbn [bind].
  pose proof (at_pos_app _ _ _ _ Hat2) as Hat3.
  rewrite (at_pos_peek _ _ _ _ Hat3). cbn [bind Z.eqb Pos.eqb negb].
  pose proof (at_pos_next _ _ _ _ Hat3) as Hat4.
  rewrite (skip_blanks _ _ _ _ Hat4 Hb3 (headed_visible _ _ Hh)). cbn [bind].
  pose proof (at_pos_app _ _ _ _ Hat4) as Hat5.
  change (set_name (Some key) (set_string None (set_type cJSON_String cJSON_New_Item)))
    with (blank (Some key) cJSON_String).
  rewrite (Hv (Some key) cJSON_String s _ _ Hat5 (stops_blanks _ _ Hb4 He)). cbn [bind].
  pose proof (at_pos_app _ _ _ _ Hat5) as Hat6.
  rewrite (skip_blanks _ _ _ _ Hat6 Hb4 (ends_value_visible _ He)). cbn [bind].
  rewrite !length_app. cbn [length]. rewrite !length_app. do 2 f_equal. lia.
Qed.

Lemma ends_value_tail_mcells cells c l : ends_value (tail_mcells cells ++ c :: l) <->
  (cells <> [] \/ c = 44 \/ c = 93 \/ c = 125).
Proof.
  destruct cells as [|c0 cells]; cbn.
  - split; [auto|]. intros [H|H]; [contradiction|exact H].
  - split; [left; discriminate|auto].
Qed.

Lemma parse_object_loop_cells : forall members cells done fuel s i l,
  Forall2 mcell_reads members cells ->
  at_pos s i (tail_mcells cells ++ 125 :: l) -> (length members < fuel)%nat ->
  parse_object_loop pv fuel s i done
  = Ok (done ++ map (fun m => node_of (Some (fst m)) (requantize (snd m))) members,
        S (i + length (tail_mcells cells))).
Proof.
  induction members as [|m members IH]; intros cells done fuel s i l Hok Hat Hfuel;
    (destruct fuel as [|fuel]; [cbn [length] in Hfuel; lia|]); cbn [parse_object_loop];
    inversion Hok as [|? c ? cells' Hc Hok']; subst.
  - cbn [tail_mcells map concat app] in Hat. rewrite (at_pos_peek _ _ _ _ Hat).
    cbn [bind Z.eqb Pos.eqb map length tail_mcells concat].
    now rewrite app_nil_r, Nat.add_0_r.
  - unfold tail_mcells in Hat. cbn [map concat app] in Hat. rewrite <- app_assoc in Hat.
    fold (tail_mcells cells') in Hat.
    rewrite (at_pos_peek _ _ _ _ Hat). cbn [bind Z.eqb Pos.eqb].
    pose proof (at_pos_next _ _ _ _ Hat) as Hat1.
    assert (He : ends_value (tail_mcells cells' ++ 125 :: l))
      by (apply ends_value_tail_mcells; auto).
    rewrite (parse_member_cells m c s (S i) _ Hc Hat1 He). cbn [bind].
    pose proof (at_pos_app _ _ _ _ Hat1) as Hat2.
    rewrite (IH _ _ fuel s _ l Hok' Hat2) by (cbn [length] in Hfuel; lia).
    rewrite <- app_assoc. cbn [app map].
    unfold tail_mcells. cbn [map concat length]. rewrite length_app.
    do 2 f_equal. cbn [length]. lia.
Qed.

Lemma parse_object_empty b :
  Forall is_blank b -> reads (parse_object pv) (JObject []) (123 :: b ++ [125]).
Proof.
  intros Hb k t s i l Hat He. cbn [app] in Hat.
  unfold parse_object. rewrite (at_pos_peek _ _ _ _ Hat). cbn [bind Z.eqb Pos.eqb negb].
  pose proof (at_pos_next _ _ _ _ Hat) as Hat1. rewrite <- app_assoc in Hat1.
  rewrite (skip_blanks _ _ _ _ Hat1 Hb ltac:(cbn; lia)). cbn [bind].
  pose proof (at_pos_app _ _ _ _ Hat1) as Hat2. cbn [app] in Hat2.
  rewrite (at_pos_peek _ _ _ _ Hat2). cbn [bind Z.eqb Pos.eqb set_type blank].
  cbn [requantize map node_of length]. rewrite length_app. cbn [length].
  do 2 f_equal. lia.
Qed.

Lemma parse_object_cells m members cells :
  Forall2 mcell_reads (m :: members) cells ->
  reads (parse_object pv) (JObject (m :: members))
        (123 :: sep_by [44] (map mcell_text cells) ++ [125]).
Proof.
  intros Hok k t s i l Hat He. cbn [app] in Hat.
  inversion Hok as [|? c ? cells' Hc Hok']; subst.
  pose proof (at_pos_length _ _ _ Hat) as Hlen.
  unfold parse_object. rewrite (at_pos_peek _ _ _ _ Hat). cbn [bind Z.eqb Pos.eqb negb].
  pose proof (at_pos_next _ _ _ _ Hat) as Hat1.
  rewrite sep_by_mcells in *. rewrite <- !app_assoc in Hat1. cbn [app] in Hat1.
  assert (He' : ends_value (tail_mcells cells' ++ 125 :: l))
    by (apply ends_value_tail_mcells; auto).
  (* the blanks before the first key are skipped by the object itself *)
  set (c' := {| key_before := []; key_text := key_text c; key_after := key_after c;
                colon_after := colon_after c; member_value := member_value c;
                value_after := value_after c |}).
  assert (Hc' : mcell_reads m c').
  { destruct Hc as (Hb1 & Hrest). split; [constructor|exact Hrest]. }
  assert (Htext : mcell_text c = key_before c ++ mcell_text c') by reflexivity.
  destruct Hc as (Hb1 & _ & _ & _ & Hkey & _).
  rewrite Htext in Hat1. rewrite <- app_assoc in Hat1.
  destruct (print_string_ptr_head (fst m)) as (r & Hhead).
  assert (Hhd : exists rest, mcell_text c' ++ tail_mcells cells' ++ 125 :: l = 34 :: rest).
  { unfold mcell_text, c'. cbn [key_before key_text app]. rewrite Hkey, Hhead.
    cbn [app]. eauto. }
  destruct Hhd as (rest & Hhd).
  rewrite (skip_blanks _ _ _ _ Hat1 Hb1) by (rewrite Hhd; cbn; lia). cbn [bind].
  pose proof (at_pos_app _ _ _ _ Hat1) as Hat2.
  pose proof Hat2 as Hat2'. rewrite Hhd in Hat2'.
  rewrite (at_pos_peek _ _ _ _ Hat2'). cbn [bind Z.eqb Pos.eqb].
  rewrite (parse_member_cells m c' s _ _ Hc' Hat2 He'). cbn [bind].
  pose proof (at_pos_app _ _ _ _ Hat2) as Hat3.
  rewrite (parse_object_loop_cells members cells' _ (S (length s)) s _ l Hok' Hat3).
  2:{ cbn [length] in Hlen. rewrite !length_app in Hlen.
      pose proof (length_tail_mcells cells'). pose proof (Forall2_length _ _ _ Hok'). lia. }
  cbn [bind]. f_equal. f_equal.
  + cbn [set_type set_child blank requantize node_of map app fst snd].
    now rewrite map_map.
  + rewrite Htext. cbn [length]. rewrite !length_app. cbn [length]. lia.
Qed.

End Containers.

(** ** Loosely spaced text *)

Definition mcell_blank (c : mcell) : Prop :=
  Forall is_blank (key_before c) /\ Forall is_blank (key_after c)
  /\ Forall is_blank (colon_after c) /\ Forall is_blank (value_after c).

(** [loose j t]: [t] is made of the tokens of the compact text of [j], in
    order, with any number of blanks (bytes from 1 to 32) between
    them. *)
#[warnings="-register-all"]
Inductive loose : json -> text -> Prop :=
| loose_null : loose JNull lit_null
| loose_false : loose JFalse lit_false
| loose_true : loose JTrue lit_true
| loose_number d : loose (JNumber d) (print_number d)
| loose_string str : loose (JString str) (print_string_ptr (Some str))
| loose_array_nil b : Forall is_blank b -> loose (JArray []) (91 :: b ++ [93])
| loose_array j items cells :
    Forall2 (fun j c => Forall is_blank (cell_before c) /\ Forall is_blank (cell_after c)
                        /\ loose j (cell_value c)) (j :: items) cells ->
    loose (JArray (j :: items)) (91 :: sep_by [44] (map cell_text cells) ++ [93])
| loose_object_nil b : Forall is_blank b -> loose (JObject []) (123 :: b ++ [125])
| loose_object m members cells :
    Forall2 (fun m c => mcell_blank c /\ key_text c = print_string_ptr (Some (fst m))
                        /\ loose (snd m) (member_value c)) (m :: members) cells ->
    loose (JObject (m :: members)) (123 :: sep_by [44] (map mcell_text cells) ++ [125]).

Lemma loose_headed j t : numbers_finite j -> loose j t -> headed t.
Proof.
  intros Hf H. destruct H; try (cbn; lia).
  - destruct (compact_head (JNumber d) Hf) as (c & r & Hhead & Hc).
    cbn [compact] in Hhead. rewrite Hhead. apply starts_visible in Hc. cbn. lia.
  - destruct (print_string_ptr_head str) as (r & ->). cbn. lia.
Qed.

Lemma reads_container fuel (pa : cJSON -> text -> nat -> outcome (cJSON * nat))
  (c : Z) (j : json) (t : text) :
  (c = 91 /\ pa = parse_array (parse_value fuel)
   \/ c = 123 /\ pa = parse_object (parse_value fuel)) ->
  (exists r, t = c :: r) -> reads pa j t -> reads (parse_value (S fuel)) j t.
Proof.
  intros Hc (r & Hhead) Hpa k ty s i l Hat He.
  pose proof Hat as Hat'. rewrite Hhead in Hat'. cbn [app] in Hat'.
  cbn [parse_value].
  rewrite (starts_with_other s i c _ lit_null Hat') by (cbn; lia). cbn [bind].
  rewrite (starts_with_other s i c _ lit_false Hat') by (cbn; lia). cbn [bind].
  rewrite (starts_with_other s i c _ lit_true Hat') by (cbn; lia). cbn [bind].
  rewrite (at_pos_peek _ _ _ _ Hat'). cbn [bind].
  destruct Hc as [(-> & ->)|(-> & ->)]; cbn [Z.eqb Pos.eqb Z.leb Z.compare Pos.compare
    Pos.compare_cont andb orb]; exact (Hpa k ty s i l Hat He).
Qed.

Definition reads_any (j : json) : Prop :=
  forall fuel t,
    strings_ok j -> numbers_finite j -> (depth_of j < fuel)%nat -> loose j t ->
    reads (parse_value fuel) j t.

Lemma cells_read fuel : forall js cells,
  Forall2 (fun j c => Forall is_blank (cell_before c) /\ Forall is_blank (cell_after c)
                      /\ loose j (cell_value c)) js cells ->
  Forall reads_any js -> Forall strings_ok js -> Forall numbers_finite js ->
  Forall (fun j => (depth_of j < fuel)%nat) js ->
  Forall2 (cell_reads (parse_value fuel)) js cells.
Proof.
  induction 1 as [|j c js cells (Hb & Ha & Hv) _ IHc]; intros IH Hs Hf Hd;
    [constructor|].
  apply Forall_cons in IH as [IH1 IH2]. apply Forall_cons in Hs as [Hs1 Hs2].
  apply Forall_cons in Hf as [Hf1 Hf2]. apply Forall_cons in Hd as [Hd1 Hd2].
  constructor; [|now apply IHc].
  split; [exact Hb|]. split; [exact Ha|]. split; [now apply IH1|].
  exact (loose_headed _ _ Hf1 Hv).
Qed.

Lemma mcells_read fuel : forall (ms : list (text * json)) cells,
  Forall2 (fun m c => mcell_blank c /\ key_text c = print_string_ptr (Some (fst m))
                      /\ loose (snd m) (member_value c)) ms cells ->
  Forall (fun m => reads_any (snd m)) ms ->
  Forall (fun m => cstr (fst m) /\ strings_ok (snd m)) ms ->
  Forall (fun m => numbers_finite (snd m)) ms ->
  Forall (fun m => (depth_of (snd m) < fuel)%nat) ms ->
  Forall2 (mcell_reads (parse_value fuel)) ms cells.
Proof.
  induction 1 as [|m c ms cells ((Hb1 & Hb2 & Hb3 & Hb4) & Hkey & Hv) _ IHc];
    intros IH Hs Hf Hd; [constructor|].
  apply Forall_cons in IH as [IH1 IH2]. apply Forall_cons in Hs as [[Hk1 Hs1] Hs2].
  apply Forall_cons in Hf as [Hf1 Hf2]. apply Forall_cons in Hd as [Hd1 Hd2].
  constructor; [|now apply IHc].
  unfold mcell_reads. repeat (split; [assumption|]).
  split; [now apply IH1|]. exact (loose_headed _ _ Hf1 Hv).
Qed.

(** The value parser on loosely spaced text. *)
Lemma parse_loose (j : json) : reads_any j.
Proof.
  unfold reads_any.
  induction j as [| | |d|str|items IH|members IH] using json_induction;
    intros fuel t Hs Hf Hd Hl; (destruct fuel as [|fuel]; [lia|]).
  - inversion Hl; subst. now apply (parse_value_scalar_stops fuel JNull).
  - inversion Hl; subst. now apply (parse_value_scalar_stops fuel JFalse).
  - inversion Hl; subst. now apply (parse_value_scalar_stops fuel JTrue).
  - inversion Hl; subst. now apply (parse_value_scalar_stops fuel (JNumber d)).
  - inversion Hl; subst. now apply (parse_value_scalar_stops fuel (JString str)).
  - apply strings_ok_array in Hs. apply numbers_finite_array in Hf.
    cbn [depth_of] in Hd. apply Nat.succ_lt_mono in Hd. apply depth_items in Hd.
    inversion Hl as [| | | | |b Hb|j items' cells Hcells| |]; subst.
    + apply (reads_container fuel (parse_array (parse_value fuel)) 91);
        [now left|cbn [app]; eauto|]. now apply parse_array_empty.
    + apply (reads_container fuel (parse_array (parse_value fuel)) 91);
        [now left|cbn [app]; eauto|]. apply parse_array_cells.
      now apply cells_read.
  - apply strings_ok_object in Hs. apply numbers_finite_object in Hf.
    cbn [depth_of] in Hd. apply Nat.succ_lt_mono in Hd. apply depth_members in Hd.
    inversion Hl as [| | | | | | |b Hb|m members' cells Hcells]; subst.
    + apply (reads_container fuel (parse_object (parse_value fuel)) 123);
        [now right|cbn [app]; eauto|]. now apply parse_object_empty.
    + apply (reads_container fuel (parse_object (parse_value fuel)) 123);
        [now right|cbn [app]; eauto|]. apply parse_object_cells.
      now apply mcells_read.
Qed.

(** ** Nesting depth and length *)

Lemma length_concat_sep_by (xs : list text) :
  (length (concat xs) <= length (sep_by [44%Z] xs))%nat.
Proof.
  destruct xs as [|x xs]; [reflexivity|]. rewrite sep_by_cons.
  cbn [concat]. rewrite !length_app. apply Nat.add_le_mono_l.
  induction xs as [|y xs IH]; [reflexivity|].
  cbn [map concat length]. rewrite !length_app. cbn [length]. lia.
Qed.

Lemma depth_concat {A B} (d : A -> nat) (f : B -> text) : forall (js : list A) (cells : list B),
  Forall2 (fun j c => (d j <= length (f c))%nat) js cells ->
  (fold_right (fun i n => Nat.max (d i) n) O js <= length (concat (map f cells)))%nat.
Proof.
  induction 1 as [|j c js cells Hj _ IH]; [reflexivity|].
  cbn [fold_right map concat]. rewrite length_app. lia.
Qed.

Definition depth_bounded (j : json) : Prop :=
  forall t, loose j t -> (depth_of j <= length t)%nat.

Lemma depth_cells : forall js cells,
  Forall2 (fun j c => Forall is_blank (cell_before c) /\ Forall is_blank (cell_after c)
                      /\ loose j (cell_value c)) js cells ->
  Forall depth_bounded js ->
  Forall2 (fun j c => (depth_of j <= length (cell_text c))%nat) js cells.
Proof.
  induction 1 as [|j c js cells (_ & _ & Hv) _ IHc]; intros IH; [constructor|].
  apply Forall_cons in IH as [IH1 IH2]. constructor; [|now apply IHc].
  specialize (IH1 _ Hv). unfold cell_text. rewrite !length_app. lia.
Qed.

Lemma depth_mcells : forall (ms : list (text * json)) cells,
  Forall2 (fun m c => mcell_blank c /\ key_text c = print_string_ptr (Some (fst m))
                      /\ loose (snd m) (member_value c)) ms cells ->
  Forall (fun m => depth_bounded (snd m)) ms ->
  Forall2 (fun (m : text * json) c => (depth_of (snd m) <= length (mcell_text c))%nat)
          ms cells.
Proof.
  induction 1 as [|m c ms cells (_ & _ & Hv) _ IHc]; intros IH; [constructor|].
  apply Forall_cons in IH as [IH1 IH2]. constructor; [|now apply IHc].
  specialize (IH1 _ Hv). unfold mcell_text. rewrite !length_app. cbn [length].
  rewrite !length_app. lia.
Qed.

Lemma loose_depth (j : json) : depth_bounded j.
Proof.
  unfold depth_bounded.
  induction j as [| | |d|str|items IH|members IH] using json_induction;
    intros t Hl; cbn [depth_of]; try lia.
  - inversion Hl as [| | | | |b Hb|j items' cells Hcells| |]; subst.
    + cbn [fold_right length]. lia.
    + cbn [length]. rewrite length_app. cbn [length].
      pose proof (length_concat_sep_by (map cell_text cells)) as Hsep.
      pose proof (depth_concat depth_of cell_text _ _ (depth_cells _ _ Hcells IH)). lia.
  - inversion Hl as [| | | | | | |b Hb|m members' cells Hcells]; subst.
    + cbn [fold_right length]. lia.
    + cbn [length]. rewrite length_app. cbn [length].
      pose proof (length_concat_sep_by (map mcell_text cells)) as Hsep.
      pose proof (depth_concat (fun m : text * json => depth_of (snd m)) mcell_text _ _
                    (depth_mcells _ _ Hcells IH)).
      lia.
Qed.

(** ** The parser on loosely spaced text *)

Lemma parse_of_loose (j : json) (t b0 b1 : text) (st : slots) (rnt : bool) :
  strings_ok j -> numbers_finite j -> loose j t ->
  Forall is_blank b0 -> Forall is_blank b1 ->
  cJSON_ParseWithOpts st (b0 ++ t ++ b1) false rnt
  = Some (Some (node_of None (requantize j)),
          {| global_ep := None; return_parse_end := return_parse_end st |}).
Proof.
  intros Hs Hf Hl Hb0 Hb1. unfold cJSON_ParseWithOpts.
  set (s := b0 ++ t ++ b1).
  assert (Hat : at_pos s 0 (b0 ++ t ++ b1)) by apply at_pos_start.
  pose proof (loose_headed j t Hf Hl) as Hh.
  rewrite (skip_blanks _ _ _ _ Hat Hb0 (headed_visible _ _ Hh)). cbn [bind Nat.add].
  pose proof (at_pos_app _ _ _ _ Hat) as Hat1. cbn [Nat.add] in Hat1.
  change cJSON_New_Item with (blank None cJSON_Invalid).
  assert (Hstop : stops b1).
  { rewrite <- (app_nil_r b1). now apply stops_blanks. }
  rewrite (parse_loose j (S (length s)) t Hs Hf
             ltac:(pose proof (loose_depth j t Hl); unfold s; rewrite !length_app; lia)
             Hl None cJSON_Invalid s _ b1 Hat1 Hstop).
  cbn [store_ep global_ep return_parse_end].
  destruct rnt; [|reflexivity].
  pose proof (at_pos_app _ _ _ _ Hat1) as Hat2.
  rewrite <- (app_nil_r b1) in Hat2.
  rewrite (skip_blanks _ _ _ _ Hat2 Hb1 I).
  replace (length b0 + length t + length b1)%nat with (length s)
    by (unfold s; rewrite !length_app; lia).
  rewrite rd_end. reflexivity.
Qed.

(** X26: blanks (bytes from 1 to 32) put between the tokens of the compact
    text of a value, before it or after it, do not change what the parser
    builds: the text parses to the same tree as the compact text, with or
    without [require_null_terminated], and leaves no error position. *)
Theorem X26_blanks_between_tokens (j : json) (t b0 b1 : text) (st : slots) (rnt : bool) :
  strings_ok j -> numbers_finite j -> loose j t ->
  Forall is_blank b0 -> Forall is_blank b1 ->
  cJSON_ParseWithOpts st (b0 ++ t ++ b1) false rnt
  = cJSON_ParseWithOpts st (compact j) false rnt
  /\ cJSON_ParseWithOpts st (b0 ++ t ++ b1) false rnt
     = Some (Some (node_of None (requantize j)),
             {| global_ep := None; return_parse_end := return_parse_end st |}).
Proof.
  intros Hs Hf Hl Hb0 Hb1.
  rewrite (parse_of_loose j t b0 b1 st rnt Hs Hf Hl Hb0 Hb1).
  rewrite (parse_of_compact j st rnt Hs Hf). split; reflexivity.
Qed.

(** ** Printed text is loosely spaced *)

Lemma collect_Some {A B} (f : A -> option B) : forall (l : list A) (r : list B),
  collect (map f l) = Some r -> Forall2 (fun a b => f a = Some b) l r.
Proof.
  induction l as [|a l IH]; intros r H; cbn [map collect] in H.
  - injection H as <-. constructor.
  - destruct (f a) as [b|] eqn:Ea; [|discriminate].
    destruct (collect (map f l)) as [r'|]; [|discriminate].
    injection H as <-. constructor; auto.
Qed.

Lemma sep_by_concat (sep x : text) (xs : list text) :
  sep_by sep (x :: xs) = x ++ concat (map (fun y => sep ++ y) xs).
Proof.
  revert x. induction xs as [|y xs IH]; intros x.
  - cbn. now rewrite app_nil_r.
  - change (sep_by sep (x :: y :: xs)) with (x ++ sep ++ sep_by sep (y :: xs)).
    rewrite IH. cbn [map concat]. now rewrite <- !app_assoc.
Qed.

(** The elements of a printed array with their blanks: one space after
    each comma in pretty mode. *)
Definition array_cells (fmt : bool) (entries : list text) : list cell :=
  match entries with
  | [] => []
  | e :: es =>
    {| cell_before := []; cell_value := e; cell_after := [] |}
    :: map (fun e => {| cell_before := if fmt then [32] else []; cell_value := e;
                        cell_after := [] |}) es
  end.

Lemma sep_by_array_cells (fmt : bool) (entries : list text) :
  sep_by (44 :: (if fmt then [32] else [])) entries
  = sep_by [44] (map cell_text (array_cells fmt entries)).
Proof.
  destruct entries as [|e es]; [reflexivity|].
  unfold array_cells. rewrite sep_by_cells, sep_by_concat.
  unfold cell_text at 1. cbn [cell_before cell_value cell_after app].
  rewrite app_nil_r. f_equal. unfold tail_cells. rewrite map_map. f_equal.
  apply map_ext. intros a. unfold cell_text. cbn [cell_before cell_value cell_after app].
  now rewrite app_nil_r.
Qed.

Lemma array_cells_loose (fmt : bool) : forall (js : list json) (entries : list text),
  Forall2 loose js entries ->
  Forall2 (fun j c => Forall is_blank (cell_before c) /\ Forall is_blank (cell_after c)
                      /\ loose j (cell_value c)) js (array_cells fmt entries).
Proof.
  intros js entries H. destruct H as [|j e js entries Hj H]; [constructor|].
  unfold array_cells. constructor.
  - cbn [cell_before cell_after cell_value]. repeat split; auto; constructor.
  - induction H as [|j' e' js entries Hj' _ IH]; cbn [map]; constructor; [|exact IH].
    cbn [cell_before cell_after cell_value]. split; [|split; [constructor|exact Hj']].
    destruct fmt; repeat constructor; unfold is_blank; lia.
Qed.

(** The members of a printed object with their blanks: in pretty mode a
    line feed and the tabs of the member's depth before each key, a tab
    after each colon, and a line feed and the tabs of the object's depth
    after the last value. *)
Fixpoint object_cells (fmt : bool) (depth : nat) (names entries : list text) : list mcell :=
  match names, entries with
  | k :: names, e :: entries =>
    {| key_before := (if fmt then [10] else []) ++ (if fmt then repeat 9 (S depth) else []);
       key_text := k;
       key_after := [];
       colon_after := if fmt then [9] else [];
       member_value := e;
       value_after := match entries with
                      | [] => (if fmt then [10] else []) ++ (if fmt then repeat 9 depth else [])
                      | _ => []
                      end |}
    :: object_cells fmt depth names entries
  | _, _ => []
  end.

Lemma object_cells_text (fmt : bool) (depth : nat) : forall (names entries : list text),
  names <> [] -> length names = length entries ->
  (if fmt then [10] else []) ++ BufferedPrint.object_body fmt (S depth) names entries
    ++ (if fmt then repeat 9 depth else [])
  = sep_by [44] (map mcell_text (object_cells fmt depth names entries)).
Proof.
  induction names as [|k names IH]; intros entries Hne Hlen; [contradiction|].
  destruct entries as [|e entries]; [discriminate|]. injection Hlen as Hlen.
  destruct names as [|k' names].
  - destruct entries; [|discriminate].
    cbn [BufferedPrint.object_body object_cells map sep_by].
    unfold mcell_text.
    cbn [key_before key_text key_after colon_after member_value value_after].
    repeat (rewrite <- ?app_assoc; cbn [app]). rewrite ?app_nil_r. reflexivity.
  - destruct entries as [|e' entries]; [discriminate|].
    specialize (IH (e' :: entries) ltac:(discriminate) Hlen).
    change (object_cells fmt depth (k :: k' :: names) (e :: e' :: entries))
      with ({| key_before := (if fmt then [10] else [])
                             ++ (if fmt then repeat 9 (S depth) else []);
               key_text := k; key_after := []; colon_after := if fmt then [9] else [];
               member_value := e; value_after := [] |}
            :: object_cells fmt depth (k' :: names) (e' :: entries)).
    change (BufferedPrint.object_body fmt (S depth) (k :: k' :: names) (e :: e' :: entries))
      with ((if fmt then repeat 9 (S depth) else []) ++ k ++ 58 :: (if fmt then [9] else [])
            ++ e ++ [44] ++ (if fmt then [10] else [])
            ++ BufferedPrint.object_body fmt (S depth) (k' :: names) (e' :: entries)).
    set (rest := object_cells fmt depth (k' :: names) (e' :: entries)) in *.
    assert (Hrest : exists c cs, rest = c :: cs) by (unfold rest; cbn; eauto).
    destruct Hrest as (c & cs & Hrest). rewrite Hrest in *.
    cbn [map].
    change (sep_by [44] (?x :: mcell_text c :: map mcell_text cs))
      with (x ++ [44] ++ sep_by [44] (mcell_text c :: map mcell_text cs)).
    cbn [map] in IH. rewrite <- IH.
    unfold mcell_text.
    cbn [key_before key_text key_after colon_after member_value value_after].
    repeat (rewrite <- ?app_assoc; cbn [app]). rewrite ?app_nil_r. reflexivity.
Qed.

Lemma blank_layout (fmt : bool) (n : nat) :
  Forall is_blank ((if fmt then [10] else []) ++ (if fmt then repeat 9 n else [])).
Proof.
  destruct fmt; [|constructor]. cbn [app]. constructor; [unfold is_blank; lia|].
  induction n; cbn [repeat]; constructor; [unfold is_blank; lia|assumption].
Qed.

Lemma object_cells_loose (fmt : bool) (depth : nat) :
  forall (ms : list (text * json)) (entries : list text),
  Forall2 (fun m e => loose (snd m) e) ms entries ->
  Forall2 (fun m c => mcell_blank c /\ key_text c = print_string_ptr (Some (fst m))
                      /\ loose (snd m) (member_value c))
          ms (object_cells fmt depth (map (fun m => print_string_ptr (Some (fst m))) ms)
                entries).
Proof.
  induction 1 as [|m e ms entries Hm _ IH]; [constructor|].
  cbn [map object_cells]. constructor; [|exact IH].
  cbn [key_text member_value]. split; [|split; [reflexivity|exact Hm]].
  unfold mcell_blank. cbn [key_before key_after colon_after value_after].
  split; [apply blank_layout|]. split; [constructor|].
  split; [destruct fmt; repeat constructor; unfold is_blank; lia|].
  destruct entries; [apply blank_layout|constructor].
Qed.

(** Both printers write loosely spaced text. *)
Lemma print_loose (j : json) : forall k depth fmt out,
  print_value (node_of k j) depth fmt = Some out -> loose j out.
Proof.
  induction j as [| | |d|str|items IH|members IH] using json_induction;
    intros k depth fmt out Hout.
  - injection Hout as <-. constructor.
  - injection Hout as <-. constructor.
  - injection Hout as <-. constructor.
  - injection Hout as <-. constructor.
  - injection Hout as <-. constructor.
  - cbn [node_of print_value] in Hout. unfold print_array_of in Hout.
    rewrite !length_map in Hout.
    destruct items as [|i items].
    + injection Hout as <-. apply (loose_array_nil []). constructor.
    + cbn [length] in Hout.
      destruct (collect _) as [entries|] eqn:Hc; [|discriminate].
      apply collect_Some in Hc.
      pose proof (Forall2_length _ _ _ Hc) as Hlen. rewrite length_map in Hlen.
      rewrite compose_array_layout in Hout by (cbn [length] in *; lia).
      pose proof (f_equal (fun o => match o with Some t => t | None => out end) Hout) as E.
      cbv beta iota in E. subst out. rewrite sep_by_array_cells.
      apply loose_array. apply array_cells_loose.
      clear Hout Hlen. revert Hc IH. generalize (i :: items) as js. intros js Hc IH.
      apply Forall2_fmap_l in Hc.
      induction Hc as [|j0 e js0 es He _ IHc]; [constructor|].
      apply Forall_cons in IH as [IH1 IH2]. constructor; [|now apply IHc].
      exact (IH1 _ _ _ _ He).
  - cbn [node_of print_value] in Hout. unfold print_object_of in Hout.
    rewrite !length_map in Hout.
    destruct members as [|m members].
    + pose proof (f_equal (fun o => match o with Some t => t | None => out end) Hout) as E.
      cbv beta iota in E. subst out. cbn [length].
      replace (123 :: (if fmt then 10 :: repeat 9 depth else []) ++ [125])
        with (123 :: ((if fmt then [10] else []) ++ (if fmt then repeat 9 depth else []))
                ++ [125]) by (destruct fmt; reflexivity).
      apply loose_object_nil, blank_layout.
    + cbn [length] in Hout.
      destruct (collect _) as [entries|] eqn:Hc; [|discriminate].
      apply collect_Some in Hc.
      pose proof (Forall2_length _ _ _ Hc) as Hlen. rewrite length_map in Hlen.
      rewrite BufferedPrint.compose_object_body in Hout
        by (rewrite ?length_map; cbn [length] in *; lia).
      replace (S depth - 1)%nat with depth in Hout by lia.
      pose proof (f_equal (fun o => match o with Some t => t | None => out end) Hout) as E.
      cbv beta iota in E. subst out. clear Hout.
      rewrite map_map in *.
      assert (Hnames : map (fun x => print_string_ptr (name_of (node_of (Some (fst x)) (snd x))))
                           (m :: members)
                       = map (fun m => print_string_ptr (Some (fst m))) (m :: members)).
      { apply map_ext. intros a. now rewrite name_of_node_of. }
      rewrite Hnames.
      set (names := map (fun m => print_string_ptr (Some (fst m))) (m :: members)) in *.
      replace (123 :: (if fmt then [10] else [])
                 ++ BufferedPrint.object_body fmt (S depth) names entries
                 ++ (if fmt then repeat 9 depth else []) ++ [125])
        with (123 :: ((if fmt then [10] else [])
                        ++ BufferedPrint.object_body fmt (S depth) names entries
                        ++ (if fmt then repeat 9 depth else [])) ++ [125])
        by (now rewrite <- !app_assoc).
      rewrite object_cells_text; [|discriminate|unfold names; rewrite length_map; exact Hlen].
      apply loose_object. unfold names. apply object_cells_loose.
      clear Hlen Hnames names. revert Hc IH. generalize (m :: members) as ms. intros ms Hc IH.
      apply Forall2_fmap_l in Hc.
      induction Hc as [|m0 e ms0 es He _ IHc]; [constructor|].
      apply Forall_cons in IH as [IH1 IH2]. constructor; [|now apply IHc].
      exact (IH1 _ _ _ _ He).
Qed.

Lemma X26_blanks_between_tokens_witness :
  cJSON_ParseWithOpts no_error ([32; 10] ++ BufferedPrint.sample_pretty ++ [9]) false true
  = cJSON_ParseWithOpts no_error (compact sample_value) false true
  /\ cJSON_ParseWithOpts no_error ([32; 10] ++ BufferedPrint.sample_pretty ++ [9]) false true
     = Some (Some (node_of None (requantize sample_value)),
             {| global_ep := None; return_parse_end := return_parse_end no_error |}).
Proof.
  apply (X26_blanks_between_tokens sample_value BufferedPrint.sample_pretty [32; 10] [9]
           no_error true).
  - cbn [strings_ok sample_value fold_right fst snd]. unfold cstr.
    repeat first [exact I | split | apply List.Forall_cons | apply List.Forall_nil | lia].
  - cbn [numbers_finite sample_value fold_right fst snd].
    repeat first [exact I | apply conj]. reflexivity.
  - apply (print_loose sample_value None 0%nat true). vm_compute. reflexivity.
  - repeat constructor; unfold is_blank; lia.
  - repeat constructor; unfold is_blank; lia.
Defined.

(** X27: for every tree the parser builds from a C string, provided none of
    its numbers is NaN or an infinity, the pretty rendering exists and
    parses back, leaving no error position, to the same tree as the compact
    rendering does: a tree with the same kinds, keys, string payloads and
    child order, in which each number is the value read back from its own
    rendering. *)
Theorem X27_pretty_round_trip (st st1 : slots) (s : text) (t : cJSON) :
  cstr s -> cJSON_Parse st s = Some (Some t, st1) -> finite_numbers t = true ->
  exists txt ctxt t' st2,
    cJSON_Print t = Some txt
    /\ cJSON_PrintUnformatted t = Some ctxt
    /\ cJSON_Parse st1 txt = Some (Some t', st2)
    /\ cJSON_Parse st1 ctxt = Some (Some t', st2)
    /\ deep_equal t t'
    /\ cJSON_GetErrorPtr st2 = None.
Proof.
  intros Hs Hparse Hfin.
  destruct (parse_builds_value st st1 s false false t Hs Hparse) as (j & -> & Hj).
  apply finite_numbers_node_of in Hfin.
  destruct (MinifyFacts.print_spaced j Hj None 0%nat true) as (txt & Htxt & _).
  pose proof (print_loose j None 0%nat true txt Htxt) as Hl.
  exists txt, (compact j), (node_of None (requantize j)). eexists.
  split; [exact Htxt|]. split; [apply print_value_compact|].
  split.
  { pose proof (parse_of_loose j txt [] [] st1 false Hj Hfin Hl
                  ltac:(constructor) ltac:(constructor)) as H.
    cbn [app] in H. rewrite app_nil_r in H. exact H. }
  split; [apply (parse_of_compact j st1 false Hj Hfin)|].
  split; [apply deep_equal_requantize|reflexivity].
Qed.

Lemma X27_pretty_round_trip_witness :
  exists txt ctxt t' st2,
    cJSON_Print sample_tree = Some txt
    /\ cJSON_PrintUnformatted sample_tree = Some ctxt
    /\ cJSON_Parse no_error txt = Some (Some t', st2)
    /\ cJSON_Parse no_error ctxt = Some (Some t', st2)
    /\ deep_equal sample_tree t'
    /\ cJSON_GetErrorPtr st2 = None.
Proof.
  apply (X27_pretty_round_trip no_error no_error sample_text sample_tree).
  - apply cstrb_cstr. vm_compute. reflexivity.
  - vm_compute. reflexivity.
  - vm_compute. reflexivity.
Defined.

End LooseText.

(** * Inputs that begin no value *)

Module ParseErrors.
Import LooseText.

(** The bytes a value can begin with: the first letters of the literals,
    the quote, the minus sign, the digits and the two opening brackets. *)
Definition begins_value (c : Z) : Prop :=
  c = 110 \/ c = 102 \/ c = 116 \/ c = 34 \/ c = 45 \/ 48 <= c <= 57 \/ c = 91 \/ c = 123.

(** X30: when the input, after its leading blanks, is at its end or at a
    byte above the space that begins no value, the parse returns NULL and
    reports the position of that byte (the position of the terminator for an
    empty or blank input), in the caller's slot when one was given and in
    the global error slot otherwise. *)
Theorem X30_unexpected_first_byte (st : slots) (b rest : text) (given rnt : bool) :
  Forall is_blank b ->
  match rest with [] => True | c :: _ => 32 < c /\ ~ begins_value c end ->
  cJSON_ParseWithOpts st (b ++ rest) given rnt
  = Some (None, store_ep given (Some (length b)) (store_ep given None st)).
Proof.
  intros Hb Hrest. unfold cJSON_ParseWithOpts.
  set (s := b ++ rest).
  assert (Hat : at_pos s 0 (b ++ rest)) by apply at_pos_start.
  assert (Hvis : visible rest) by (destruct rest as [|c r]; [exact I|apply Hrest]).
  rewrite (skip_blanks _ _ _ _ Hat Hb Hvis). cbn [bind Nat.add].
  pose proof (at_pos_app _ _ _ _ Hat) as Hat1. cbn [Nat.add] in Hat1.
  cbn [parse_value].
  destruct rest as [|c r].
  - unfold lit_null, lit_false, lit_true. cbn [starts_with].
    rewrite (at_pos_peek_nil _ _ Hat1). cbn [bind Z.eqb Z.leb Z.compare andb orb].
    reflexivity.
  - destruct Hrest as (Hc & Hnot). unfold begins_value in Hnot.
    rewrite (starts_with_other s _ c r lit_null Hat1) by (cbn; lia). cbn [bind].
    rewrite (starts_with_other s _ c r lit_false Hat1) by (cbn; lia). cbn [bind].
    rewrite (starts_with_other s _ c r lit_true Hat1) by (cbn; lia). cbn [bind].
    rewrite (at_pos_peek _ _ _ _ Hat1). cbn [bind].
    destruct (Z.eqb_spec c 34); [lia|].
    destruct (Z.eqb_spec c 45); [lia|].
    assert (Hdigit : (48 <=? c) && (c <=? 57) = false).
    { destruct (Z.leb_spec 48 c); [|reflexivity].
      destruct (Z.leb_spec c 57); [lia|reflexivity]. }
    rewrite Hdigit. cbn [orb].
    destruct (Z.eqb_spec c 91); [lia|].
    destruct (Z.eqb_spec c 123); [lia|].
    reflexivity.
Qed.

Lemma X30_unexpected_first_byte_witness :
  cJSON_ParseWithOpts no_error ([32; 10] ++ []) false true
  = Some (None, store_ep false (Some (length [32; 10])) (store_ep false None no_error)).
Proof.
  apply (X30_unexpected_first_byte no_error [32; 10] [] false true).
  - repeat constructor; unfold is_blank; lia.
  - exact I.
Defined.

End ParseErrors.
